(** * dat2lta85: the binary world decoder and its scene re-encoder

    A shallow embedding of [dat2lta85.py].  Python integers are [Z], bytes
    objects are [list byte], [str] objects are lists of Unicode code points,
    a binary file handle is a byte list with a cursor, exceptions are the
    [Raise] branch of [res], and the lines printed to the transcript are a
    list of structured events. *)

From Stdlib Require Import ZArith NArith List String Ascii Floats Lia DecimalString.
From Stdlib.Strings Require Import Byte.
From stdpp Require Import base list gmap sorting.
Import ListNotations.
Local Open Scope Z_scope.
Set Warnings "-inexact-float".

(** ** Python values *)

(** The exceptions the modelled code can raise. *)
Inductive exn : Type :=
| StructError          (* struct.unpack on a buffer of the wrong size *)
| ValueError (code : Z) (at_pos : nat)
| UnicodeDecodeError
| IndexError
| KeyError
| TypeError
| OSError.

Inductive res (A : Type) : Type :=
| Ok (a : A)
| Raise (e : exn).
Arguments Ok {A} a.
Arguments Raise {A} e.

Definition is_ok {A} (r : res A) : bool :=
  match r with Ok _ => true | Raise _ => false end.

(** A [str] is its sequence of code points. *)
Abbreviation pystr := (list N).

Definition str (s : string) : pystr :=
  map N_of_ascii (list_ascii_of_string s).

Definition ord (c : N) : Z := Z.of_N c.

Definition pystr_eqb (a b : pystr) : bool := bool_decide (a = b).

(** [str(n)] for an integer, as used inside f-strings. *)
Definition str_of_Z (n : Z) : pystr :=
  match n with
  | Zneg p => str "-" ++ str (NilEmpty.string_of_uint (Pos.to_uint p))
  | _ => str (NilEmpty.string_of_uint (N.to_uint (Z.to_N n)))
  end.

(** Insertion-ordered dictionaries: assigning to a present key keeps its
    position, a new key goes last. *)
Section PyDict.
Context {K V : Type} `{EqDecision K}.

Fixpoint dict_get (d : list (K * V)) (k : K) : option V :=
  match d with
  | [] => None
  | (k', v) :: d' => if decide (k' = k) then Some v else dict_get d' k
  end.

Definition dict_mem (d : list (K * V)) (k : K) : bool :=
  match dict_get d k with Some _ => true | None => false end.

Fixpoint dict_set (d : list (K * V)) (k : K) (v : V) : list (K * V) :=
  match d with
  | [] => [(k, v)]
  | (k', v') :: d' =>
      if decide (k' = k) then (k', v) :: d' else (k', v') :: dict_set d' k v
  end.

Definition dict_keys (d : list (K * V)) : list K := map fst d.
End PyDict.

(** ** Text: case mapping, whitespace, codecs *)

(** Python's case mappings, whitespace test and the two properties that
    [str.lower] consults around a capital sigma are written out for the
    code points below 256; the Unicode tables beyond are a parameter. *)
Class Unicode : Type := {
  upper_hi : N -> list N;
  lower_hi : N -> list N;
  space_hi : N -> bool;
  cased_hi : N -> bool;
  case_ignorable_hi : N -> bool
}.

Module Text.
Section WithTables.
Context `{U : Unicode}.
Local Open Scope N_scope.

(** [ch.upper()]: a string, since some letters upper-case to several. *)
Definition upper_char (c : N) : list N :=
  if (97 <=? c) && (c <=? 122) then [c - 32]
  else if c =? 181 then [924]
  else if c =? 223 then [83; 83]
  else if (224 <=? c) && (c <=? 254) && negb (c =? 247) then [c - 32]
  else if c =? 255 then [376]
  else if c <? 256 then [c]
  else upper_hi c.

Definition lower_char (c : N) : list N :=
  if (65 <=? c) && (c <=? 90) then [c + 32]
  else if (192 <=? c) && (c <=? 222) && negb (c =? 215) then [c + 32]
  else if c <? 256 then [c]
  else lower_hi c.

Definition isspace (c : N) : bool :=
  if ((9 <=? c) && (c <=? 13)) || ((28 <=? c) && (c <=? 32))
     || (c =? 133) || (c =? 160) then true
  else if c <? 256 then false
  else space_hi c.

(** The property Cased: the letters with a case. *)
Definition cased (c : N) : bool :=
  if ((65 <=? c) && (c <=? 90)) || ((97 <=? c) && (c <=? 122))
     || (c =? 170) || (c =? 181) || (c =? 186)
     || ((192 <=? c) && (c <=? 255) && negb (c =? 215) && negb (c =? 247)) then true
  else if c <? 256 then false
  else cased_hi c.

(** The property Case_Ignorable. *)
Definition case_ignorable (c : N) : bool :=
  if (c =? 39) || (c =? 46) || (c =? 58) || (c =? 94) || (c =? 96) || (c =? 168)
     || (c =? 173) || (c =? 175) || (c =? 180) || (c =? 183) || (c =? 184) then true
  else if c <? 256 then false
  else case_ignorable_hi c.

(** The first character of [s] that is not case-ignorable. *)
Fixpoint skip_ignorable (s : pystr) : option N :=
  match s with
  | [] => None
  | c :: s' => if case_ignorable c then skip_ignorable s' else Some c
  end.

(** Whether a capital sigma stands at the end of a word: a cased letter
    before it, case-ignorable characters set aside, and none after it.
    [before] holds the characters before the sigma, the nearest first. *)
Definition final_sigma (before after : pystr) : bool :=
  match skip_ignorable before with
  | Some c =>
      cased c && match skip_ignorable after with
                 | Some c' => negb (cased c')
                 | None => true
                 end
  | None => false
  end.

Definition upper (s : pystr) : pystr := concat (map upper_char s).

(** [s.lower()]: character by character, but for the capital sigma
    (U+03A3), which becomes the final sigma (U+03C2) at the end of a word
    and the small sigma (U+03C3) elsewhere. *)
Fixpoint lower_from (before s : pystr) : pystr :=
  match s with
  | [] => []
  | c :: rest =>
      (if c =? 931 then [if final_sigma before rest then 962 else 963]
       else lower_char c)
      ++ lower_from (c :: before) rest
  end.

Definition lower (s : pystr) : pystr := lower_from [] s.

Fixpoint lstrip (s : pystr) : pystr :=
  match s with
  | [] => []
  | c :: s' => if isspace c then lstrip s' else s
  end.

Definition rstrip (s : pystr) : pystr := rev (lstrip (rev s)).

(** [s.strip()] *)
Definition strip (s : pystr) : pystr := rstrip (lstrip s).

(** [s.startswith(p)] *)
Fixpoint startswith (s p : pystr) : bool :=
  match p, s with
  | [], _ => true
  | _ :: _, [] => false
  | a :: p', b :: s' => (a =? b) && startswith s' p'
  end.
End WithTables.
End Text.

(** The tables that leave every code point from 256 on alone; used to run
    the model on Latin-1 text. *)
Definition latin1_tables : Unicode :=
  {| upper_hi := fun c => [c]; lower_hi := fun c => [c]; space_hi := fun _ => false;
     cased_hi := fun _ => false; case_ignorable_hi := fun _ => false |}.

Module Codec.
Local Open Scope N_scope.

Inductive errors := strict | ignore.

Definition cont (b : byte) : bool :=
  (128 <=? Byte.to_N b) && (Byte.to_N b <=? 191).

(** What one step of the UTF-8 decoder finds at the head of the input:
    a code point and the bytes after it, or a malformed prefix and the
    bytes at which decoding resumes under [ignore]. *)
Inductive step :=
| Char (c : N) (rest : list byte)
| Bad (resume : list byte).

Definition utf8_step (b0 : byte) (rest : list byte) : step :=
  let c0 := Byte.to_N b0 in
  if c0 <? 128 then Char c0 rest
  else if c0 <? 194 then Bad rest                       (* invalid start byte *)
  else if c0 <? 224 then
    match rest with
    | [] => Bad []                                      (* unexpected end *)
    | b1 :: r1 =>
        if cont b1 then Char ((c0 - 192) * 64 + (Byte.to_N b1 - 128)) r1
        else Bad rest
    end
  else if c0 <? 240 then
    match rest with
    | [] => Bad []
    | b1 :: r1 =>
        let c1 := Byte.to_N b1 in
        if negb (cont b1) || ((c0 =? 224) && (c1 <? 160))
           || ((c0 =? 237) && (160 <=? c1)) then Bad rest
        else match r1 with
             | [] => Bad []
             | b2 :: r2 =>
                 if cont b2
                 then Char ((c0 - 224) * 4096 + (c1 - 128) * 64
                            + (Byte.to_N b2 - 128)) r2
                 else Bad r1
             end
    end
  else if c0 <? 245 then
    match rest with
    | [] => Bad []
    | b1 :: r1 =>
        let c1 := Byte.to_N b1 in
        if negb (cont b1) || ((c0 =? 240) && (c1 <? 144))
           || ((c0 =? 244) && (144 <=? c1)) then Bad rest
        else match r1 with
             | [] => Bad []
             | b2 :: r2 =>
                 if negb (cont b2) then Bad r1
                 else match r2 with
                      | [] => Bad []
                      | b3 :: r3 =>
                          if cont b3
                          then Char ((c0 - 240) * 262144 + (c1 - 128) * 4096
                                     + (Byte.to_N b2 - 128) * 64
                                     + (Byte.to_N b3 - 128)) r3
                          else Bad r2
                      end
             end
    end
  else Bad rest.

(** [bs.decode("utf-8", errors=...)], by recursion on a bound on the
    number of remaining bytes (one step consumes at least one). *)
Fixpoint decode_utf8_fuel (n : nat) (e : errors) (bs : list byte) : res pystr :=
  match n, bs with
  | _, [] => Ok []
  | O, _ :: _ => Ok []
  | S n', b0 :: rest =>
      match utf8_step b0 rest with
      | Char c r =>
          match decode_utf8_fuel n' e r with
          | Ok s => Ok (c :: s)
          | Raise x => Raise x
          end
      | Bad r =>
          match e with
          | strict => Raise UnicodeDecodeError
          | ignore => decode_utf8_fuel n' e r
          end
      end
  end.

Definition decode_utf8 (e : errors) (bs : list byte) : res pystr :=
  decode_utf8_fuel (length bs) e bs.

(** [bs.decode("ascii", errors="ignore")] *)
Definition decode_ascii_ignore (bs : list byte) : pystr :=
  List.filter (fun c => c <? 128) (map Byte.to_N bs).
End Codec.

(** ** Decoded values *)

Record Vec3 (A : Type) : Type := mkVec3 { vx : A; vy : A; vz : A }.
Arguments mkVec3 {A} vx vy vz.
Arguments vx {A} v.
Arguments vy {A} v.
Arguments vz {A} v.

Record Quaternion (A : Type) : Type := mkQuat { qx : A; qy : A; qz : A; qw : A }.
Arguments mkQuat {A} qx qy qz qw.

(** A float read with [struct.unpack("<f", ...)], kept as its 32-bit pattern. *)
Abbreviation f32 := Z.

(** The values a property of a world object can take. *)
Inductive pyvalue : Type :=
| VStr (s : pystr)
| VVec3 (v : Vec3 f32)
| VFloat (x : f32)
| VBool (b : bool)
| VQuat (q : Quaternion f32)
| VNone.

(** [isinstance(value, str)] *)
Definition is_str (v : pyvalue) : bool :=
  match v with VStr _ => true | _ => false end.

(** One entry of [keyframer_data_map[key_name]]. *)
Record keyframe : Type := mkKey {
  full_name : pystr;
  key_pos : Vec3 f32;
  rot_deg : Vec3 f32;
  timestamp : f32;
  sound_radius : f32;
  sound_name : pystr;
  command : pystr;
  bez_prev : option (Vec3 f32);
  bez_next : option (Vec3 f32)
}.

(** The lines written to the diagnostic transcript, one constructor per
    [print] of the two object readers (the lines of one key are one event). *)
Inductive event : Type :=
| EvWorldObjectsCount (count : Z)
| EvObject (i : nat) (obj_type : pystr) (prop_count : Z)
| EvProp (name : pystr) (value : pyvalue)
| EvBlindCount (object_count : Z)
| EvBlindObject (n : nat)
| EvBlindId (obj_id : Z)
| EvKFName (key_name : pystr)
| EvNumKeys (key_count : Z)
| EvKey (key_idx : nat) (name_len cmd_len : Z) (k : keyframe)
| EvScatterName (scatter_name : pystr)
| EvNumVolumes (num_volumes : Z)
| EvVolume (vi : nat) (pos dims : Vec3 f32) (num_particles : Z)
| EvParticle (pi : nat) (part_pos : Vec3 f32) (color : Z) (scale : f32)
             (waveRot waveStart : Z)
| EvBlank.

(** ** The byte cursor *)

(** A file opened with mode ["rb"] together with the transcript [out]. *)
Record rstate : Type := mkState {
  f_data : list byte;
  f_pos : nat;
  out : list event
}.

Definition M (A : Type) : Type := rstate -> res (A * rstate).

Definition ret {A} (a : A) : M A := fun st => Ok (a, st).

Definition bind {A B} (c : M A) (k : A -> M B) : M B :=
  fun st => match c st with
            | Ok (a, st') => k a st'
            | Raise e => Raise e
            end.

Definition raise {A} (e : exn) : M A := fun _ => Raise e.

Definition lift {A} (r : res A) : M A :=
  fun st => match r with Ok a => Ok (a, st) | Raise e => Raise e end.

Notation "'do' x <- c ; k" := (bind c (fun x => k))
  (at level 10, x name, c at level 100, k at level 200).
Notation "'do_' c ; k" := (bind c (fun _ => k))
  (at level 10, c at level 100, k at level 200).

(** The bytes from the cursor on. *)
Definition remaining (st : rstate) : list byte := drop (f_pos st) (f_data st).

(** [f.read(n)]: up to [n] bytes, fewer at the end of the file. *)
Definition f_read (n : nat) : M (list byte) :=
  fun st =>
    let bs := take n (remaining st) in
    Ok (bs, mkState (f_data st) (f_pos st + length bs) (out st)).

(** [f.seek(p)] and [f.seek(d, 1)] for non-negative arguments. *)
Definition f_seek (p : nat) : M unit :=
  fun st => Ok (tt, mkState (f_data st) p (out st)).

Definition f_seek_cur (d : nat) : M unit :=
  fun st => Ok (tt, mkState (f_data st) (f_pos st + d) (out st)).

Definition f_tell : M nat := fun st => Ok (f_pos st, st).

(** [print(..., file=out)] *)
Definition print (e : event) : M unit :=
  fun st => Ok (tt, mkState (f_data st) (f_pos st) (out st ++ [e])).

(** [for i in range(n)] threading the variables the body assigns. *)
Fixpoint for_range_from {T : Type} (i n : nat) (body : nat -> T -> M T) (s : T) : M T :=
  match n with
  | O => ret s
  | S n' => do s' <- body i s; for_range_from (S i) n' body s'
  end.

Definition for_range {T : Type} (n : Z) (body : nat -> T -> M T) (s : T) : M T :=
  for_range_from 0 (Z.to_nat n) body s.

(** *** struct.unpack, little-endian *)

Fixpoint le_uint (bs : list byte) : Z :=
  match bs with
  | [] => 0
  | b :: r => Z.of_N (Byte.to_N b) + 256 * le_uint r
  end.

(** [struct.unpack] of one unsigned field of [n] bytes. *)
Definition unpack_uint (n : nat) (bs : list byte) : res Z :=
  if Nat.eqb (length bs) n then Ok (le_uint bs) else Raise StructError.

Definition read_uint (n : nat) : M Z :=
  do bs <- f_read n; lift (unpack_uint n bs).

Definition read_u8 : M Z := read_uint 1.
Definition read_u16 : M Z := read_uint 2.
Definition read_u32 : M Z := read_uint 4.
Definition read_f32 : M f32 := read_uint 4.

(** [struct.unpack("<3f", bs)] *)
Definition unpack_3f (bs : list byte) : res (Vec3 f32) :=
  if Nat.eqb (length bs) 12
  then Ok (mkVec3 (le_uint (take 4 bs)) (le_uint (take 4 (drop 4 bs)))
                  (le_uint (take 4 (drop 8 bs))))
  else Raise StructError.

(** [Vec3.read(f)] *)
Definition Vec3_read : M (Vec3 f32) :=
  do bs <- f_read 12; lift (unpack_3f bs).

(** [Quaternion.read(f)] *)
Definition Quaternion_read : M (Quaternion f32) :=
  do bs <- f_read 16;
  if Nat.eqb (length bs) 16
  then ret (mkQuat (le_uint (take 4 bs)) (le_uint (take 4 (drop 4 bs)))
                   (le_uint (take 4 (drop 8 bs))) (le_uint (take 4 (drop 12 bs))))
  else raise StructError.

(** *** read_lithtech_string *)

Definition read_lithtech_string : M pystr :=
  do len <- read_u16;
  if len =? 0 then ret []
  else do bs <- f_read (Z.to_nat len);
       lift (Codec.decode_utf8 Codec.ignore bs).

(** The first three fields of [WorldModel.read]: [dummy],
    [world_info_flags] and the name, whose bytes are decoded strictly. *)
Definition WorldModel_read_name : M (Z * Z * pystr) :=
  do dummy <- read_u32;
  do world_info_flags <- read_u32;
  do name_len <- read_u16;
  do bs <- f_read (Z.to_nat name_len);
  do world_name <- lift (Codec.decode_utf8 Codec.strict bs);
  ret (dummy, world_info_flags, world_name).

(** *** st_gethash_ic *)

Section Hash.
Context `{U : Unicode}.

(** One turn of the loop; [ord] of a string that is not exactly one
    character is a [TypeError]. *)
Definition hash_step (n : Z) (ch : N) : res Z :=
  match Text.upper_char ch with
  | [c] =>
      let val := ord c - ord 65 in
      Ok (Z.land (n * 29 + Z.land val 0xFFFFFFFF) 0xFFFFFFFF)
  | _ => Raise TypeError
  end.

Fixpoint hash_from (n : Z) (s : pystr) : res Z :=
  match s with
  | [] => Ok n
  | ch :: s' =>
      match hash_step n ch with
      | Ok n' => hash_from n' s'
      | Raise e => Raise e
      end
  end.

Definition st_gethash_ic (s : pystr) : res Z := hash_from 0 s.
End Hash.

(** ** The record walker *)

(** [LithtechHeader]: fifteen 32-bit words, the last six unused. *)
Record LithtechHeader : Type := mkHeader {
  version : Z;
  object_data_pos : Z;
  blind_object_data_pos : Z;
  lightgrid_pos : Z;
  collision_data_pos : Z;
  particle_blocker_data_pos : Z;
  render_data_pos : Z;
  packer_type : Z;
  packer_version : Z;
  future : list Z
}.

Definition LithtechHeader_read : M LithtechHeader :=
  do bs <- f_read 60;
  if Nat.eqb (length bs) 60 then
    let w i := le_uint (take 4 (drop (4 * i) bs)) in
    ret (mkHeader (w 0%nat) (w 1%nat) (w 2%nat) (w 3%nat) (w 4%nat) (w 5%nat)
                  (w 6%nat) (w 7%nat) (w 8%nat) (map w (seq 9 6)))
  else raise StructError.

(** The three collections [read_world_objects] builds. *)
Record collected : Type := mkCollected {
  keyframer_basekeynames : list pystr;
  scattervolume_names : list pystr;
  occluder_names : list (pystr * Z)
}.

Definition unknown_type_text (data_type data_size : Z) : pystr :=
  str "<Unknown type " ++ str_of_Z data_type ++ str ", skipped "
      ++ str_of_Z data_size ++ str " bytes>".

Section WorldObjects.
Context `{U : Unicode}.

(** The [if]/[elif] chain that decodes one property value. *)
Definition read_prop_value (name : pystr) (data_type data_size : Z) : M pyvalue :=
  if pystr_eqb name (str "RenderGroup") && (data_type =? 6) then
    do x <- read_f32; ret (VFloat x)
  else if data_type =? 0 then do s <- read_lithtech_string; ret (VStr s)
  else if data_type =? 1 then do v <- Vec3_read; ret (VVec3 v)
  else if data_type =? 2 then do v <- Vec3_read; ret (VVec3 v)
  else if data_type =? 3 then do x <- read_f32; ret (VFloat x)
  else if data_type =? 5 then do b <- read_u8; ret (VBool (negb (b =? 0)))
  else if data_type =? 6 then do x <- read_f32; ret (VFloat x)
  else if data_type =? 7 then do q <- Quaternion_read; ret (VQuat q)
  else do_ f_seek_cur (Z.to_nat data_size);
       ret (VStr (unknown_type_text data_type data_size)).

(** The three [if]s that file a property value under its collection. *)
Definition collect (obj_type name : pystr) (value : pyvalue) (c : collected)
  : res collected :=
  let c1 :=
    match value with
    | VStr v =>
        if pystr_eqb obj_type (str "KeyFramer") && pystr_eqb name (str "BaseKeyName")
        then mkCollected (keyframer_basekeynames c ++ [v])
                         (scattervolume_names c) (occluder_names c)
        else c
    | _ => c
    end in
  let c2 :=
    match value with
    | VStr v =>
        if pystr_eqb obj_type (str "ScatterVolume") && pystr_eqb name (str "Name")
        then mkCollected (keyframer_basekeynames c1)
                         (scattervolume_names c1 ++ [v]) (occluder_names c1)
        else c1
    | _ => c1
    end in
  match value with
  | VStr v =>
      if pystr_eqb obj_type (str "DynamicOccluderVolume")
         && Text.startswith name (str "OccluderName")
         && negb (pystr_eqb v [])
      then if dict_mem (occluder_names c2) v then Ok c2
           else match st_gethash_ic v with
                | Ok h => Ok (mkCollected (keyframer_basekeynames c2)
                                          (scattervolume_names c2)
                                          (dict_set (occluder_names c2) v h))
                | Raise e => Raise e
                end
      else Ok c2
  | _ => Ok c2
  end.

(** The body of the loop over the properties of one object. *)
Definition read_property (obj_type : pystr) (j : nat) (c : collected) : M collected :=
  do name <- read_lithtech_string;
  do data_type <- read_u8;
  do flags <- read_u32;
  do data_size <- read_u16;
  do value <- read_prop_value name data_type data_size;
  do_ print (EvProp name value);
  lift (collect obj_type name value c).

(** The body of the loop over the objects. *)
Definition read_world_object (i : nat) (c : collected) : M collected :=
  do object_size <- read_u16;
  do obj_type <- read_lithtech_string;
  do prop_count <- read_u32;
  do_ print (EvObject i obj_type prop_count);
  for_range prop_count (read_property obj_type) c.

Definition read_world_objects (header : LithtechHeader) : M collected :=
  do_ f_seek (Z.to_nat (object_data_pos header));
  do count <- read_u32;
  do_ print (EvWorldObjectsCount count);
  for_range count read_world_object (mkCollected [] [] []).
End WorldObjects.

(** *** Blind objects *)

(** [f"{key_name}{key_idx}"] for the first key, [f"{key_name}{key_idx:02d}"]
    for the others. *)
Definition full_key_name (key_name : pystr) (key_idx : nat) : pystr :=
  if Nat.eqb key_idx 0 then key_name ++ str_of_Z (Z.of_nat key_idx)
  else if Nat.ltb key_idx 10 then key_name ++ str "0" ++ str_of_Z (Z.of_nat key_idx)
  else key_name ++ str_of_Z (Z.of_nat key_idx).



(** The [if]/[elif] chain on [key_type] at the end of a key: the values
    of [bez_prev] and [bez_next]. *)
Definition read_tangents (key_type : Z)
  : M (option (Vec3 f32) * option (Vec3 f32)) :=
  if key_type =? 0 then ret (None, None)
  else if key_type =? 1 then do p <- Vec3_read; ret (Some p, None)
  else if key_type =? 2 then do n <- Vec3_read; ret (None, Some n)
  else if key_type =? 3 then
    do p <- Vec3_read; do n <- Vec3_read; ret (Some p, Some n)
  else do at_pos <- f_tell; raise (ValueError key_type at_pos).

(** The body of the loop over the keys of one keyframe track; it returns
    the entry appended to [keyframer_data_map[key_name]]. *)
Definition read_key (key_name : pystr) (key_idx : nat) : M keyframe :=
  let full_key_name := full_key_name key_name key_idx in
  do key_type <- read_u16;
  do name_len <- read_u8;
  do cmd_len <- read_u8;
  do pos <- Vec3_read;
  do rot_deg <- Vec3_read;
  do timestamp <- read_f32;
  do sound_radius <- read_f32;
  do sn <- f_read (Z.to_nat name_len);
  let sound_name := Codec.decode_ascii_ignore sn in
  do cm <- f_read (Z.to_nat cmd_len);
  let command := Codec.decode_ascii_ignore cm in
  do bez <- read_tangents key_type;
  let k := mkKey full_key_name pos rot_deg timestamp sound_radius
                 sound_name command (fst bez) (snd bez) in
  do_ print (EvKey key_idx name_len cmd_len k);
  ret k.




Section BlindObjects.
Variables keyframer_basekeynames scattervolume_names : list pystr.





End BlindObjects.

(** ** Texture sizes *)

(** The file system the texture lookup sees. *)
Inductive fs_entry : Type :=
| File (content : list byte)
| Directory.

(** What the lookup does to the outside world, in order. *)
Inductive fs_event : Type :=
| FsExists (path : pystr)
| FsOpen (path : pystr)
| FsPrintMissingDtx (path : pystr)
| FsPrintWarn (path : pystr)
| FsPrintMissing (tex_rel : pystr).

Section TextureSize.
Context `{U : Unicode}.
(** [os.path.join] and the file system are those of the host. *)
Variable path_join : pystr -> pystr -> pystr.
Variable fs : pystr -> option fs_entry.

(** [s.replace("\\", "/")] *)
Definition slashes (s : pystr) : pystr :=
  map (fun c => if N.eqb c 92 then 47%N else c) s.

(** [s.endswith(p)] *)
Definition endswith (s p : pystr) : bool := Text.startswith (rev s) (rev p).

Definition exists_ (path : pystr) : bool :=
  match fs path with Some _ => true | None => false end.

(** [with open(path, "rb") as f: body]; a directory cannot be opened. *)
Definition with_open {A} (path : pystr) (body : M A) : res A :=
  match fs path with
  | Some (File content) =>
      match body (mkState content 0 []) with
      | Ok (a, _) => Ok a
      | Raise e => Raise e
      end
  | _ => Raise OSError
  end.

Inductive attempt : Type :=
| Return (w h : Z)
| Continue
| Caught.

(** The body of the loop over [search_dirs] once the path exists; the
    result says whether the function returns, the loop continues, or the
    [except] clause ran. *)
Definition try_root (root full_path : pystr) : attempt * list fs_event :=
  let read_size (fp : pystr) (log : list fs_event) :=
    match with_open fp (do_ f_seek 8; do w <- read_u16; do h <- read_u16; ret (w, h)) with
    | Ok (w, h) => (Return w h, log ++ [FsOpen fp])
    | Raise _ => (Caught, log ++ [FsOpen fp; FsPrintWarn fp])
    end in
  if endswith (Text.lower full_path) (str ".spr") then
    match with_open full_path (do_ f_seek 20; read_lithtech_string) with
    | Ok s =>
        let dtx_rel_path := Text.lower (slashes s) in
        let full_path' := path_join root dtx_rel_path in
        if exists_ full_path'
        then read_size full_path' [FsOpen full_path; FsExists full_path']
        else (Continue, [FsOpen full_path; FsExists full_path';
                         FsPrintMissingDtx full_path'])
    | Raise _ => (Caught, [FsOpen full_path; FsPrintWarn full_path])
    end
  else read_size full_path [].

Fixpoint search (tex_rel : pystr) (search_dirs : list pystr) (found : bool)
  : (Z * Z) * list fs_event :=
  match search_dirs with
  | [] => ((0, 0), if found then [] else [FsPrintMissing tex_rel])
  | root :: dirs =>
      let full_path := path_join root tex_rel in
      if exists_ full_path then
        match try_root root full_path with
        | (Return w h, log) => ((w, h), FsExists full_path :: log)
        | (_, log) =>
            let '(r, log') := search tex_rel dirs true in
            (r, FsExists full_path :: log ++ log')
        end
      else
        let '(r, log') := search tex_rel dirs found in
        (r, FsExists full_path :: log')
  end.

Definition get_dtx_texture_size (tex_path : pystr) (search_dirs : list pystr)
  : (Z * Z) * list fs_event :=
  if Text.startswith (Text.lower tex_path) (str "lightanim")
     || Text.startswith (Text.lower tex_path) (str "default")
  then ((0, 0), [])
  else search (Text.lower (slashes tex_path)) search_dirs false.
End TextureSize.

(** ** The texture basis solver *)

Record Vec2 : Type := mkVec2 { ux : float; uy : float }.

Module Solver.
Local Open Scope float_scope.

Abbreviation V3 := (Vec3 float).

Definition of_int (n : Z) : float := PrimFloat.of_uint63 (Uint63.of_Z n).

Definition vadd (a b : V3) : V3 := mkVec3 (vx a + vx b) (vy a + vy b) (vz a + vz b).
Definition vsub (a b : V3) : V3 := mkVec3 (vx a - vx b) (vy a - vy b) (vz a - vz b).
Definition smul (k : float) (a : V3) : V3 := mkVec3 (k * vx a) (k * vy a) (k * vz a).
Definition vscale (a : V3) (k : float) : V3 := mkVec3 (vx a * k) (vy a * k) (vz a * k).
Definition vdiv (a : V3) (k : float) : V3 := mkVec3 (vx a / k) (vy a / k) (vz a / k).
Definition dot (a b : V3) : float := vx a * vx b + vy a * vy b + vz a * vz b.
Definition cross (a b : V3) : V3 :=
  mkVec3 (vy a * vz b - vz a * vy b) (vz a * vx b - vx a * vz b)
         (vx a * vy b - vy a * vx b).
(** [np.linalg.norm] of a 3-vector. *)
Definition norm (a : V3) : float := PrimFloat.sqrt (dot a a).

Definition area (a b c : float * float) : float :=
  (fst b - fst a) * (snd c - snd a) - (fst c - fst a) * (snd b - snd a).

Definition barycentric (p0 p1 p2 p : float * float) : float * float * float :=
  let n := area p0 p1 p2 in
  if PrimFloat.ltb (PrimFloat.abs n) 1e-10 then (1, 0, 0)
  else
    let u := area p1 p2 p / n in
    let v := area p2 p0 p / n in
    let w := 1 - u - v in
    (u, v, w).

Definition degenerate : V3 * V3 * V3 :=
  (mkVec3 0 0 0, mkVec3 1 0 0, mkVec3 0 0 1).

Definition generate_opq_exact (v0 v1 v2 : V3) (uv0 uv1 uv2 : Vec2)
           (width height : Z) : V3 * V3 * V3 :=
  if (width =? 0)%Z || (height =? 0)%Z then degenerate
  else
    let t0 := (ux uv0, - uy uv0) in
    let t1 := (ux uv1, - uy uv1) in
    let t2 := (ux uv2, - uy uv2) in
    let bc_o := barycentric t0 t1 t2 (0, 0) in
    let bc_p := barycentric t0 t1 t2 (1, 0) in
    let bc_q := barycentric t0 t1 t2 (0, 1) in
    let comb (bc : float * float * float) :=
      vadd (vadd (smul (fst (fst bc)) v0) (smul (snd (fst bc)) v1))
           (smul (snd bc) v2) in
    let O := comb bc_o in
    let P := vsub (comb bc_p) O in
    let Q := vsub (comb bc_q) O in
    let tp := norm P in
    let tq := norm Q in
    let tp := if PrimFloat.ltb 1e-8 tp then 1 / (tp / of_int width) else 1 in
    let tq := if PrimFloat.ltb 1e-8 tq then 1 / (tq / of_int height) else 1 in
    let P := if PrimFloat.ltb 1e-8 (norm P) then vdiv P (norm P) else mkVec3 1 0 0 in
    let Q := if PrimFloat.ltb 1e-8 (norm Q) then vdiv Q (norm Q) else mkVec3 0 1 0 in
    let R := cross Q P in
    let Pn := cross R Q in
    let Qn := cross P R in
    let Pn := vdiv Pn (norm Pn) in
    let Qn := vdiv Qn (norm Qn) in
    let pscale := 1 / dot P Pn in
    let qscale := 1 / dot Q Qn in
    let P_final := vscale (vscale Pn tp) pscale in
    let Q_final := vscale (vscale (vscale Qn tq) qscale) (-1) in
    (O, P_final, Q_final).
End Solver.

(** ** The geometry reconstructor *)

Record Vertex : Type := mkVertex {
  v_pos : Vec3 float;
  v_normal : Vec3 float;
  v_uv : Vec2;
  v_uv1 : Vec2;
  v_color : list byte
}.

(** A triangle is three indices, read as unsigned 32-bit words. *)
Abbreviation tri := (nat * nat * nat)%type.

(** A section as read from the stream. *)
Record raw_section : Type := mkRaw {
  r_tex0 : pystr;
  r_tex1 : pystr;
  r_shader_type_byte : Z;
  r_tri_count : nat;
  r_texture_effect : pystr
}.

(** The dictionary appended to [sections]. *)
Record section : Type := mkSection {
  is_lightanim : bool;
  tex0 : pystr;
  tex1 : pystr;
  tex_w : Z;
  tex_h : Z;
  tex_w1 : Z;
  tex_h1 : Z;
  tri_count : nat;
  shader_str : pystr;
  texture_effect : pystr
}.

(** The tuple appended to [kept_sections]. *)
Record group : Type := mkGroup {
  g_tex0 : pystr;
  g_tex_w : Z;
  g_tex_h : Z;
  g_tex1 : pystr;
  g_tex_w1 : Z;
  g_tex_h1 : Z;
  g_tris : list tri;
  g_shader_str : pystr;
  g_texture_effect : pystr
}.

(** [EPCShaderType.get(code, "Unknown")] *)
Definition EPCShaderType (code : Z) : pystr :=
  if code =? 0 then str "None"
  else if code =? 1 then str "Gouraud"
  else if code =? 2 then str "Lightmap"
  else if code =? 4 then str "Lightmap"
  else if code =? 5 then str "Skypan"
  else if code =? 6 then str "SkyPortal"
  else if code =? 7 then str "Occluder"
  else if code =? 8 then str "Gouraud"
  else if code =? 9 then str "Lightmap"
  else if code =? 10 then str "Splitter"
  else str "Unknown".

Section Sections.
Context `{U : Unicode}.
Variable path_join : pystr -> pystr -> pystr.
Variable fs : pystr -> option fs_entry.
Variable current_dir : pystr.

(** The test that marks a section as animation-only. *)
Definition lightanim_name (tex0 : pystr) : bool :=
  pystr_eqb (Text.lower (Text.strip tex0)) (str "lightanim_base").

(** Step 1 of the loop over a node: normalise the names, look the
    texture sizes up, and build the dictionary of the section. *)
Definition make_section (r : raw_section) : section * list fs_event :=
  let t0 := Text.strip (r_tex0 r) in
  let t1 := Text.strip (r_tex1 r) in
  let tex0 := if pystr_eqb t0 [] then str "Default" else r_tex0 r in
  let tex1 := if pystr_eqb t1 [] then str "Default" else r_tex1 r in
  let is_lightanim := pystr_eqb (Text.lower t0) (str "lightanim_base") in
  let shader_str := EPCShaderType (r_shader_type_byte r) in
  let '((tex_w, tex_h), log0) := get_dtx_texture_size path_join fs tex0 [current_dir] in
  let '((tex_w1, tex_h1), log1) := get_dtx_texture_size path_join fs tex1 [current_dir] in
  (mkSection is_lightanim tex0 tex1 tex_w tex_h tex_w1 tex_h1
             (r_tri_count r) shader_str (r_texture_effect r),
   log0 ++ log1).
End Sections.

Definition group_of (s : section) (tris : list tri) : group :=
  mkGroup (tex0 s) (tex_w s) (tex_h s) (tex1 s) (tex_w1 s) (tex_h1 s)
          tris (shader_str s) (texture_effect s).

(** [sum(s["tri_count"] for s in sections)] *)
Definition sum_tri_count (sections : list section) : nat :=
  foldr (fun s acc => tri_count s + acc)%nat 0%nat sections.

(** Step 5: slice the triangle stream by sections in their order and leave
    the animation sections out.  [l[a:b]] is [take (b - a) (drop a l)]. *)
Fixpoint slice_from (cursor : nat) (sections : list section) (all_tris : list tri)
  : list group :=
  match sections with
  | [] => []
  | s :: rest =>
      let tris := take (tri_count s) (drop cursor all_tris) in
      let cursor := (cursor + tri_count s)%nat in
      if is_lightanim s then slice_from cursor rest all_tris
      else group_of s tris :: slice_from cursor rest all_tris
  end.

Definition kept_sections (sections : list section) (all_tris : list tri) : list group :=
  slice_from 0 sections all_tris.

(** Step 6, first half: the local vertex list and the index map. *)
Definition visit (vertices : list Vertex) (i : nat)
           (acc : list Vertex * gmap nat nat) : res (list Vertex * gmap nat nat) :=
  let '(local_verts, index_map) := acc in
  match index_map !! i with
  | Some _ => Ok acc
  | None =>
      match vertices !! i with
      | Some v => Ok (local_verts ++ [v], <[i := length local_verts]> index_map)
      | None => Raise IndexError
      end
  end.

Fixpoint gather (vertices : list Vertex) (tris : list tri)
         (acc : list Vertex * gmap nat nat) : res (list Vertex * gmap nat nat) :=
  match tris with
  | [] => Ok acc
  | (i0, i1, i2) :: rest =>
      match visit vertices i0 acc with
      | Raise e => Raise e
      | Ok a0 =>
          match visit vertices i1 a0 with
          | Raise e => Raise e
          | Ok a1 =>
              match visit vertices i2 a1 with
              | Raise e => Raise e
              | Ok a2 => gather vertices rest a2
              end
          end
      end
  end.

(** Step 6, second half: [(index_map[i0], index_map[i1], index_map[i2])]. *)
Fixpoint remap (index_map : gmap nat nat) (tris : list tri) : res (list tri) :=
  match tris with
  | [] => Ok []
  | (i0, i1, i2) :: rest =>
      match index_map !! i0, index_map !! i1, index_map !! i2 with
      | Some a, Some b, Some c =>
          match remap index_map rest with
          | Ok l => Ok ((a, b, c) :: l)
          | Raise e => Raise e
          end
      | _, _, _ => Raise KeyError
      end
  end.

Record repacked : Type := mkRepacked {
  local_verts : list Vertex;
  index_map : gmap nat nat;
  local_tris : list tri
}.

Definition repack (vertices : list Vertex) (tris : list tri) : res repacked :=
  match gather vertices tris ([], ∅) with
  | Raise e => Raise e
  | Ok (lv, im) =>
      match remap im tris with
      | Ok lt => Ok (mkRepacked lv im lt)
      | Raise e => Raise e
      end
  end.

(** *** write_polyhedron *)

Record textureinfo : Type := mkTexInfo {
  ti_origin : Vec3 float;
  ti_U : Vec3 float;
  ti_V : Vec3 float;
  ti_name : pystr
}.

Record editpoly : Type := mkEditPoly {
  ep_f : tri;
  ep_n : Vec3 float;
  ep_dist : float;
  ep_textureinfo : textureinfo;
  ep_textures1 : textureinfo
}.

Record polyhedron : Type := mkPolyhedron {
  pointlist : list (Vec3 float);
  polylist : list editpoly
}.

Section WritePolyhedron.
(** The module-level [WORLD_OFFSET]. *)
Variable WORLD_OFFSET : option (Vec3 float).

Definition apply_world_offset (vec : Vec3 float) : Vec3 float :=
  match WORLD_OFFSET with
  | None => vec
  | Some o => Solver.vadd vec o
  end.

Definition write_editpoly (vertices : list Vertex) (g : group) (t : tri)
  : res editpoly :=
  let '(i0, i1, i2) := t in
  match vertices !! i0, vertices !! i1, vertices !! i2 with
  | Some v0, Some v1, Some v2 =>
      let n := v_normal v0 in
      let p0 := apply_world_offset (v_pos v0) in
      let p1 := apply_world_offset (v_pos v1) in
      let p2 := apply_world_offset (v_pos v2) in
      let dist := (vx p0 * vx n + vy p0 * vy n + vz p0 * vz n)%float in
      let '(origin, U_, V_) :=
        Solver.generate_opq_exact p0 p1 p2 (v_uv v0) (v_uv v1) (v_uv v2)
                                  (g_tex_w g) (g_tex_h g) in
      let '(origin1, U1, V1) :=
        Solver.generate_opq_exact p0 p1 p2 (v_uv1 v0) (v_uv1 v1) (v_uv1 v2)
                                  (g_tex_w1 g) (g_tex_h1 g) in
      Ok (mkEditPoly t n dist (mkTexInfo origin U_ V_ (g_tex0 g))
                     (mkTexInfo origin1 U1 V1 (g_tex1 g)))
  | _, _, _ => Raise IndexError
  end.

Fixpoint mapM {A B} (f : A -> res B) (l : list A) : res (list B) :=
  match l with
  | [] => Ok []
  | a :: l' =>
      match f a with
      | Raise e => Raise e
      | Ok b => match mapM f l' with
                | Ok bs => Ok (b :: bs)
                | Raise e => Raise e
                end
      end
  end.

Definition write_polyhedron (vertices : list Vertex) (section_triangles : list group)
  : res polyhedron :=
  match mapM (fun g => mapM (write_editpoly vertices g) (g_tris g)) section_triangles with
  | Ok polys =>
      Ok (mkPolyhedron (map (fun v => apply_world_offset (v_pos v)) vertices)
                       (concat polys))
  | Raise e => Raise e
  end.
End WritePolyhedron.

(** *** The loop over one render node, steps 4 to 6 *)

Inductive warning : Type :=
| WarnRenderNode (node_index : nat)
| WarnWMRenderNode (wm_index subnode_index expected total : nat).

(** [(label, brush index, shader_str, texture_effect)] *)
Record brush_entry : Type := mkBrush {
  b_label : pystr;
  b_index : nat;
  b_shader_str : pystr;
  b_texture_effect : pystr
}.

(** What the export has accumulated while it walks the render nodes. *)
Record rn_state : Type := mkRN {
  rn_written : list polyhedron;
  rn_stdout : list warning;
  section_brushes : list (pystr * nat);
  section_brushes_by_node : list (nat * list brush_entry)
}.

(** [d[k].append(x)] on a [defaultdict(list)]. *)
Definition defaultdict_append {V} (d : list (nat * list V)) (k : nat) (x : V)
  : list (nat * list V) :=
  match dict_get d k with
  | Some l => dict_set d k (l ++ [x])
  | None => dict_set d k [x]
  end.

Section RenderNode.
Variable WORLD_OFFSET : option (Vec3 float).

Definition rn_label (node_index section_idx : nat) : pystr :=
  str "Brush_RN" ++ str_of_Z (Z.of_nat node_index) ++ str "_S"
      ++ str_of_Z (Z.of_nat section_idx).

(** The body of the loop of step 6. *)
Definition rn_emit_group (node_index : nat) (vertices : list Vertex)
           (section_idx : nat) (g : group) (st : rn_state) : res rn_state :=
  match repack vertices (g_tris g) with
  | Raise e => Raise e
  | Ok r =>
      let g' := mkGroup (g_tex0 g) (g_tex_w g) (g_tex_h g) (g_tex1 g) (g_tex_w1 g)
                        (g_tex_h1 g) (local_tris r) (g_shader_str g)
                        (g_texture_effect g) in
      match write_polyhedron WORLD_OFFSET (local_verts r) [g'] with
      | Raise e => Raise e
      | Ok ph =>
          let label := rn_label node_index section_idx in
          let n := length (section_brushes st) in
          Ok (mkRN (rn_written st ++ [ph]) (rn_stdout st)
                   (section_brushes st ++ [(label, n)])
                   (defaultdict_append (section_brushes_by_node st) node_index
                      (mkBrush label n (g_shader_str g) (g_texture_effect g))))
      end
  end.

Fixpoint rn_emit_groups (node_index : nat) (vertices : list Vertex)
         (section_idx : nat) (gs : list group) (st : rn_state) : res rn_state :=
  match gs with
  | [] => Ok st
  | g :: gs' =>
      match rn_emit_group node_index vertices section_idx g st with
      | Raise e => Raise e
      | Ok st' => rn_emit_groups node_index vertices (S section_idx) gs' st'
      end
  end.

(** Steps 4, 5 and 6 for the render node [node_index]. *)
Definition render_node (node_index : nat) (sections : list section)
           (vertices : list Vertex) (all_tris : list tri) (st : rn_state)
  : res rn_state :=
  let st1 :=
    if Nat.eqb (sum_tri_count sections) (length all_tris) then st
    else mkRN (rn_written st) (rn_stdout st ++ [WarnRenderNode node_index])
              (section_brushes st) (section_brushes_by_node st) in
  rn_emit_groups node_index vertices 0 (kept_sections sections all_tris) st1.
End RenderNode.

(** *** The loop over one sub-node of a world model, steps 4 to 6 *)

(** The dictionary appended to [wm_section_props]. *)
Record wm_section_prop : Type := mkWMProp {
  wm_index : nat;
  subnode_index : nat;
  section_index : nat;
  wm_label : pystr;
  wm_shader_str : pystr;
  wm_texture_effect : pystr
}.

Record wm_state : Type := mkWM {
  wm_stdout : list warning;
  wm_section_props : list wm_section_prop;
  wm_data : list (list Vertex * list group)
}.

Definition wm_label_of (wm_name : pystr) (subnode_index section_idx : nat) : pystr :=
  wm_name ++ str "_" ++ str_of_Z (Z.of_nat subnode_index) ++ str "_S"
          ++ str_of_Z (Z.of_nat section_idx).

Definition wm_emit_group (wm_index : nat) (wm_name : pystr) (subnode_index : nat)
           (vertices : list Vertex) (section_idx : nat) (g : group) (st : wm_state)
  : res wm_state :=
  match repack vertices (g_tris g) with
  | Raise e => Raise e
  | Ok r =>
      let g' := mkGroup (g_tex0 g) (g_tex_w g) (g_tex_h g) (g_tex1 g) (g_tex_w1 g)
                        (g_tex_h1 g) (local_tris r) (g_shader_str g)
                        (g_texture_effect g) in
      let label := wm_label_of wm_name subnode_index section_idx in
      Ok (mkWM (wm_stdout st)
               (wm_section_props st
                  ++ [mkWMProp wm_index subnode_index section_idx label
                               (g_shader_str g) (g_texture_effect g)])
               (wm_data st ++ [(local_verts r, [g'])]))
  end.

Fixpoint wm_emit_groups (wm_index : nat) (wm_name : pystr) (subnode_index : nat)
         (vertices : list Vertex) (section_idx : nat) (gs : list group) (st : wm_state)
  : res wm_state :=
  match gs with
  | [] => Ok st
  | g :: gs' =>
      match wm_emit_group wm_index wm_name subnode_index vertices section_idx g st with
      | Raise e => Raise e
      | Ok st' =>
          wm_emit_groups wm_index wm_name subnode_index vertices (S section_idx) gs' st'
      end
  end.

(** Steps 4, 5 and 6 for one sub-node; the first component of the result is
    the value left in [tri_count_total]. *)
Definition wm_subnode (wm_index : nat) (wm_name : pystr) (subnode_index : nat)
           (sections : list section) (vertices : list Vertex) (all_tris : list tri)
           (st : wm_state) : res (nat * wm_state) :=
  let expected := sum_tri_count sections in
  let '(tri_count_total, st1) :=
    if negb (Nat.eqb expected (length all_tris))
    then (Nat.min expected (length all_tris),
          mkWM (wm_stdout st
                  ++ [WarnWMRenderNode wm_index subnode_index expected (length all_tris)])
               (wm_section_props st) (wm_data st))
    else (length all_tris, st) in
  match wm_emit_groups wm_index wm_name subnode_index vertices 0
                       (kept_sections sections all_tris) st1 with
  | Ok st2 => Ok (tri_count_total, st2)
  | Raise e => Raise e
  end.

(** ** The hierarchy re-encoder *)

Module Hierarchy.

(** What [export_rendernodes_to_lta] holds when it reaches the node
    hierarchy. *)
Record scene : Type := mkScene {
  section_brushes_by_node : list (nat * list brush_entry);
  world_objects : list (list (pystr * pyvalue));
  wm_names_list : list pystr;
  wm_section_props : list wm_section_prop;
  keyframer_keys_map : list (pystr * list keyframe);
  skyportals_all : list (list (Vec3 float) * Vec3 float * float);
  occluders_all : list (list (Vec3 float) * Vec3 float * float * Z);
  polyBlocks_count : nat;
  polypParticleblock_count : nat;
  occluder_names : list (pystr * Z)
}.

Inductive node_type : Type := TNull | TBrush | TObject.

(** The [childlist] a node is written into. *)
Inductive place : Type :=
| AtTop
| InWorld
| InRenderNodes
| InRenderNode (node_index : nat)
| InObjectsAndWMs
| InObject (i : nat)
| InKeyTrack (key_name : pystr)
| InSkyPortals
| InOccluders
| InBlockers
| InParticleBlockers.

(** One [( worldnode ... )] of the output. *)
Record worldnode : Type := mkNode {
  wn_type : node_type;
  wn_label : pystr;
  wn_brushindex : option Z;
  wn_nodeid : Z;
  wn_propid : Z;
  wn_place : place
}.

(** The three counters. *)
Record counters : Type := mkC {
  brushindex : Z;
  base_nodeid : Z;
  base_propid : Z
}.

Abbreviation hstate := (counters * list worldnode)%type.

(** A node of type [null] with [propid 0]; [base_nodeid += 1]. *)
Definition emit_null (pl : place) (label : pystr) (h : hstate) : hstate :=
  let '(c, ns) := h in
  (mkC (brushindex c) (base_nodeid c + 1) (base_propid c),
   ns ++ [mkNode TNull label None (base_nodeid c) 0 pl]).

(** A brush node; all three counters advance. *)
Definition emit_brush (pl : place) (h : hstate) : hstate :=
  let '(c, ns) := h in
  (mkC (brushindex c + 1) (base_nodeid c + 1) (base_propid c + 1),
   ns ++ [mkNode TBrush (str "Brush") (Some (brushindex c)) (base_nodeid c)
                 (base_propid c) pl]).

(** A brush node of a loop that leaves [base_propid] alone. *)
Definition emit_brush_same_propid (pl : place) (h : hstate) : hstate :=
  let '(c, ns) := h in
  (mkC (brushindex c + 1) (base_nodeid c + 1) (base_propid c),
   ns ++ [mkNode TBrush (str "Brush") (Some (brushindex c)) (base_nodeid c)
                 (base_propid c) pl]).

(** An object node; [base_propid] and [base_nodeid] advance. *)
Definition emit_object (pl : place) (label : pystr) (h : hstate) : hstate :=
  let '(c, ns) := h in
  (mkC (brushindex c) (base_nodeid c + 1) (base_propid c + 1),
   ns ++ [mkNode TObject label None (base_nodeid c) (base_propid c) pl]).

Definition bump_propid (h : hstate) : hstate :=
  let '(c, ns) := h in (mkC (brushindex c) (base_nodeid c) (base_propid c + 1), ns).

(** [for _ in range(n): body] *)
Fixpoint repeat_emit (n : nat) (body : hstate -> hstate) (h : hstate) : hstate :=
  match n with
  | O => h
  | S n' => repeat_emit n' body (body h)
  end.

(** [obj.get("Name")] compared with a world-model name. *)
Definition name_is (obj : list (pystr * pyvalue)) (wm_name : pystr) : bool :=
  match dict_get obj (str "Name") with
  | Some (VStr s) => pystr_eqb wm_name s
  | _ => false
  end.

(** The inner loop that looks for the object of a world model. *)
Fixpoint find_obj (wm_name : pystr) (i : nat) (objs : list (list (pystr * pyvalue)))
  : option nat :=
  match objs with
  | [] => None
  | obj :: rest => if name_is obj wm_name then Some i else find_obj wm_name (S i) rest
  end.

Fixpoint match_from (wm_id : nat) (names : list pystr)
         (objs : list (list (pystr * pyvalue))) (m : gmap nat nat) : gmap nat nat :=
  match names with
  | [] => m
  | wm_name :: rest =>
      match_from (S wm_id) rest objs
        (match find_obj wm_name 0 objs with
         | Some i => <[i := wm_id]> m
         | None => m
         end)
  end.

Definition matched_wm_to_obj (sc : scene) : gmap nat nat :=
  match_from 0 (wm_names_list sc) (world_objects sc) ∅.

(** [obj.get("__Type", "Object")]; a non-string type is left as it prints. *)
Definition type_label (obj : list (pystr * pyvalue)) : pystr :=
  match dict_get obj (str "__Type") with
  | Some (VStr s) => s
  | Some _ => []
  | None => str "Object"
  end.

(** The sections of [wm_section_props] that belong to world model [wm_id]. *)
Definition sections_of (sc : scene) (wm_id : nat) : list wm_section_prop :=
  List.filter (fun s => Nat.eqb (wm_index s) wm_id) (wm_section_props sc).

(** *** First pass: the node hierarchy *)

Definition emit_render_node (e : nat * list brush_entry) (h : hstate) : hstate :=
  let '(node_index, brushes) := e in
  let h1 := emit_null InRenderNodes
              (str "RenderNode" ++ str_of_Z (Z.of_nat node_index)) h in
  foldl (fun h _ => emit_brush (InRenderNode node_index) h) h1 brushes.

Definition emit_world_object (sc : scene) (m : gmap nat nat)
           (h : hstate) (e : nat * list (pystr * pyvalue)) : hstate :=
  let '(i, obj) := e in
  let h1 := emit_object InObjectsAndWMs (type_label obj) h in
  match m !! i with
  | Some wm_id => foldl (fun h _ => emit_brush (InObject i) h) h1 (sections_of sc wm_id)
  | None => h1
  end.

Definition emit_key_track (sc : scene) (h : hstate) (key_name : pystr) : hstate :=
  let h1 := emit_null InObjectsAndWMs key_name h in
  match dict_get (keyframer_keys_map sc) key_name with
  | Some entries =>
      foldl (fun h _ => emit_object (InKeyTrack key_name) (str "Key") h) h1 entries
  | None => h1
  end.

Definition enumerate {A} (l : list A) : list (nat * A) := imap (fun i a => (i, a)) l.

Definition emit_objects (sc : scene) (h : hstate) : hstate :=
  match world_objects sc with
  | [] => h
  | _ :: _ =>
      let h1 := emit_null InWorld (str "ObjectsAndWMs") h in
      let h2 := foldl (emit_world_object sc (matched_wm_to_obj sc)) h1
                      (enumerate (world_objects sc)) in
      match keyframer_keys_map sc with
      | [] => h2
      | _ :: _ => foldl (emit_key_track sc) h2 (dict_keys (keyframer_keys_map sc))
      end
  end.

Definition emit_skyportals (sc : scene) (h : hstate) : hstate :=
  match skyportals_all sc with
  | [] => h
  | _ :: _ =>
      let h1 := emit_null InWorld (str "SkyPortals") h in
      bump_propid (foldl (fun h _ => emit_brush_same_propid InSkyPortals h) h1
                         (skyportals_all sc))
  end.

Definition emit_occluders (sc : scene) (h : hstate) : hstate :=
  match occluders_all sc with
  | [] => h
  | _ :: _ =>
      let h1 := emit_null InWorld (str "Occluders") h in
      foldl (fun h _ => emit_brush InOccluders h) h1 (occluders_all sc)
  end.

Definition emit_blockers (sc : scene) (h : hstate) : hstate :=
  match polyBlocks_count sc with
  | O => h
  | S _ =>
      let h1 := emit_null InWorld (str "Blockers") h in
      bump_propid (repeat_emit (polyBlocks_count sc)
                               (emit_brush_same_propid InBlockers) h1)
  end.

Definition emit_particle_blockers (sc : scene) (h : hstate) : hstate :=
  match polypParticleblock_count sc with
  | O => h
  | S _ =>
      let h1 := emit_null InWorld (str "ParticleBlockers") h in
      bump_propid (repeat_emit (polypParticleblock_count sc)
                               (emit_brush_same_propid InParticleBlockers) h1)
  end.

(** The node hierarchy of the export: the counters at the end and the
    nodes in the order they are written. *)
Definition node_hierarchy (map_name : pystr) (sc : scene) : hstate :=
  let h0 : hstate := (mkC 0 1 1, []) in
  let h1 := emit_null AtTop map_name h0 in
  let h2 := emit_null InWorld (str "RenderNodes") h1 in
  let h3 := foldl (fun h e => emit_render_node e h) h2 (section_brushes_by_node sc) in
  let h4 := emit_objects sc h3 in
  let h5 := emit_skyportals sc h4 in
  let h6 := emit_occluders sc h5 in
  let h7 := emit_blockers sc h6 in
  emit_particle_blockers sc h7.

(** *** Second pass: the global property list *)

(** One [( proplist ... )]. *)
Inductive proplist : Type :=
| PLEmpty
| PLSection (name lighting texture_effect : pystr)
| PLObject (i : nat) (props : list (pystr * pyvalue))
| PLKey (k : keyframe)
| PLSkyPortal
| PLOccluder (occ_name : pystr)
| PLBlocker
| PLParticleBlocker.

Definition rn_prop_name (node_index section_index : nat) : pystr :=
  str "RN" ++ str_of_Z (Z.of_nat node_index) ++ str "_S"
      ++ str_of_Z (Z.of_nat section_index).

Definition props_of_render_node (sc : scene) (node_index : nat) : list proplist :=
  match dict_get (section_brushes_by_node sc) node_index with
  | Some section_list =>
      imap (fun section_index b =>
              PLSection (rn_prop_name node_index section_index)
                        (b_shader_str b) (b_texture_effect b)) section_list
  | None => []
  end.

Definition props_of_world_object (sc : scene) (m : gmap nat nat)
           (e : nat * list (pystr * pyvalue)) : list proplist :=
  let '(i, props) := e in
  PLObject i props ::
  match m !! i with
  | Some wm_id =>
      map (fun s => PLSection (wm_label s) (wm_shader_str s) (wm_texture_effect s))
          (sections_of sc wm_id)
  | None => []
  end.

(** The first name whose hash is the occluder's, or ["Occluder"]. *)
Fixpoint occluder_name (names : list (pystr * Z)) (occ_hashcode : Z) : pystr :=
  match names with
  | [] => str "Occluder"
  | (nm, hsh) :: rest => if hsh =? occ_hashcode then nm else occluder_name rest occ_hashcode
  end.

Definition global_proplist (sc : scene) : list proplist :=
  [PLEmpty]
  ++ concat (map (props_of_render_node sc)
                 (merge_sort Nat.le (dict_keys (section_brushes_by_node sc))))
  ++ concat (map (props_of_world_object sc (matched_wm_to_obj sc))
                 (enumerate (world_objects sc)))
  ++ concat (map (fun e => map PLKey (snd e)) (keyframer_keys_map sc))
  ++ (match skyportals_all sc with [] => [] | _ :: _ => [PLSkyPortal] end)
  ++ map (fun o => PLOccluder (occluder_name (occluder_names sc) (snd o)))
         (occluders_all sc)
  ++ (match polyBlocks_count sc with O => [] | S _ => [PLBlocker] end)
  ++ (match polypParticleblock_count sc with O => [] | S _ => [PLParticleBlocker] end).

End Hierarchy.

(** ** Surface flags *)

(** The module-level [SURFACE_FLAGS], in the order of the dictionary. *)
Definition SURFACE_FLAGS : list (Z * pystr) :=
  [ (Z.shiftl 1 0, str "SOLID");
    (Z.shiftl 1 1, str "NONEXISTENT");
    (Z.shiftl 1 2, str "INVISIBLE");
    (Z.shiftl 1 4, str "SKY");
    (Z.shiftl 1 6, str "FLATSHADE");
    (Z.shiftl 1 7, str "LIGHTMAP");
    (Z.shiftl 1 8, str "NOSUBDIV");
    (Z.shiftl 1 10, str "PARTICLEBLOCKER");
    (Z.shiftl 1 12, str "GOURAUDSHADE");
    (Z.shiftl 1 17, str "PHYSICSBLOCKER");
    (Z.shiftl 1 19, str "RBSPLITTER");
    (Z.shiftl 1 21, str "VISBLOCKER");
    (Z.shiftl 1 22, str "NOTASTEP");
    (Z.shiftl 1 24, str "RECEIVELIGHT");
    (Z.shiftl 1 25, str "RECEIVESHADOWS");
    (Z.shiftl 1 26, str "RECEIVESUNLIGHT");
    (Z.shiftl 1 28, str "SHADOWMESH");
    (Z.shiftl 1 29, str "CASTSHADOWMESH");
    (Z.shiftl 1 30, str "CLIPLIGHT") ].

(** [[name for bit, name in SURFACE_FLAGS.items() if flags & bit]] *)
Definition decode_surface_flags (flags : Z) : list pystr :=
  omap (fun e : Z * pystr =>
          if Z.land flags (fst e) =? 0 then None else Some (snd e)) SURFACE_FLAGS.

(** [name in flags] for a set of names. *)
Definition has (flags : gset pystr) (name : string) : bool :=
  bool_decide (str name ∈ flags).

Definition get_surface_type (flags : gset pystr) : pystr :=
  if has flags "NONEXISTENT" then
    if has flags "VISBLOCKER" then str "Occluder"
    else if has flags "RBSPLITTER" then str "RBSplitter"
    else str "RenderOnly"
  else if negb (has flags "SOLID") then str "NonSolid"
  else if has flags "SKY" then str "SkyPortal"
  else str "Normal".

Definition get_lighting_type (flags : gset pystr) : pystr :=
  if has flags "SHADOWMESH" && has flags "GOURAUDSHADE" then str "ShadowMesh"
  else if has flags "LIGHTMAP" then str "Lightmap"
  else if has flags "GOURAUDSHADE" then str "Gouraud"
  else if has flags "FLATSHADE" then str "Flat"
  else str "Gouraud".

(** ** The world layout *)

(** How a call ends when it can also run into the interpreter's recursion
    limit, which cuts it with [RecursionError]. *)
Inductive outcome (A : Type) : Type :=
| Done (r : res A)
| RecursionError.
Arguments Done {A} r.
Arguments RecursionError {A}.

Definition then_ {A B} (o : outcome A) (k : A -> outcome B) : outcome B :=
  match o with
  | Done (Ok a) => k a
  | Done (Raise e) => Done (Raise e)
  | RecursionError => RecursionError
  end.

(** The dictionary [reader]. *)
Record bit_reader : Type := mkReader {
  rd_data : list byte;
  rd_byte : nat;
  rd_bit : nat
}.

(** [(byte >> bit) & 1] *)
Definition bit_of (b : byte) (bit : nat) : Z :=
  Z.land (Z.shiftr (Z.of_N (Byte.to_N b)) (Z.of_nat bit)) 1.

Definition connector (is_last : bool) : pystr :=
  if is_last then [9492; 9472; 9472; 32]%N else [9500; 9472; 9472; 32]%N.

Definition indent (is_last : bool) : pystr :=
  if is_last then str "    " else [9474; 32; 32; 32]%N.

Definition node_line : pystr := str "[Node]" ++ [10%N].
Definition leaf_line : pystr := str "[Leaf]" ++ [10%N].

(** The inner function [read_node]; [depth] is the number of nested calls
    the interpreter still allows, and the state is the reader with the
    list [out]. *)
Fixpoint read_node (depth : nat) (prefix : pystr) (is_last : bool)
         (s : bit_reader * list pystr) : outcome (bit_reader * list pystr) :=
  match depth with
  | O => RecursionError
  | S depth' =>
      let '(reader, out) := s in
      match rd_data reader !! rd_byte reader with
      | None => Done (Raise IndexError)
      | Some b =>
          let bit := bit_of b (rd_bit reader) in
          let reader :=
            if Nat.eqb (rd_bit reader + 1) 8
            then mkReader (rd_data reader) (rd_byte reader + 1) 0
            else mkReader (rd_data reader) (rd_byte reader) (rd_bit reader + 1) in
          let out :=
            out ++ [prefix ++ connector is_last
                           ++ (if bit =? 0 then leaf_line else node_line)] in
          let new_prefix := prefix ++ indent is_last in
          if bit =? 0 then Done (Ok (reader, out))
          else
            then_ (read_node depth' new_prefix false (reader, out)) (fun s0 =>
            then_ (read_node depth' new_prefix false s0) (fun s1 =>
            then_ (read_node depth' new_prefix false s1) (fun s2 =>
            read_node depth' new_prefix true s2)))
      end
  end.

Definition layout_header : pystr := str "Parsed WorldLayout Tree:" ++ [10%N].

Definition parse_and_dump_worldtree (depth : nat) (data : list byte)
  : outcome (list pystr) :=
  then_ (read_node depth [] true (mkReader data 0 0, [layout_header]))
        (fun s => Done (Ok (snd s))).

(** ** World models *)

(** [struct.unpack("<i", bs)]: a signed word. *)
Definition le_int (bs : list byte) : Z :=
  let v := le_uint bs in if v <? 2 ^ 31 then v else v - 2 ^ 32.

Definition read_i32 : M Z :=
  do bs <- f_read 4;
  if Nat.eqb (length bs) 4 then ret (le_int bs) else raise StructError.

(** [for x in l] threading the variables the body assigns. *)
Fixpoint for_each {A T : Type} (l : list A) (body : A -> T -> M T) (s : T) : M T :=
  match l with
  | [] => ret s
  | a :: l' => do s' <- body a s; for_each l' body s'
  end.

(** [bs.split(sep)] for a one-byte separator. *)
Fixpoint split (sep : byte) (bs : list byte) : list (list byte) :=
  match bs with
  | [] => [[]]
  | b :: r =>
      if Byte.eqb b sep then [] :: split sep r
      else match split sep r with
           | t :: ts => (b :: t) :: ts
           | [] => [[b]]
           end
  end.

(** [struct.unpack(f"<{n}I", bs)] *)
Definition unpack_words (n : nat) (bs : list byte) : res (list Z) :=
  if Nat.eqb (length bs) (4 * n)
  then Ok (map (fun i => le_uint (take 4 (drop (4 * i) bs))) (seq 0 n))
  else Raise StructError.

Module WorldModel.

(** An entry of [surfaces]. *)
Record surface : Type := mkSurface {
  Flags : Z;
  TextureIndex : Z;
  TextureFlags : Z
}.

Record t : Type := mk {
  dummy : Z;
  world_info_flags : Z;
  world_name : pystr;
  texture_names : list pystr;
  points_len : Z;
  planes_len : Z;
  surfaces_len : Z;
  portals : Z;
  polies_len : Z;
  leaves_len : Z;
  polies_vertices_len : Z;
  visible_list_len : Z;
  leaf_list : Z;
  nodes_len : Z;
  world_bbox_min : Vec3 f32;
  world_bbox_max : Vec3 f32;
  world_translation : Vec3 f32;
  vertices_len : list Z;
  planes : list (Vec3 f32 * f32);
  surfaces : list surface;
  polies : list (Z * Z * list Z);
  nodes : list (Z * Z * (Z * Z));
  points : list (Vec3 f32);
  root_node_index : Z;
  sections : Z
}.

(** The loop of [parse_texture_names] over the pieces of the split. *)
Fixpoint texture_names_loop (textures : list (list byte)) (result : list pystr)
  : res (list pystr) :=
  match textures with
  | [] => Ok result
  | [] :: rest => texture_names_loop rest result
  | t :: rest =>
      match Codec.decode_utf8 Codec.strict t with
      | Ok s => texture_names_loop rest (result ++ [slashes s])
      | Raise e => Raise e
      end
  end.

Definition parse_texture_names (raw_bytes : list byte) : res (list pystr) :=
  texture_names_loop (split x00 raw_bytes) [].

Definition read_plane (_ : nat) (acc : list (Vec3 f32 * f32)) : M (list (Vec3 f32 * f32)) :=
  do n <- Vec3_read;
  do d <- read_f32;
  ret (acc ++ [(n, d)]).

(** [struct.unpack("<IHH", f.read(8))] *)
Definition read_surface (_ : nat) (acc : list surface) : M (list surface) :=
  do bs <- f_read 8;
  if Nat.eqb (length bs) 8
  then ret (acc ++ [mkSurface (le_uint (take 4 bs)) (le_uint (take 2 (drop 4 bs)))
                              (le_uint (take 2 (drop 6 bs)))])
  else raise StructError.

Definition read_poly (vert_count : Z) (acc : list (Z * Z * list Z))
  : M (list (Z * Z * list Z)) :=
  do surface_idx <- read_u32;
  do plane_idx <- read_u32;
  do bs <- f_read (4 * Z.to_nat vert_count);
  do indices <- lift (unpack_words (Z.to_nat vert_count) bs);
  ret (acc ++ [(surface_idx, plane_idx, indices)]).

Definition read_bsp_node (_ : nat) (acc : list (Z * Z * (Z * Z))) : M (list (Z * Z * (Z * Z))) :=
  do poly_idx <- read_u32;
  do zero <- read_u16;
  do bs <- f_read 8;
  if Nat.eqb (length bs) 8
  then ret (acc ++ [(poly_idx, zero, (le_int (take 4 bs), le_int (drop 4 bs)))])
  else raise StructError.

Definition read_point (_ : nat) (acc : list (Vec3 f32)) : M (list (Vec3 f32)) :=
  do p <- Vec3_read; ret (acc ++ [p]).

Definition read : M t :=
  do head <- WorldModel_read_name;
  let '(dummy, world_info_flags, world_name) := head in
  do points_len <- read_u32;
  do planes_len <- read_u32;
  do surfaces_len <- read_u32;
  do portals <- read_u32;
  do polies_len <- read_u32;
  do leaves_len <- read_u32;
  do polies_vertices_len <- read_u32;
  do visible_list_len <- read_u32;
  do leaf_list <- read_u32;
  do nodes_len <- read_u32;
  do world_bbox_min <- Vec3_read;
  do world_bbox_max <- Vec3_read;
  do world_translation <- Vec3_read;
  do texture_names_size <- read_u32;
  do texture_names_len <- read_u32;
  do raw_texture_data <- f_read (Z.to_nat texture_names_size);
  do texture_names <- lift (parse_texture_names raw_texture_data);
  do vl <- f_read (Z.to_nat polies_len);
  let vertices_len := map (fun b => Z.of_N (Byte.to_N b)) vl in
  do planes <- for_range planes_len read_plane [];
  do surfaces <- for_range surfaces_len read_surface [];
  do polies <- for_each vertices_len read_poly [];
  do nodes <- for_range nodes_len read_bsp_node [];
  do points <- for_range points_len read_point [];
  do root_node_index <- read_i32;
  do sections <- read_u32;
  ret (mk dummy world_info_flags world_name texture_names points_len planes_len
          surfaces_len portals polies_len leaves_len polies_vertices_len
          visible_list_len leaf_list nodes_len world_bbox_min world_bbox_max
          world_translation vertices_len planes surfaces polies nodes points
          root_node_index sections).

End WorldModel.

Module WorldTree.

Record t : Type := mk {
  root_bbox_min : Vec3 f32;
  root_bbox_max : Vec3 f32;
  sub_nodes_len : Z;
  terrain_depth : Z;
  world_layout : list byte;
  layout_tree_strs : list pystr;
  world_models_len : Z;
  world_models : list WorldModel.t
}.

(** The statements before the call of [parse_and_dump_worldtree]. *)
Definition read_layout : M (Vec3 f32 * Vec3 f32 * Z * Z * list byte) :=
  do root_bbox_min <- Vec3_read;
  do root_bbox_max <- Vec3_read;
  do sub_nodes_len <- read_u32;
  do terrain_depth <- read_u32;
  let layout_len_bytes := (sub_nodes_len + 7) / 8 in
  do world_layout <- f_read (Z.to_nat layout_len_bytes);
  ret (root_bbox_min, root_bbox_max, sub_nodes_len, terrain_depth, world_layout).

(** The statements after it. *)
Definition read_models : M (Z * list WorldModel.t) :=
  do world_models_len <- read_u32;
  do world_models <- for_range world_models_len
                       (fun _ acc => do wm <- WorldModel.read; ret (acc ++ [wm])) [];
  ret (world_models_len, world_models).

(** [WorldTree.read]; [depth] is the recursion the interpreter allows to
    the layout parser. *)
Definition read (depth : nat) (st : rstate) : outcome (t * rstate) :=
  match read_layout st with
  | Raise e => Done (Raise e)
  | Ok ((root_bbox_min, root_bbox_max, sub_nodes_len, terrain_depth, world_layout), st1) =>
      then_ (parse_and_dump_worldtree depth world_layout) (fun layout_tree_strs =>
        match read_models st1 with
        | Raise e => Done (Raise e)
        | Ok ((world_models_len, world_models), st2) =>
            Done (Ok (mk root_bbox_min root_bbox_max sub_nodes_len terrain_depth
                         world_layout layout_tree_strs world_models_len world_models,
                      st2))
        end)
  end.

End WorldTree.

(** ** Decoded floats *)

(** The value [struct.unpack("<f", ...)] gives for a 32-bit pattern: the
    binary32 number it encodes, which every binary64 float holds exactly. *)
Definition float_of_f32 (w : Z) : float :=
  let s := Z.testbit w 31 in
  let e := Z.land (Z.shiftr w 23) 255 in
  let m := Z.land w 0x7FFFFF in
  SF2Prim
    (if e =? 255 then (if m =? 0 then S754_infinity s else S754_nan)
     else if e =? 0 then
       match m with
       | Zpos p => S754_finite s p (-149)
       | _ => S754_zero s
       end
     else
       match m + 0x800000 with
       | Zpos p => S754_finite s p (e - 150)
       | _ => S754_zero s
       end).

Definition Vec3_float (v : Vec3 f32) : Vec3 float :=
  mkVec3 (float_of_f32 (vx v)) (float_of_f32 (vy v)) (float_of_f32 (vz v)).

(** [Vec2.read(f)] *)
Definition Vec2_read : M Vec2 :=
  do bs <- f_read 8;
  if Nat.eqb (length bs) 8
  then ret (mkVec2 (float_of_f32 (le_uint (take 4 bs)))
                   (float_of_f32 (le_uint (drop 4 bs))))
  else raise StructError.

(** ** Vertex data *)

(** The body of the loop of [read_vertex_data]. *)
Definition read_vertex (version_flag : pystr) (_ : nat) (vertices : list Vertex)
  : M (list Vertex) :=
  do pos <- Vec3_read;
  do uv0 <- Vec2_read;
  do uv1 <- Vec2_read;
  do color <- f_read 4;
  do normal <- Vec3_read;
  do_ (if pystr_eqb version_flag (str "-v1")
       then do tangent <- Vec3_read; do binormal <- Vec3_read; ret tt
       else ret tt);
  ret (vertices ++ [mkVertex (Vec3_float pos) (Vec3_float normal) uv0 uv1 color]).

Definition read_vertex_data (count : Z) (version_flag : pystr) : M (list Vertex) :=
  for_range count (read_vertex version_flag) [].

(** ** Blocker polygons *)

(** One [( polyhedron ... )] of a blocker: its points, the indices of its
    only face, the plane normal and distance. *)
Record blocker_polyhedron : Type := mkBlocker {
  bl_pointlist : list (Vec3 float);
  bl_f : list nat;
  bl_n : Vec3 float;
  bl_dist : float
}.

(** [[Vec3.read(f) for _ in range(vcount)]] *)
Definition read_verts (vcount : Z) : M (list (Vec3 f32)) :=
  for_range vcount (fun _ acc => do v <- Vec3_read; ret (acc ++ [v])) [].

Section Blockers.
Variable WORLD_OFFSET : option (Vec3 float).

(** The body of the loop over the polygons; [out_file] holds what has been
    written. *)
Definition write_blocker (i : nat) (out_file : list blocker_polyhedron)
  : M (list blocker_polyhedron) :=
  do normal <- Vec3_read;
  do dist <- read_f32;
  do vcount <- read_u32;
  do verts <- read_verts vcount;
  ret (out_file
         ++ [mkBlocker (map (fun v => apply_world_offset WORLD_OFFSET (Vec3_float v)) verts)
                       (seq 0 (Z.to_nat vcount)) (Vec3_float normal) (float_of_f32 dist)]).

Definition write_physics_polygons (header : LithtechHeader)
           (out_file : list blocker_polyhedron) : M (Z * list blocker_polyhedron) :=
  do_ f_seek (Z.to_nat (collision_data_pos header));
  do poly_count <- read_u32;
  do out_file <- for_range poly_count write_blocker out_file;
  ret (poly_count, out_file).

Definition write_particleblockers_polygons (header : LithtechHeader)
           (out_file : list blocker_polyhedron) : M (Z * list blocker_polyhedron) :=
  do_ f_seek (Z.to_nat (particle_blocker_data_pos header));
  do poly_count <- read_u32;
  do out_file <- for_range poly_count write_blocker out_file;
  ret (poly_count, out_file).
End Blockers.

(** ** The second reader of the world objects *)

(** The [if]/[elif] chain of [read_world_objects_lta]: the value and the
    type recorded for it in [meta]. *)
Definition read_prop_value_lta (data_type data_size : Z) : M (pyvalue * pystr) :=
  if data_type =? 0 then do s <- read_lithtech_string; ret (VStr s, str "string")
  else if data_type =? 1 then do v <- Vec3_read; ret (VVec3 v, str "vector")
  else if data_type =? 2 then do v <- Vec3_read; ret (VVec3 v, str "color")
  else if data_type =? 3 then do x <- read_f32; ret (VFloat x, str "real")
  else if data_type =? 5 then do b <- read_u8; ret (VBool (negb (b =? 0)), str "bool")
  else if data_type =? 6 then do x <- read_f32; ret (VFloat x, str "longint")
  else if data_type =? 7 then do q <- Quaternion_read; ret (VQuat q, str "rotation")
  else do_ f_seek_cur (Z.to_nat data_size); ret (VNone, str "string").

(** The body of the loop over the properties; the state is the pair of
    dictionaries [props] and [meta]. *)
Definition read_property_lta (_ : nat)
           (pm : list (pystr * pyvalue) * list (pystr * pystr))
  : M (list (pystr * pyvalue) * list (pystr * pystr)) :=
  do name <- read_lithtech_string;
  do data_type <- read_u8;
  do flags <- read_u32;
  do data_size <- read_u16;
  do vm <- read_prop_value_lta data_type data_size;
  ret (dict_set (fst pm) name (fst vm), dict_set (snd pm) name (snd vm)).

(** The body of the loop over the objects; the state is the pair of lists
    [objects] and [metas]. *)
Definition read_world_object_lta (i : nat)
           (acc : list (list (pystr * pyvalue)) * list (list (pystr * pystr)))
  : M (list (list (pystr * pyvalue)) * list (list (pystr * pystr))) :=
  do object_size <- read_u16;
  do obj_type <- read_lithtech_string;
  do prop_count <- read_u32;
  do pm <- for_range prop_count read_property_lta ([(str "__Type", VStr obj_type)], []);
  ret (fst acc ++ [fst pm], snd acc ++ [snd pm]).

Definition read_world_objects_lta (header : LithtechHeader)
  : M (list (list (pystr * pyvalue)) * list (list (pystr * pystr))) :=
  do_ f_seek (Z.to_nat (object_data_pos header));
  do count <- read_u32;
  for_range count read_world_object_lta ([], []).

(** ** The physics scene *)

(** [l[i]] for an integer index; a negative index counts from the end. *)
Definition getitem {A} (l : list A) (i : Z) : res A :=
  let n := Z.of_nat (length l) in
  let j := if i <? 0 then i + n else i in
  if (0 <=? j) && (j <? n)
  then match l !! Z.to_nat j with
       | Some a => Ok a
       | None => Raise IndexError
       end
  else Raise IndexError.

(** A loop over a list whose body can raise. *)
Fixpoint foldM {A S : Type} (f : S -> A -> res S) (l : list A) (s : S) : res S :=
  match l with
  | [] => Ok s
  | a :: l' =>
      match f s a with
      | Ok s' => foldM f l' s'
      | Raise e => Raise e
      end
  end.

(** [d[k].append(x)] on a [defaultdict(list)] with keys of any type. *)
Definition append_under {K V} `{EqDecision K} (d : list (K * list V)) (k : K) (x : V)
  : list (K * list V) :=
  match dict_get d k with
  | Some l => dict_set d k (l ++ [x])
  | None => dict_set d k [x]
  end.

(** One [( editpoly ... )] of a surface: the face, the plane and the name
    of the texture (the texture basis is the fixed one). *)
Record surface_editpoly : Type := mkSurfacePoly {
  sf_f : list nat;
  sf_n : Vec3 float;
  sf_dist : float;
  sf_name : pystr
}.

Record surface_polyhedron : Type := mkSurfaceBrush {
  sf_pointlist : list (Vec3 float);
  sf_polylist : list surface_editpoly
}.

(** A [( worldnode ... )] of the physics scene: of type [null] with
    [propid 0], or a brush. *)
Inductive physics_node : Type :=
| PhysNull (label : pystr) (nodeid : Z)
| PhysBrush (brushindex nodeid propid : Z).

(** A [( proplist ... )] of the physics scene. *)
Inductive physics_proplist : Type :=
| PhysEmpty
| PhysSurface (name type lighting : pystr)
              (NotAStep ClipLight CastShadowMesh ReceiveLight ReceiveShadows
               ReceiveSunlight : bool).

Record physics_lta : Type := mkPhysics {
  ph_polyhedronlist : list surface_polyhedron;
  ph_nodehierarchy : list physics_node;
  ph_globalproplist : list physics_proplist
}.

(** The dictionary [surface_to_polies] of a world model. *)
Definition surface_to_polies (world_model : WorldModel.t)
  : list (Z * list (nat * Z * list Z)) :=
  foldl (fun d (e : nat * (Z * Z * list Z)) =>
           let '(poly_idx, (surface_idx, plane_idx, indices)) := e in
           append_under d surface_idx (poly_idx, plane_idx, indices))
        [] (Hierarchy.enumerate (WorldModel.polies world_model)).

(** [sorted(surface_to_polies.keys())] *)
Definition sorted_surfaces (world_model : WorldModel.t) : list Z :=
  merge_sort Z.le (dict_keys (surface_to_polies world_model)).

Section WriteSurfaces.
Variable WORLD_OFFSET : option (Vec3 float).

(** The body of the loop that fills [point_map] and [local_points]. *)
Definition visit_point (points : list (Vec3 f32))
           (acc : list (Vec3 f32) * gmap Z nat) (idx : Z)
  : res (list (Vec3 f32) * gmap Z nat) :=
  let '(local_points, point_map) := acc in
  match point_map !! idx with
  | Some _ => Ok acc
  | None =>
      match getitem points idx with
      | Ok p => Ok (local_points ++ [p], <[idx := length local_points]> point_map)
      | Raise e => Raise e
      end
  end.

(** The body of the loop that writes the polygons of a surface. *)
Definition surface_editpoly_of (world_model : WorldModel.t) (surface_idx : Z)
           (point_map : gmap Z nat) (e : nat * Z * list Z) : res surface_editpoly :=
  let '(poly_idx, plane_idx, indices) := e in
  match getitem (WorldModel.planes world_model) plane_idx with
  | Raise x => Raise x
  | Ok (n, dist) =>
      match mapM (fun i => match point_map !! i with
                           | Some j => Ok j
                           | None => Raise KeyError
                           end) indices with
      | Raise x => Raise x
      | Ok local_indices =>
          match getitem (WorldModel.surfaces world_model) surface_idx with
          | Raise x => Raise x
          | Ok s =>
              let tex_idx := WorldModel.TextureIndex s in
              let names := WorldModel.texture_names world_model in
              let tex_name :=
                if (0 <=? tex_idx) && (tex_idx <? Z.of_nat (length names))
                then match names !! Z.to_nat tex_idx with
                     | Some nm => nm
                     | None => str "Default"
                     end
                else str "Default" in
              Ok (mkSurfacePoly local_indices (Vec3_float n) (float_of_f32 dist) tex_name)
          end
      end
  end.

(** The polyhedron of one surface of a world model. *)
Definition surface_polyhedron_of (world_model : WorldModel.t) (surface_idx : Z)
  : res surface_polyhedron :=
  let polys :=
    match dict_get (surface_to_polies world_model) surface_idx with
    | Some l => l
    | None => []
    end in
  match foldM (fun acc (e : nat * Z * list Z) =>
                 foldM (visit_point (WorldModel.points world_model)) (snd e) acc)
              polys ([], ∅) with
  | Raise x => Raise x
  | Ok (local_points, point_map) =>
      match mapM (surface_editpoly_of world_model surface_idx point_map) polys with
      | Raise x => Raise x
      | Ok polylist =>
          Ok (mkSurfaceBrush
                (map (fun pt => apply_world_offset WORLD_OFFSET (Vec3_float pt)) local_points)
                polylist)
      end
  end.

(** The first loop: the polyhedra and [global_surface_data], in which a
    world model stands as its position in [world_models]. *)
Definition write_polyhedra (world_models : list WorldModel.t)
  : res (list surface_polyhedron * list (nat * WorldModel.t * Z)) :=
  foldM (fun acc (e : nat * WorldModel.t) =>
           let '(i, world_model) := e in
           foldM (fun acc surface_idx =>
                    let '(written, global_surface_data) := acc in
                    match surface_polyhedron_of world_model surface_idx with
                    | Ok ph => Ok (written ++ [ph],
                                   global_surface_data ++ [(i, world_model, surface_idx)])
                    | Raise x => Raise x
                    end)
                 (sorted_surfaces world_model) acc)
        (Hierarchy.enumerate world_models) ([], []).

(** The second loop: the node hierarchy. *)
Definition physics_brush_node (h : Hierarchy.counters * list physics_node)
  : Hierarchy.counters * list physics_node :=
  let '(c, ns) := h in
  (Hierarchy.mkC (Hierarchy.brushindex c + 1) (Hierarchy.base_nodeid c + 1)
                 (Hierarchy.base_propid c + 1),
   ns ++ [PhysBrush (Hierarchy.brushindex c) (Hierarchy.base_nodeid c)
                    (Hierarchy.base_propid c)]).

Definition physics_null_node (label : pystr) (h : Hierarchy.counters * list physics_node)
  : Hierarchy.counters * list physics_node :=
  let '(c, ns) := h in
  (Hierarchy.mkC (Hierarchy.brushindex c) (Hierarchy.base_nodeid c + 1)
                 (Hierarchy.base_propid c),
   ns ++ [PhysNull label (Hierarchy.base_nodeid c)]).

Definition physics_nodes (world_models : list WorldModel.t) (map_name : pystr)
  : list physics_node :=
  let h0 := physics_null_node (map_name ++ str "_PhysicsDATA") (Hierarchy.mkC 0 1 1, []) in
  snd (foldl (fun h world_model =>
                foldl (fun h _ => physics_brush_node h)
                      (physics_null_node (WorldModel.world_name world_model) h)
                      (sorted_surfaces world_model))
             h0 world_models).

(** The property list written for a surface. *)
Definition surface_proplist (surfaceinx : Z) (surface : WorldModel.surface)
  : physics_proplist :=
  let flags : gset pystr :=
    list_to_set (decode_surface_flags (WorldModel.Flags surface)) in
  PhysSurface (str "Surface" ++ str_of_Z surfaceinx)
              (get_surface_type flags) (get_lighting_type flags)
              (has flags "NOTASTEP") (has flags "CLIPLIGHT")
              (has flags "CASTSHADOWMESH") (has flags "RECEIVELIGHT")
              (has flags "RECEIVESHADOWS") (has flags "RECEIVESUNLIGHT").

(** The third loop: the property lists; the state is [surfaceinx],
    [last_wm] and what has been written. *)
Definition physics_proplist_of (acc : Z * option nat * list physics_proplist)
           (e : nat * WorldModel.t * Z)
  : res (Z * option nat * list physics_proplist) :=
  let '(surfaceinx, last_wm, written) := acc in
  let '(i, wm, surface_idx) := e in
  let surfaceinx := if bool_decide (Some i = last_wm) then surfaceinx else 0 in
  match getitem (WorldModel.surfaces wm) surface_idx with
  | Raise x => Raise x
  | Ok surface =>
      Ok (surfaceinx + 1, Some i, written ++ [surface_proplist surfaceinx surface])
  end.

Definition write_surfaces_to_lta (worldtree : WorldTree.t) (map_name : pystr)
  : res physics_lta :=
  let world_models := WorldTree.world_models worldtree in
  match write_polyhedra world_models with
  | Raise x => Raise x
  | Ok (polyhedronlist, global_surface_data) =>
      let nodes := physics_nodes world_models map_name in
      match foldM physics_proplist_of global_surface_data (0, None, [PhysEmpty]) with
      | Raise x => Raise x
      | Ok (_, _, proplists) => Ok (mkPhysics polyhedronlist nodes proplists)
      end
  end.
End WriteSurfaces.

(** ** The world models of the export *)

Module WorldModels.

(** What is decoded for one sub-node of a world model before steps 4 to
    6: its sections, its vertices and its triangles. *)
Definition subnode : Type := (list section * list Vertex * list tri)%type.

(** What the loop over the world models builds. *)
Record t : Type := mk {
  stdout : list warning;
  wm_names_list : list pystr;
  wm_section_props : list wm_section_prop;
  all_wm_data : list (pystr * list (list Vertex * list group))
}.

(** The body of the loop over the sub-nodes of world model [wm_index]. *)
Definition read_subnode (wm_index : nat) (wm_name : pystr) (st : wm_state)
           (e : nat * subnode) : res wm_state :=
  let '(subnode_index, (sections, vertices, all_tris)) := e in
  match wm_subnode wm_index wm_name subnode_index sections vertices all_tris st with
  | Ok (_, st') => Ok st'
  | Raise x => Raise x
  end.

(** The body of the loop over the world models: [wm_data] starts empty
    for each of them and is stored under its name at the end. *)
Definition read_world_model (acc : t) (e : nat * (pystr * list subnode)) : res t :=
  let '(wm_index, (wm_name, subnodes)) := e in
  match foldM (read_subnode wm_index wm_name) (Hierarchy.enumerate subnodes)
              (mkWM (stdout acc) (wm_section_props acc) []) with
  | Ok (mkWM out props wm_data) =>
      Ok (mk out (wm_names_list acc ++ [wm_name]) props
             (dict_set (all_wm_data acc) wm_name wm_data))
  | Raise x => Raise x
  end.

Definition read_world_models (world_models : list (pystr * list subnode)) : res t :=
  foldM read_world_model (Hierarchy.enumerate world_models) (mk [] [] [] []).

(** [wm_ordered]: the names of the objects that are names of world
    models, in the order of the objects; [obj_name and obj_name in
    all_wm_data] holds of a non-empty string that is a key only. *)
Definition wm_ordered (world_objects : list (list (pystr * pyvalue)))
           (all_wm_data : list (pystr * list (list Vertex * list group))) : list pystr :=
  omap (fun obj =>
          match dict_get obj (str "Name") with
          | Some (VStr obj_name) =>
              match obj_name with
              | [] => None
              | _ :: _ => if dict_mem all_wm_data obj_name then Some obj_name else None
              end
          | _ => None
          end) world_objects.

Section Write.
Variable WORLD_OFFSET : option (Vec3 float).

Definition write_wm_data (written : list polyhedron) (d : list Vertex * list group)
  : res (list polyhedron) :=
  let '(verts, section_tris) := d in
  match write_polyhedron WORLD_OFFSET verts section_tris with
  | Ok ph => Ok (written ++ [ph])
  | Raise x => Raise x
  end.

(** The loop that writes the polyhedra of the world models. *)
Definition write_world_models (world_objects : list (list (pystr * pyvalue)))
           (all_wm_data : list (pystr * list (list Vertex * list group)))
  : res (list polyhedron) :=
  foldM (fun written wm_name =>
           foldM write_wm_data
                 (match dict_get all_wm_data wm_name with
                  | Some wm_data => wm_data
                  | None => []
                  end) written)
        (wm_ordered world_objects all_wm_data) [].
End Write.

End WorldModels.

(** ** Sky portals and occluders *)

(** Step 7 of a render node and of a sub-node of a world model: the sky
    portals, appended to the module-level list [skyportals_all]. *)
Definition read_skyportal (_ : nat)
           (skyportals_all : list (list (Vec3 float) * Vec3 float * float))
  : M (list (list (Vec3 float) * Vec3 float * float)) :=
  do vert_count <- read_u8;
  do verts <- read_verts vert_count;
  do plane_normal <- Vec3_read;
  do plane_dist <- read_f32;
  ret (skyportals_all
         ++ [(map Vec3_float verts, Vec3_float plane_normal, float_of_f32 plane_dist)]).

Definition read_skyportals (skyportals_all : list (list (Vec3 float) * Vec3 float * float))
  : M (list (list (Vec3 float) * Vec3 float * float)) :=
  do skip_blocks <- read_u32;
  for_range skip_blocks read_skyportal skyportals_all.

(** Step 8: the occluders, appended to [occluders_all]. *)
Definition read_occluder (_ : nat)
           (occluders_all : list (list (Vec3 float) * Vec3 float * float * Z))
  : M (list (list (Vec3 float) * Vec3 float * float * Z)) :=
  do vert_count <- read_u8;
  do verts <- read_verts vert_count;
  do plane_normal <- Vec3_read;
  do plane_dist <- read_f32;
  do occ_hashcode <- read_u32;
  ret (occluders_all
         ++ [(map Vec3_float verts, Vec3_float plane_normal, float_of_f32 plane_dist,
              occ_hashcode)]).

Definition read_occluders (occluders_all : list (list (Vec3 float) * Vec3 float * float * Z))
  : M (list (list (Vec3 float) * Vec3 float * float * Z)) :=
  do skip_occluders <- read_u32;
  for_range skip_occluders read_occluder occluders_all.

Section Portals.
Variable WORLD_OFFSET : option (Vec3 float).

(** What [write_skypo] writes: a polyhedron for each sky portal, of the
    shape of the polyhedra of the blockers, with the face [0 1 2 3]. *)
Definition write_skypo (skyportals_all : list (list (Vec3 float) * Vec3 float * float))
  : list blocker_polyhedron :=
  map (fun p : list (Vec3 float) * Vec3 float * float =>
         let '(verts, normal, dist) := p in
         mkBlocker (map (apply_world_offset WORLD_OFFSET) verts) [0; 1; 2; 3]%nat
                   normal dist)
      skyportals_all.

Definition write_occ (skyportals_all : list (list (Vec3 float) * Vec3 float * float * Z))
  : list blocker_polyhedron :=
  map (fun p : list (Vec3 float) * Vec3 float * float * Z =>
         let '(verts, normal, dist, occ_hashcode) := p in
         mkBlocker (map (apply_world_offset WORLD_OFFSET) verts) [0; 1; 2; 3]%nat
                   normal dist)
      skyportals_all.
End Portals.

(** ** The world information *)

Module LithtechWorldInfo.

(** The fields of the object, with the module-level [info_string]. *)
Record t : Type := mk {
  info_string : pystr;
  extents_min : Vec3 f32;
  extents_max : Vec3 f32;
  offset : Vec3 f32
}.

Definition read : M t :=
  do strlen <- read_u32;
  do bs <- f_read (Z.to_nat strlen);
  do info_string <- lift (Codec.decode_utf8 Codec.ignore bs);
  do extents_min <- Vec3_read;
  do extents_max <- Vec3_read;
  do offset <- Vec3_read;
  ret (mk info_string extents_min extents_max offset).

End LithtechWorldInfo.

(** [read_world_info]: the world information and the value it leaves in
    the module-level [WORLD_OFFSET]. *)
Definition read_world_info : M (LithtechWorldInfo.t * option (Vec3 float)) :=
  do world_info <- LithtechWorldInfo.read;
  ret (world_info, Some (Vec3_float (LithtechWorldInfo.offset world_info))).
(** * Properties *)

(** ** The cursor *)

Definition advance (st : rstate) (n : nat) : rstate :=
  mkState (f_data st) (f_pos st + n) (out st).

Lemma remaining_advance st bs rest :
  remaining st = bs ++ rest -> remaining (advance st (length bs)) = rest.
Proof.
  unfold remaining, advance; simpl; intros H.
  rewrite <- drop_drop, H. apply drop_app_length.
Qed.

Lemma remaining_at st pre rest n :
  remaining st = pre ++ rest -> length pre = n -> remaining (advance st n) = rest.
Proof. intros H <-. apply remaining_advance, H. Qed.

Lemma advance_advance st n m : advance (advance st n) m = advance st (n + m).
Proof. unfold advance; simpl. f_equal. lia. Qed.

Lemma f_read_exact st bs rest :
  remaining st = bs ++ rest ->
  f_read (length bs) st = Ok (bs, advance st (length bs)).
Proof.
  intros H. unfold f_read. rewrite H, take_app_length. reflexivity.
Qed.

Lemma bind_ok {A B} (c : M A) (k : A -> M B) st a st' :
  c st = Ok (a, st') -> bind c k st = k a st'.
Proof. unfold bind. intros ->. reflexivity. Qed.

Lemma bind_raise {A B} (c : M A) (k : A -> M B) st e :
  c st = Raise e -> bind c k st = Raise e.
Proof. unfold bind. intros ->. reflexivity. Qed.

Lemma bind_inv {A B} (c : M A) (k : A -> M B) st b st2 :
  bind c k st = Ok (b, st2) ->
  exists a st1, c st = Ok (a, st1) /\ k a st1 = Ok (b, st2).
Proof.
  unfold bind. destruct (c st) as [[a st1]|e]; [eauto | discriminate].
Qed.

Lemma read_uint_exact n st bs rest :
  remaining st = bs ++ rest -> length bs = n ->
  read_uint n st = Ok (le_uint bs, advance st n).
Proof.
  intros H <-. unfold read_uint.
  rewrite (bind_ok _ _ _ _ _ (f_read_exact _ _ _ H)).
  unfold lift, unpack_uint. rewrite Nat.eqb_refl. reflexivity.
Qed.

Lemma read_uint_inv n st v st' :
  read_uint n st = Ok (v, st') ->
  exists bs rest, remaining st = bs ++ rest /\ length bs = n /\ v = le_uint bs
                  /\ st' = advance st n.
Proof.
  unfold read_uint, bind, f_read, lift, unpack_uint.
  destruct (Nat.eqb_spec (length (take n (remaining st))) n) as [E|E]; [|discriminate].
  intros [= <- <-].
  exists (take n (remaining st)), (drop n (remaining st)).
  rewrite take_drop, E. auto.
Qed.

Lemma Vec3_read_exact st bs rest :
  remaining st = bs ++ rest -> length bs = 12%nat ->
  exists v, unpack_3f bs = Ok v /\ Vec3_read st = Ok (v, advance st 12).
Proof.
  intros H L. unfold Vec3_read.
  pose proof (f_read_exact _ _ _ H) as R. rewrite L in R.
  rewrite (bind_ok _ _ _ _ _ R).
  unfold lift, unpack_3f. rewrite L. simpl. eauto.
Qed.

Lemma Vec3_read_short st :
  (length (remaining st) < 12)%nat -> Vec3_read st = Raise StructError.
Proof.
  intros L. unfold Vec3_read, bind, f_read, lift, unpack_3f.
  rewrite length_take.
  destruct (Nat.eqb_spec (12 `min` length (remaining st)) 12); [lia | reflexivity].
Qed.

(** ** Keyframe entries *)

(** The bytes of a key before its tangents: two of type code, one each of
    the two lengths, 32 of position, rotation, time stamp and radius, then
    the two names. *)
Definition key_layout (st : rstate) (b0 b1 b2 b3 : byte) (fixed sn cm tail : list byte)
  : Prop :=
  remaining st = [b0; b1; b2; b3] ++ fixed ++ sn ++ cm ++ tail
  /\ length fixed = 32%nat
  /\ length sn = Z.to_nat (le_uint [b2])
  /\ length cm = Z.to_nat (le_uint [b3]).

Ltac at_offset Hrem pfx :=
  apply (remaining_at _ pfx);
  [ rewrite Hrem; simpl; rewrite <- ?app_assoc; simpl; rewrite <- ?app_assoc; reflexivity
  | rewrite ?length_app; simpl; lia ].

(** Running the fixed part of a key: the cursor stands after the command
    and the remaining bytes are [tail]. *)
Lemma read_key_prefix key_name key_idx st b0 b1 b2 b3 fixed sn cm tail :
  key_layout st b0 b1 b2 b3 fixed sn cm tail ->
  exists pos rot ts sr,
    remaining (advance st (36 + length sn + length cm)) = tail /\
    read_key key_name key_idx st =
    (do bez <- read_tangents (le_uint [b0; b1]);
     let k := mkKey (full_key_name key_name key_idx) pos rot ts sr
                    (Codec.decode_ascii_ignore sn) (Codec.decode_ascii_ignore cm)
                    (fst bez) (snd bez) in
     do_ print (EvKey key_idx (le_uint [b2]) (le_uint [b3]) k);
     ret k) (advance st (36 + length sn + length cm)).
Proof.
  intros (Hrem & Hf & Hsn & Hcm).
  set (p := take 12 fixed). set (r := take 12 (drop 12 fixed)).
  set (t := take 4 (drop 24 fixed)). set (s := drop 28 fixed).
  assert (Hfx : fixed = p ++ r ++ t ++ s).
  { subst p r t s.
    rewrite <- (take_drop 12 fixed) at 1. f_equal.
    rewrite <- (take_drop 12 (drop 12 fixed)) at 1. f_equal.
    rewrite drop_drop. simpl.
    rewrite <- (take_drop 4 (drop 24 fixed)) at 1. f_equal.
    rewrite drop_drop. reflexivity. }
  assert (Lp : length p = 12%nat) by (subst p; rewrite length_take; lia).
  assert (Lr : length r = 12%nat) by (subst r; rewrite length_take, length_drop; lia).
  assert (Lt : length t = 4%nat) by (subst t; rewrite length_take, length_drop; lia).
  assert (Ls : length s = 4%nat) by (subst s; rewrite length_drop; lia).
  clearbody p r t s. subst fixed. clear Hf.
  destruct (Vec3_read_exact (advance st 4) p (r ++ t ++ s ++ sn ++ cm ++ tail))
    as (pos & _ & Epos); [|exact Lp|].
  { at_offset Hrem [b0; b1; b2; b3]. }
  destruct (Vec3_read_exact (advance st 16) r (t ++ s ++ sn ++ cm ++ tail))
    as (rot & _ & Erot); [|exact Lr|].
  { at_offset Hrem ([b0; b1; b2; b3] ++ p). }
  exists pos, rot, (le_uint t), (le_uint s).
  split.
  { at_offset Hrem ([b0; b1; b2; b3] ++ p ++ r ++ t ++ s ++ sn ++ cm). }
  unfold read_key.
  rewrite (bind_ok _ _ _ _ _
             (read_uint_exact 2 st [b0; b1] ([b2; b3] ++ (p ++ r ++ t ++ s) ++ sn ++ cm ++ tail)
                              Hrem eq_refl)).
  rewrite (bind_ok _ _ _ (le_uint [b2]) (advance st 3)).
  2: { unfold read_u8. change 3%nat with (2 + 1)%nat. rewrite <- advance_advance.
       apply read_uint_exact with (rest := [b3] ++ (p ++ r ++ t ++ s) ++ sn ++ cm ++ tail);
         [|reflexivity].
       at_offset Hrem [b0; b1]. }
  rewrite (bind_ok _ _ _ (le_uint [b3]) (advance st 4)).
  2: { unfold read_u8. change 4%nat with (3 + 1)%nat. rewrite <- advance_advance.
       apply read_uint_exact with (rest := (p ++ r ++ t ++ s) ++ sn ++ cm ++ tail);
         [|reflexivity].
       at_offset Hrem [b0; b1; b2]. }
  rewrite (bind_ok _ _ _ _ _ Epos). rewrite advance_advance. simpl Nat.add.
  rewrite (bind_ok _ _ _ _ _ Erot). rewrite advance_advance. simpl Nat.add.
  rewrite (bind_ok _ _ _ (le_uint t) (advance st 32)).
  2: { change 32%nat with (28 + 4)%nat. rewrite <- advance_advance.
       apply read_uint_exact with (rest := s ++ sn ++ cm ++ tail); [|exact Lt].
       at_offset Hrem ([b0; b1; b2; b3] ++ p ++ r). }
  rewrite (bind_ok _ _ _ (le_uint s) (advance st 36)).
  2: { change 36%nat with (32 + 4)%nat. rewrite <- advance_advance.
       apply read_uint_exact with (rest := sn ++ cm ++ tail); [|exact Ls].
       at_offset Hrem ([b0; b1; b2; b3] ++ p ++ r ++ t). }
  rewrite (bind_ok _ _ _ sn (advance st (36 + length sn))).
  2: { rewrite <- Hsn, <- advance_advance. apply f_read_exact with (rest := cm ++ tail).
       at_offset Hrem ([b0; b1; b2; b3] ++ p ++ r ++ t ++ s). }
  rewrite (bind_ok _ _ _ cm (advance st (36 + length sn + length cm))).
  2: { rewrite <- Hcm, <- (advance_advance st (36 + length sn) (length cm)).
       apply f_read_exact with (rest := tail).
       at_offset Hrem ([b0; b1; b2; b3] ++ p ++ r ++ t ++ s ++ sn). }
  reflexivity.
Qed.

Lemma read_tangents_ok_code kt st r st' :
  read_tangents kt st = Ok (r, st') -> 0 <= kt <= 3.
Proof.
  unfold read_tangents.
  destruct (Z.eqb_spec kt 0); [lia|].
  destruct (Z.eqb_spec kt 1); [lia|].
  destruct (Z.eqb_spec kt 2); [lia|].
  destruct (Z.eqb_spec kt 3); [lia|].
  discriminate.
Qed.

Lemma read_key_ok_code key_name key_idx st k st' :
  read_key key_name key_idx st = Ok (k, st') ->
  exists b0 b1 rest,
    remaining st = b0 :: b1 :: rest /\ 0 <= le_uint [b0; b1] <= 3.
Proof.
  unfold read_key. intros H.
  apply bind_inv in H as (kt & s1 & Hkt & H).
  apply read_uint_inv in Hkt as (bs & rest & Hrem & Hlen & -> & _).
  destruct bs as [|b0 [|b1 [|? ?]]]; try discriminate.
  exists b0, b1, rest. split; [exact Hrem|].
  do 8 (apply bind_inv in H as (? & ? & _ & H)).
  apply bind_inv in H as (bez & s2 & Hbez & _).
  eapply read_tangents_ok_code, Hbez.
Qed.

(** C8. A key whose 16-bit interpolation-type code is not 0, 1, 2 or 3 is
    never decoded: [read_key] returns no entry for it, and when the fixed
    fields and the two names are present it raises [ValueError] at the
    position after the command.  For code 0 no tangent is read, for code 1
    the twelve bytes after the command become [bez_prev] alone, for code 2
    they become [bez_next] alone, and for code 3 the next twenty-four
    bytes become [bez_prev] and [bez_next], in that order. *)
Theorem read_key_interpolation_type key_name key_idx st :
  (forall k st', read_key key_name key_idx st = Ok (k, st') ->
     exists b0 b1 rest,
       remaining st = b0 :: b1 :: rest /\ 0 <= le_uint [b0; b1] <= 3)
  /\
  (forall b0 b1 b2 b3 fixed sn cm tail,
     key_layout st b0 b1 b2 b3 fixed sn cm tail ->
     let key_type := le_uint [b0; b1] in
     let body := (36 + length sn + length cm)%nat in
     let run := read_key key_name key_idx st in
     (key_type = 0 ->
        exists k st', run = Ok (k, st') /\ bez_prev k = None /\ bez_next k = None
                      /\ f_pos st' = (f_pos st + body)%nat)
     /\ (key_type = 1 -> forall t rest, tail = t ++ rest -> length t = 12%nat ->
        exists k st' p, run = Ok (k, st') /\ unpack_3f t = Ok p
                        /\ bez_prev k = Some p /\ bez_next k = None
                        /\ f_pos st' = (f_pos st + body + 12)%nat)
     /\ (key_type = 2 -> forall t rest, tail = t ++ rest -> length t = 12%nat ->
        exists k st' n, run = Ok (k, st') /\ unpack_3f t = Ok n
                        /\ bez_prev k = None /\ bez_next k = Some n
                        /\ f_pos st' = (f_pos st + body + 12)%nat)
     /\ (key_type = 3 -> forall t1 t2 rest, tail = t1 ++ t2 ++ rest ->
        length t1 = 12%nat -> length t2 = 12%nat ->
        exists k st' p n, run = Ok (k, st') /\ unpack_3f t1 = Ok p /\ unpack_3f t2 = Ok n
                          /\ bez_prev k = Some p /\ bez_next k = Some n
                          /\ f_pos st' = (f_pos st + body + 24)%nat)
     /\ (~ (0 <= key_type <= 3) ->
        run = Raise (ValueError key_type (f_pos st + body)))).
Proof.
  split; [intros k st'; apply read_key_ok_code|].
  intros b0 b1 b2 b3 fixed sn cm tail HL key_type body run.
  destruct (read_key_prefix key_name key_idx _ _ _ _ _ _ _ _ _ HL)
    as (pos & rot & ts & sr & Htail & Hrun).
  fold body in Htail, Hrun. fold key_type in Hrun.
  subst run. rewrite Hrun. clear Hrun.
  repeat split.
  - intros E. unfold read_tangents. rewrite E. simpl.
    eexists _, _. repeat split; reflexivity.
  - intros E t rest -> Lt. unfold read_tangents. rewrite E. simpl.
    destruct (Vec3_read_exact _ _ _ Htail Lt) as (p & Hp & Hr).
    unfold bind at 1. unfold bind at 1. rewrite Hr. simpl.
    eexists _, _, p. repeat split; try reflexivity; try exact Hp; simpl; lia.
  - intros E t rest -> Lt. unfold read_tangents. rewrite E. simpl.
    destruct (Vec3_read_exact _ _ _ Htail Lt) as (p & Hp & Hr).
    unfold bind at 1. unfold bind at 1. rewrite Hr. simpl.
    eexists _, _, p. repeat split; try reflexivity; try exact Hp; simpl; lia.
  - intros E t1 t2 rest -> L1 L2. unfold read_tangents. rewrite E. simpl.
    destruct (Vec3_read_exact _ _ _ Htail L1) as (p & Hp & Hr).
    assert (Htail2 : remaining (advance (advance st body) 12) = t2 ++ rest).
    { rewrite <- L1. apply remaining_advance. exact Htail. }
    destruct (Vec3_read_exact _ _ _ Htail2 L2) as (n & Hn & Hr2).
    unfold bind at 1. unfold bind at 1. rewrite Hr. unfold bind at 1. rewrite Hr2. simpl.
    eexists _, _, p, n. repeat split; try reflexivity; try assumption; simpl; lia.
  - intros NE. unfold read_tangents.
    destruct (Z.eqb_spec key_type 0); [lia|].
    destruct (Z.eqb_spec key_type 1); [lia|].
    destruct (Z.eqb_spec key_type 2); [lia|].
    destruct (Z.eqb_spec key_type 3); [lia|].
    reflexivity.
Qed.

Definition key_stream (code : byte) : rstate :=
  mkState ([code; x00; x01; x00] ++ repeat x00 32 ++ [x41] ++ repeat x07 24) 0 [].

Lemma read_key_interpolation_type_witness :
  read_key (str "Path") 0 (key_stream x07) = Raise (ValueError 7 37)
  /\ exists k st', read_key (str "Path") 0 (key_stream x03) = Ok (k, st')
                   /\ bez_prev k = Some (mkVec3 117901063 117901063 117901063)
                   /\ bez_next k = Some (mkVec3 117901063 117901063 117901063)
                   /\ f_pos st' = 61%nat.
Proof.
  split.
  - destruct (read_key_interpolation_type (str "Path") 0 (key_stream x07)) as [_ H].
    specialize (H x07 x00 x01 x00 (repeat x00 32) [x41] [] (repeat x07 24)).
    destruct H as (_ & _ & _ & _ & H).
    + repeat split.
    + apply H. vm_compute. intros [_ C]. apply C. reflexivity.
  - destruct (read_key_interpolation_type (str "Path") 0 (key_stream x03)) as [_ H].
    specialize (H x03 x00 x01 x00 (repeat x00 32) [x41] [] (repeat x07 24)).
    destruct H as (_ & _ & _ & H & _).
    + repeat split.
    + destruct (H eq_refl (repeat x07 12) (repeat x07 12) [] eq_refl eq_refl eq_refl)
        as (k & st' & p & n & Hr & Hp & Hn & Hbp & Hbn & Hpos).
      exists k, st'. vm_compute in Hp, Hn.
      injection Hp as <-. injection Hn as <-. auto.
Defined.

(** ** The texture basis solver *)

(** C6. Whatever the triangle and its texture coordinates, a texel width
    or height of 0 makes the solver return origin (0,0,0), P = (1,0,0) and
    Q = (0,0,1). *)
Theorem generate_opq_exact_zero_size v0 v1 v2 uv0 uv1 uv2 width height :
  width = 0 \/ height = 0 ->
  Solver.generate_opq_exact v0 v1 v2 uv0 uv1 uv2 width height
  = (mkVec3 0 0 0, mkVec3 1 0 0, mkVec3 0 0 1)%float.
Proof.
  intros [-> | ->]; unfold Solver.generate_opq_exact; simpl.
  - reflexivity.
  - rewrite orb_true_r. reflexivity.
Qed.

Lemma generate_opq_exact_zero_size_witness :
  Solver.generate_opq_exact (mkVec3 3 4 5)%float (mkVec3 1 0 2)%float
                            (mkVec3 0 7 1)%float (mkVec2 0.5 0.25)%float
                            (mkVec2 1 0)%float (mkVec2 0 1)%float 64 0
  = (mkVec3 0 0 0, mkVec3 1 0 0, mkVec3 0 0 1)%float.
Proof.
  apply generate_opq_exact_zero_size. right. reflexivity.
Defined.

(** ** Length-prefixed strings *)

Lemma utf8_step_char_shorter b0 rest c r :
  Codec.utf8_step b0 rest = Codec.Char c r -> (length r <= length rest)%nat.
Proof.
  unfold Codec.utf8_step.
  repeat match goal with
         | |- context [if ?b then _ else _] => destruct b
         | |- context [match ?l with [] => _ | _ :: _ => _ end] => destruct l
         end; intros [= <- <-] || discriminate; simpl; lia.
Qed.

Lemma utf8_step_bad_shorter b0 rest r :
  Codec.utf8_step b0 rest = Codec.Bad r -> (length r <= length rest)%nat.
Proof.
  unfold Codec.utf8_step.
  repeat match goal with
         | |- context [if ?b then _ else _] => destruct b
         | |- context [match ?l with [] => _ | _ :: _ => _ end] => destruct l
         end; intros [= <-] || discriminate; simpl; lia.
Qed.

(** The bound on the number of steps is never reached: any larger bound
    gives the same result. *)
Lemma decode_utf8_fuel_enough e n bs :
  (length bs <= n)%nat -> Codec.decode_utf8_fuel n e bs = Codec.decode_utf8 e bs.
Proof.
  unfold Codec.decode_utf8.
  remember (length bs) as m eqn:Hm.
  revert n bs Hm. induction m as [m IH] using lt_wf_ind.
  intros n bs Hm Hn. destruct bs as [|b0 rest]; simpl in *.
  - subst m. destruct n; reflexivity.
  - subst m. destruct n as [|n]; [lia|]. simpl.
    destruct (Codec.utf8_step b0 rest) as [c r|r] eqn:E.
    + apply utf8_step_char_shorter in E.
      rewrite (IH (length r)) by (simpl; lia).
      rewrite (IH (length r) ltac:(simpl; lia) (length rest) r eq_refl) by lia.
      reflexivity.
    + apply utf8_step_bad_shorter in E. destruct e; [reflexivity|].
      rewrite (IH (length r)) by (simpl; lia).
      rewrite (IH (length r) ltac:(simpl; lia) (length rest) r eq_refl) by lia.
      reflexivity.
Qed.

(** Decoding with [errors="ignore"] always yields a string. *)
Lemma decode_utf8_ignore_total bs :
  exists s, Codec.decode_utf8 Codec.ignore bs = Ok s.
Proof.
  unfold Codec.decode_utf8. generalize (length bs) as n.
  intros n. revert bs. induction n as [|n IH]; intros [|b0 rest]; simpl; eauto.
  destruct (Codec.utf8_step b0 rest) as [c r|r].
  - destruct (IH r) as [s ->]. eauto.
  - apply IH.
Qed.

(** [read_lithtech_string] on a stream that holds the count and the bytes
    it announces: the string is the ignoring decoding of exactly those
    bytes and the cursor has moved by two plus their number. *)
Lemma read_lithtech_string_exact st l0 l1 body rest :
  remaining st = [l0; l1] ++ body ++ rest ->
  length body = Z.to_nat (le_uint [l0; l1]) ->
  exists s, Codec.decode_utf8 Codec.ignore body = Ok s
            /\ read_lithtech_string st = Ok (s, advance st (2 + length body)).
Proof.
  intros Hrem Hlen. destruct (decode_utf8_ignore_total body) as [s Hs].
  exists s. split; [exact Hs|]. unfold read_lithtech_string.
  rewrite (bind_ok _ _ _ _ _ (read_uint_exact 2 st [l0; l1] (body ++ rest) Hrem eq_refl)).
  destruct (Z.eqb_spec (le_uint [l0; l1]) 0) as [E|E].
  - rewrite E in Hlen. destruct body; [|discriminate].
    vm_compute in Hs. injection Hs as <-. reflexivity.
  - rewrite <- Hlen.
    rewrite (bind_ok _ _ _ body (advance (advance st 2) (length body))).
    2: { apply f_read_exact with (rest := rest). at_offset Hrem [l0; l1]. }
    unfold lift. rewrite Hs, advance_advance. reflexivity.
Qed.

Lemma read_lithtech_string_empty st rest :
  remaining st = [x00; x00] ++ rest ->
  read_lithtech_string st = Ok ([], advance st 2).
Proof.
  intros Hrem.
  destruct (read_lithtech_string_exact st x00 x00 [] rest Hrem eq_refl) as (s & Hs & ->).
  vm_compute in Hs. injection Hs as <-. reflexivity.
Qed.

(** A world-model record whose one-byte name is the byte FF. *)
Definition world_model_ff : rstate :=
  mkState (repeat x00 8 ++ [x01; x00; xff] ++ repeat x00 64) 0 [].

(** C9. On a length-prefixed name whose single byte is FF, which is not
    UTF-8, [WorldModel.read] raises [UnicodeDecodeError], while
    [read_lithtech_string] on the same count and byte returns the empty
    string and consumes the three bytes. *)
Theorem WorldModel_read_name_strict :
  WorldModel_read_name world_model_ff = Raise UnicodeDecodeError
  /\ read_lithtech_string (advance world_model_ff 8)
     = Ok ([], advance world_model_ff 11).
Proof. split; reflexivity. Qed.

(** ** The occluder name hash *)

Section HashProperties.
Context `{U : Unicode}.

(** The accumulation of the specification: multiply by 29, add the
    upper-cased character's distance from ['A'], modulo 2^32. *)
Definition hash_spec (toupper : N -> N) (s : pystr) : Z :=
  fold_left (fun n ch => (n * 29 + (ord (toupper ch) - ord 65)) mod 2 ^ 32) s 0.

(** C's [toupper] on the ASCII range. *)
Definition toupper (c : N) : N :=
  if ((97 <=? c) && (c <=? 122))%N then (c - 32)%N else c.

Definition is_ascii (s : pystr) : Prop := Forall (fun c => (c < 128)%N) s.

Lemma upper_char_ascii c :
  (c < 128)%N ->
  Text.upper_char c = [toupper c] /\ (toupper c < 128)%N
  /\ Text.upper_char (toupper c) = [toupper c].
Proof.
  intros Hc. unfold Text.upper_char, toupper.
  destruct (N.leb_spec 97 c); destruct (N.leb_spec c 122); simpl;
    repeat match goal with
           | |- context [N.leb ?a ?b] => destruct (N.leb_spec a b); simpl
           | |- context [N.eqb ?a ?b] => destruct (N.eqb_spec a b); simpl
           | |- context [N.ltb ?a ?b] => destruct (N.ltb_spec a b); simpl
           end; repeat split; try reflexivity; lia.
Qed.

Lemma land_mask x : Z.land x 0xFFFFFFFF = x mod 2 ^ 32.
Proof. change 0xFFFFFFFF with (Z.ones 32). apply Z.land_ones. lia. Qed.

Lemma hash_step_ascii n c :
  (c < 128)%N ->
  hash_step n c = Ok ((n * 29 + (ord (toupper c) - ord 65)) mod 2 ^ 32).
Proof.
  intros Hc. unfold hash_step.
  destruct (upper_char_ascii c Hc) as (-> & _ & _).
  rewrite !land_mask. f_equal.
  rewrite Zplus_mod_idemp_r. reflexivity.
Qed.

Lemma toupper_idem c : toupper (toupper c) = toupper c.
Proof.
  unfold toupper.
  destruct (N.leb_spec 97 c); destruct (N.leb_spec c 122); simpl;
    repeat match goal with
           | |- context [N.leb ?a ?b] => destruct (N.leb_spec a b); simpl
           end; try reflexivity; lia.
Qed.

Lemma hash_from_ascii n s :
  is_ascii s ->
  hash_from n s
  = Ok (fold_left (fun n ch => (n * 29 + (ord (toupper ch) - ord 65)) mod 2 ^ 32) s n).
Proof.
  intros H. revert n. induction H as [|c s Hc _ IH]; intros n; simpl; [reflexivity|].
  rewrite (hash_step_ascii n c Hc). apply IH.
Qed.

Lemma upper_ascii s :
  is_ascii s -> Text.upper s = map toupper s /\ is_ascii (map toupper s).
Proof.
  unfold Text.upper. induction 1 as [|c s Hc _ [IH1 IH2]]; simpl.
  - split; [reflexivity | constructor].
  - destruct (upper_char_ascii c Hc) as (-> & Hc' & _). simpl. rewrite IH1.
    split; [reflexivity | constructor; assumption].
Qed.

(** On ASCII text the hash is the accumulation of the specification and
    does not distinguish a string from its upper-cased form. *)
Lemma st_gethash_ic_ascii s :
  is_ascii s ->
  st_gethash_ic s = Ok (hash_spec toupper s)
  /\ st_gethash_ic (Text.upper s) = st_gethash_ic s.
Proof.
  intros H. unfold st_gethash_ic, hash_spec.
  destruct (upper_ascii s H) as [-> H'].
  rewrite !hash_from_ascii by assumption. split; [reflexivity|].
  f_equal. generalize 0 as n. clear H H'.
  induction s as [|c s IH]; intros n; simpl; [reflexivity|].
  rewrite toupper_idem. apply IH.
Qed.

Example hash_FOO_foo : st_gethash_ic (str "FOO") = st_gethash_ic (str "foo").
Proof. reflexivity. Qed.

(** C7. On the one-character string U+00DF, whose upper-case form is the
    two characters ["SS"], [st_gethash_ic] raises [TypeError], although
    the hash of the upper-cased string is 540. *)
Theorem st_gethash_ic_sharp_s :
  st_gethash_ic [223%N] = Raise TypeError
  /\ Text.upper [223%N] = str "SS"
  /\ st_gethash_ic (Text.upper [223%N]) = Ok 540.
Proof. repeat split; reflexivity. Qed.

(** Every entry of the table [read_world_objects] builds pairs a name
    with its hash. *)
Definition table_ok (t : list (pystr * Z)) : Prop :=
  forall k h, dict_get t k = Some h -> st_gethash_ic k = Ok h.

Lemma dict_get_set {V} (d : list (pystr * V)) k v k' :
  dict_get (dict_set d k v) k' = if decide (k = k') then Some v else dict_get d k'.
Proof.
  induction d as [|[k0 v0] d IH]; simpl.
  - destruct (decide (k = k')); reflexivity.
  - destruct (decide (k0 = k)) as [->|Hne]; simpl.
    + destruct (decide (k = k')); reflexivity.
    + destruct (decide (k0 = k')) as [->|Hne'].
      * destruct (decide (k = k')); [congruence | reflexivity].
      * exact IH.
Qed.

(** A non-empty string value of a property [OccluderName...] of a
    [DynamicOccluderVolume] is in the table, with its hash, once
    [collect] has returned. *)
Lemma collect_occluder_name name v c c' :
  Text.startswith name (str "OccluderName") = true -> v <> [] ->
  table_ok (occluder_names c) ->
  collect (str "DynamicOccluderVolume") name (VStr v) c = Ok c' ->
  table_ok (occluder_names c')
  /\ exists h, dict_get (occluder_names c') v = Some h /\ st_gethash_ic v = Ok h.
Proof.
  intros Hs Hv Hok. unfold collect. simpl.
  replace (pystr_eqb (str "DynamicOccluderVolume") (str "KeyFramer")) with false
    by reflexivity.
  replace (pystr_eqb (str "DynamicOccluderVolume") (str "ScatterVolume")) with false
    by reflexivity.
  replace (pystr_eqb (str "DynamicOccluderVolume") (str "DynamicOccluderVolume"))
    with true by reflexivity.
  simpl. rewrite Hs.
  assert (E : pystr_eqb v [] = false).
  { unfold pystr_eqb. apply bool_decide_eq_false. exact Hv. }
  rewrite E. simpl. unfold dict_mem.
  destruct (dict_get (occluder_names c) v) as [h|] eqn:G.
  - intros [= <-]. split; [exact Hok|]. exists h. split; [exact G | apply Hok, G].
  - destruct (st_gethash_ic v) as [h|e] eqn:Hh; [|discriminate].
    intros [= <-]. simpl. split.
    + intros k h'. rewrite dict_get_set.
      destruct (decide (v = k)) as [<-|]; [intros [= <-]; exact Hh | apply Hok].
    + exists h. rewrite dict_get_set.
      destruct (decide (v = v)); [auto | congruence].
Qed.
End HashProperties.

(** ** The transcript of the two object readers *)



























(** ** Keyframe tracks are named by position *)









Section BlindNames.
Variables names scatter : list pystr.







End BlindNames.

(** *** Decoding does not depend on the names *)

(** Two cursors over the same file at the same position. *)
Definition same_file (st st' : rstate) : Prop :=
  f_data st = f_data st' /\ f_pos st = f_pos st'.

(** [c] and [c'] read the file alike: from the same cursor they both
    raise the same exception, or both return, with results related by [R],
    at the same cursor. *)
Definition alike {A B} (R : A -> B -> Prop) (c : M A) (c' : M B) : Prop :=
  forall st st', same_file st st' ->
    match c st, c' st' with
    | Ok (a, s), Ok (b, s') => R a b /\ same_file s s'
    | Raise e, Raise e' => e = e'
    | _, _ => False
    end.

Lemma alike_ret {A B} (R : A -> B -> Prop) a b : R a b -> alike R (ret a) (ret b).
Proof. intros H st st' S. simpl. auto. Qed.

Lemma alike_bind {A B A' B'} (R : A -> A' -> Prop) (Q : B -> B' -> Prop)
      (c : M A) (c' : M A') (k : A -> M B) (k' : A' -> M B') :
  alike R c c' -> (forall a a', R a a' -> alike Q (k a) (k' a')) ->
  alike Q (bind c k) (bind c' k').
Proof.
  intros Hc Hk st st' S. unfold bind. specialize (Hc st st' S).
  destruct (c st) as [[a s]|e], (c' st') as [[a' s']|e']; try contradiction.
  - destruct Hc as [Ha Hs]. apply (Hk a a' Ha s s' Hs).
  - exact Hc.
Qed.

Lemma alike_weaken {A B} (R R' : A -> B -> Prop) c c' :
  alike R c c' -> (forall a b, R a b -> R' a b) -> alike R' c c'.
Proof.
  intros H W st st' S. specialize (H st st' S).
  destruct (c st) as [[a s]|e], (c' st') as [[b s']|e']; try contradiction; [|exact H].
  destruct H. auto.
Qed.

Lemma alike_f_read n : alike eq (f_read n) (f_read n).
Proof.
  intros st st' [Hd Hp]. unfold f_read, remaining, same_file. simpl.
  rewrite Hd, Hp. auto.
Qed.

Lemma alike_f_seek_cur n : alike eq (f_seek_cur n) (f_seek_cur n).
Proof. intros st st' [Hd Hp]. unfold same_file. simpl. rewrite Hd, Hp. auto. Qed.

Lemma alike_f_seek n : alike eq (f_seek n) (f_seek n).
Proof. intros st st' [Hd Hp]. unfold same_file. simpl. rewrite Hd. auto. Qed.



Lemma alike_lift {A} (r : res A) : alike eq (lift r) (lift r).
Proof. intros st st' S. unfold lift. destruct r; simpl; auto. Qed.

Lemma alike_raise {A B} (R : A -> B -> Prop) e : alike R (raise e) (raise e).
Proof. intros st st' S. reflexivity. Qed.

Lemma alike_read_uint n : alike eq (read_uint n) (read_uint n).
Proof.
  apply (alike_bind eq); [apply alike_f_read | intros bs ? <-; apply alike_lift].
Qed.

Lemma alike_Vec3_read : alike eq Vec3_read Vec3_read.
Proof.
  apply (alike_bind eq); [apply alike_f_read | intros bs ? <-; apply alike_lift].
Qed.






Section NamesIrrelevant.
Variables names scatter names' scatter' : list pystr.



End NamesIrrelevant.

(** *** The keyframe tracks by position *)











Section TracksByPosition.
Variables names scatter : list pystr.




End TracksByPosition.

(** *** What the tracks by position hold *)















Section WorldObjectNames.
Context `{U : Unicode}.








End WorldObjectNames.

(** *** A world with one named track and two tagged blind objects *)

Fixpoint le_bytes (n : nat) (v : Z) : list byte :=
  match n with
  | O => []
  | S n' =>
      match Byte.of_N (Z.to_N (v mod 256)) with
      | Some b => b :: le_bytes n' (v / 256)
      | None => []
      end
  end.

(** A length-prefixed string. *)
Definition lt_string (s : string) : list byte :=
  le_bytes 2 (Z.of_nat (String.length s)) ++ list_byte_of_string s.










(** ** Local repacking of a group *)

Definition tri_indices (t : tri) : list nat :=
  let '(i0, i1, i2) := t in [i0; i1; i2].

(** The indices of a group in the order its triangles mention them. *)
Definition flat (tris : list tri) : list nat := concat (map tri_indices tris).

(** The distinct elements of [l] that are not in [seen], in the order of
    their first occurrence. *)
Fixpoint first_seen (seen l : list nat) : list nat :=
  match l with
  | [] => []
  | i :: l' =>
      if bool_decide (i ∈ seen) then first_seen seen l'
      else i :: first_seen (seen ++ [i]) l'
  end.

Definition first_encounter (l : list nat) : list nat := first_seen [] l.

(** The state of the gathering loop once the indices [order] have been
    met: the local vertices are the vertices at [order], and the map sends
    each of them to its position. *)
Record packed (vertices : list Vertex) (order : list nat)
       (lv : list Vertex) (im : gmap nat nat) : Prop := mkPacked {
  packed_verts : Forall2 (fun i v => vertices !! i = Some v) order lv;
  packed_nodup : NoDup order;
  packed_map : forall i j, im !! i = Some j <-> order !! j = Some i
}.

Lemma packed_empty vertices : packed vertices [] [] ∅.
Proof.
  split; [constructor | constructor |].
  intros i j. rewrite lookup_empty, lookup_nil. split; discriminate.
Qed.

Lemma packed_mem vertices order lv im i :
  packed vertices order lv im -> (i ∈ order <-> is_Some (im !! i)).
Proof.
  intros P. rewrite list_elem_of_lookup. split.
  - intros [j Hj]. exists j. apply (packed_map _ _ _ _ P), Hj.
  - intros [j Hj]. exists j. apply (packed_map _ _ _ _ P), Hj.
Qed.

Lemma packed_length vertices order lv im :
  packed vertices order lv im -> length lv = length order.
Proof. intros P. symmetry. eapply Forall2_length, (packed_verts _ _ _ _ P). Qed.

Lemma visit_packed vertices order lv im i lv' im' :
  packed vertices order lv im ->
  visit vertices i (lv, im) = Ok (lv', im') ->
  packed vertices (order ++ first_seen order [i]) lv' im'.
Proof.
  intros P. unfold visit. simpl.
  destruct (im !! i) as [j|] eqn:Hi.
  - intros [= <- <-].
    rewrite bool_decide_eq_true_2 by (apply (packed_mem _ _ _ _ _ P); eauto).
    rewrite app_nil_r. exact P.
  - destruct (vertices !! i) as [v|] eqn:Hv; [|discriminate].
    intros [= <- <-].
    assert (Hni : i ∉ order).
    { rewrite (packed_mem _ _ _ _ _ P), Hi. intros [? ?]; discriminate. }
    rewrite bool_decide_eq_false_2 by exact Hni.
    pose proof (packed_length _ _ _ _ P) as HL.
    split.
    + apply Forall2_app; [apply (packed_verts _ _ _ _ P)|].
      constructor; [exact Hv | constructor].
    + apply NoDup_app. split; [apply (packed_nodup _ _ _ _ P)|].
      split; [|apply NoDup_singleton].
      intros x Hx Hx'. apply list_elem_of_singleton in Hx'. subst x. contradiction.
    + intros k j. rewrite lookup_insert. destruct (decide (i = k)) as [<-|Hne].
      * rewrite HL. split.
        -- intros [= <-]. rewrite lookup_app_r, Nat.sub_diag by lia. reflexivity.
        -- intros Hj. f_equal.
           destruct (decide (j < length order)%nat) as [Hlt|Hge].
           ++ rewrite lookup_app_l in Hj by exact Hlt.
              exfalso. apply Hni. eapply list_elem_of_lookup_2, Hj.
           ++ apply lookup_lt_Some in Hj. rewrite length_app in Hj. simpl in Hj. lia.
      * rewrite (packed_map _ _ _ _ P). split.
        -- intros Hj. rewrite lookup_app_l; [exact Hj|].
           eapply lookup_lt_Some, Hj.
        -- intros Hj. destruct (decide (j < length order)%nat) as [Hlt|Hge].
           ++ rewrite lookup_app_l in Hj by exact Hlt. exact Hj.
           ++ rewrite lookup_app_r in Hj by lia.
              destruct (j - length order)%nat; simpl in Hj; [congruence | discriminate].
Qed.

Lemma first_seen_app seen a b :
  first_seen seen (a ++ b) = first_seen seen a ++ first_seen (seen ++ first_seen seen a) b.
Proof.
  revert seen. induction a as [|i a IH]; intros seen; simpl.
  - rewrite app_nil_r. reflexivity.
  - destruct (bool_decide (i ∈ seen)); [apply IH|].
    simpl. rewrite IH, <- app_assoc. reflexivity.
Qed.

Lemma gather_packed vertices tris : forall order lv im lv' im',
  packed vertices order lv im ->
  gather vertices tris (lv, im) = Ok (lv', im') ->
  packed vertices (order ++ first_seen order (flat tris)) lv' im'.
Proof.
  induction tris as [|[[i0 i1] i2] tris IH]; intros order lv im lv' im' P; cbn [gather].
  - intros [= <- <-]. rewrite app_nil_r. exact P.
  - destruct (visit vertices i0 (lv, im)) as [[lv0 im0]|] eqn:E0; [|discriminate].
    destruct (visit vertices i1 (lv0, im0)) as [[lv1 im1]|] eqn:E1; [|discriminate].
    destruct (visit vertices i2 (lv1, im1)) as [[lv2 im2]|] eqn:E2; [|discriminate].
    intros G.
    pose proof (visit_packed _ _ _ _ _ _ _ P E0) as P0.
    pose proof (visit_packed _ _ _ _ _ _ _ P0 E1) as P1.
    pose proof (visit_packed _ _ _ _ _ _ _ P1 E2) as P2.
    pose proof (IH _ _ _ _ _ P2 G) as P3.
    change (flat ((i0, i1, i2) :: tris)) with ([i0] ++ [i1] ++ [i2] ++ flat tris).
    rewrite 3!first_seen_app, !app_assoc. exact P3.
Qed.

Lemma first_seen_covers seen l i :
  i ∈ l -> i ∈ seen ++ first_seen seen l.
Proof.
  revert seen. induction l as [|x l IH]; intros seen Hi; [by apply elem_of_nil in Hi|].
  simpl. apply elem_of_cons in Hi as [->|Hi].
  - destruct (bool_decide_reflect (x ∈ seen)) as [Hx|Hx].
    + apply elem_of_app. left. exact Hx.
    + apply elem_of_app. right. left.
  - destruct (bool_decide_reflect (x ∈ seen)) as [Hx|Hx]; [apply IH, Hi|].
    specialize (IH (seen ++ [x]) Hi). rewrite <- app_assoc in IH. exact IH.
Qed.

Lemma remap_ok (im : gmap nat nat) tris :
  (forall i, i ∈ flat tris -> is_Some (im !! i)) ->
  exists lt, remap im tris = Ok lt
             /\ Forall2 (fun t t' =>
                           im !! t.1.1 = Some t'.1.1 /\ im !! t.1.2 = Some t'.1.2
                           /\ im !! t.2 = Some t'.2) tris lt.
Proof.
  induction tris as [|[[i0 i1] i2] tris IH]; intros H; simpl.
  - exists []. split; [reflexivity | constructor].
  - unfold flat in H. simpl in H.
    destruct (H i0) as [a Ha]; [set_solver|].
    destruct (H i1) as [b Hb]; [set_solver|].
    destruct (H i2) as [c Hc]; [set_solver|].
    rewrite Ha, Hb, Hc.
    destruct IH as (lt & -> & F); [intros i Hi; apply H; rewrite !elem_of_cons; auto|].
    exists ((a, b, c) :: lt). split; [reflexivity|]. constructor; [|exact F]. auto.
Qed.

Lemma remap_inv (im : gmap nat nat) tris lt :
  remap im tris = Ok lt ->
  Forall2 (fun t t' =>
             im !! t.1.1 = Some t'.1.1 /\ im !! t.1.2 = Some t'.1.2
             /\ im !! t.2 = Some t'.2) tris lt.
Proof.
  revert lt. induction tris as [|[[i0 i1] i2] tris IH]; intros lt; simpl.
  - intros [= <-]. constructor.
  - destruct (im !! i0) as [a|] eqn:Ha; [|discriminate].
    destruct (im !! i1) as [b|] eqn:Hb; [|discriminate].
    destruct (im !! i2) as [c|] eqn:Hc; [|discriminate].
    destruct (remap im tris) as [l|]; [|discriminate].
    intros [= <-]. constructor; [auto | apply IH; reflexivity].
Qed.

Lemma gather_total vertices tris : forall acc,
  Forall (fun i => i < length vertices)%nat (flat tris) ->
  exists acc', gather vertices tris acc = Ok acc'.
Proof.
  assert (V : forall i acc, (i < length vertices)%nat ->
                            exists acc', visit vertices i acc = Ok acc').
  { intros i [lv im] Hi. unfold visit. destruct (im !! i); [eauto|].
    destruct (lookup_lt_is_Some_2 vertices i Hi) as [v ->]. eauto. }
  induction tris as [|[[i0 i1] i2] tris IH]; intros acc H; cbn [gather]; [eauto|].
  unfold flat in H. simpl in H.
  apply Forall_cons in H as [H0 H]. apply Forall_cons in H as [H1 H].
  apply Forall_cons in H as [H2 H].
  destruct (V i0 acc H0) as [a0 ->]. destruct (V i1 a0 H1) as [a1 ->].
  destruct (V i2 a1 H2) as [a2 ->]. apply IH, H.
Qed.

(** Repacking a group whose triangles mention vertices of the node: as
    many local triangles as triangles, all within the local vertices. *)
Lemma repack_in_range vertices tris :
  Forall (fun i => i < length vertices)%nat (flat tris) ->
  exists r, repack vertices tris = Ok r
            /\ length (local_tris r) = length tris
            /\ Forall (fun t' => t'.1.1 < length (local_verts r)
                                 /\ t'.1.2 < length (local_verts r)
                                 /\ t'.2 < length (local_verts r))%nat (local_tris r).
Proof.
  intros H. unfold repack.
  destruct (gather_total vertices tris ([], ∅) H) as [[lv im] G]. rewrite G.
  pose proof (gather_packed _ _ _ _ _ _ _ (packed_empty vertices) G) as P.
  destruct (remap_ok im tris) as (lt & -> & F).
  { intros i Hi. apply (packed_mem _ _ _ _ _ P). apply first_seen_covers, Hi. }
  eexists. split; [reflexivity|]. simpl.
  split; [symmetry; eapply Forall2_length, F|].
  pose proof (packed_length _ _ _ _ P) as HL.
  assert (D : forall i j, im !! i = Some j -> (j < length lv)%nat).
  { intros i j Hj. rewrite HL. apply (packed_map _ _ _ _ P) in Hj.
    eapply lookup_lt_Some, Hj. }
  clear -F D. induction F as [|t t' ts ts' (Ha & Hb & Hc) _ IH]; constructor; [|exact IH].
  repeat split; eapply D; eassumption.
Qed.

(** C5. Repacking a group succeeds whenever its triangles only mention
    vertices the node has, and when it succeeds: the local vertex list
    holds the vertices at the group's indices in the order of their first
    occurrence; the index map sends exactly those indices to their
    positions, so that its values are exactly 0..k-1 for the k local
    vertices; and each remapped triangle is the image of the original one
    under the map, with every index below k. *)
Theorem repack_dense vertices tris :
  (Forall (fun i => i < length vertices)%nat (flat tris) ->
   exists r, repack vertices tris = Ok r)
  /\
  (forall r, repack vertices tris = Ok r ->
     let order := first_encounter (flat tris) in
     let k := length (local_verts r) in
     Forall2 (fun i v => vertices !! i = Some v) order (local_verts r)
     /\ NoDup order
     /\ (forall i j, index_map r !! i = Some j <-> order !! j = Some i)
     /\ (forall j, (j < k)%nat <-> exists i, index_map r !! i = Some j)
     /\ Forall2 (fun t t' =>
                   index_map r !! t.1.1 = Some t'.1.1
                   /\ index_map r !! t.1.2 = Some t'.1.2
                   /\ index_map r !! t.2 = Some t'.2) tris (local_tris r)
     /\ Forall (fun t' => t'.1.1 < k /\ t'.1.2 < k /\ t'.2 < k)%nat (local_tris r)).
Proof.
  split.
  - intros H. unfold repack.
    destruct (gather_total vertices tris ([], ∅) H) as [[lv im] G]. rewrite G.
    pose proof (gather_packed _ _ _ _ _ _ _ (packed_empty vertices) G) as P.
    destruct (remap_ok im tris) as (lt & -> & _); [|eauto].
    intros i Hi. apply (packed_mem _ _ _ _ _ P). apply first_seen_covers, Hi.
  - intros r. unfold repack.
    destruct (gather vertices tris ([], ∅)) as [[lv im]|] eqn:G; [|discriminate].
    destruct (remap im tris) as [lt|] eqn:R; [|discriminate].
    intros [= <-]. simpl.
    pose proof (gather_packed _ _ _ _ _ _ _ (packed_empty vertices) G) as P.
    simpl in P. fold (first_encounter (flat tris)) in P.
    pose proof (packed_length _ _ _ _ P) as HL.
    assert (D : forall j, (j < length lv)%nat <-> exists i, im !! i = Some j).
    { intros j. rewrite HL. split.
      - intros Hj. destruct (lookup_lt_is_Some_2 _ _ Hj) as [i Hi].
        exists i. apply (packed_map _ _ _ _ P), Hi.
      - intros [i Hi]. apply (packed_map _ _ _ _ P) in Hi.
        eapply lookup_lt_Some, Hi. }
    pose proof (remap_inv _ _ _ R) as F.
    repeat split.
    + apply (packed_verts _ _ _ _ P).
    + apply (packed_nodup _ _ _ _ P).
    + apply (packed_map _ _ _ _ P).
    + apply (packed_map _ _ _ _ P).
    + apply D.
    + apply D.
    + exact F.
    + clear -F D. induction F as [|t t' ts ts' (Ha & Hb & Hc) _ IH]; constructor; [|exact IH].
      repeat split; apply D; eauto.
Qed.


Definition vtx (x : float) : Vertex :=
  mkVertex (mkVec3 x 0 0)%float (mkVec3 0 1 0)%float (mkVec2 0 0)%float
           (mkVec2 0 0)%float [].

Definition five_vertices : list Vertex :=
  [vtx 0; vtx 1; vtx 2; vtx 3; vtx 4]%float.

Lemma repack_dense_witness :
  exists r, repack five_vertices [(4, 2, 4); (2, 0, 3)]%nat = Ok r
            /\ first_encounter (flat [(4, 2, 4); (2, 0, 3)]%nat) = [4; 2; 0; 3]%nat
            /\ local_verts r = [vtx 4; vtx 2; vtx 0; vtx 3]%float
            /\ local_tris r = [(0, 1, 0); (1, 2, 3)]%nat
            /\ Forall (fun t' => t'.1.1 < 4 /\ t'.1.2 < 4 /\ t'.2 < 4)%nat (local_tris r).
Proof.
  destruct (repack_dense five_vertices [(4, 2, 4); (2, 0, 3)]%nat) as [T P].
  destruct T as [r Hr]; [repeat constructor|].
  destruct (P r Hr) as (_ & _ & _ & _ & _ & HF).
  exists r. split; [exact Hr|]. split; [reflexivity|].
  pose proof (f_equal (fun x => match x with
                                | Ok r => Some (local_verts r, local_tris r)
                                | Raise _ => None
                                end) Hr) as E.
  cbv beta iota in E.
  assert (E' : Some ([vtx 4; vtx 2; vtx 0; vtx 3]%float, [(0, 1, 0); (1, 2, 3)]%nat)
               = Some (local_verts r, local_tris r)).
  { rewrite <- E. vm_compute. reflexivity. }
  injection E' as E1 E2. rewrite <- E1 in HF. rewrite <- E2 in HF |- *. auto.
Defined.

(** ** Slicing the triangle stream *)

(** The number of triangles of a list of groups. *)
Definition kept_total (gs : list group) : nat :=
  foldr (fun g acc => length (g_tris g) + acc)%nat 0%nat gs.

(** The number of triangles written into a list of polyhedra. *)
Definition triangles_written (phs : list polyhedron) : nat :=
  foldr (fun ph acc => length (polylist ph) + acc)%nat 0%nat phs.

(** The number of triangles accumulated in [wm_data]. *)
Definition wm_triangles (ds : list (list Vertex * list group)) : nat :=
  foldr (fun d acc => kept_total d.2 + acc)%nat 0%nat ds.

Lemma slice_from_total sections all_tris : forall cursor,
  (kept_total (slice_from cursor sections all_tris)
   <= Nat.min (sum_tri_count sections) (length all_tris - cursor))%nat.
Proof.
  induction sections as [|s rest IH]; intros cursor; simpl; [lia|].
  specialize (IH (cursor + tri_count s)%nat).
  destruct (is_lightanim s); simpl.
  - lia.
  - rewrite length_take, length_drop. lia.
Qed.

Lemma slice_from_within sections all_tris : forall cursor g,
  g ∈ slice_from cursor sections all_tris ->
  exists a n, g_tris g = take n (drop a all_tris).
Proof.
  induction sections as [|s rest IH]; intros cursor g; simpl.
  - intros H. by apply elem_of_nil in H.
  - destruct (is_lightanim s); [apply IH|].
    intros H. apply elem_of_cons in H as [->|H]; [|eapply IH, H].
    simpl. eauto.
Qed.

Lemma flat_app a b : flat (a ++ b) = flat a ++ flat b.
Proof. unfold flat. rewrite map_app, concat_app. reflexivity. Qed.

Lemma flat_slice (P : nat -> Prop) all_tris a n :
  Forall P (flat all_tris) -> Forall P (flat (take n (drop a all_tris))).
Proof.
  intros H.
  rewrite <- (take_drop a all_tris), flat_app in H. apply Forall_app in H as [_ H].
  rewrite <- (take_drop n (drop a all_tris)), flat_app in H.
  apply Forall_app in H as [H _]. exact H.
Qed.

Lemma mapM_ok {A B} (f : A -> res B) l :
  Forall (fun a => exists b, f a = Ok b) l ->
  exists bs, mapM f l = Ok bs /\ length bs = length l.
Proof.
  induction 1 as [|a l [b Hb] _ (bs & IH & L)]; simpl.
  - exists []. auto.
  - rewrite Hb, IH. exists (b :: bs). simpl. auto.
Qed.

Section GroupsWritten.
Variable WORLD_OFFSET : option (Vec3 float).

Lemma write_editpoly_ok lv g t :
  (t.1.1 < length lv /\ t.1.2 < length lv /\ t.2 < length lv)%nat ->
  exists ep, write_editpoly WORLD_OFFSET lv g t = Ok ep.
Proof.
  destruct t as [[i0 i1] i2]. simpl. intros (H0 & H1 & H2).
  destruct (lookup_lt_is_Some_2 lv i0 H0) as [v0 E0].
  destruct (lookup_lt_is_Some_2 lv i1 H1) as [v1 E1].
  destruct (lookup_lt_is_Some_2 lv i2 H2) as [v2 E2].
  unfold write_editpoly. rewrite E0, E1, E2.
  destruct (Solver.generate_opq_exact _ _ _ _ _ _ (g_tex_w g) _) as [[? ?] ?].
  destruct (Solver.generate_opq_exact _ _ _ _ _ _ (g_tex_w1 g) _) as [[? ?] ?].
  eauto.
Qed.

Lemma write_polyhedron_one lv g :
  Forall (fun t => t.1.1 < length lv /\ t.1.2 < length lv /\ t.2 < length lv)%nat
         (g_tris g) ->
  exists ph, write_polyhedron WORLD_OFFSET lv [g] = Ok ph
             /\ length (polylist ph) = length (g_tris g)
             /\ length (pointlist ph) = length lv.
Proof.
  intros H. unfold write_polyhedron. simpl.
  destruct (mapM_ok (write_editpoly WORLD_OFFSET lv g) (g_tris g)) as (eps & -> & L).
  { eapply Forall_impl; [exact H|]. intros t Ht. apply write_editpoly_ok, Ht. }
  eexists. split; [reflexivity|]. simpl. rewrite app_nil_r, length_map. auto.
Qed.

(** One group whose triangles mention vertices of the node becomes one
    polyhedron with as many faces. *)
Lemma rn_emit_group_ok node_index vertices section_idx g st :
  Forall (fun i => i < length vertices)%nat (flat (g_tris g)) ->
  exists st' ph,
    rn_emit_group WORLD_OFFSET node_index vertices section_idx g st = Ok st'
    /\ rn_written st' = rn_written st ++ [ph]
    /\ rn_stdout st' = rn_stdout st
    /\ length (polylist ph) = length (g_tris g).
Proof.
  intros H. unfold rn_emit_group.
  destruct (repack_in_range vertices (g_tris g) H) as (r & Hr & F2 & F).
  rewrite Hr.
  destruct (write_polyhedron_one (local_verts r)
              (mkGroup (g_tex0 g) (g_tex_w g) (g_tex_h g) (g_tex1 g) (g_tex_w1 g)
                       (g_tex_h1 g) (local_tris r) (g_shader_str g)
                       (g_texture_effect g)) F) as (ph & -> & L & _).
  eexists _, ph. split; [reflexivity|]. simpl in *.
  repeat split. rewrite L. exact F2.
Qed.

Lemma rn_emit_groups_ok node_index vertices gs : forall section_idx st,
  Forall (fun g => Forall (fun i => i < length vertices)%nat (flat (g_tris g))) gs ->
  exists st' phs,
    rn_emit_groups WORLD_OFFSET node_index vertices section_idx gs st = Ok st'
    /\ rn_written st' = rn_written st ++ phs
    /\ rn_stdout st' = rn_stdout st
    /\ triangles_written phs = kept_total gs
    /\ length phs = length gs.
Proof.
  induction gs as [|g gs IH]; intros section_idx st H; simpl.
  - exists st, []. rewrite app_nil_r. auto.
  - apply Forall_cons in H as [Hg H].
    destruct (rn_emit_group_ok node_index vertices section_idx g st Hg)
      as (st1 & ph & -> & W1 & O1 & L1).
    destruct (IH (S section_idx) st1 H) as (st2 & phs & -> & W2 & O2 & T2 & L2).
    exists st2, (ph :: phs). split; [reflexivity|].
    rewrite W2, W1, O2, O1, <- app_assoc. simpl. auto.
Qed.
End GroupsWritten.

Lemma wm_emit_groups_ok wm_idx wm_name sub vertices gs : forall section_idx st,
  Forall (fun g => Forall (fun i => i < length vertices)%nat (flat (g_tris g))) gs ->
  exists st' ds,
    wm_emit_groups wm_idx wm_name sub vertices section_idx gs st = Ok st'
    /\ wm_data st' = wm_data st ++ ds
    /\ wm_stdout st' = wm_stdout st
    /\ wm_triangles ds = kept_total gs
    /\ length ds = length gs.
Proof.
  induction gs as [|g gs IH]; intros section_idx st H; simpl.
  - exists st, []. rewrite app_nil_r. auto.
  - apply Forall_cons in H as [Hg H]. unfold wm_emit_group.
    destruct (repack_in_range vertices (g_tris g) Hg) as (r & Hr & F2 & _).
    rewrite Hr.
    match goal with
    | |- context [wm_emit_groups _ _ _ _ _ _ ?s] =>
        destruct (IH (S section_idx) s H) as (st2 & ds & -> & W2 & O2 & T2 & L2)
    end.
    simpl in *. eexists st2, (_ :: ds). split; [reflexivity|].
    rewrite W2, O2, <- app_assoc. simpl. repeat split; [|lia].
    rewrite T2. f_equal. unfold kept_total. simpl. rewrite Nat.add_0_r.
    exact F2.
Qed.

Lemma kept_in_range (vertices : list Vertex) sections all_tris :
  Forall (fun i => i < length vertices)%nat (flat all_tris) ->
  Forall (fun g => Forall (fun i => i < length vertices)%nat (flat (g_tris g)))
         (kept_sections sections all_tris).
Proof.
  intros H. apply Forall_forall. intros g Hg.
  destruct (slice_from_within _ _ _ _ Hg) as (a & n & ->). apply flat_slice, H.
Qed.

(** C2. For a render node, top-level or sub-node of a world model, whose
    sections announce a number of triangles different from the number
    decoded: the groups hold at most the smaller of the two numbers of
    triangles, and each group is a slice of the decoded triangle list, so
    nothing is read past its end.  When moreover the triangles mention
    only vertices the node has, the node is processed to the end on both
    paths, one warning is printed, and the triangles written are at most
    that smaller number. *)
Theorem triangle_count_mismatch WORLD_OFFSET node_index wm_idx wm_name sub
        sections vertices all_tris st wst :
  sum_tri_count sections <> length all_tris ->
  let bound := Nat.min (sum_tri_count sections) (length all_tris) in
  let kept := kept_sections sections all_tris in
  (kept_total kept <= bound)%nat
  /\ (forall g, g ∈ kept -> exists a n, g_tris g = take n (drop a all_tris))
  /\ (Forall (fun i => i < length vertices)%nat (flat all_tris) ->
      (exists st' phs,
         render_node WORLD_OFFSET node_index sections vertices all_tris st = Ok st'
         /\ rn_stdout st' = rn_stdout st ++ [WarnRenderNode node_index]
         /\ rn_written st' = rn_written st ++ phs
         /\ (triangles_written phs <= bound)%nat)
      /\ (exists wst' ds,
            wm_subnode wm_idx wm_name sub sections vertices all_tris wst
            = Ok (bound, wst')
            /\ wm_stdout wst'
               = wm_stdout wst ++ [WarnWMRenderNode wm_idx sub (sum_tri_count sections)
                                                    (length all_tris)]
            /\ wm_data wst' = wm_data wst ++ ds
            /\ (wm_triangles ds <= bound)%nat)).
Proof.
  intros Hne bound kept.
  pose proof (slice_from_total sections all_tris 0) as Ht.
  rewrite Nat.sub_0_r in Ht. fold (kept_sections sections all_tris) in Ht.
  apply Nat.eqb_neq in Hne.
  split; [exact Ht|]. split; [intros g Hg; eapply slice_from_within, Hg|].
  intros Hr.
  pose proof (kept_in_range vertices sections all_tris Hr) as Hk.
  split.
  - unfold render_node. rewrite Hne.
    match goal with
    | |- context [rn_emit_groups _ _ _ _ _ ?s] =>
        destruct (rn_emit_groups_ok WORLD_OFFSET node_index vertices _ 0%nat s Hk)
          as (st' & phs & E & W & O & T & _)
    end.
    exists st', phs. simpl in *. rewrite T. auto.
  - unfold wm_subnode. rewrite Hne. simpl.
    match goal with
    | |- context [wm_emit_groups _ _ _ _ _ _ ?s] =>
        destruct (wm_emit_groups_ok wm_idx wm_name sub vertices _ 0%nat s Hk)
          as (st' & ds & E & W & O & T & _)
    end.
    rewrite E. exists st', ds. simpl in *. rewrite T. auto.
Qed.

Definition wall_section (n : nat) : section :=
  mkSection false (str "wall") (str "Default") 0 0 0 0 n (str "Gouraud") [].

Definition empty_rn : rn_state := mkRN [] [] [] [].
Definition empty_wm : wm_state := mkWM [] [] [].

Lemma triangle_count_mismatch_witness :
  (exists st' phs,
     render_node None 0 [wall_section 3] five_vertices [(0, 1, 2); (2, 3, 4)]%nat empty_rn
     = Ok st'
     /\ rn_stdout st' = [WarnRenderNode 0]
     /\ rn_written st' = phs
     /\ (triangles_written phs <= 2)%nat)
  /\ (exists wst' ds,
        wm_subnode 0 (str "Door") 0 [wall_section 3] five_vertices
                   [(0, 1, 2); (2, 3, 4)]%nat empty_wm = Ok (2%nat, wst')
        /\ wm_stdout wst' = [WarnWMRenderNode 0 0 3 2]
        /\ wm_data wst' = ds
        /\ (wm_triangles ds <= 2)%nat).
Proof.
  destruct (triangle_count_mismatch None 0 0 (str "Door") 0 [wall_section 3]
              five_vertices [(0, 1, 2); (2, 3, 4)]%nat empty_rn empty_wm)
    as (_ & _ & H).
  - simpl. lia.
  - apply H. repeat constructor.
Defined.

(** ** Animation sections *)

Lemma sum_tri_count_app a b :
  sum_tri_count (a ++ b) = (sum_tri_count a + sum_tri_count b)%nat.
Proof. induction a as [|s a IH]; simpl; [reflexivity | rewrite IH; lia]. Qed.

Lemma slice_from_app a b all_tris : forall cursor,
  slice_from cursor (a ++ b) all_tris
  = slice_from cursor a all_tris ++ slice_from (cursor + sum_tri_count a) b all_tris.
Proof.
  induction a as [|s a IH]; intros cursor; simpl.
  - rewrite Nat.add_0_r. reflexivity.
  - rewrite IH, Nat.add_assoc. destruct (is_lightanim s); reflexivity.
Qed.

(** The groups are the sections that are not animation sections, in
    their order. *)
Lemma slice_from_length sections all_tris : forall cursor,
  length (slice_from cursor sections all_tris)
  = length (List.filter (fun s => negb (is_lightanim s)) sections).
Proof.
  induction sections as [|s rest IH]; intros cursor; simpl; [reflexivity|].
  destruct (is_lightanim s); simpl; rewrite IH; reflexivity.
Qed.

(** A section that is kept receives the triangles from the sum of the
    counts of all the sections before it. *)
Lemma slice_from_lookup sections all_tris : forall cursor j s,
  sections !! j = Some s -> is_lightanim s = false ->
  group_of s (take (tri_count s)
                   (drop (cursor + sum_tri_count (take j sections)) all_tris))
  ∈ slice_from cursor sections all_tris.
Proof.
  induction sections as [|s0 rest IH]; intros cursor j s Hj Hs; [discriminate|].
  destruct j as [|j]; simpl in *.
  - injection Hj as ->. rewrite Hs, Nat.add_0_r. left.
  - specialize (IH (cursor + tri_count s0)%nat j s Hj Hs).
    rewrite <- Nat.add_assoc in IH.
    destruct (is_lightanim s0); [exact IH | right; exact IH].
Qed.

Section AnimationSections.
Context `{U : Unicode}.
Variable path_join : pystr -> pystr -> pystr.
Variable fs : pystr -> option fs_entry.
Variable current_dir : pystr.

(** The dictionaries step 1 builds from the sections read. *)
Definition sections_of_raw (raws : list raw_section) : list section :=
  map (fun r => fst (make_section path_join fs current_dir r)) raws.

Lemma make_section_fields r :
  let s := fst (make_section path_join fs current_dir r) in
  is_lightanim s = lightanim_name (r_tex0 r)
  /\ tri_count s = r_tri_count r
  /\ tex0 s = (if pystr_eqb (Text.strip (r_tex0 r)) [] then str "Default" else r_tex0 r)
  /\ tex1 s = (if pystr_eqb (Text.strip (r_tex1 r)) [] then str "Default" else r_tex1 r)
  /\ (tex_w s, tex_h s) = fst (get_dtx_texture_size path_join fs (tex0 s) [current_dir])
  /\ (tex_w1 s, tex_h1 s) = fst (get_dtx_texture_size path_join fs (tex1 s) [current_dir]).
Proof.
  unfold make_section.
  destruct (get_dtx_texture_size path_join fs
              (if pystr_eqb (Text.strip (r_tex0 r)) [] then str "Default" else r_tex0 r)
              [current_dir]) as [[w h] l0] eqn:E0.
  destruct (get_dtx_texture_size path_join fs
              (if pystr_eqb (Text.strip (r_tex1 r)) [] then str "Default" else r_tex1 r)
              [current_dir]) as [[w1 h1] l1] eqn:E1.
  simpl. rewrite E0, E1. repeat split; reflexivity.
Qed.

(** C4. A section whose primary texture name, stripped and lower-cased,
    is ["lightanim_base"] yields no group: the groups of the node are
    those of the sections before it followed by those of the sections
    after it, there are exactly as many groups as other sections that
    are not animation sections, and each kept section after it gets the
    triangles that start at the sum of the counts of all the sections
    before it, the dropped one included. *)
Theorem lightanim_section_dropped pre r post all_tris :
  lightanim_name (r_tex0 r) = true ->
  let before := sections_of_raw pre in
  let after := sections_of_raw post in
  let kept := kept_sections (sections_of_raw (pre ++ r :: post)) all_tris in
  kept = kept_sections before all_tris
         ++ slice_from (sum_tri_count before + r_tri_count r) after all_tris
  /\ length kept
     = (length (List.filter (fun s => negb (is_lightanim s)) before)
        + length (List.filter (fun s => negb (is_lightanim s)) after))%nat
  /\ (forall j s, after !! j = Some s -> is_lightanim s = false ->
        group_of s (take (tri_count s)
                         (drop (sum_tri_count before + r_tri_count r
                                + sum_tri_count (take j after)) all_tris))
        ∈ kept).
Proof.
  intros Hl before after kept.
  destruct (make_section_fields r) as (Hla & Htc & _).
  assert (E : kept = kept_sections before all_tris
                     ++ slice_from (sum_tri_count before + r_tri_count r) after all_tris).
  { subst kept before after. unfold kept_sections, sections_of_raw.
    rewrite map_app, slice_from_app. f_equal. simpl.
    rewrite Hla, Hl, Htc. reflexivity. }
  split; [exact E|]. split.
  - rewrite E, length_app. unfold kept_sections. rewrite !slice_from_length.
    reflexivity.
  - intros j s Hj Hs. rewrite E. apply elem_of_app. right.
    apply slice_from_lookup; assumption.
Qed.
End AnimationSections.

(** A node with a wall, an animation section and a floor, one triangle each. *)
Definition raw (name : string) (n : nat) : raw_section :=
  mkRaw (str name) [] 1 n [].

Definition no_files : pystr -> option fs_entry := fun _ => None.

Definition join_slash (root rel : pystr) : pystr := root ++ str "/" ++ rel.

Lemma lightanim_section_dropped_witness :
  let secs := sections_of_raw (U := latin1_tables) join_slash no_files (str "game") in
  let all_tris := [(0, 1, 2); (1, 2, 3); (2, 3, 4)]%nat in
  map g_tris (kept_sections (secs [raw "wall" 1; raw " LightAnim_Base " 1; raw "floor" 1])
                            all_tris)
  = [[(0, 1, 2)]; [(2, 3, 4)]]%nat
  /\ length (kept_sections (secs [raw "wall" 1; raw " LightAnim_Base " 1; raw "floor" 1])
                           all_tris) = 2%nat.
Proof.
  intros secs all_tris.
  destruct (lightanim_section_dropped (U := latin1_tables) join_slash no_files
              (str "game") [raw "wall" 1] (raw " LightAnim_Base " 1) [raw "floor" 1]
              all_tris eq_refl) as (E & L & _).
  split.
  - etransitivity; [exact (f_equal (map g_tris) E) | vm_compute; reflexivity].
  - etransitivity; [exact L | vm_compute; reflexivity].
Defined.

(** ** Texture sizes and the degenerate basis *)

(** The basis written for the primary and for the secondary texture of a face. *)
Definition basis (ti : textureinfo) : Vec3 float * Vec3 float * Vec3 float :=
  (ti_origin ti, ti_U ti, ti_V ti).

Lemma mapM_Forall {A B} (f : A -> res B) (P : B -> Prop) l bs :
  (forall a b, f a = Ok b -> P b) -> mapM f l = Ok bs -> Forall P bs.
Proof.
  intros H. revert bs. induction l as [|a l IH]; intros bs; simpl.
  - intros [= <-]. constructor.
  - destruct (f a) as [b|] eqn:E; [|discriminate].
    destruct (mapM f l) as [bs'|]; [|discriminate].
    intros [= <-]. constructor; [eapply H, E | apply IH; reflexivity].
Qed.

Section TextureSizeProperties.
Context `{U : Unicode}.
Variable path_join : pystr -> pystr -> pystr.
Variable fs : pystr -> option fs_entry.
Variable current_dir : pystr.
Variable WORLD_OFFSET : option (Vec3 float).

(** The early return of the lookup: a size of zero, nothing printed and
    no path asked for. *)
Lemma get_dtx_texture_size_reserved tex_path search_dirs :
  Text.startswith (Text.lower tex_path) (str "lightanim")
  || Text.startswith (Text.lower tex_path) (str "default") = true ->
  get_dtx_texture_size path_join fs tex_path search_dirs = ((0, 0), []).
Proof. intros H. unfold get_dtx_texture_size. rewrite H. reflexivity. Qed.

Lemma write_editpoly_basis lv g t ep :
  write_editpoly WORLD_OFFSET lv g t = Ok ep ->
  ((g_tex_w g = 0 \/ g_tex_h g = 0) -> basis (ep_textureinfo ep) = Solver.degenerate)
  /\ ((g_tex_w1 g = 0 \/ g_tex_h1 g = 0) -> basis (ep_textures1 ep) = Solver.degenerate).
Proof.
  unfold write_editpoly. destruct t as [[i0 i1] i2].
  destruct (lv !! i0) as [v0|]; [|discriminate].
  destruct (lv !! i1) as [v1|]; [|discriminate].
  destruct (lv !! i2) as [v2|]; [|discriminate].
  destruct (Solver.generate_opq_exact _ _ _ _ _ _ (g_tex_w g) _) as [[o u] v] eqn:E0.
  destruct (Solver.generate_opq_exact _ _ _ _ _ _ (g_tex_w1 g) _) as [[o1 u1] v1'] eqn:E1.
  intros [= <-]. unfold basis. simpl. split; intros Hz.
  - rewrite <- E0. unfold Solver.generate_opq_exact.
    destruct Hz as [-> | ->]; simpl; rewrite ?orb_true_r; reflexivity.
  - rewrite <- E1. unfold Solver.generate_opq_exact.
    destruct Hz as [-> | ->]; simpl; rewrite ?orb_true_r; reflexivity.
Qed.

(** C10. A texture path whose lower-cased form starts with
    ["lightanim"] or ["default"] has size (0, 0), found without asking
    the file system for anything.  Hence a section whose primary
    (secondary) texture name is empty once stripped carries the name
    ["Default"] and the size (0, 0) in that slot, and every face written
    for it has origin (0,0,0), P = (1,0,0) and Q = (0,0,1) in that slot. *)
Theorem default_texture_degenerate :
  (forall tex_path search_dirs,
     Text.startswith (Text.lower tex_path) (str "lightanim")
     || Text.startswith (Text.lower tex_path) (str "default") = true ->
     get_dtx_texture_size path_join fs tex_path search_dirs = ((0, 0), []))
  /\
  (forall r tris vertices ph,
     let s := fst (make_section path_join fs current_dir r) in
     write_polyhedron WORLD_OFFSET vertices [group_of s tris] = Ok ph ->
     (Text.strip (r_tex0 r) = [] ->
        tex0 s = str "Default" /\ tex_w s = 0 /\ tex_h s = 0
        /\ Forall (fun ep => basis (ep_textureinfo ep)
                             = (mkVec3 0 0 0, mkVec3 1 0 0, mkVec3 0 0 1)%float)
                  (polylist ph))
     /\ (Text.strip (r_tex1 r) = [] ->
        tex1 s = str "Default" /\ tex_w1 s = 0 /\ tex_h1 s = 0
        /\ Forall (fun ep => basis (ep_textures1 ep)
                             = (mkVec3 0 0 0, mkVec3 1 0 0, mkVec3 0 0 1)%float)
                  (polylist ph))).
Proof.
  split; [apply get_dtx_texture_size_reserved|].
  intros r tris vertices ph s Hw.
  destruct (make_section_fields path_join fs current_dir r)
    as (_ & _ & Ht0 & Ht1 & Hs0 & Hs1).
  fold s in Ht0, Ht1, Hs0, Hs1.
  assert (Hall : Forall (fun ep =>
              ((tex_w s = 0 \/ tex_h s = 0) ->
               basis (ep_textureinfo ep) = Solver.degenerate)
              /\ ((tex_w1 s = 0 \/ tex_h1 s = 0) ->
                  basis (ep_textures1 ep) = Solver.degenerate)) (polylist ph)).
  { unfold write_polyhedron in Hw. simpl in Hw.
    destruct (mapM (write_editpoly WORLD_OFFSET vertices (group_of s tris)) tris)
      as [eps|] eqn:E; [|discriminate].
    injection Hw as <-. simpl. rewrite app_nil_r.
    eapply mapM_Forall; [|exact E].
    intros t ep Hep. apply write_editpoly_basis in Hep. exact Hep. }
  split; intros Hstrip.
  - assert (E0 : tex0 s = str "Default").
    { rewrite Ht0, Hstrip. reflexivity. }
    rewrite E0, get_dtx_texture_size_reserved in Hs0 by reflexivity.
    injection Hs0 as Hw0 Hh0. repeat split; try assumption.
    eapply Forall_impl; [exact Hall|]. intros ep [H _]. apply H. left. exact Hw0.
  - assert (E1 : tex1 s = str "Default").
    { rewrite Ht1, Hstrip. reflexivity. }
    rewrite E1, get_dtx_texture_size_reserved in Hs1 by reflexivity.
    injection Hs1 as Hw1 Hh1. repeat split; try assumption.
    eapply Forall_impl; [exact Hall|]. intros ep [_ H]. apply H. left. exact Hw1.
Qed.
End TextureSizeProperties.

Lemma default_texture_degenerate_witness :
  get_dtx_texture_size (U := latin1_tables) join_slash no_files
                       (str "LightAnim_Base") [str "game"] = ((0, 0), [])
  /\ exists ph,
       write_polyhedron None five_vertices
         [group_of (fst (make_section (U := latin1_tables) join_slash no_files
                                      (str "game") (mkRaw (str "  ") [] 1 1 [])))
                   [(0, 1, 2)]%nat] = Ok ph
       /\ length (polylist ph) = 1%nat
       /\ Forall (fun ep => basis (ep_textureinfo ep)
                            = (mkVec3 0 0 0, mkVec3 1 0 0, mkVec3 0 0 1)%float
                            /\ basis (ep_textures1 ep)
                               = (mkVec3 0 0 0, mkVec3 1 0 0, mkVec3 0 0 1)%float)
                 (polylist ph).
Proof.
  destruct (default_texture_degenerate (U := latin1_tables) join_slash no_files
              (str "game") None) as [H1 H2].
  split; [apply H1; reflexivity|].
  eexists. split; [vm_compute; reflexivity|].
  split; [reflexivity|].
  match goal with
  | |- Forall _ (polylist ?ph) =>
      destruct (H2 (mkRaw (str "  ") [] 1 1 []) [(0, 1, 2)]%nat five_vertices ph)
        as [A B]; [vm_compute; reflexivity|]
  end.
  destruct (A eq_refl) as (_ & _ & _ & FA). destruct (B eq_refl) as (_ & _ & _ & FB).
  apply Forall_forall. intros ep Hep.
  rewrite Forall_forall in FA, FB. split; [apply FA | apply FB]; exact Hep.
Defined.

(** ** Identifiers of the node hierarchy *)

Import Hierarchy.

(** The auxiliary groups whose brushes share one property list. *)
Definition shared_place (pl : place) : Prop :=
  pl = InSkyPortals \/ pl = InBlockers \/ pl = InParticleBlockers.

(** The node ids of [ns] count up from [base_nodeid c0] to [base_nodeid c1]. *)
Record ids_ok (c0 : counters) (ns : list worldnode) (c1 : counters) : Prop := mkIds {
  ids_at : forall k n, ns !! k = Some n -> wn_nodeid n = base_nodeid c0 + Z.of_nat k;
  ids_end : base_nodeid c1 = base_nodeid c0 + Z.of_nat (length ns)
}.

(** A stretch of nodes written while the counters went from [c0] to [c1]. *)
Record trace_ok (c0 : counters) (ns : list worldnode) (c1 : counters) : Prop := mkTrace {
  tr_ids : ids_ok c0 ns c1;
  tr_end : base_propid c0 <= base_propid c1;
  tr_range : forall n, n ∈ ns -> wn_propid n <> 0 ->
                       base_propid c0 <= wn_propid n < base_propid c1;
  tr_order : forall i j n m,
      (i < j)%nat -> ns !! i = Some n -> ns !! j = Some m ->
      wn_propid n <> 0 -> wn_propid m <> 0 ->
      wn_propid n <= wn_propid m
      /\ (wn_propid n = wn_propid m ->
          shared_place (wn_place n) /\ wn_place m = wn_place n);
  tr_cover : forall p, base_propid c0 <= p < base_propid c1 ->
                       exists n, n ∈ ns /\ wn_propid n = p
}.

(** The brushes of one auxiliary group: one property id for all. *)
Record group_ok (pl : place) (c0 : counters) (ns : list worldnode) (c1 : counters)
  : Prop := mkGroupOk {
  gr_ids : ids_ok c0 ns c1;
  gr_end : base_propid c1 = base_propid c0;
  gr_all : forall n, n ∈ ns -> wn_propid n = base_propid c0 /\ wn_place n = pl
}.

Lemma ids_nil c : ids_ok c [] c.
Proof. split; [intros k n H; discriminate | simpl; lia]. Qed.

Lemma ids_app c0 a c1 b c2 : ids_ok c0 a c1 -> ids_ok c1 b c2 -> ids_ok c0 (a ++ b) c2.
Proof.
  intros [A1 A2] [B1 B2]. split.
  - intros k n H. apply lookup_app_Some in H as [H|[Hk H]]; [apply A1, H|].
    rewrite (B1 _ _ H), A2. lia.
  - rewrite length_app, B2, A2. lia.
Qed.

Lemma trace_nil c : trace_ok c [] c.
Proof.
  split; [apply ids_nil | lia | | |].
  - intros n H. by apply elem_of_nil in H.
  - intros i j n m _ H. discriminate.
  - intros p H. lia.
Qed.

Lemma trace_app c0 a c1 b c2 :
  trace_ok c0 a c1 -> trace_ok c1 b c2 -> trace_ok c0 (a ++ b) c2.
Proof.
  intros [Ai Ae Ar Ao Ac] [Bi Be Br Bo Bc].
  split; [eapply ids_app; eassumption | lia | | |].
  - intros n H Hn. apply elem_of_app in H as [H|H];
      [specialize (Ar n H Hn) | specialize (Br n H Hn)]; lia.
  - intros i j n m Hij Hi Hj Hn Hm.
    apply lookup_app_Some in Hi as [Hi|[Hia Hi]];
      apply lookup_app_Some in Hj as [Hj|[Hja Hj]].
    + eapply Ao; eassumption.
    + pose proof (Ar n (list_elem_of_lookup_2 _ _ _ Hi) Hn).
      pose proof (Br m (list_elem_of_lookup_2 _ _ _ Hj) Hm).
      split; lia.
    + apply lookup_lt_Some in Hj. lia.
    + eapply (Bo (i - length a)%nat (j - length a)%nat); try eassumption. lia.
  - intros p Hp. destruct (Z_lt_le_dec p (base_propid c1)) as [Hlt|Hge].
    + destruct (Ac p) as (n & Hn & E); [lia|]. exists n. split; [|exact E].
      apply elem_of_app. left. exact Hn.
    + destruct (Bc p) as (n & Hn & E); [lia|]. exists n. split; [|exact E].
      apply elem_of_app. right. exact Hn.
Qed.

Lemma group_nil pl c : group_ok pl c [] c.
Proof.
  split; [apply ids_nil | reflexivity |]. intros n H. by apply elem_of_nil in H.
Qed.

Lemma group_app pl c0 a c1 b c2 :
  group_ok pl c0 a c1 -> group_ok pl c1 b c2 -> group_ok pl c0 (a ++ b) c2.
Proof.
  intros [Ai Ae Aa] [Bi Be Ba].
  split; [eapply ids_app; eassumption | congruence |].
  intros n H. apply elem_of_app in H as [H|H]; [apply Aa, H|].
  rewrite <- Ae. apply Ba, H.
Qed.

(** A whole auxiliary group followed by [base_propid += 1]. *)
Lemma group_trace pl c0 ns c1 :
  shared_place pl -> ns <> [] -> 1 <= base_propid c0 ->
  group_ok pl c0 ns c1 ->
  trace_ok c0 ns (mkC (brushindex c1) (base_nodeid c1) (base_propid c1 + 1)).
Proof.
  intros Hs Hne Hp [[Gi Gn] Ge Ga].
  split; [split; [exact Gi | exact Gn] | simpl; lia | | |]; simpl.
  - intros n H _. destruct (Ga n H) as [-> _]. lia.
  - intros i j n m _ Hi Hj _ _.
    destruct (Ga n (list_elem_of_lookup_2 _ _ _ Hi)) as [En Pn].
    destruct (Ga m (list_elem_of_lookup_2 _ _ _ Hj)) as [Em Pm].
    rewrite En, Em, Pn, Pm. split; [lia | auto].
  - intros p Hpr. destruct ns as [|n ns]; [contradiction|].
    exists n. split; [left|]. destruct (Ga n) as [-> _]; [left | lia].
Qed.

(** Functions that append nodes, stretch by stretch. *)
Section Extends.
Variable R : counters -> list worldnode -> counters -> Prop.
Variable pre : counters -> Prop.
Hypothesis R_nil : forall c, R c [] c.
Hypothesis R_app : forall c0 a c1 b c2, R c0 a c1 -> R c1 b c2 -> R c0 (a ++ b) c2.

Definition extends (f : hstate -> hstate) : Prop :=
  forall c ns, pre c ->
    exists c' new, f (c, ns) = (c', ns ++ new) /\ R c new c' /\ pre c'.

Lemma extends_id : extends (fun h => h).
Proof. intros c ns H. exists c, []. rewrite app_nil_r. auto. Qed.

Lemma extends_comp f g : extends f -> extends g -> extends (fun h => g (f h)).
Proof.
  intros Hf Hg c ns H.
  destruct (Hf c ns H) as (c1 & a & -> & Ra & H1).
  destruct (Hg c1 (ns ++ a) H1) as (c2 & b & -> & Rb & H2).
  exists c2, (a ++ b). rewrite app_assoc. eauto.
Qed.

Lemma extends_foldl {A} (f : hstate -> A -> hstate) l :
  (forall x, extends (fun h => f h x)) -> extends (fun h => foldl f h l).
Proof.
  intros Hf. induction l as [|x l IH] using rev_ind; simpl.
  - apply extends_id.
  - intros c ns H. rewrite foldl_app. simpl.
    apply (extends_comp (fun h => foldl f h l) (fun h => f h x) IH (Hf x) c ns H).
Qed.

Lemma extends_repeat n body :
  extends body -> extends (repeat_emit n body).
Proof.
  intros Hb. induction n as [|n IH]; simpl; [apply extends_id|].
  apply (extends_comp body (repeat_emit n body) Hb IH).
Qed.
End Extends.

Definition positive (c : counters) : Prop := 1 <= base_propid c.

Abbreviation writes := (extends trace_ok positive).
Abbreviation writes_group pl := (extends (group_ok pl) (fun _ => True)).

Lemma writes_comp f g : writes f -> writes g -> writes (fun h => g (f h)).
Proof. apply extends_comp, trace_app. Qed.

Lemma writes_foldl {A} (f : hstate -> A -> hstate) l :
  (forall x, writes (fun h => f h x)) -> writes (fun h => foldl f h l).
Proof. apply extends_foldl; [apply trace_nil | apply trace_app]. Qed.

Lemma writes_emit_null pl label : writes (emit_null pl label).
Proof.
  intros c ns H. eexists _, [_]. split; [reflexivity|]. split; [|exact H].
  split; [split | simpl; lia | | |]; simpl.
  - intros [|k] n; simpl; [intros [= <-]; simpl; lia | discriminate].
  - lia.
  - intros n Hn. apply list_elem_of_singleton in Hn as ->. simpl. congruence.
  - intros i [|j] n m Hij Hi Hj; [lia | destruct j; discriminate].
  - intros p Hp. lia.
Qed.

Lemma trace_one c n c' :
  positive c ->
  wn_nodeid n = base_nodeid c -> wn_propid n = base_propid c ->
  base_nodeid c' = base_nodeid c + 1 -> base_propid c' = base_propid c + 1 ->
  trace_ok c [n] c'.
Proof.
  unfold positive. intros H Hn Hp Hn' Hp'.
  split; [split | lia | | |]; simpl.
  - intros [|k] n0; simpl; [intros [= <-]; lia | discriminate].
  - lia.
  - intros n0 H0. apply list_elem_of_singleton in H0 as ->. lia.
  - intros i [|j] n0 m Hij Hi Hj; [lia | destruct j; discriminate].
  - intros p Hpr. exists n. split; [left | lia].
Qed.

Lemma writes_emit_brush pl : writes (emit_brush pl).
Proof.
  intros c ns H. eexists _, [_]. split; [reflexivity|]. split.
  - apply trace_one; auto.
  - unfold positive in *. simpl. lia.
Qed.

Lemma writes_emit_object pl label : writes (emit_object pl label).
Proof.
  intros c ns H. eexists _, [_]. split; [reflexivity|]. split.
  - apply trace_one; auto.
  - unfold positive in *. simpl. lia.
Qed.

Lemma writes_group_brush pl : writes_group pl (emit_brush_same_propid pl).
Proof.
  intros c ns _. eexists _, [_]. split; [reflexivity|]. split; [|exact I].
  split; [split | reflexivity |]; simpl.
  - intros [|k] n; simpl; [intros [= <-]; simpl; lia | discriminate].
  - lia.
  - intros n Hn. apply list_elem_of_singleton in Hn as ->. auto.
Qed.

(** A container node followed by the brushes of its auxiliary group. *)
Lemma writes_shared_group pl label (body : hstate -> hstate) :
  shared_place pl ->
  writes_group pl body ->
  (forall c ns, exists c' n new, body (c, ns) = (c', ns ++ n :: new)) ->
  writes (fun h => bump_propid (body (emit_null InWorld label h))).
Proof.
  intros Hs Hb Hne c ns H.
  destruct (writes_emit_null InWorld label c ns H) as (c1 & a & E1 & T1 & H1).
  rewrite E1.
  destruct (Hb c1 (ns ++ a) I) as (c2 & b & E2 & G2 & _).
  destruct (Hne c1 (ns ++ a)) as (c2' & n & new & E2').
  rewrite E2 in E2' |- *. injection E2' as _ Eb. apply app_inv_head in Eb. subst b.
  simpl. eexists _, (a ++ n :: new). rewrite app_assoc. split; [reflexivity|].
  split.
  - eapply trace_app; [exact T1|]. apply (group_trace pl); auto; discriminate.
  - unfold positive in *. simpl. destruct G2 as [_ -> _]. lia.
Qed.

Lemma writes_emit_render_node e : writes (fun h => emit_render_node e h).
Proof.
  destruct e as [node_index brushes]. unfold emit_render_node.
  apply (writes_comp (emit_null InRenderNodes _)
                     (fun h => foldl (fun h _ => emit_brush (InRenderNode node_index) h)
                                     h brushes)).
  - apply writes_emit_null.
  - apply writes_foldl. intros _. apply writes_emit_brush.
Qed.

Lemma writes_emit_world_object sc m e : writes (fun h => emit_world_object sc m h e).
Proof.
  destruct e as [i obj]. unfold emit_world_object.
  destruct (m !! i) as [wm_id|].
  - apply (writes_comp (emit_object InObjectsAndWMs (type_label obj))
                       (fun h => foldl (fun h _ => emit_brush (InObject i) h) h
                                       (sections_of sc wm_id))).
    + apply writes_emit_object.
    + apply writes_foldl. intros _. apply writes_emit_brush.
  - apply writes_emit_object.
Qed.

Lemma writes_emit_key_track sc key_name : writes (fun h => emit_key_track sc h key_name).
Proof.
  unfold emit_key_track.
  destruct (dict_get (keyframer_keys_map sc) key_name) as [entries|].
  - apply (writes_comp (emit_null InObjectsAndWMs key_name)
                       (fun h => foldl (fun h _ => emit_object (InKeyTrack key_name)
                                                               (str "Key") h) h entries)).
    + apply writes_emit_null.
    + apply writes_foldl. intros _. apply writes_emit_object.
  - apply writes_emit_null.
Qed.

Lemma writes_id : writes (fun h => h).
Proof. apply extends_id, trace_nil. Qed.

Lemma writes_emit_objects sc : writes (emit_objects sc).
Proof.
  unfold emit_objects. destruct (world_objects sc) as [|o objs]; [apply writes_id|].
  set (objects := o :: objs).
  apply (writes_comp (fun h => foldl (emit_world_object sc (matched_wm_to_obj sc))
                                     (emit_null InWorld (str "ObjectsAndWMs") h)
                                     (enumerate objects))
                     (fun h2 => match keyframer_keys_map sc with
                                | [] => h2
                                | _ :: _ => foldl (emit_key_track sc) h2
                                                  (dict_keys (keyframer_keys_map sc))
                                end)).
  - apply (writes_comp (emit_null InWorld (str "ObjectsAndWMs"))
                       (fun h => foldl (emit_world_object sc (matched_wm_to_obj sc)) h
                                       (enumerate objects))).
    + apply writes_emit_null.
    + apply writes_foldl. intros e. apply writes_emit_world_object.
  - destruct (keyframer_keys_map sc); [apply writes_id|].
    apply writes_foldl. intros k. apply writes_emit_key_track.
Qed.

Lemma group_body_nonempty pl (g : hstate -> hstate) :
  writes_group pl g ->
  forall c ns, exists c' n new,
      g (emit_brush_same_propid pl (c, ns)) = (c', ns ++ n :: new).
Proof.
  intros Hg c ns. simpl.
  match goal with
  | |- context [g (?c1, ns ++ [?n])] =>
      destruct (Hg c1 (ns ++ [n]) I) as (c' & new & -> & _); exists c', n, new
  end.
  rewrite <- app_assoc. reflexivity.
Qed.

Lemma writes_group_foldl pl {A} (l : list A) :
  writes_group pl (fun h => foldl (fun h _ => emit_brush_same_propid pl h) h l).
Proof.
  apply extends_foldl; [apply group_nil | apply group_app|].
  intros _. apply writes_group_brush.
Qed.

Lemma writes_group_repeat pl n :
  writes_group pl (repeat_emit n (emit_brush_same_propid pl)).
Proof.
  apply extends_repeat; [apply group_nil | apply group_app | apply writes_group_brush].
Qed.

Lemma writes_emit_skyportals sc : writes (emit_skyportals sc).
Proof.
  unfold emit_skyportals. destruct (skyportals_all sc) as [|x l]; [apply writes_id|].
  apply (writes_shared_group InSkyPortals (str "SkyPortals")
           (fun h => foldl (fun h _ => emit_brush_same_propid InSkyPortals h) h (x :: l))).
  - left. reflexivity.
  - apply writes_group_foldl.
  - intros c ns.
    exact (group_body_nonempty InSkyPortals
             (fun h => foldl (fun h _ => emit_brush_same_propid InSkyPortals h) h l)
             (writes_group_foldl _ l) c ns).
Qed.

Lemma writes_emit_occluders sc : writes (emit_occluders sc).
Proof.
  unfold emit_occluders. destruct (occluders_all sc) as [|x l]; [apply writes_id|].
  apply (writes_comp (emit_null InWorld (str "Occluders"))
                     (fun h => foldl (fun h _ => emit_brush InOccluders h) h (x :: l))).
  - apply writes_emit_null.
  - apply writes_foldl. intros _. apply writes_emit_brush.
Qed.

Lemma writes_emit_blockers sc : writes (emit_blockers sc).
Proof.
  unfold emit_blockers. destruct (polyBlocks_count sc) as [|n]; [apply writes_id|].
  apply (writes_shared_group InBlockers (str "Blockers")
           (repeat_emit (S n) (emit_brush_same_propid InBlockers))).
  - right. left. reflexivity.
  - apply writes_group_repeat.
  - intros c ns.
    exact (group_body_nonempty InBlockers _ (writes_group_repeat InBlockers n) c ns).
Qed.

Lemma writes_emit_particle_blockers sc : writes (emit_particle_blockers sc).
Proof.
  unfold emit_particle_blockers.
  destruct (polypParticleblock_count sc) as [|n]; [apply writes_id|].
  apply (writes_shared_group InParticleBlockers (str "ParticleBlockers")
           (repeat_emit (S n) (emit_brush_same_propid InParticleBlockers))).
  - right. right. reflexivity.
  - apply writes_group_repeat.
  - intros c ns.
    exact (group_body_nonempty InParticleBlockers _
             (writes_group_repeat InParticleBlockers n) c ns).
Qed.

(** The whole hierarchy is one stretch from the counters (0, 1, 1). *)
Lemma node_hierarchy_trace map_name sc :
  trace_ok (mkC 0 1 1) (node_hierarchy map_name sc).2 (node_hierarchy map_name sc).1.
Proof.
  unfold node_hierarchy.
  assert (W : writes (fun h =>
            emit_particle_blockers sc
              (emit_blockers sc
                 (emit_occluders sc
                    (emit_skyportals sc
                       (emit_objects sc
                          (foldl (fun h e => emit_render_node e h)
                                 (emit_null InWorld (str "RenderNodes")
                                            (emit_null AtTop map_name h))
                                 (section_brushes_by_node sc)))))))).
  { apply (writes_comp _ (emit_particle_blockers sc)); [|apply writes_emit_particle_blockers].
    apply (writes_comp _ (emit_blockers sc)); [|apply writes_emit_blockers].
    apply (writes_comp _ (emit_occluders sc)); [|apply writes_emit_occluders].
    apply (writes_comp _ (emit_skyportals sc)); [|apply writes_emit_skyportals].
    apply (writes_comp _ (emit_objects sc)); [|apply writes_emit_objects].
    apply (writes_comp _ (fun h => foldl (fun h e => emit_render_node e h) h
                                         (section_brushes_by_node sc))).
    - apply (writes_comp (emit_null AtTop map_name)
                         (emit_null InWorld (str "RenderNodes")));
        apply writes_emit_null.
    - apply (writes_foldl (fun h e => emit_render_node e h)).
      intros e. apply writes_emit_render_node. }
  destruct (W (mkC 0 1 1) []) as (c' & new & E & T & _); [unfold positive; simpl; lia|].
  rewrite E. exact T.
Qed.

(** *** The property list has one entry per property id *)

Definition pid (h : hstate) : Z := base_propid h.1.

Lemma pid_foldl {A} (f : hstate -> A -> hstate) (g : A -> nat) :
  (forall h x, pid (f h x) = pid h + Z.of_nat (g x)) ->
  forall l h, pid (foldl f h l) = pid h + Z.of_nat (sum_list_with g l).
Proof.
  intros Hf. induction l as [|x l IH]; intros h; simpl; [lia|].
  rewrite IH, Hf. lia.
Qed.

Lemma pid_foldl_const {A} (f : hstate -> hstate) (l : list A) h :
  (forall h, pid (f h) = pid h + 1) ->
  pid (foldl (fun h _ => f h) h l) = pid h + Z.of_nat (length l).
Proof.
  intros Hf. rewrite (pid_foldl (fun h _ => f h) (fun _ => 1%nat)) by (intros; apply Hf).
  replace (sum_list_with (fun _ => 1%nat) l) with (length l); [reflexivity|].
  induction l; simpl; congruence.
Qed.

Lemma pid_foldl_same {A} (f : hstate -> hstate) (l : list A) h :
  (forall h, pid (f h) = pid h) -> pid (foldl (fun h _ => f h) h l) = pid h.
Proof.
  intros Hf. revert h. induction l as [|x l IH]; intros h; simpl; [reflexivity|].
  rewrite IH. apply Hf.
Qed.

Lemma pid_repeat_same n (f : hstate -> hstate) h :
  (forall h, pid (f h) = pid h) -> pid (repeat_emit n f h) = pid h.
Proof.
  intros Hf. revert h. induction n as [|n IH]; intros h; simpl; [reflexivity|].
  rewrite IH. apply Hf.
Qed.

Lemma pid_emit_null pl label h : pid (emit_null pl label h) = pid h.
Proof. destruct h. reflexivity. Qed.

Lemma pid_emit_brush pl h : pid (emit_brush pl h) = pid h + 1.
Proof. destruct h. reflexivity. Qed.

Lemma pid_emit_object pl label h : pid (emit_object pl label h) = pid h + 1.
Proof. destruct h. reflexivity. Qed.

Lemma pid_emit_brush_same pl h : pid (emit_brush_same_propid pl h) = pid h.
Proof. destruct h. reflexivity. Qed.

Lemma pid_bump h : pid (bump_propid h) = pid h + 1.
Proof. destruct h. reflexivity. Qed.

Lemma length_concat_map {A B} (f : A -> list B) l :
  length (concat (map f l)) = sum_list_with (fun a => length (f a)) l.
Proof. induction l as [|a l IH]; simpl; [reflexivity|]. rewrite length_app, IH. reflexivity. Qed.

Lemma sum_list_with_ext_in {A} (f g : A -> nat) l :
  (forall a, a ∈ l -> f a = g a) -> sum_list_with f l = sum_list_with g l.
Proof.
  induction l as [|a l IH]; intros H; simpl; [reflexivity|].
  rewrite (H a) by left. rewrite IH; [reflexivity|]. intros b Hb. apply H. right. exact Hb.
Qed.

Lemma sum_list_with_map {A B} (f : B -> nat) (h : A -> B) l :
  sum_list_with f (map h l) = sum_list_with (fun a => f (h a)) l.
Proof. induction l as [|a l IH]; simpl; congruence. Qed.

(** In a dictionary, every item is what its key looks up. *)
Lemma dict_get_item {K V} `{EqDecision K} (d : list (K * V)) k v :
  NoDup (dict_keys d) -> (k, v) ∈ d -> dict_get d k = Some v.
Proof.
  unfold dict_keys. induction d as [|[k0 v0] d IH]; simpl; intros Hn Hin.
  - by apply elem_of_nil in Hin.
  - apply NoDup_cons in Hn as [Hk Hn].
    apply elem_of_cons in Hin as [[= -> ->]|Hin].
    + destruct (decide (k0 = k0)); [reflexivity | congruence].
    + destruct (decide (k0 = k)) as [->|_]; [|apply IH; assumption].
      exfalso. apply Hk. apply list_elem_of_fmap. exists (k, v). auto.
Qed.

Lemma sum_over_keys {K V} `{EqDecision K} (d : list (K * V)) (g : option V -> nat) :
  NoDup (dict_keys d) ->
  sum_list_with (fun k => g (dict_get d k)) (dict_keys d)
  = sum_list_with (fun e => g (Some e.2)) d.
Proof.
  intros Hn. unfold dict_keys. rewrite sum_list_with_map.
  apply sum_list_with_ext_in. intros [k v] Hin. simpl.
  rewrite (dict_get_item d k v Hn Hin). reflexivity.
Qed.

Section Counting.
Variable sc : scene.
Hypothesis nodes_wf : NoDup (dict_keys (section_brushes_by_node sc)).
Hypothesis keys_wf : NoDup (dict_keys (keyframer_keys_map sc)).

Definition opt_length {A} (o : option (list A)) : nat :=
  match o with Some l => length l | None => 0%nat end.

Lemma pid_emit_render_node e h :
  pid (emit_render_node e h) = pid h + Z.of_nat (length e.2).
Proof.
  destruct e as [node_index brushes]. unfold emit_render_node. simpl.
  rewrite pid_foldl_const by apply pid_emit_brush. rewrite pid_emit_null. reflexivity.
Qed.

Lemma render_props_length :
  length (concat (map (props_of_render_node sc)
                      (merge_sort Nat.le (dict_keys (section_brushes_by_node sc)))))
  = sum_list_with (fun e => length e.2) (section_brushes_by_node sc).
Proof.
  rewrite length_concat_map, merge_sort_Permutation.
  etransitivity;
    [|exact (sum_over_keys (section_brushes_by_node sc) opt_length nodes_wf)].
  apply sum_list_with_ext_in. intros k _. unfold props_of_render_node.
  destruct (dict_get (section_brushes_by_node sc) k); simpl; [apply length_imap | reflexivity].
Qed.

Lemma pid_emit_world_object m e h :
  pid (emit_world_object sc m h e)
  = pid h + Z.of_nat (length (props_of_world_object sc m e)).
Proof.
  destruct e as [i obj]. unfold emit_world_object, props_of_world_object.
  destruct (m !! i) as [wm_id|]; simpl.
  - rewrite pid_foldl_const by apply pid_emit_brush.
    rewrite pid_emit_object, length_map. lia.
  - rewrite pid_emit_object. reflexivity.
Qed.

Lemma pid_emit_key_track key_name h :
  pid (emit_key_track sc h key_name)
  = pid h + Z.of_nat (opt_length (dict_get (keyframer_keys_map sc) key_name)).
Proof.
  unfold emit_key_track.
  destruct (dict_get (keyframer_keys_map sc) key_name) as [entries|]; simpl.
  - rewrite pid_foldl_const by apply pid_emit_object. rewrite pid_emit_null. reflexivity.
  - rewrite pid_emit_null. lia.
Qed.

Lemma pid_emit_objects h :
  world_objects sc <> [] \/ keyframer_keys_map sc = [] ->
  pid (emit_objects sc h)
  = pid h
    + Z.of_nat (length (concat (map (props_of_world_object sc (matched_wm_to_obj sc))
                                    (enumerate (world_objects sc)))))
    + Z.of_nat (length (concat (map (fun e => map PLKey e.2) (keyframer_keys_map sc)))).
Proof.
  intros Hobj. unfold emit_objects.
  destruct (world_objects sc) as [|o objs] eqn:Eo.
  - destruct Hobj as [Hobj | ->]; [congruence|]. simpl. lia.
  - assert (Hk : forall h2,
               pid (match keyframer_keys_map sc with
                    | [] => h2
                    | _ :: _ => foldl (emit_key_track sc) h2
                                      (dict_keys (keyframer_keys_map sc))
                    end)
               = pid h2 + Z.of_nat (length (concat (map (fun e => map PLKey e.2)
                                                        (keyframer_keys_map sc))))).
    { intros h2. rewrite length_concat_map.
      rewrite (sum_list_with_ext_in _ (fun e => opt_length (Some e.2)))
        by (intros e _; simpl; apply length_map).
      rewrite <- (sum_over_keys (keyframer_keys_map sc) opt_length keys_wf).
      destruct (keyframer_keys_map sc) eqn:Ek; [simpl; lia|].
      rewrite <- Ek.
      apply (pid_foldl (emit_key_track sc)
               (fun k => opt_length (dict_get (keyframer_keys_map sc) k))).
      intros h' k. apply pid_emit_key_track. }
    rewrite Hk. f_equal.
    rewrite (pid_foldl (emit_world_object sc (matched_wm_to_obj sc))
               (fun e => length (props_of_world_object sc (matched_wm_to_obj sc) e)))
      by (intros; apply pid_emit_world_object).
    rewrite pid_emit_null, length_concat_map. reflexivity.
Qed.

Lemma pid_emit_skyportals h :
  pid (emit_skyportals sc h)
  = pid h + match skyportals_all sc with [] => 0 | _ :: _ => 1 end.
Proof.
  unfold emit_skyportals. destruct (skyportals_all sc) as [|x l]; [lia|].
  rewrite pid_bump, pid_foldl_same by apply pid_emit_brush_same.
  rewrite pid_emit_null. reflexivity.
Qed.

Lemma pid_emit_occluders h :
  pid (emit_occluders sc h) = pid h + Z.of_nat (length (occluders_all sc)).
Proof.
  unfold emit_occluders. destruct (occluders_all sc) as [|x l]; [simpl; lia|].
  rewrite pid_foldl_const by apply pid_emit_brush. rewrite pid_emit_null. reflexivity.
Qed.

Lemma pid_emit_blockers h :
  pid (emit_blockers sc h)
  = pid h + match polyBlocks_count sc with O => 0 | S _ => 1 end.
Proof.
  unfold emit_blockers. destruct (polyBlocks_count sc) as [|n]; [lia|].
  rewrite pid_bump, pid_repeat_same by apply pid_emit_brush_same.
  rewrite pid_emit_null. reflexivity.
Qed.

Lemma pid_emit_particle_blockers h :
  pid (emit_particle_blockers sc h)
  = pid h + match polypParticleblock_count sc with O => 0 | S _ => 1 end.
Proof.
  unfold emit_particle_blockers.
  destruct (polypParticleblock_count sc) as [|n]; [lia|].
  rewrite pid_bump, pid_repeat_same by apply pid_emit_brush_same.
  rewrite pid_emit_null. reflexivity.
Qed.

(** The last value of [base_propid] is the number of property lists. *)
Lemma final_propid map_name :
  world_objects sc <> [] \/ keyframer_keys_map sc = [] ->
  base_propid (node_hierarchy map_name sc).1 = Z.of_nat (length (global_proplist sc)).
Proof.
  intros Hobj. change (base_propid (node_hierarchy map_name sc).1)
    with (pid (node_hierarchy map_name sc)).
  unfold node_hierarchy, global_proplist.
  rewrite pid_emit_particle_blockers, pid_emit_blockers, pid_emit_occluders,
    pid_emit_skyportals, pid_emit_objects by exact Hobj.
  rewrite (pid_foldl (fun h e => emit_render_node e h) (fun e => length e.2))
    by (intros; apply pid_emit_render_node).
  rewrite !pid_emit_null. rewrite !length_app, render_props_length, length_map.
  change (pid (mkC 0 1 1, [])) with 1. simpl length.
  destruct (skyportals_all sc); destruct (polyBlocks_count sc);
    destruct (polypParticleblock_count sc); simpl length; lia.
Qed.
End Counting.

(** Counter monotonicity as the specification words it: node ids and non-zero
    property ids strictly increase along the hierarchy, and the property
    lists after the leading empty one are as many as the nodes that carry
    a property id. *)
Definition ids_never_reused (map_name : pystr) (sc : scene) : Prop :=
  let nodes := (node_hierarchy map_name sc).2 in
  (forall i j n m, (i < j)%nat -> nodes !! i = Some n -> nodes !! j = Some m ->
                   wn_nodeid n < wn_nodeid m)
  /\ (forall i j n m, (i < j)%nat -> nodes !! i = Some n -> nodes !! j = Some m ->
                      wn_propid n <> 0 -> wn_propid m <> 0 ->
                      wn_propid n < wn_propid m)
  /\ length (global_proplist sc)
     = S (length (List.filter (fun n => negb (wn_propid n =? 0)) nodes)).

Definition a_portal : list (Vec3 float) * Vec3 float * float :=
  ([], mkVec3 0 1 0, 0)%float.

(** A scene with nothing but two sky portals. *)
Definition two_sky_portals : scene :=
  mkScene [] [] [] [] [] [a_portal; a_portal] [] 0 0 [].

(** With two sky portals the two brush nodes are written with the same
    property id 1, and one property list stands for both. *)
Lemma two_sky_portals_share_propid : ~ ids_never_reused (str "map") two_sky_portals.
Proof.
  intros (_ & H & _).
  specialize (H 3%nat 4%nat _ _ ltac:(lia) eq_refl eq_refl). simpl in H. lia.
Qed.

(** C1. Along the node hierarchy of every run the node ids are 1, 2,
    3, ... in the order written, and the non-zero property ids never
    decrease, two nodes carrying the same one only when both are brushes
    of the same auxiliary group among sky portals, blockers and particle
    blockers.  When moreover there is a world object or no keyframe
    track (the two dictionaries having each key once), the non-zero
    property ids are exactly 1, ..., e - 1 for the e entries of the global
    property list, whose first entry is the empty one. *)
Theorem node_and_property_ids map_name sc :
  let nodes := (node_hierarchy map_name sc).2 in
  let entries := Z.of_nat (length (global_proplist sc)) in
  (forall k n, nodes !! k = Some n -> wn_nodeid n = 1 + Z.of_nat k)
  /\ (forall i j n m, (i < j)%nat -> nodes !! i = Some n -> nodes !! j = Some m ->
                      wn_propid n <> 0 -> wn_propid m <> 0 ->
                      wn_propid n <= wn_propid m
                      /\ (wn_propid n = wn_propid m ->
                          shared_place (wn_place n) /\ wn_place m = wn_place n))
  /\ (NoDup (dict_keys (section_brushes_by_node sc)) ->
      NoDup (dict_keys (keyframer_keys_map sc)) ->
      world_objects sc <> [] \/ keyframer_keys_map sc = [] ->
      (forall n, n ∈ nodes -> wn_propid n <> 0 -> 1 <= wn_propid n < entries)
      /\ (forall p, 1 <= p < entries -> exists n, n ∈ nodes /\ wn_propid n = p)).
Proof.
  intros nodes entries.
  pose proof (node_hierarchy_trace map_name sc) as [[Ti _] _ Tr To Tc].
  fold nodes in Ti, Tr, To, Tc.
  split; [|split].
  - intros k n H. apply (Ti k n H).
  - exact To.
  - intros Hn Hk Hobj.
    pose proof (final_propid sc Hn Hk map_name Hobj) as Hf.
    subst entries. rewrite <- Hf. split; [exact Tr|exact Tc].
Qed.

(** A scene with three world objects and no geometry. *)
Definition an_object (ty name : string) : list (pystr * pyvalue) :=
  [(str "__Type", VStr (str ty)); (str "Name", VStr (str name))].

Definition three_objects : scene :=
  mkScene [] [an_object "Light" "L0"; an_object "Light" "L1"; an_object "Door" "D0"]
          [] [] [] [] [] 0 0 [].

Lemma node_and_property_ids_witness :
  global_proplist three_objects
  = [PLEmpty; PLObject 0 (an_object "Light" "L0"); PLObject 1 (an_object "Light" "L1");
     PLObject 2 (an_object "Door" "D0")]
  /\ map wn_nodeid (node_hierarchy (str "map") three_objects).2 = [1; 2; 3; 4; 5; 6]
  /\ map wn_propid (node_hierarchy (str "map") three_objects).2 = [0; 0; 0; 1; 2; 3]
  /\ (forall p, 1 <= p < 4 ->
        exists n, n ∈ (node_hierarchy (str "map") three_objects).2 /\ wn_propid n = p).
Proof.
  destruct (node_and_property_ids (str "map") three_objects) as (_ & _ & Hcount).
  destruct Hcount as (_ & Hc).
  - apply NoDup_nil_2.
  - apply NoDup_nil_2.
  - left. discriminate.
  - repeat split; try reflexivity. exact Hc.
Defined.

(** ** Surface flags *)

Lemma land_bit_eqb flags k :
  0 <= k -> (Z.land flags (Z.shiftl 1 k) =? 0) = negb (Z.testbit flags k).
Proof.
  intros Hk. rewrite Z.shiftl_1_l.
  destruct (Z.testbit flags k) eqn:E; simpl.
  - apply Z.eqb_neq. intros H.
    assert (Z.testbit (Z.land flags (2 ^ k)) k = false) as F by (rewrite H; apply Z.bits_0).
    rewrite Z.land_spec, E, Z.pow2_bits_true in F by lia. discriminate.
  - apply Z.eqb_eq. apply Z.bits_inj'. intros n Hn.
    rewrite Z.land_spec, Z.bits_0, Z.pow2_bits_eqb by lia.
    destruct (Z.eqb_spec k n) as [->|]; [rewrite E|]; auto using andb_false_r.
Qed.

(** The table by bit position. *)
Definition flag_bits : list (Z * pystr) :=
  Eval cbv in map (fun e => (Z.log2 (fst e), snd e)) SURFACE_FLAGS.

Definition named_if_set (flags : Z) (e : Z * pystr) : option pystr :=
  if Z.testbit flags (fst e) then Some (snd e) else None.

Lemma decode_surface_flags_bits flags :
  decode_surface_flags flags = omap (named_if_set flags) flag_bits.
Proof.
  unfold decode_surface_flags.
  change SURFACE_FLAGS with (map (fun e : Z * pystr => (Z.shiftl 1 (fst e), snd e)) flag_bits).
  assert (Forall (fun e : Z * pystr => 0 <= fst e) flag_bits) as F
    by (unfold flag_bits; repeat constructor; simpl; lia).
  induction F as [|e l He F IH]; [reflexivity|].
  cbn [map omap list_omap fst snd]. unfold named_if_set at 1.
  rewrite land_bit_eqb by exact He.
  destruct (Z.testbit flags (fst e)); simpl; [f_equal|]; exact IH.
Qed.

Lemma SURFACE_FLAGS_bits :
  SURFACE_FLAGS = map (fun e : Z * pystr => (Z.shiftl 1 (fst e), snd e)) flag_bits.
Proof. reflexivity. Qed.

Lemma flag_bits_nonneg e : e ∈ flag_bits -> 0 <= fst e.
Proof.
  assert (Forall (fun e : Z * pystr => 0 <= fst e) flag_bits) as F
    by (unfold flag_bits; repeat constructor; simpl; lia).
  intros He. exact (proj1 (Forall_forall _ _) F e He).
Qed.

(** No name stands for two bits. *)
Lemma flag_bits_names e e' :
  e ∈ flag_bits -> e' ∈ flag_bits -> snd e = snd e' -> e = e'.
Proof.
  assert (Forall (fun e : Z * pystr =>
            Forall (fun e' : Z * pystr => snd e = snd e' -> e = e') flag_bits) flag_bits) as F.
  { refine (bool_decide_unpack _ _). vm_compute. exact I. }
  intros He He'.
  exact (proj1 (Forall_forall _ _) (proj1 (Forall_forall _ _) F e He) e' He').
Qed.

Lemma flag_in_table k name :
  0 <= k -> (Z.shiftl 1 k, name) ∈ SURFACE_FLAGS -> (k, name) ∈ flag_bits.
Proof.
  intros Hk Hin. rewrite SURFACE_FLAGS_bits in Hin.
  apply list_elem_of_fmap in Hin as ([k' name'] & E & Hin). simpl in E.
  injection E as E <-.
  rewrite !Z.shiftl_1_l in E.
  apply Z.pow_inj_r in E; [subst k'; exact Hin|lia|exact Hk|exact (flag_bits_nonneg _ Hin)].
Qed.

Lemma decode_surface_flags_elem flags k name :
  (k, name) ∈ flag_bits ->
  name ∈ decode_surface_flags flags <-> Z.testbit flags k = true.
Proof.
  intros Hin. rewrite decode_surface_flags_bits, list_elem_of_omap. split.
  - intros (e & He & Hn). unfold named_if_set in Hn.
    destruct (Z.testbit flags (fst e)) eqn:T; [|discriminate].
    injection Hn as Hn.
    assert (e = (k, name)) as -> by (apply flag_bits_names; auto).
    exact T.
  - intros T. exists (k, name). split; [exact Hin|].
    unfold named_if_set. simpl. rewrite T. reflexivity.
Qed.

Lemma omap_sublist {A B} (f : A -> option B) (g : A -> B) l :
  (forall a b, f a = Some b -> b = g a) -> omap f l `sublist_of` map g l.
Proof.
  intros H. induction l as [|a l IH]; [constructor|].
  cbn [omap list_omap map]. destruct (f a) as [b|] eqn:E.
  - rewrite (H a b E). apply sublist_skip, IH.
  - apply sublist_cons, IH.
Qed.

(** The bits the table names. *)
Definition known_bits : Z :=
  Eval cbv in foldr (fun e acc => Z.lor (fst e) acc) 0 SURFACE_FLAGS.

(** A flag word decodes to the names of the table whose bit is set in it:
    a name of the table is in the result exactly when its bit is set, the
    names come in the order of the table, each at most once, and the bits
    the table does not name (3, 5, 9, 11, 13 to 16, 18, 20, 23, 27 and
    from 31 on) change nothing. *)
Theorem decode_surface_flags_spec flags :
  (forall k name, 0 <= k -> (Z.shiftl 1 k, name) ∈ SURFACE_FLAGS ->
     name ∈ decode_surface_flags flags <-> Z.testbit flags k = true)
  /\ decode_surface_flags flags `sublist_of` map snd SURFACE_FLAGS
  /\ NoDup (decode_surface_flags flags)
  /\ decode_surface_flags (Z.land flags known_bits) = decode_surface_flags flags.
Proof.
  assert (decode_surface_flags flags `sublist_of` map snd SURFACE_FLAGS) as Sub.
  { unfold decode_surface_flags. apply omap_sublist.
    intros a b. destruct (Z.land flags (fst a) =? 0); congruence. }
  split; [|split; [exact Sub|split]].
  - intros k name Hk Hin. apply decode_surface_flags_elem, flag_in_table; assumption.
  - eapply sublist_NoDup; [|exact Sub].
    refine (bool_decide_unpack _ _). vm_compute. exact I.
  - rewrite !decode_surface_flags_bits.
    assert (Forall (fun e : Z * pystr => Z.testbit known_bits (fst e) = true) flag_bits) as F
      by (unfold flag_bits; repeat constructor).
    induction F as [|e l He F IH]; [reflexivity|].
    cbn [omap list_omap]. rewrite IH. unfold named_if_set at 1 3.
    rewrite Z.land_spec, He, andb_true_r. reflexivity.
Qed.

(** *** The type and lighting of a surface *)

Lemma has_decoded flags k (name : string) :
  (k, str name) ∈ flag_bits ->
  has (list_to_set (decode_surface_flags flags)) name = Z.testbit flags k.
Proof.
  intros Hin. unfold has.
  destruct (Z.testbit flags k) eqn:T.
  - apply bool_decide_eq_true_2, elem_of_list_to_set.
    apply (decode_surface_flags_elem flags k); assumption.
  - apply bool_decide_eq_false_2. rewrite elem_of_list_to_set.
    rewrite (decode_surface_flags_elem flags k) by assumption. congruence.
Qed.

Ltac in_flag_bits := refine (bool_decide_unpack _ _); vm_compute; exact I.

(** The ["Type"] written for a surface depends on five bits of its flag
    word only: with bit 1 (NONEXISTENT) set it is "Occluder" when bit 21
    is set, else "RBSplitter" when bit 19 is set, else "RenderOnly";
    without bit 1 it is "NonSolid" unless bit 0 (SOLID) is set, and a solid
    surface is a "SkyPortal" when bit 4 is set and "Normal" otherwise. *)
Theorem surface_type_by_bits flags :
  get_surface_type (list_to_set (decode_surface_flags flags))
  = if Z.testbit flags 1 then
      if Z.testbit flags 21 then str "Occluder"
      else if Z.testbit flags 19 then str "RBSplitter"
      else str "RenderOnly"
    else if negb (Z.testbit flags 0) then str "NonSolid"
    else if Z.testbit flags 4 then str "SkyPortal"
    else str "Normal".
Proof.
  unfold get_surface_type.
  rewrite (has_decoded flags 1 "NONEXISTENT") by in_flag_bits.
  rewrite (has_decoded flags 21 "VISBLOCKER") by in_flag_bits.
  rewrite (has_decoded flags 19 "RBSPLITTER") by in_flag_bits.
  rewrite (has_decoded flags 0 "SOLID") by in_flag_bits.
  rewrite (has_decoded flags 4 "SKY") by in_flag_bits.
  reflexivity.
Qed.

(** The ["Lighting"] written for a surface depends on four bits of its
    flag word only: "ShadowMesh" needs bits 28 and 12 together, a lightmap
    (bit 7) then wins over Gouraud shading (bit 12), "Flat" is written only
    for bit 6 without bits 7 and 12, and a surface with none of them is
    "Gouraud". *)
Theorem lighting_type_by_bits flags :
  get_lighting_type (list_to_set (decode_surface_flags flags))
  = if Z.testbit flags 28 && Z.testbit flags 12 then str "ShadowMesh"
    else if Z.testbit flags 7 then str "Lightmap"
    else if Z.testbit flags 12 then str "Gouraud"
    else if Z.testbit flags 6 then str "Flat"
    else str "Gouraud".
Proof.
  unfold get_lighting_type.
  rewrite (has_decoded flags 28 "SHADOWMESH") by in_flag_bits.
  rewrite (has_decoded flags 12 "GOURAUDSHADE") by in_flag_bits.
  rewrite (has_decoded flags 7 "LIGHTMAP") by in_flag_bits.
  rewrite (has_decoded flags 6 "FLATSHADE") by in_flag_bits.
  reflexivity.
Qed.

(** ** The world layout *)

(** A quadtree, the bits that stand for it (a node is a 1 followed by its
    four children, a leaf is a 0), the bytes that hold a bit sequence from
    the least significant bit on, and the listing of a tree. *)
Inductive quadtree : Type :=
| QLeaf
| QNode (a b c d : quadtree).

Fixpoint layout_bits (t : quadtree) : list bool :=
  match t with
  | QLeaf => [false]
  | QNode a b c d =>
      true :: layout_bits a ++ layout_bits b ++ layout_bits c ++ layout_bits d
  end.

Fixpoint height (t : quadtree) : nat :=
  match t with
  | QLeaf => 1
  | QNode a b c d =>
      S (Nat.max (Nat.max (height a) (height b)) (Nat.max (height c) (height d)))
  end.

Fixpoint dump (prefix : pystr) (is_last : bool) (t : quadtree) : list pystr :=
  match t with
  | QLeaf => [prefix ++ connector is_last ++ leaf_line]
  | QNode a b c d =>
      let p := prefix ++ indent is_last in
      (prefix ++ connector is_last ++ node_line)
        :: dump p false a ++ dump p false b ++ dump p false c ++ dump p true d
  end.

Definition byte_of_bits (l : list bool) : byte :=
  Byte.of_bits (nth 0 l false, (nth 1 l false, (nth 2 l false, (nth 3 l false,
               (nth 4 l false, (nth 5 l false, (nth 6 l false, nth 7 l false))))))).

Definition pack (bits : list bool) : list byte :=
  map (fun i => byte_of_bits (take 8 (drop (8 * i) bits)))
      (seq 0 ((length bits + 7) / 8))%nat.

Definition reader_at (data : list byte) (k : nat) : bit_reader :=
  mkReader data (k / 8) (k mod 8).

Lemma bit_of_bits b0 b1 b2 b3 b4 b5 b6 b7 j :
  (j < 8)%nat ->
  bit_of (Byte.of_bits (b0, (b1, (b2, (b3, (b4, (b5, (b6, b7)))))))) j
  = if nth j [b0; b1; b2; b3; b4; b5; b6; b7] false then 1 else 0.
Proof.
  intros Hj.
  do 8 (destruct j as [|j]; [destruct b0, b1, b2, b3, b4, b5, b6, b7; reflexivity|]).
  lia.
Qed.

Lemma nth_chunk (bits : list bool) i j :
  (j < 8)%nat -> nth j (take 8 (drop (8 * i) bits)) false = nth (8 * i + j) bits false.
Proof.
  intros Hj. rewrite !nth_lookup, lookup_take_lt, lookup_drop by exact Hj. reflexivity.
Qed.

Lemma bit_of_byte_of_bits l j :
  (j < 8)%nat -> bit_of (byte_of_bits l) j = if nth j l false then 1 else 0.
Proof.
  intros Hj. unfold byte_of_bits. rewrite bit_of_bits by exact Hj.
  do 8 (destruct j as [|j]; [reflexivity|]). lia.
Qed.

(** The bit the parser finds at position [k] of packed bits. *)
Lemma pack_bit (bits : list bool) k (b : bool) :
  bits !! k = Some b ->
  exists x, pack bits !! (k / 8)%nat = Some x
            /\ bit_of x (k mod 8) = if b then 1 else 0.
Proof.
  intros Hk. pose proof (lookup_lt_Some _ _ _ Hk) as Hlt.
  exists (byte_of_bits (take 8 (drop (8 * (k / 8)) bits))). split.
  - unfold pack. rewrite list_lookup_fmap, lookup_seq_lt; [reflexivity|].
    apply Nat.Div0.div_lt_upper_bound.
    pose proof (Nat.div_mod_eq (length bits + 7) 8).
    pose proof (Nat.mod_upper_bound (length bits + 7) 8). lia.
  - pose proof (Nat.mod_upper_bound k 8 ltac:(lia)) as Hm.
    rewrite bit_of_byte_of_bits, nth_chunk by exact Hm.
    rewrite <- Nat.div_mod_eq, nth_lookup, Hk. reflexivity.
Qed.

Lemma reader_step data k :
  (if Nat.eqb (k mod 8 + 1) 8
   then mkReader data (k / 8 + 1) 0
   else mkReader data (k / 8) (k mod 8 + 1))
  = reader_at data (k + 1).
Proof.
  unfold reader_at.
  pose proof (Nat.div_mod_eq k 8) as E.
  pose proof (Nat.mod_upper_bound k 8 ltac:(lia)) as Hm.
  destruct (Nat.eqb_spec (k mod 8 + 1) 8) as [H8|H8].
  - assert ((k + 1) / 8 = k / 8 + 1)%nat as ->
      by (symmetry; apply (Nat.div_unique _ _ _ 0%nat); lia).
    assert ((k + 1) mod 8 = 0)%nat as ->
      by (symmetry; apply (Nat.mod_unique _ _ (k / 8 + 1)%nat); lia).
    reflexivity.
  - assert ((k + 1) / 8 = k / 8)%nat as ->
      by (symmetry; apply (Nat.div_unique _ _ _ (k mod 8 + 1)%nat); lia).
    assert ((k + 1) mod 8 = k mod 8 + 1)%nat as ->
      by (symmetry; apply (Nat.mod_unique _ _ (k / 8)%nat); lia).
    reflexivity.
Qed.

(** One call of [read_node] on packed bits, at a bit that exists. *)
Lemma read_node_step depth prefix is_last (bits : list bool) k (b : bool) out :
  bits !! k = Some b ->
  read_node (S depth) prefix is_last (reader_at (pack bits) k, out)
  = let out' := out ++ [prefix ++ connector is_last
                               ++ (if b then node_line else leaf_line)] in
    let s := (reader_at (pack bits) (k + 1), out') in
    if b then
      then_ (read_node depth (prefix ++ indent is_last) false s) (fun s0 =>
      then_ (read_node depth (prefix ++ indent is_last) false s0) (fun s1 =>
      then_ (read_node depth (prefix ++ indent is_last) false s1) (fun s2 =>
      read_node depth (prefix ++ indent is_last) true s2)))
    else Done (Ok s).
Proof.
  intros Hk. destruct (pack_bit bits k b Hk) as (x & Hb & Hbit).
  cbn [read_node]. unfold reader_at. cbn [rd_data rd_byte rd_bit].
  rewrite Hb, Hbit, reader_step. unfold reader_at. destruct b; reflexivity.
Qed.

Lemma read_node_dump t : forall depth prefix is_last bits k out,
  (height t <= depth)%nat ->
  take (length (layout_bits t)) (drop k bits) = layout_bits t ->
  read_node depth prefix is_last (reader_at (pack bits) k, out)
  = Done (Ok (reader_at (pack bits) (k + length (layout_bits t)),
              out ++ dump prefix is_last t)).
Proof.
  induction t as [|a IHa b IHb c IHc d IHd];
    intros depth prefix is_last bits k out Hd Hbits;
    (destruct depth as [|depth]; [simpl in Hd; lia|]).
  - rewrite (read_node_step _ _ _ bits k false).
    + reflexivity.
    + apply (f_equal (fun l => l !! 0%nat)) in Hbits.
      simpl in Hbits. rewrite lookup_take_lt, lookup_drop, Nat.add_0_r in Hbits by lia.
      exact Hbits.
  - cbn [height] in Hd. cbn [layout_bits] in Hbits.
    set (la := layout_bits a) in *. set (lb := layout_bits b) in *.
    set (lc := layout_bits c) in *. set (ld := layout_bits d) in *.
    assert (forall i x, (true :: la ++ lb ++ lc ++ ld) !! i = Some x ->
                        bits !! (k + i)%nat = Some x) as Hat.
    { intros i x Hi. rewrite <- Hbits in Hi.
      pose proof (lookup_lt_Some _ _ _ Hi) as Hlt. rewrite length_take in Hlt.
      rewrite lookup_take_lt, lookup_drop in Hi by lia. exact Hi. }
    assert (forall pre l post,
              true :: la ++ lb ++ lc ++ ld = pre ++ l ++ post ->
              take (length l) (drop (k + length pre) bits) = l) as Hsub.
    { intros pre l post E. apply list_eq. intros i.
      destruct (l !! i) as [x|] eqn:Hl.
      - pose proof (lookup_lt_Some _ _ _ Hl) as Hlt.
        rewrite lookup_take_lt, lookup_drop by exact Hlt.
        rewrite <- Nat.add_assoc. apply Hat. rewrite E.
        rewrite lookup_app_r, Nat.add_comm, Nat.add_sub by lia.
        rewrite lookup_app_l by exact Hlt. exact Hl.
      - apply lookup_ge_None in Hl. apply lookup_ge_None.
        rewrite length_take. lia. }
    rewrite (read_node_step _ _ _ bits k true)
      by (rewrite <- (Nat.add_0_r k); apply (Hat 0%nat); reflexivity).
    cbv zeta.
    rewrite (IHa depth _ false bits (k + 1)%nat); [|lia|exact (Hsub [true] la (lb ++ lc ++ ld) eq_refl)].
    cbn [then_].
    rewrite (IHb depth _ false bits (k + 1 + length la)%nat);
      [|lia|].
    2: { pose proof (Hsub (true :: la) lb (lc ++ ld)) as H. simpl length in H.
         replace (k + 1 + length la)%nat with (k + S (length la))%nat by lia.
         apply H. simpl. rewrite <- ?app_assoc. reflexivity. }
    cbn [then_].
    rewrite (IHc depth _ false bits (k + 1 + length la + length lb)%nat); [|lia|].
    2: { pose proof (Hsub (true :: la ++ lb) lc ld) as H. simpl length in H.
         rewrite length_app in H.
         replace (k + 1 + length la + length lb)%nat
           with (k + S (length la + length lb))%nat by lia.
         apply H. simpl. rewrite <- ?app_assoc. reflexivity. }
    cbn [then_].
    rewrite (IHd depth _ true bits (k + 1 + length la + length lb + length lc)%nat); [|lia|].
    2: { pose proof (Hsub (true :: la ++ lb ++ lc) ld []) as H. simpl length in H.
         rewrite !length_app in H.
         replace (k + 1 + length la + length lb + length lc)%nat
           with (k + S (length la + (length lb + length lc)))%nat by lia.
         apply H. simpl. rewrite <- ?app_assoc, app_nil_r. reflexivity. }
    subst la lb lc ld. f_equal. f_equal. f_equal.
    + f_equal. cbn [layout_bits length]. rewrite !length_app. lia.
    + cbn [dump]. rewrite <- !app_assoc. reflexivity.
Qed.

(** The layout parser reads a quadtree in preorder, one bit per node from
    the least significant bit of each byte on: on the packed bits of any
    tree no higher than the recursion the interpreter allows, whatever
    bits follow, it returns the heading and the listing of that tree. *)
Theorem parse_and_dump_worldtree_round_trip depth t tail :
  (height t <= depth)%nat ->
  parse_and_dump_worldtree depth (pack (layout_bits t ++ tail))
  = Done (Ok (layout_header :: dump [] true t)).
Proof.
  intros Hd. unfold parse_and_dump_worldtree.
  change (mkReader (pack (layout_bits t ++ tail)) 0 0)
    with (reader_at (pack (layout_bits t ++ tail)) 0).
  rewrite (read_node_dump t depth [] true _ 0 [layout_header] Hd).
  - reflexivity.
  - rewrite drop_0, take_app_length. reflexivity.
Qed.

Definition small_tree : quadtree :=
  QNode QLeaf (QNode QLeaf QLeaf QLeaf QLeaf) QLeaf QLeaf.

Lemma parse_and_dump_worldtree_round_trip_witness :
  (height small_tree <= 5)%nat
  /\ parse_and_dump_worldtree 5 (pack (layout_bits small_tree ++ [true; true]))
     = Done (Ok (layout_header :: dump [] true small_tree)).
Proof.
  split; [simpl; lia|].
  apply (parse_and_dump_worldtree_round_trip 5 small_tree [true; true]).
  simpl; lia.
Defined.

(** ** The world tree *)

(** A tree whose node count is 0 has an empty layout, and the layout
    parser reads its first bit from byte 0 of it: [WorldTree.read] raises
    [IndexError] on every such tree, before it reads any world model. *)
Theorem WorldTree_read_empty_layout depth st bmin bmax terrain rest :
  remaining st = bmin ++ bmax ++ [x00; x00; x00; x00] ++ terrain ++ rest ->
  length bmin = 12%nat -> length bmax = 12%nat -> length terrain = 4%nat ->
  WorldTree.read (S depth) st = Done (Raise IndexError).
Proof.
  intros Hrem L1 L2 L3. unfold WorldTree.read, WorldTree.read_layout.
  destruct (Vec3_read_exact st bmin _ Hrem L1) as (v1 & _ & R1).
  rewrite (bind_ok _ _ _ _ _ R1).
  assert (remaining (advance st 12)
          = bmax ++ [x00; x00; x00; x00] ++ terrain ++ rest) as Hrem1
    by (apply (remaining_at _ bmin); assumption).
  destruct (Vec3_read_exact _ bmax _ Hrem1 L2) as (v2 & _ & R2).
  rewrite (bind_ok _ _ _ _ _ R2).
  assert (remaining (advance (advance st 12) 12)
          = [x00; x00; x00; x00] ++ terrain ++ rest) as Hrem2
    by (apply (remaining_at _ bmax); assumption).
  rewrite (bind_ok _ _ _ _ _ (read_uint_exact 4 _ _ _ Hrem2 eq_refl)).
  assert (remaining (advance (advance (advance st 12) 12) 4)
          = terrain ++ rest) as Hrem3
    by (apply (remaining_at _ [x00; x00; x00; x00]); [exact Hrem2|reflexivity]).
  rewrite (bind_ok _ _ _ _ _ (read_uint_exact 4 _ _ _ Hrem3 L3)).
  reflexivity.
Qed.

Definition empty_world_tree : rstate :=
  mkState (repeat x00 24 ++ [x00; x00; x00; x00] ++ [x05; x00; x00; x00] ++ [x01]) 0 [].

Lemma WorldTree_read_empty_layout_witness :
  WorldTree.read 1 empty_world_tree = Done (Raise IndexError).
Proof.
  apply (WorldTree_read_empty_layout 0 empty_world_tree (repeat x00 12) (repeat x00 12)
           [x05; x00; x00; x00] [x01]); reflexivity.
Defined.

(** ** Texture names of a world model *)

Lemma split_nonempty sep bs : split sep bs <> [].
Proof.
  destruct bs as [|b r]; simpl; [discriminate|].
  destruct (Byte.eqb b sep); [discriminate|].
  destruct (split sep r); discriminate.
Qed.

(** A piece that holds no separator, followed by one, is the first piece
    of the split. *)
Lemma split_piece sep c r :
  sep ∉ c -> split sep (c ++ sep :: r) = c :: split sep r.
Proof.
  induction c as [|b c IH]; intros Hc; simpl.
  - rewrite (Byte.byte_dec_lb eq_refl). reflexivity.
  - destruct (Byte.eqb b sep) eqn:E.
    + apply Byte.byte_dec_bl in E. subst b. exfalso. apply Hc. left.
    + rewrite IH; [reflexivity|]. intros H. apply Hc. right. exact H.
Qed.

Lemma decode_utf8_fuel_strict_error n bs e :
  Codec.decode_utf8_fuel n Codec.strict bs = Raise e -> e = UnicodeDecodeError.
Proof.
  revert bs. induction n as [|n IH]; intros bs; destruct bs as [|b0 rest]; simpl;
    try discriminate.
  destruct (Codec.utf8_step b0 rest) as [c r|r].
  - destruct (Codec.decode_utf8_fuel n Codec.strict r) eqn:E; [discriminate|].
    intros [= <-]. exact (IH _ E).
  - intros [= <-]. reflexivity.
Qed.

Lemma decode_utf8_strict_nonempty b0 rest s :
  Codec.decode_utf8 Codec.strict (b0 :: rest) = Ok s -> s <> [].
Proof.
  unfold Codec.decode_utf8. simpl.
  destruct (Codec.utf8_step b0 rest) as [c r|r]; [|discriminate].
  destruct (Codec.decode_utf8_fuel _ _ r); [|discriminate].
  intros [= <-]. discriminate.
Qed.

Lemma slashes_no_backslash s : 92%N ∉ slashes s.
Proof.
  unfold slashes. intros H. apply list_elem_of_fmap in H as (c & E & _).
  destruct (N.eqb_spec c 92); [discriminate|]. congruence.
Qed.

(** The pieces the loop keeps. *)
Definition kept_pieces (pieces : list (list byte)) : list (list byte) :=
  List.filter (fun t => negb (Nat.eqb (length t) 0)) pieces.

Lemma texture_names_loop_ok pieces : forall result names,
  WorldModel.texture_names_loop pieces result = Ok names ->
  exists ss, names = result ++ map slashes ss
             /\ Forall2 (fun t s => Codec.decode_utf8 Codec.strict t = Ok s)
                        (kept_pieces pieces) ss.
Proof.
  induction pieces as [|t rest IH]; intros result names H; simpl in H.
  - injection H as <-. exists []. rewrite app_nil_r. split; [reflexivity|constructor].
  - destruct t as [|b0 t].
    + exact (IH _ _ H).
    + destruct (Codec.decode_utf8 Codec.strict (b0 :: t)) as [s|e] eqn:E; [|discriminate].
      destruct (IH _ _ H) as (ss & -> & F). exists (s :: ss). split.
      * rewrite <- app_assoc. reflexivity.
      * simpl. constructor; assumption.
Qed.

Lemma texture_names_loop_raise pieces : forall result e,
  WorldModel.texture_names_loop pieces result = Raise e ->
  e = UnicodeDecodeError
  /\ exists t, t ∈ pieces /\ Codec.decode_utf8 Codec.strict t = Raise UnicodeDecodeError.
Proof.
  induction pieces as [|t rest IH]; intros result e H; simpl in H; [discriminate|].
  destruct t as [|b0 t].
  - destruct (IH _ _ H) as (-> & t' & Hin & Ht'). split; [reflexivity|].
    exists t'. split; [right; exact Hin|exact Ht'].
  - destruct (Codec.decode_utf8 Codec.strict (b0 :: t)) as [s|e'] eqn:E.
    + destruct (IH _ _ H) as (-> & t' & Hin & Ht'). split; [reflexivity|].
      exists t'. split; [right; exact Hin|exact Ht'].
    + injection H as <-.
      pose proof (decode_utf8_fuel_strict_error _ _ _ E) as ->.
      split; [reflexivity|]. exists (b0 :: t). split; [left|exact E].
Qed.

Lemma texture_names_loop_decoded pieces : forall result ss,
  Forall2 (fun t s => Codec.decode_utf8 Codec.strict t = Ok s) (kept_pieces pieces) ss ->
  WorldModel.texture_names_loop pieces result = Ok (result ++ map slashes ss).
Proof.
  induction pieces as [|t rest IH]; intros result ss F; simpl in *.
  - inversion F; subst. rewrite app_nil_r. reflexivity.
  - destruct t as [|b0 t]; simpl in F.
    + exact (IH _ _ F).
    + inversion F as [|? s ? ss' Hs F']; subst. rewrite Hs.
      rewrite (IH _ _ F'), <- app_assoc. reflexivity.
Qed.

(** What [parse_texture_names] returns and when it fails.  A returned
    list holds, in order, the decoded non-empty pieces between the NUL
    bytes with every backslash turned into a slash, so no name is empty
    and none holds a backslash; and the call fails, with
    [UnicodeDecodeError], exactly when a piece is not valid UTF-8. *)
Theorem parse_texture_names_spec raw_bytes :
  (forall names, WorldModel.parse_texture_names raw_bytes = Ok names ->
     (exists ss, names = map slashes ss
                 /\ Forall2 (fun t s => Codec.decode_utf8 Codec.strict t = Ok s)
                            (kept_pieces (split x00 raw_bytes)) ss)
     /\ Forall (fun name => name <> [] /\ 92%N ∉ name) names)
  /\ (forall e, WorldModel.parse_texture_names raw_bytes = Raise e <->
        e = UnicodeDecodeError
        /\ exists t, t ∈ split x00 raw_bytes
                     /\ Codec.decode_utf8 Codec.strict t = Raise UnicodeDecodeError).
Proof.
  unfold WorldModel.parse_texture_names. split.
  - intros names H. destruct (texture_names_loop_ok _ _ _ H) as (ss & -> & F).
    split; [exists ss; auto|]. simpl.
    assert (Forall (fun t : list byte => t <> []) (kept_pieces (split x00 raw_bytes))) as NE.
    { apply Forall_forall. intros t Ht. apply list_elem_of_In, filter_In in Ht as [_ Ht].
      destruct t; [discriminate|discriminate]. }
    clear H. induction F as [|t s ts ss Hs F IH]; [constructor|].
    inversion NE as [|? ? Ht NE']; subst. simpl. constructor; [|exact (IH NE')]. split.
    + destruct t as [|b0 t]; [congruence|].
      pose proof (decode_utf8_strict_nonempty _ _ _ Hs) as Hne.
      destruct s; [congruence|discriminate].
    + apply slashes_no_backslash.
  - intros e. split.
    + apply texture_names_loop_raise.
    + intros (-> & t & Hin & Ht).
      destruct (WorldModel.texture_names_loop (split x00 raw_bytes) []) as [names|e] eqn:H.
      * exfalso. destruct (texture_names_loop_ok _ _ _ H) as (ss & _ & F).
        assert (t ∈ kept_pieces (split x00 raw_bytes)) as Hk.
        { apply list_elem_of_In, filter_In. split; [apply list_elem_of_In, Hin|].
          destruct t; [discriminate Ht|reflexivity]. }
        apply list_elem_of_lookup in Hk as (i & Hi).
        destruct (Forall2_lookup_l _ _ _ _ _ F Hi) as (s & _ & Hs). congruence.
      * destruct (texture_names_loop_raise _ _ _ H) as (-> & _). reflexivity.
Qed.

(** The texture-name block is a sequence of NUL-terminated names: on the
    concatenation of such names, each non-empty, free of NUL bytes and
    valid UTF-8, [parse_texture_names] returns their decodings with the
    backslashes turned into slashes, one for each name, in order. *)
Theorem parse_texture_names_round_trip cs ss :
  Forall2 (fun c s => c <> [] /\ (x00 ∉ c) /\ Codec.decode_utf8 Codec.strict c = Ok s) cs ss ->
  WorldModel.parse_texture_names (concat (map (fun c => c ++ [x00]) cs))
  = Ok (map slashes ss).
Proof.
  intros F. unfold WorldModel.parse_texture_names.
  apply (texture_names_loop_decoded _ [] ss).
  induction F as [|c s cs ss (Hne & Hnul & Hs) F IH]; simpl.
  - constructor.
  - rewrite <- app_assoc. simpl. rewrite split_piece by exact Hnul.
    unfold kept_pieces. simpl. destruct c as [|b0 c]; [congruence|]. simpl.
    constructor; [exact Hs|exact IH].
Qed.

Lemma parse_texture_names_round_trip_witness :
  WorldModel.parse_texture_names
    (concat (map (fun c => c ++ [x00])
                 [list_byte_of_string "tex\wall.dtx"; list_byte_of_string "sky.dtx"]))
  = Ok (map slashes [str "tex\wall.dtx"; str "sky.dtx"]).
Proof.
  apply (parse_texture_names_round_trip
           [list_byte_of_string "tex\wall.dtx"; list_byte_of_string "sky.dtx"]
           [str "tex\wall.dtx"; str "sky.dtx"]).
  repeat constructor; try discriminate;
    (intros H; repeat (apply elem_of_cons in H as [H|H]; [discriminate H|]);
     inversion H).
Defined.

(** ** Reads against the number of bytes left *)

Definition left (st : rstate) : nat := length (remaining st).

Lemma left_advance st n : left (advance st n) = (left st - n)%nat.
Proof.
  unfold left, remaining, advance. simpl. rewrite !length_drop. lia.
Qed.

Lemma f_read_enough n st :
  (n <= left st)%nat ->
  f_read n st = Ok (take n (remaining st), advance st n).
Proof.
  intros H. unfold f_read, advance. rewrite length_take.
  unfold left in H. rewrite Nat.min_l by exact H. reflexivity.
Qed.

Lemma f_read_any n st :
  f_read n st = Ok (take n (remaining st), advance st (Nat.min n (left st))).
Proof. unfold f_read, advance, left. rewrite length_take. reflexivity. Qed.

Lemma read_uint_enough n st :
  (n <= left st)%nat -> exists v, read_uint n st = Ok (v, advance st n).
Proof.
  intros H. unfold read_uint. rewrite (bind_ok _ _ _ _ _ (f_read_enough n st H)).
  unfold lift, unpack_uint. rewrite length_take. unfold left in H.
  rewrite Nat.min_l, Nat.eqb_refl by exact H. eauto.
Qed.

Lemma read_uint_short n st :
  (left st < n)%nat -> read_uint n st = Raise StructError.
Proof.
  intros H. unfold read_uint, bind, f_read, lift, unpack_uint. rewrite length_take.
  unfold left in H.
  destruct (Nat.eqb_spec (n `min` length (remaining st)) n); [lia|reflexivity].
Qed.

Lemma Vec3_read_enough st :
  (12 <= left st)%nat -> exists v, Vec3_read st = Ok (v, advance st 12).
Proof.
  intros H. unfold Vec3_read. rewrite (bind_ok _ _ _ _ _ (f_read_enough 12 st H)).
  unfold lift, unpack_3f. rewrite length_take. unfold left in H.
  rewrite Nat.min_l by exact H. simpl. eauto.
Qed.

Lemma Vec2_read_enough st :
  (8 <= left st)%nat -> exists v, Vec2_read st = Ok (v, advance st 8).
Proof.
  intros H. unfold Vec2_read. rewrite (bind_ok _ _ _ _ _ (f_read_enough 8 st H)).
  rewrite length_take. unfold left in H.
  rewrite Nat.min_l by exact H. simpl. eauto.
Qed.

Lemma Vec2_read_short st :
  (left st < 8)%nat -> Vec2_read st = Raise StructError.
Proof.
  intros H. unfold Vec2_read, bind, f_read, raise. rewrite length_take.
  unfold left in H.
  destruct (Nat.eqb_spec (8 `min` length (remaining st)) 8); [lia|reflexivity].
Qed.

Lemma Vec3_read_left st :
  (left st < 12)%nat -> Vec3_read st = Raise StructError.
Proof. apply Vec3_read_short. Qed.

(** ** Vertex data *)

(** The bytes of one vertex: 68 with tangent and binormal, 44 without. *)
Definition vertex_stride (version_flag : pystr) : nat :=
  if pystr_eqb version_flag (str "-v1") then 68%nat else 44%nat.

Ltac step_enough L :=
  match goal with
  | |- context [bind Vec3_read _ ?st] =>
      let v := fresh "v" in let E := fresh "E" in
      destruct (Vec3_read_enough st) as (v & E);
      [rewrite ?left_advance; lia | rewrite (bind_ok _ _ _ _ _ E); clear E]
  | |- context [bind Vec2_read _ ?st] =>
      let v := fresh "v" in let E := fresh "E" in
      destruct (Vec2_read_enough st) as (v & E);
      [rewrite ?left_advance; lia | rewrite (bind_ok _ _ _ _ _ E); clear E]
  | |- context [bind (f_read ?n) _ ?st] =>
      rewrite (bind_ok _ _ _ _ _ (f_read_enough n st ltac:(rewrite ?left_advance; lia)))
  end.

Lemma read_vertex_enough version_flag i vertices st :
  (vertex_stride version_flag <= left st)%nat ->
  exists v, read_vertex version_flag i vertices st
            = Ok (vertices ++ [v], advance st (vertex_stride version_flag)).
Proof.
  unfold vertex_stride, read_vertex. intros L.
  destruct (pystr_eqb version_flag (str "-v1")).
  - do 5 step_enough L.
    match goal with |- context [bind ?c _ ?st] =>
      assert (c st = Ok (tt, advance st 24)) as E end.
    { do 2 step_enough L. unfold ret. rewrite advance_advance. reflexivity. }
    rewrite (bind_ok _ _ _ _ _ E). unfold ret. rewrite !advance_advance. eauto.
  - do 5 step_enough L. unfold bind, ret. rewrite !advance_advance. eauto.
Qed.

Ltac step_or_short :=
  let Hs := fresh "Hs" in
  match goal with
  | |- bind Vec3_read _ ?st = _ =>
      destruct (Nat.lt_ge_cases (left st) 12) as [Hs|Hs];
      [rewrite (bind_raise _ _ _ _ (Vec3_read_left st Hs)); reflexivity
      |let v := fresh "v" in let E := fresh "E" in
       destruct (Vec3_read_enough st Hs) as (v & E);
       rewrite (bind_ok _ _ _ _ _ E); clear E]
  | |- bind Vec2_read _ ?st = _ =>
      destruct (Nat.lt_ge_cases (left st) 8) as [Hs|Hs];
      [rewrite (bind_raise _ _ _ _ (Vec2_read_short st Hs)); reflexivity
      |let v := fresh "v" in let E := fresh "E" in
       destruct (Vec2_read_enough st Hs) as (v & E);
       rewrite (bind_ok _ _ _ _ _ E); clear E]
  end.

Lemma read_vertex_short version_flag i vertices st :
  (left st < vertex_stride version_flag)%nat ->
  read_vertex version_flag i vertices st = Raise StructError.
Proof.
  unfold vertex_stride, read_vertex. intros L.
  do 3 step_or_short.
  rewrite (bind_ok _ _ _ _ _ (f_read_any 4 _)).
  rewrite !left_advance in *.
  step_or_short. rewrite !left_advance in *.
  destruct (pystr_eqb version_flag (str "-v1")); [|lia].
  rewrite (bind_raise _ _ _ StructError); [reflexivity|].
  step_or_short. rewrite !left_advance in *.
  step_or_short. rewrite !left_advance in *. lia.
Qed.

Lemma read_vertices_enough version_flag n : forall i vertices st,
  (n * vertex_stride version_flag <= left st)%nat ->
  exists vs, for_range_from i n (read_vertex version_flag) vertices st
             = Ok (vertices ++ vs, advance st (n * vertex_stride version_flag))
             /\ length vs = n.
Proof.
  induction n as [|n IH]; intros i vertices st L; simpl.
  - exists []. unfold ret, advance. rewrite app_nil_r, Nat.add_0_r.
    destruct st; auto.
  - destruct (read_vertex_enough version_flag i vertices st ltac:(lia)) as (v & E).
    rewrite (bind_ok _ _ _ _ _ E).
    destruct (IH (S i) (vertices ++ [v]) (advance st (vertex_stride version_flag)))
      as (vs & E' & Lvs); [rewrite left_advance; lia|].
    exists (v :: vs). rewrite E', advance_advance, <- app_assoc.
    split; [reflexivity|simpl; lia].
Qed.

Lemma read_vertices_short version_flag n : forall i vertices st,
  (left st < n * vertex_stride version_flag)%nat ->
  for_range_from i n (read_vertex version_flag) vertices st = Raise StructError.
Proof.
  induction n as [|n IH]; intros i vertices st L; simpl in *; [lia|].
  destruct (Nat.lt_ge_cases (left st) (vertex_stride version_flag)) as [Hs|Hs].
  - rewrite (bind_raise _ _ _ _ (read_vertex_short version_flag i vertices st Hs)).
    reflexivity.
  - destruct (read_vertex_enough version_flag i vertices st Hs) as (v & E).
    rewrite (bind_ok _ _ _ _ _ E). apply IH. rewrite left_advance. lia.
Qed.

(** [read_vertex_data] takes 68 bytes for a vertex when the flag is "-v1"
    and 44 for any other flag.  It never returns a partial list: with the
    bytes of all [count] vertices left in the file it returns [count]
    vertices and leaves the cursor after them, and with fewer it raises
    [struct.error]. *)
Theorem read_vertex_data_stride count version_flag st :
  let n := Z.to_nat count in
  let stride := vertex_stride version_flag in
  ((n * stride <= left st)%nat ->
   exists vs, read_vertex_data count version_flag st = Ok (vs, advance st (n * stride))
              /\ length vs = n)
  /\ ((left st < n * stride)%nat ->
      read_vertex_data count version_flag st = Raise StructError).
Proof.
  unfold read_vertex_data, for_range. split; intros L.
  - destruct (read_vertices_enough version_flag (Z.to_nat count) 0 [] st L) as (vs & E & Lvs).
    exists vs. split; [exact E|exact Lvs].
  - apply read_vertices_short, L.
Qed.

(** ** The header *)

Lemma le_bytes_spec n : forall v,
  0 <= v -> length (le_bytes n v) = n /\ le_uint (le_bytes n v) = v mod 256 ^ Z.of_nat n.
Proof.
  induction n as [|n IH]; intros v Hv.
  - simpl. rewrite Z.mod_1_r. auto.
  - cbn [le_bytes].
    assert (0 <= v mod 256 < 256) as Hm by (apply Z.mod_pos_bound; lia).
    destruct (Byte.of_N (Z.to_N (v mod 256))) as [b|] eqn:E.
    + apply Byte.to_of_N in E.
      destruct (IH (v / 256) ltac:(apply Z.div_pos; lia)) as (L & U).
      split; [simpl; rewrite L; reflexivity|].
      cbn [le_uint]. rewrite E, U, Z2N.id by lia.
      rewrite Nat2Z.inj_succ, Z.pow_succ_r by lia.
      rewrite (Z.rem_mul_r v 256 (256 ^ Z.of_nat n)) by lia. reflexivity.
    + apply Byte.of_N_None_iff in E. lia.
Qed.

Lemma le_bytes_word w :
  0 <= w < 2 ^ 32 ->
  exists b0 b1 b2 b3, le_bytes 4 w = [b0; b1; b2; b3] /\ le_uint [b0; b1; b2; b3] = w.
Proof.
  intros Hw. destruct (le_bytes_spec 4 w ltac:(lia)) as (L & U).
  destruct (le_bytes 4 w) as [|b0 [|b1 [|b2 [|b3 [|]]]]]; try discriminate.
  exists b0, b1, b2, b3. split; [reflexivity|].
  rewrite U. apply Z.mod_small. exact Hw.
Qed.

(** The fifteen words of a header and the sixty bytes that hold them. *)
Definition header_words (h : LithtechHeader) : list Z :=
  [version h; object_data_pos h; blind_object_data_pos h; lightgrid_pos h;
   collision_data_pos h; particle_blocker_data_pos h; render_data_pos h;
   packer_type h; packer_version h] ++ future h.

Definition header_bytes (h : LithtechHeader) : list byte :=
  concat (map (le_bytes 4) (header_words h)).

(** Reading a header is the inverse of laying its fifteen words out as
    sixty little-endian bytes: whatever follows them in the file, the
    header read back has the same nine fields and the same six reserved
    words, and the cursor stands at byte 60. *)
Theorem LithtechHeader_round_trip h rest log :
  Forall (fun w => 0 <= w < 2 ^ 32) (header_words h) ->
  length (future h) = 6%nat ->
  LithtechHeader_read (mkState (header_bytes h ++ rest) 0 log)
  = Ok (h, mkState (header_bytes h ++ rest) 60 log).
Proof.
  destruct h as [w0 w1 w2 w3 w4 w5 w6 w7 w8 fut]. unfold header_bytes, header_words.
  cbn [version object_data_pos blind_object_data_pos lightgrid_pos collision_data_pos
       particle_blocker_data_pos render_data_pos packer_type packer_version future].
  intros F L.
  destruct fut as [|w9 [|w10 [|w11 [|w12 [|w13 [|w14 [|]]]]]]]; try discriminate L.
  cbn [app map concat] in *.
  repeat match goal with
         | H : Forall _ (_ :: _) |- _ =>
             let Hw := fresh "Hw" in
             apply Forall_cons in H as [Hw H];
             let E := fresh "E" in let U := fresh "U" in
             destruct (le_bytes_word _ Hw) as (? & ? & ? & ? & E & U);
             rewrite E; clear E Hw
         end.
  unfold LithtechHeader_read, bind, f_read, remaining.
  cbn -[le_uint]. rewrite !take_0. cbn -[le_uint].
  repeat match goal with U : le_uint _ = _ |- _ => rewrite U; clear U end.
  reflexivity.
Qed.

Definition sample_header : LithtechHeader :=
  mkHeader 85 64 1000 2000 3000 4000 5000 1 2 [0; 0; 0; 0; 0; 4294967295].

Lemma LithtechHeader_round_trip_witness :
  LithtechHeader_read (mkState (header_bytes sample_header ++ [x2a]) 0 [])
  = Ok (sample_header, mkState (header_bytes sample_header ++ [x2a]) 60 []).
Proof.
  apply (LithtechHeader_round_trip sample_header [x2a] []).
  - unfold sample_header, header_words. simpl. repeat constructor; lia.
  - reflexivity.
Defined.

(** ** Encoded words and vectors *)

(** A value that fits a 32-bit field. *)
Definition word (w : Z) : Prop := 0 <= w < 2 ^ 32.

Definition vec3_ok (v : Vec3 f32) : Prop := word (vx v) /\ word (vy v) /\ word (vz v).

Definition vec3_bytes (v : Vec3 f32) : list byte :=
  le_bytes 4 (vx v) ++ le_bytes 4 (vy v) ++ le_bytes 4 (vz v).

Lemma le_bytes_length n v : 0 <= v -> length (le_bytes n v) = n.
Proof. intros H. apply le_bytes_spec, H. Qed.

Lemma vec3_bytes_length v : vec3_ok v -> length (vec3_bytes v) = 12%nat.
Proof.
  intros (Hx & Hy & Hz). unfold vec3_bytes.
  rewrite !length_app, !le_bytes_length by (apply Hx || apply Hy || apply Hz). reflexivity.
Qed.

Lemma vec3s_bytes_length vs :
  Forall vec3_ok vs -> length (concat (map vec3_bytes vs)) = (12 * length vs)%nat.
Proof.
  induction 1 as [|v vs Hv F IH]; simpl; [reflexivity|].
  rewrite length_app, IH, (vec3_bytes_length v Hv). lia.
Qed.

Lemma read_word_bytes st w rest :
  word w -> remaining st = le_bytes 4 w ++ rest ->
  read_uint 4 st = Ok (w, advance st 4).
Proof.
  intros Hw Hrem. destruct (le_bytes_word w Hw) as (b0 & b1 & b2 & b3 & E & U).
  rewrite E in Hrem. rewrite (read_uint_exact 4 st _ _ Hrem eq_refl), U. reflexivity.
Qed.

Lemma Vec3_read_bytes st v rest :
  vec3_ok v -> remaining st = vec3_bytes v ++ rest ->
  Vec3_read st = Ok (v, advance st 12).
Proof.
  destruct v as [x y z]. intros (Hx & Hy & Hz) Hrem. cbn [vx vy vz] in *.
  unfold vec3_bytes in Hrem. cbn [vx vy vz] in Hrem.
  destruct (le_bytes_word x Hx) as (x0 & x1 & x2 & x3 & Ex & Ux).
  destruct (le_bytes_word y Hy) as (y0 & y1 & y2 & y3 & Ey & Uy).
  destruct (le_bytes_word z Hz) as (z0 & z1 & z2 & z3 & Ez & Uz).
  rewrite Ex, Ey, Ez in Hrem.
  destruct (Vec3_read_exact st [x0; x1; x2; x3; y0; y1; y2; y3; z0; z1; z2; z3] rest
              Hrem eq_refl) as (v & Hv & ->).
  unfold unpack_3f in Hv. cbn -[le_uint] in Hv. rewrite Ux, Uy, Uz in Hv.
  injection Hv as <-. reflexivity.
Qed.

Lemma read_verts_loop_bytes verts : forall i acc st rest,
  Forall vec3_ok verts ->
  remaining st = concat (map vec3_bytes verts) ++ rest ->
  for_range_from i (length verts) (fun _ acc => do v <- Vec3_read; ret (acc ++ [v])) acc st
  = Ok (acc ++ verts, advance st (12 * length verts)).
Proof.
  induction verts as [|v verts IH]; intros i acc st rest F Hrem.
  - simpl. unfold ret, advance. rewrite app_nil_r, Nat.add_0_r. destruct st; reflexivity.
  - inversion F as [|? ? Hv F']; subst. cbn [map concat] in Hrem.
    rewrite <- app_assoc in Hrem. cbn [length for_range_from].
    rewrite (bind_ok _ _ _ _ _
               (bind_ok _ _ _ _ _ (Vec3_read_bytes _ _ _ Hv Hrem))).
    unfold ret at 1.
    apply remaining_at with (n := 12%nat) in Hrem; [|apply vec3_bytes_length, Hv].
    rewrite (IH _ _ _ _ F' Hrem), advance_advance, <- app_assoc.
    do 3 f_equal. lia.
Qed.

Lemma read_verts_bytes st verts rest :
  Forall vec3_ok verts ->
  remaining st = concat (map vec3_bytes verts) ++ rest ->
  read_verts (Z.of_nat (length verts)) st = Ok (verts, advance st (12 * length verts)).
Proof.
  intros F Hrem. unfold read_verts, for_range. rewrite Nat2Z.id.
  exact (read_verts_loop_bytes verts 0 [] st rest F Hrem).
Qed.

(** ** Loops that append *)

Lemma le_uint_nonneg bs : 0 <= le_uint bs.
Proof.
  induction bs as [|b r IH]; simpl; [lia|].
  pose proof (N2Z.is_nonneg (Byte.to_N b)). lia.
Qed.

Lemma read_uint_nonneg n st v st' : read_uint n st = Ok (v, st') -> 0 <= v.
Proof.
  intros H. apply read_uint_inv in H as (bs & rest & _ & _ & -> & _).
  apply le_uint_nonneg.
Qed.

(** A loop whose body appends one element that satisfies [P] appends as
    many elements as it has turns, each satisfying [P]. *)
Lemma for_range_from_appends {A} (P : A -> Prop) (body : nat -> list A -> M (list A)) n :
  (forall i acc st acc' st', body i acc st = Ok (acc', st') ->
     exists x, acc' = acc ++ [x] /\ P x) ->
  forall i acc st acc' st', for_range_from i n body acc st = Ok (acc', st') ->
    exists new, acc' = acc ++ new /\ length new = n /\ Forall P new.
Proof.
  intros Hbody. induction n as [|n IH]; intros i acc st acc' st' H; simpl in H.
  - injection H as <- <-. exists []. rewrite app_nil_r. auto.
  - apply bind_inv in H as (a1 & st1 & H1 & H2).
    destruct (Hbody _ _ _ _ _ H1) as (x & -> & Px).
    destruct (IH _ _ _ _ _ H2) as (new & -> & L & F).
    exists (x :: new). rewrite <- app_assoc. simpl. auto.
Qed.

Lemma read_verts_length vcount st verts st' :
  read_verts vcount st = Ok (verts, st') -> length verts = Z.to_nat vcount.
Proof.
  unfold read_verts, for_range. intros H.
  apply (for_range_from_appends (fun _ => True)) in H as (new & -> & L & _); [exact L|].
  intros i acc s acc' s' Hb. apply bind_inv in Hb as (v & s1 & _ & Hr).
  injection Hr as <- _. eauto.
Qed.

(** ** Blocker polygons *)

Section BlockerProperties.
Variable WORLD_OFFSET : option (Vec3 float).

(** The face of a blocker lists each of its points once, in order. *)
Definition face_covers_points (b : blocker_polyhedron) : Prop :=
  bl_f b = seq 0 (length (bl_pointlist b)).

Lemma write_blocker_appends i out_file st out' st' :
  write_blocker WORLD_OFFSET i out_file st = Ok (out', st') ->
  exists b, out' = out_file ++ [b] /\ face_covers_points b.
Proof.
  unfold write_blocker. intros H.
  apply bind_inv in H as (normal & s1 & _ & H).
  apply bind_inv in H as (dist & s2 & _ & H).
  apply bind_inv in H as (vcount & s3 & _ & H).
  apply bind_inv in H as (verts & s4 & Hv & H).
  injection H as <- _. eexists. split; [reflexivity|].
  unfold face_covers_points. simpl.
  rewrite length_map, (read_verts_length _ _ _ _ Hv). reflexivity.
Qed.

Lemma blocker_loop header_pos out_file st poly_count out' st' :
  (do_ f_seek header_pos;
   do poly_count <- read_u32;
   do out_file <- for_range poly_count (write_blocker WORLD_OFFSET) out_file;
   ret (poly_count, out_file)) st = Ok ((poly_count, out'), st') ->
  exists new, out' = out_file ++ new
              /\ Z.of_nat (length new) = poly_count
              /\ Forall face_covers_points new.
Proof.
  intros H.
  apply bind_inv in H as (u & s1 & _ & H).
  apply bind_inv in H as (pc & s2 & Hpc & H).
  apply bind_inv in H as (o & s3 & Hloop & H).
  injection H as <- <- _.
  unfold for_range in Hloop.
  apply (for_range_from_appends face_covers_points) in Hloop as (new & -> & L & F).
  - exists new. split; [reflexivity|]. split; [|exact F].
    rewrite L, Z2Nat.id; [reflexivity|]. exact (read_uint_nonneg _ _ _ _ Hpc).
  - intros. eapply write_blocker_appends. eassumption.
Qed.

(** The bytes of a polygon of either blocker section: the plane normal,
    its distance, the number of vertices as a 32-bit word, the vertices. *)
Definition polygon_bytes (p : Vec3 f32 * f32 * list (Vec3 f32)) : list byte :=
  let '(normal, dist, verts) := p in
  vec3_bytes normal ++ le_bytes 4 dist ++ le_bytes 4 (Z.of_nat (length verts))
    ++ concat (map vec3_bytes verts).

Definition polygon_ok (p : Vec3 f32 * f32 * list (Vec3 f32)) : Prop :=
  let '(normal, dist, verts) := p in
  vec3_ok normal /\ word dist /\ word (Z.of_nat (length verts)) /\ Forall vec3_ok verts.

(** The polyhedron written for a polygon. *)
Definition blocker_of (p : Vec3 f32 * f32 * list (Vec3 f32)) : blocker_polyhedron :=
  let '(normal, dist, verts) := p in
  mkBlocker (map (fun v => apply_world_offset WORLD_OFFSET (Vec3_float v)) verts)
            (seq 0 (length verts)) (Vec3_float normal) (float_of_f32 dist).

Lemma write_blocker_bytes i out_file st p rest :
  polygon_ok p ->
  remaining st = polygon_bytes p ++ rest ->
  write_blocker WORLD_OFFSET i out_file st
  = Ok (out_file ++ [blocker_of p], advance st (length (polygon_bytes p))).
Proof.
  destruct p as [[normal dist] verts]. intros (Hn & Hd & Hc & Hv) Hrem.
  unfold polygon_bytes in *. rewrite <- !app_assoc in Hrem.
  unfold write_blocker.
  rewrite (bind_ok _ _ _ _ _ (Vec3_read_bytes _ _ _ Hn Hrem)).
  apply remaining_at with (n := 12%nat) in Hrem; [|apply vec3_bytes_length, Hn].
  rewrite (bind_ok _ _ _ _ _ (read_word_bytes _ _ _ Hd Hrem)).
  apply remaining_at with (n := 4%nat) in Hrem; [|apply le_bytes_length; apply Hd].
  rewrite (bind_ok _ _ _ _ _ (read_word_bytes _ _ _ Hc Hrem)).
  apply remaining_at with (n := 4%nat) in Hrem; [|apply le_bytes_length; apply Hc].
  rewrite (bind_ok _ _ _ _ _ (read_verts_bytes _ _ _ Hv Hrem)).
  unfold ret, blocker_of. rewrite Nat2Z.id, !advance_advance.
  do 3 f_equal. rewrite !length_app, (vec3_bytes_length _ Hn),
    !le_bytes_length, (vec3s_bytes_length _ Hv) by (apply Hd || apply Hc). lia.
Qed.

Lemma write_blockers_bytes ps : forall i out_file st rest,
  Forall polygon_ok ps ->
  remaining st = concat (map polygon_bytes ps) ++ rest ->
  for_range_from i (length ps) (write_blocker WORLD_OFFSET) out_file st
  = Ok (out_file ++ map blocker_of ps,
        advance st (length (concat (map polygon_bytes ps)))).
Proof.
  induction ps as [|p ps IH]; intros i out_file st rest F Hrem; simpl.
  - unfold ret, advance. rewrite app_nil_r, Nat.add_0_r. destruct st; reflexivity.
  - inversion F as [|? ? Hp F']; subst. simpl in Hrem. rewrite <- app_assoc in Hrem.
    rewrite (bind_ok _ _ _ _ _ (write_blocker_bytes i out_file st p _ Hp Hrem)).
    apply remaining_advance in Hrem.
    rewrite (IH _ _ _ _ F' Hrem), advance_advance, <- app_assoc, length_app.
    reflexivity.
Qed.

Lemma blocker_loop_bytes header_pos out_file data log ps rest :
  Forall polygon_ok ps -> word (Z.of_nat (length ps)) ->
  drop header_pos data
  = le_bytes 4 (Z.of_nat (length ps)) ++ concat (map polygon_bytes ps) ++ rest ->
  forall pos,
  (do_ f_seek header_pos;
   do poly_count <- read_u32;
   do out_file <- for_range poly_count (write_blocker WORLD_OFFSET) out_file;
   ret (poly_count, out_file)) (mkState data pos log)
  = Ok ((Z.of_nat (length ps), out_file ++ map blocker_of ps),
        mkState data (header_pos + 4 + length (concat (map polygon_bytes ps))) log).
Proof.
  intros F Hc Hdata pos.
  unfold bind at 1. unfold f_seek. cbn [f_data out].
  assert (remaining (mkState data header_pos log)
          = le_bytes 4 (Z.of_nat (length ps)) ++ concat (map polygon_bytes ps) ++ rest)
    as Hrem by exact Hdata.
  rewrite (bind_ok _ _ _ _ _ (read_word_bytes _ _ _ Hc Hrem)).
  apply remaining_at with (n := 4%nat) in Hrem; [|apply le_bytes_length; apply Hc].
  unfold for_range. rewrite Nat2Z.id.
  rewrite (bind_ok _ _ _ _ _ (write_blockers_bytes ps 0 out_file _ rest F Hrem)).
  unfold ret, advance. simpl. repeat (f_equal; try lia).
Qed.

(** The two blocker sections are a 32-bit count followed by that many
    polygons.  On such a section [write_physics_polygons] (at
    [collision_data_pos]) and [write_particleblockers_polygons] (at
    [particle_blocker_data_pos]) append one polyhedron for each polygon,
    in order, return the count and leave the cursor after the last
    polygon.  And on any file, the count they return is the number of
    polyhedra they have appended, which is what the node hierarchy later
    writes brush nodes for, and the face of each polyhedron names its
    points 0, 1, ... once each. *)
Theorem blocker_polygons_counted header out_file :
  (forall data pos log ps rest,
     Forall polygon_ok ps -> word (Z.of_nat (length ps)) ->
     (drop (Z.to_nat (collision_data_pos header)) data
      = le_bytes 4 (Z.of_nat (length ps)) ++ concat (map polygon_bytes ps) ++ rest ->
      write_physics_polygons WORLD_OFFSET header out_file (mkState data pos log)
      = Ok ((Z.of_nat (length ps), out_file ++ map blocker_of ps),
            mkState data (Z.to_nat (collision_data_pos header) + 4
                          + length (concat (map polygon_bytes ps))) log))
     /\ (drop (Z.to_nat (particle_blocker_data_pos header)) data
         = le_bytes 4 (Z.of_nat (length ps)) ++ concat (map polygon_bytes ps) ++ rest ->
         write_particleblockers_polygons WORLD_OFFSET header out_file (mkState data pos log)
         = Ok ((Z.of_nat (length ps), out_file ++ map blocker_of ps),
               mkState data (Z.to_nat (particle_blocker_data_pos header) + 4
                             + length (concat (map polygon_bytes ps))) log)))
  /\ (forall st poly_count out' st',
        write_physics_polygons WORLD_OFFSET header out_file st = Ok ((poly_count, out'), st')
        \/ write_particleblockers_polygons WORLD_OFFSET header out_file st
           = Ok ((poly_count, out'), st') ->
        exists new, out' = out_file ++ new
                    /\ Z.of_nat (length new) = poly_count
                    /\ Forall face_covers_points new).
Proof.
  split.
  - intros data pos log ps rest F Hc. split; intros Hdata.
    + exact (blocker_loop_bytes _ out_file data log ps rest F Hc Hdata pos).
    + exact (blocker_loop_bytes _ out_file data log ps rest F Hc Hdata pos).
  - intros st poly_count out' st' [H|H]; exact (blocker_loop _ _ _ _ _ _ H).
Qed.
End BlockerProperties.

(** ** Two readers of one section *)

(** [c'] follows [c] on the file: where [c] returns, [c'] returns at the
    same cursor with a related result, and where [c] raises, [c'] raises
    the same exception unless the exception is one of [E]. *)
Definition follows {A B} (E : exn -> Prop) (R : A -> B -> Prop) (c : M A) (c' : M B)
  : Prop :=
  forall st st', same_file st st' ->
    match c st with
    | Ok (a, s) => exists b s', c' st' = Ok (b, s') /\ R a b /\ same_file s s'
    | Raise e => E e \/ c' st' = Raise e
    end.

Lemma follows_alike {A B} E (R : A -> B -> Prop) c c' : alike R c c' -> follows E R c c'.
Proof.
  intros H st st' Hs. specialize (H st st' Hs).
  destruct (c st) as [[a s]|e], (c' st') as [[b s']|e']; try contradiction.
  - destruct H. eauto.
  - right. congruence.
Qed.

Lemma follows_bind {A B A' B'} E (R : A -> A' -> Prop) (Q : B -> B' -> Prop)
      (c : M A) (c' : M A') (k : A -> M B) (k' : A' -> M B') :
  follows E R c c' -> (forall a a', R a a' -> follows E Q (k a) (k' a')) ->
  follows E Q (bind c k) (bind c' k').
Proof.
  intros Hc Hk st st' Hs. unfold bind. specialize (Hc st st' Hs).
  destruct (c st) as [[a s]|e].
  - destruct Hc as (a' & s' & -> & Ha & Hs'). apply (Hk a a' Ha s s' Hs').
  - destruct Hc as [He| ->]; auto.
Qed.

Lemma follows_ret {A B} E (R : A -> B -> Prop) a b : R a b -> follows E R (ret a) (ret b).
Proof. intros H. apply follows_alike, alike_ret, H. Qed.

(** A line printed by the first reader only. *)
Lemma follows_print {A B} E (R : A -> B -> Prop) e (k : M A) (k' : M B) :
  follows E R k k' -> follows E R (do_ print e; k) k'.
Proof.
  intros H st st' [Hd Hp]. unfold bind, print.
  apply H. split; assumption.
Qed.

Lemma follows_for_range_from {T T'} E (I : T -> T' -> Prop)
      (body : nat -> T -> M T) (body' : nat -> T' -> M T') n :
  (forall i s s', I s s' -> follows E I (body i s) (body' i s')) ->
  forall i s s', I s s' ->
    follows E I (for_range_from i n body s) (for_range_from i n body' s').
Proof.
  intros Hb. induction n as [|n IH]; intros i s s' Hs; simpl.
  - apply follows_ret, Hs.
  - apply (follows_bind E I); [apply Hb, Hs | intros a a' Ha; apply IH, Ha].
Qed.

(** A last statement of the second reader that only builds its result. *)
Lemma follows_then_ret {A B B'} E (R : A -> B -> Prop) (Q : A -> B' -> Prop)
      (c : M A) (c' : M B) (g : B -> B') :
  follows E R c c' -> (forall a b, R a b -> Q a (g b)) ->
  follows E Q c (do b <- c'; ret (g b)).
Proof.
  intros H HQ st st' Hs. specialize (H st st' Hs). unfold bind, ret.
  destruct (c st) as [[a s]|e].
  - destruct H as (b & s' & -> & HR & Hs').
    exists (g b), s'. split; [reflexivity|]. split; [apply HQ, HR|exact Hs'].
  - destruct H as [He| ->]; auto.
Qed.

Lemma alike_read_lithtech_string : alike eq read_lithtech_string read_lithtech_string.
Proof.
  unfold read_lithtech_string.
  apply (alike_bind eq); [apply alike_read_uint|intros len ? <-].
  destruct (len =? 0); [apply alike_ret; reflexivity|].
  apply (alike_bind eq); [apply alike_f_read|intros bs ? <-; apply alike_lift].
Qed.

Lemma alike_Quaternion_read : alike eq Quaternion_read Quaternion_read.
Proof.
  unfold Quaternion_read.
  apply (alike_bind eq); [apply alike_f_read|intros bs ? <-].
  destruct (length bs =? 16)%nat; [apply alike_ret; reflexivity|apply alike_raise].
Qed.

Section ObjectReaders.
Context `{U : Unicode}.

Definition anything {A B} (_ : A) (_ : B) : Prop := True.

(** Both chains read the same bytes for a value, whatever its type. *)
Lemma alike_read_prop_value name data_type data_size :
  alike anything (read_prop_value name data_type data_size)
        (read_prop_value_lta data_type data_size).
Proof.
  unfold read_prop_value, read_prop_value_lta.
  assert (forall A (c : M A) (f : A -> pyvalue) (g : A -> pyvalue * pystr),
            alike eq c c ->
            alike anything (do x <- c; ret (f x)) (do x <- c; ret (g x))) as step.
  { intros A c f g Hc. apply (alike_bind eq); [exact Hc|].
    intros a ? <-. apply alike_ret. exact I. }
  destruct (pystr_eqb name (str "RenderGroup") && (data_type =? 6)) eqn:RG.
  - apply andb_true_iff in RG as [_ E6]. apply Z.eqb_eq in E6. subst data_type. simpl.
    apply step, alike_read_uint.
  - clear RG.
    destruct (data_type =? 0); [apply step, alike_read_lithtech_string|].
    destruct (data_type =? 1); [apply step, alike_Vec3_read|].
    destruct (data_type =? 2); [apply step, alike_Vec3_read|].
    destruct (data_type =? 3); [apply step, alike_read_uint|].
    destruct (data_type =? 5); [apply step, alike_read_uint|].
    destruct (data_type =? 6); [apply step, alike_read_uint|].
    destruct (data_type =? 7); [apply step, alike_Quaternion_read|].
    apply (alike_bind eq); [apply alike_f_seek_cur|].
    intros ? ? _. apply alike_ret. exact I.
Qed.

Lemma hash_from_raise s : forall n e, hash_from n s = Raise e -> e = TypeError.
Proof.
  induction s as [|ch s IH]; intros n e; simpl; [discriminate|].
  unfold hash_step. destruct (Text.upper_char ch) as [|c [|]]; try congruence.
  apply IH.
Qed.

(** Filing a value can only fail in the hash of an occluder name. *)
Lemma collect_raise obj_type name value c e :
  collect obj_type name value c = Raise e -> e = TypeError.
Proof.
  unfold collect. destruct value; try discriminate.
  match goal with |- (if ?b then _ else _) = _ -> _ => destruct b end; [|discriminate].
  match goal with |- (if ?b then _ else _) = _ -> _ => destruct b end; [discriminate|].
  destruct (st_gethash_ic s) eqn:E; [discriminate|].
  intros [= <-]. exact (hash_from_raise _ _ _ E).
Qed.

Definition hash_failure (e : exn) : Prop := e = TypeError.

Lemma follows_read_property obj_type j c pm :
  follows hash_failure anything (read_property obj_type j c) (read_property_lta j pm).
Proof.
  unfold read_property, read_property_lta.
  apply (follows_bind _ eq); [apply follows_alike, alike_read_lithtech_string|intros name ? <-].
  apply (follows_bind _ eq); [apply follows_alike, alike_read_uint|intros data_type ? <-].
  apply (follows_bind _ eq); [apply follows_alike, alike_read_uint|intros flags ? <-].
  apply (follows_bind _ eq); [apply follows_alike, alike_read_uint|intros data_size ? <-].
  apply (follows_bind _ anything); [apply follows_alike, alike_read_prop_value|].
  intros value vm _. apply follows_print.
  intros st st' Hs. unfold lift, ret.
  destruct (collect obj_type name value c) as [c'|e] eqn:E.
  - eexists _, _. split; [reflexivity|]. split; [exact I|exact Hs].
  - left. exact (collect_raise _ _ _ _ _ E).
Qed.

Lemma follows_read_world_object i c acc :
  follows hash_failure anything (read_world_object i c) (read_world_object_lta i acc).
Proof.
  unfold read_world_object, read_world_object_lta.
  apply (follows_bind _ eq); [apply follows_alike, alike_read_uint|intros object_size ? <-].
  apply (follows_bind _ eq);
    [apply follows_alike, alike_read_lithtech_string|intros obj_type ? <-].
  apply (follows_bind _ eq); [apply follows_alike, alike_read_uint|intros prop_count ? <-].
  apply follows_print.
  apply (follows_then_ret _ anything); [|intros; exact I].
  unfold for_range. apply follows_for_range_from; [|exact I].
  intros j s s' _. apply follows_read_property.
Qed.

Lemma follows_read_world_objects header :
  follows hash_failure anything (read_world_objects header) (read_world_objects_lta header).
Proof.
  unfold read_world_objects, read_world_objects_lta.
  apply (follows_bind _ eq); [apply follows_alike, alike_f_seek|intros ? ? _].
  apply (follows_bind _ eq); [apply follows_alike, alike_read_uint|intros count ? <-].
  apply follows_print. unfold for_range.
  apply follows_for_range_from; [|exact I].
  intros i s s' _. apply follows_read_world_object.
Qed.

(** The export reads the world objects a second time, with its own
    reader.  The two readers take the same bytes: when the first reader
    returns, the second returns with the cursor at the same place; when the
    first raises anything but the [TypeError] of the name hash, the second
    raises the same exception; so whenever the second reader returns, the
    first has returned at the same place or stopped in the name hash. *)
Theorem world_object_readers_agree header st :
  (forall c st1, read_world_objects header st = Ok (c, st1) ->
     exists r st2, read_world_objects_lta header st = Ok (r, st2)
                   /\ f_pos st2 = f_pos st1)
  /\ (forall e, read_world_objects header st = Raise e -> e <> TypeError ->
        read_world_objects_lta header st = Raise e)
  /\ (forall r st2, read_world_objects_lta header st = Ok (r, st2) ->
        (exists c st1, read_world_objects header st = Ok (c, st1)
                       /\ f_pos st1 = f_pos st2)
        \/ read_world_objects header st = Raise TypeError).
Proof.
  pose proof (follows_read_world_objects header st st (conj eq_refl eq_refl)) as H.
  destruct (read_world_objects header st) as [[c st1]|e].
  - destruct H as (r & st2 & E & _ & _ & Hp). split; [|split].
    + intros ? ? [= <- <-]. eauto.
    + discriminate.
    + intros r' st2' E'. left. rewrite E in E'. injection E' as <- <-. eauto.
  - split; [discriminate|split].
    + intros ? [= <-] Hne. destruct H as [H|H]; [contradiction|exact H].
    + intros r st2 E. right. destruct H as [->|H]; [reflexivity|congruence].
Qed.
End ObjectReaders.

(** ** What the second reader returns *)

Lemma for_range_from_invariant {T} (I : T -> Prop) (body : nat -> T -> M T) n :
  (forall i s st s' st', I s -> body i s st = Ok (s', st') -> I s') ->
  forall i s st s' st', I s -> for_range_from i n body s st = Ok (s', st') -> I s'.
Proof.
  intros Hb. induction n as [|n IH]; intros i s st s' st' Hs H; simpl in H.
  - injection H as <- _. exact Hs.
  - apply bind_inv in H as (s1 & st1 & H1 & H2).
    exact (IH _ _ _ _ _ (Hb _ _ _ _ _ Hs H1) H2).
Qed.

(** A value agrees with the type recorded for it in [meta]: the writer of
    the property list formats a value by that type. *)
Definition typed (value : pyvalue) (ty : pystr) : Prop :=
  match value with
  | VStr _ | VNone => ty = str "string"
  | VVec3 _ => ty = str "vector" \/ ty = str "color"
  | VFloat _ => ty = str "real" \/ ty = str "longint"
  | VBool _ => ty = str "bool"
  | VQuat _ => ty = str "rotation"
  end.

(** Every property of [props] has a type in [meta] that its value agrees
    with. *)
Definition well_typed (props : list (pystr * pyvalue)) (meta : list (pystr * pystr))
  : Prop :=
  forall key value, key <> str "__Type" -> dict_get props key = Some value ->
    exists ty, dict_get meta key = Some ty /\ typed value ty.

Lemma dict_get_set_same {V} (d : list (pystr * V)) k v : dict_get (dict_set d k v) k = Some v.
Proof.
  induction d as [|[k' v'] d IH]; simpl.
  - destruct (decide (k = k)); congruence.
  - destruct (decide (k' = k)) as [->|N]; simpl.
    + destruct (decide (k = k)); congruence.
    + destruct (decide (k' = k)); [contradiction|exact IH].
Qed.

Lemma dict_get_set_other {V} (d : list (pystr * V)) k v k' :
  k' <> k -> dict_get (dict_set d k v) k' = dict_get d k'.
Proof.
  intros N. induction d as [|[k0 v0] d IH]; simpl.
  - destruct (decide (k = k')); congruence.
  - destruct (decide (k0 = k)) as [->|N0]; simpl.
    + destruct (decide (k = k')); congruence.
    + destruct (decide (k0 = k')); [reflexivity|exact IH].
Qed.

Lemma read_prop_value_lta_typed data_type data_size st vm st' :
  read_prop_value_lta data_type data_size st = Ok (vm, st') -> typed (fst vm) (snd vm).
Proof.
  unfold read_prop_value_lta.
  repeat match goal with |- (if ?b then _ else _) _ = _ -> _ => destruct b end;
    intros H; apply bind_inv in H as (x & s1 & _ & H); injection H as <- _; simpl; auto.
Qed.

Definition has_type_key (props : list (pystr * pyvalue)) : Prop :=
  dict_get props (str "__Type") <> None.

Lemma read_property_lta_typed j pm st pm' st' :
  well_typed (fst pm) (snd pm) /\ has_type_key (fst pm) ->
  read_property_lta j pm st = Ok (pm', st') ->
  well_typed (fst pm') (snd pm') /\ has_type_key (fst pm').
Proof.
  intros [W T] H. unfold read_property_lta in H.
  apply bind_inv in H as (name & s1 & _ & H).
  apply bind_inv in H as (data_type & s2 & _ & H).
  apply bind_inv in H as (flags & s3 & _ & H).
  apply bind_inv in H as (data_size & s4 & _ & H).
  apply bind_inv in H as (vm & s5 & Hv & H).
  injection H as <- _. simpl. split.
  - intros key value Hk Hget. destruct (decide (key = name)) as [->|N].
    + rewrite dict_get_set_same in Hget. rewrite dict_get_set_same. injection Hget as <-.
      exists (snd vm). split; [reflexivity|exact (read_prop_value_lta_typed _ _ _ _ _ Hv)].
    + rewrite dict_get_set_other in Hget by exact N.
      rewrite dict_get_set_other by exact N. exact (W key value Hk Hget).
  - unfold has_type_key. destruct (decide (str "__Type" = name)) as [<-|N].
    + rewrite dict_get_set_same. discriminate.
    + rewrite dict_get_set_other by exact N. exact T.
Qed.

(** The objects the export works on are well formed: the reader returns
    one dictionary of types for each object, every object has its
    ["__Type"] entry, and every other property of an object has a type
    recorded under its name that agrees with its value (a string or a
    skipped value under "string", a vector under "vector" or "color", a
    float under "real" or "longint", a boolean under "bool", a quaternion
    under "rotation"), also when a name occurs twice in an object. *)
Theorem read_world_objects_lta_typed header st objects metas st' :
  read_world_objects_lta header st = Ok ((objects, metas), st') ->
  Forall2 well_typed objects metas /\ Forall has_type_key objects.
Proof.
  unfold read_world_objects_lta. intros H.
  apply bind_inv in H as (u & s1 & _ & H).
  apply bind_inv in H as (count & s2 & _ & H).
  unfold for_range in H.
  apply (for_range_from_invariant
           (fun acc => Forall2 well_typed (fst acc) (snd acc) /\ Forall has_type_key (fst acc)))
    in H; [exact H| |split; constructor].
  clear. intros i acc st acc' st' [F T] H. unfold read_world_object_lta in H.
  apply bind_inv in H as (object_size & s1 & _ & H).
  apply bind_inv in H as (obj_type & s2 & _ & H).
  apply bind_inv in H as (prop_count & s3 & _ & H).
  apply bind_inv in H as (pm & s4 & Hloop & H).
  injection H as <- _. simpl.
  unfold for_range in Hloop.
  apply (for_range_from_invariant
           (fun pm => well_typed (fst pm) (snd pm) /\ has_type_key (fst pm))) in Hloop.
  - destruct Hloop as [W K]. split.
    + apply Forall2_app; [exact F|constructor; [exact W|constructor]].
    + apply Forall_app. split; [exact T|constructor; [exact K|constructor]].
  - intros. eapply read_property_lta_typed; eassumption.
  - simpl. split.
    + intros key value Hk Hget. simpl in Hget.
      destruct (decide (str "__Type" = key)); [congruence|discriminate].
    + unfold has_type_key. simpl. destruct (decide (str "__Type" = str "__Type")); congruence.
Qed.

(** An object section with one object of four properties: a string, a
    vector, a real and a value of a type the reader skips. *)
Definition one_light : list byte :=
  le_bytes 4 1
  ++ le_bytes 2 0 ++ lt_string "Light" ++ le_bytes 4 4
  ++ lt_string "Name" ++ le_bytes 1 0 ++ le_bytes 4 0 ++ le_bytes 2 0 ++ lt_string "L1"
  ++ lt_string "Pos" ++ le_bytes 1 1 ++ le_bytes 4 0 ++ le_bytes 2 12
  ++ le_bytes 4 0x3F800000 ++ le_bytes 4 0 ++ le_bytes 4 0
  ++ lt_string "LightRadius" ++ le_bytes 1 3 ++ le_bytes 4 0 ++ le_bytes 2 4
  ++ le_bytes 4 0x43000000
  ++ lt_string "Blob" ++ le_bytes 1 9 ++ le_bytes 4 0 ++ le_bytes 2 2 ++ [x01; x02].

Definition light_header : LithtechHeader := mkHeader 85 0 0 0 0 0 0 0 0 [].

Definition light_objects
  : list (list (pystr * pyvalue)) * list (list (pystr * pystr)) * rstate :=
  Eval vm_compute in
    match read_world_objects_lta light_header (mkState one_light 0 []) with
    | Ok r => r
    | Raise _ => ([], [], mkState [] 0 [])
    end.

Lemma read_world_objects_lta_typed_witness :
  Forall2 well_typed (fst (fst light_objects)) (snd (fst light_objects))
  /\ Forall has_type_key (fst (fst light_objects)).
Proof.
  apply (read_world_objects_lta_typed light_header (mkState one_light 0 []) _ _
           (snd light_objects)).
  vm_compute. reflexivity.
Defined.

(** ** The physics scene *)

Lemma foldM_ind {A S} (f : S -> A -> res S) (I : list A -> S -> Prop) :
  (forall pre a s s', I pre s -> f s a = Ok s' -> I (pre ++ [a]) s') ->
  forall l pre s s', I pre s -> foldM f l s = Ok s' -> I (pre ++ l) s'.
Proof.
  intros Hf. induction l as [|a l IH]; intros pre s s' Hs H; simpl in H.
  - injection H as <-. rewrite app_nil_r. exact Hs.
  - destruct (f s a) as [s1|e] eqn:E; [|discriminate].
    rewrite (cons_middle a pre l), app_assoc. eapply IH; [|exact H].
    eapply Hf; eassumption.
Qed.

Lemma foldl_ind {A S} (f : S -> A -> S) (I : list A -> S -> Prop) :
  (forall pre a s, I pre s -> I (pre ++ [a]) (f s a)) ->
  forall l pre s, I pre s -> I (pre ++ l) (foldl f s l).
Proof.
  intros Hf. induction l as [|a l IH]; intros pre s Hs; simpl.
  - rewrite app_nil_r. exact Hs.
  - rewrite (cons_middle a pre l), app_assoc. apply IH, Hf, Hs.
Qed.

Lemma enumerate_snd {A} (l : list A) : map snd (Hierarchy.enumerate l) = l.
Proof.
  unfold Hierarchy.enumerate.
  assert (forall f : nat -> nat, map snd (imap (fun i a => (f i, a)) l) = l) as G.
  { induction l as [|a l IH]; intros f; [reflexivity|].
    rewrite imap_cons. simpl. f_equal. apply (IH (f ∘ S)). }
  exact (G (fun i => i)).
Qed.

Section PhysicsScene.
Variable WORLD_OFFSET : option (Vec3 float).

(** *** The polyhedra *)

(** Every index of every face of a polyhedron is an index of its point
    list. *)
Definition faces_in_range (ph : surface_polyhedron) : Prop :=
  Forall (fun ep => Forall (fun j => j < length (sf_pointlist ph))%nat (sf_f ep))
         (sf_polylist ph).

(** The values of [point_map] are indices of [local_points]. *)
Definition map_in_range (acc : list (Vec3 f32) * gmap Z nat) : Prop :=
  forall idx j, snd acc !! idx = Some j -> (j < length (fst acc))%nat.

Lemma visit_point_in_range points acc idx acc' :
  map_in_range acc -> visit_point points acc idx = Ok acc' -> map_in_range acc'.
Proof.
  destruct acc as [lp pm]. unfold visit_point, map_in_range. simpl. intros Hm H.
  destruct (pm !! idx) as [j|] eqn:E.
  - injection H as <-. exact Hm.
  - destruct (getitem points idx) as [p|e]; [|discriminate]. injection H as <-.
    simpl. intros k j Hk. rewrite length_app. simpl.
    destruct (decide (k = idx)) as [->|N].
    + rewrite lookup_insert_eq in Hk. injection Hk as <-. lia.
    + rewrite lookup_insert_ne in Hk by congruence. specialize (Hm k j Hk). lia.
Qed.

Lemma gather_points_in_range points (polys : list (nat * Z * list Z)) acc acc' :
  map_in_range acc ->
  foldM (fun acc (e : nat * Z * list Z) => foldM (visit_point points) (snd e) acc)
        polys acc = Ok acc' ->
  map_in_range acc'.
Proof.
  intros Hm H.
  refine (foldM_ind _ (fun _ a => map_in_range a) _ polys [] acc acc' Hm H).
  intros _ e s s' Hs Hin.
  refine (foldM_ind _ (fun _ a => map_in_range a) _ (snd e) [] s s' Hs Hin).
  intros _ idx a a' Ha Hv. exact (visit_point_in_range points a idx a' Ha Hv).
Qed.

Lemma mapM_lookup_in_range (pm : gmap Z nat) (n : nat) indices local_indices :
  (forall idx j, pm !! idx = Some j -> (j < n)%nat) ->
  mapM (fun i => match pm !! i with
                 | Some j => Ok j
                 | None => Raise KeyError
                 end) indices = Ok local_indices ->
  Forall (fun j => j < n)%nat local_indices.
Proof.
  intros Hm. revert local_indices.
  induction indices as [|i indices IH]; intros local_indices H; simpl in H.
  - injection H as <-. constructor.
  - destruct (pm !! i) as [j|] eqn:E; [|discriminate].
    destruct (mapM _ indices) as [l|]; [|discriminate]. injection H as <-.
    constructor; [exact (Hm i j E)|exact (IH l eq_refl)].
Qed.

Lemma surface_polyhedron_of_in_range world_model surface_idx ph :
  surface_polyhedron_of WORLD_OFFSET world_model surface_idx = Ok ph -> faces_in_range ph.
Proof.
  unfold surface_polyhedron_of. intros H.
  match type of H with context [foldM ?f ?l ?s] =>
    destruct (foldM f l s) as [[lp pm]|] eqn:G; [|discriminate] end.
  apply gather_points_in_range in G; [|intros idx j Hj; simpl in Hj; discriminate].
  match type of H with context [mapM ?f ?l] =>
    destruct (mapM f l) as [polylist|] eqn:P; [|discriminate] end.
  injection H as <-. unfold faces_in_range. simpl. rewrite length_map.
  eapply mapM_Forall; [|exact P].
  intros [[poly_idx plane_idx] indices] ep Hep. unfold surface_editpoly_of in Hep.
  destruct (getitem _ plane_idx) as [[n dist]|]; [|discriminate].
  match type of Hep with context [mapM ?f ?l] =>
    destruct (mapM f l) as [local_indices|] eqn:L; [|discriminate] end.
  destruct (getitem _ surface_idx); [|discriminate]. injection Hep as <-. simpl.
  exact (mapM_lookup_in_range pm (length lp) _ _ G L).
Qed.

(** [global_surface_data] for the world models at given positions. *)
Definition surface_data_of (es : list (nat * WorldModel.t)) : list (nat * WorldModel.t * Z) :=
  concat (map (fun e : nat * WorldModel.t =>
                 map (fun s => (fst e, snd e, s)) (sorted_surfaces (snd e))) es).

Lemma write_polyhedra_spec world_models written global_surface_data :
  write_polyhedra WORLD_OFFSET world_models = Ok (written, global_surface_data) ->
  global_surface_data = surface_data_of (Hierarchy.enumerate world_models)
  /\ length written = length global_surface_data
  /\ Forall faces_in_range written.
Proof.
  unfold write_polyhedra. intros H.
  refine (foldM_ind _ (fun pre (acc : list surface_polyhedron * list (nat * WorldModel.t * Z)) =>
            snd acc = surface_data_of pre
            /\ length (fst acc) = length (snd acc)
            /\ Forall faces_in_range (fst acc)) _ _ [] _ _ _ H);
    [|simpl; auto].
  clear. intros pre [i wm] acc acc' (Hd & Hl & Hf) H.
  unfold surface_data_of. rewrite map_app, concat_app. simpl. rewrite app_nil_r.
  fold (surface_data_of pre). rewrite <- Hd.
  refine (foldM_ind _ (fun done (a : list surface_polyhedron * list (nat * WorldModel.t * Z)) =>
            snd a = snd acc ++ map (fun s => (i, wm, s)) done
            /\ length (fst a) = length (snd a)
            /\ Forall faces_in_range (fst a)) _ _ [] _ _ _ H);
    [|simpl; rewrite app_nil_r; auto].
  clear -WORLD_OFFSET. intros done s [w g] a' (Hd & Hl & Hf) H. simpl in *.
  destruct (surface_polyhedron_of WORLD_OFFSET wm s) as [ph|] eqn:P; [|discriminate].
  injection H as <-. simpl. subst g. split; [|split].
  - rewrite map_app, app_assoc. reflexivity.
  - rewrite !length_app, Hl, !length_app. simpl. lia.
  - apply Forall_app. split; [exact Hf|].
    constructor; [exact (surface_polyhedron_of_in_range _ _ _ P)|constructor].
Qed.

(** *** The node hierarchy *)

(** The brush index and property id of the brush nodes, in order. *)
Definition brush_ids (ns : list physics_node) : list (Z * Z) :=
  omap (fun n => match n with
                 | PhysBrush b _ p => Some (b, p)
                 | PhysNull _ _ => None
                 end) ns.

Definition nodeid_of (n : physics_node) : Z :=
  match n with
  | PhysNull _ nodeid => nodeid
  | PhysBrush _ nodeid _ => nodeid
  end.

(** The [k]-th brush has brush index [k] and property id [k + 1]. *)
Definition brushes_numbered (n : nat) : list (Z * Z) :=
  map (fun k => (Z.of_nat k, Z.of_nat k + 1)) (seq 0 n).

(** The [k]-th node has node id [k + 1]. *)
Definition nodes_numbered (n : nat) : list Z :=
  map (fun k => Z.of_nat k + 1) (seq 0 n).

(** The counters and the nodes written so far agree. *)
Definition numbered (h : Hierarchy.counters * list physics_node) : Prop :=
  let nb := length (brush_ids (snd h)) in
  brush_ids (snd h) = brushes_numbered nb
  /\ map nodeid_of (snd h) = nodes_numbered (length (snd h))
  /\ fst h = Hierarchy.mkC (Z.of_nat nb) (Z.of_nat (length (snd h)) + 1) (Z.of_nat nb + 1).

Lemma brush_ids_app a b : brush_ids (a ++ b) = brush_ids a ++ brush_ids b.
Proof. unfold brush_ids. apply omap_app. Qed.

Lemma brushes_numbered_S n :
  brushes_numbered (S n) = brushes_numbered n ++ [(Z.of_nat n, Z.of_nat n + 1)].
Proof. unfold brushes_numbered. rewrite seq_S, map_app. reflexivity. Qed.

Lemma nodes_numbered_S n : nodes_numbered (S n) = nodes_numbered n ++ [Z.of_nat n + 1].
Proof. unfold nodes_numbered. rewrite seq_S, map_app. reflexivity. Qed.

Lemma numbered_null label h :
  numbered h ->
  numbered (physics_null_node label h)
  /\ brush_ids (snd (physics_null_node label h)) = brush_ids (snd h).
Proof.
  destruct h as [c ns]. unfold numbered. simpl. intros (Hb & Hn & ->). simpl.
  rewrite brush_ids_app. simpl (brush_ids [_]). rewrite app_nil_r, map_app, length_app.
  simpl. split; [|reflexivity]. split; [exact Hb|]. split.
  - rewrite Nat.add_1_r, nodes_numbered_S, Hn. reflexivity.
  - f_equal. lia.
Qed.

Lemma numbered_brush h :
  numbered h ->
  numbered (physics_brush_node h)
  /\ length (brush_ids (snd (physics_brush_node h))) = S (length (brush_ids (snd h))).
Proof.
  destruct h as [c ns]. unfold numbered. simpl. intros (Hb & Hn & ->). simpl.
  rewrite brush_ids_app. simpl (brush_ids [_]). rewrite map_app, !length_app.
  simpl. split; [|lia]. split; [|split].
  - rewrite Nat.add_1_r, brushes_numbered_S, <- Hb. reflexivity.
  - rewrite Nat.add_1_r, nodes_numbered_S, Hn. reflexivity.
  - f_equal; lia.
Qed.

(** The number of surfaces the world models use. *)
Definition surfaces_used (world_models : list WorldModel.t) : nat :=
  sum_list_with (fun wm => length (sorted_surfaces wm)) world_models.

Lemma brush_loop_numbered (surfaces : list Z) h :
  numbered h ->
  let h' := foldl (fun h _ => physics_brush_node h) h surfaces in
  numbered h'
  /\ length (brush_ids (snd h')) = (length (brush_ids (snd h)) + length surfaces)%nat.
Proof.
  revert h. induction surfaces as [|s surfaces IH]; intros h Hn; simpl.
  - split; [exact Hn|lia].
  - destruct (numbered_brush h Hn) as [Hn1 Hl1].
    destruct (IH _ Hn1) as [Hn2 Hl2]. split; [exact Hn2|].
    rewrite Hl2, Hl1. lia.
Qed.

Lemma model_loop_numbered world_models : forall h,
  numbered h ->
  let h' := foldl (fun h world_model =>
                     foldl (fun h _ => physics_brush_node h)
                           (physics_null_node (WorldModel.world_name world_model) h)
                           (sorted_surfaces world_model))
                  h world_models in
  numbered h'
  /\ length (brush_ids (snd h'))
     = (length (brush_ids (snd h)) + surfaces_used world_models)%nat.
Proof.
  induction world_models as [|wm world_models IH]; intros h Hn; simpl.
  - split; [exact Hn|unfold surfaces_used; simpl; lia].
  - destruct (numbered_null (WorldModel.world_name wm) h Hn) as [Hn1 Hb1].
    destruct (brush_loop_numbered (sorted_surfaces wm) _ Hn1) as [Hn2 Hl2].
    destruct (IH _ Hn2) as [Hn3 Hl3]. split; [exact Hn3|].
    rewrite Hl3, Hl2, Hb1. unfold surfaces_used. simpl. lia.
Qed.

Lemma physics_nodes_numbered world_models map_name :
  let ns := physics_nodes world_models map_name in
  brush_ids ns = brushes_numbered (surfaces_used world_models)
  /\ map nodeid_of ns = nodes_numbered (length ns).
Proof.
  unfold physics_nodes.
  set (h0 := physics_null_node _ _).
  assert (numbered h0) as H0 by (unfold h0, numbered; simpl; auto).
  destruct (model_loop_numbered world_models h0 H0) as [(Hb & Hn & _) Hl].
  cbv zeta. split; [|exact Hn]. rewrite Hb, Hl. reflexivity.
Qed.

(** *** The property lists *)

Lemma physics_proplists_length global_surface_data acc acc' :
  foldM physics_proplist_of global_surface_data acc = Ok acc' ->
  length (snd acc') = (length (snd acc) + length global_surface_data)%nat.
Proof.
  intros H.
  refine (foldM_ind _ (fun pre (a : Z * option nat * list physics_proplist) =>
            length (snd a) = (length (snd acc) + length pre)%nat) _ _ [] _ _ _ H);
    [|simpl; lia].
  clear. intros pre [[i wm] s] [[sx lw] w] a' Hl H. simpl in *.
  destruct (getitem _ s); [|discriminate]. injection H as <-. simpl.
  rewrite !length_app, Hl. simpl. lia.
Qed.

Lemma surface_data_of_length world_models :
  length (surface_data_of (Hierarchy.enumerate world_models)) = surfaces_used world_models.
Proof.
  unfold surface_data_of, surfaces_used. rewrite length_concat_map.
  rewrite <- (enumerate_snd world_models) at 2. rewrite sum_list_with_map.
  apply sum_list_with_ext_in. intros e _. apply length_map.
Qed.

(** The three parts of the physics scene agree.  When
    [write_surfaces_to_lta] returns, it has written as many polyhedra as
    brush nodes, and one property list for each besides the empty first
    one; the brush nodes carry the brush indices 0, 1, 2, ... and the
    property ids 1, 2, 3, ... in the order they are written, so the k-th
    brush node points at the k-th polyhedron and at the property list
    written for it; the node ids of all nodes are 1, 2, 3, ... in that
    order; and every index of every face of a polyhedron is an index of
    the point list of that polyhedron. *)
Theorem write_surfaces_to_lta_consistent worldtree map_name lta :
  write_surfaces_to_lta WORLD_OFFSET worldtree map_name = Ok lta ->
  let brushes := brush_ids (ph_nodehierarchy lta) in
  length (ph_polyhedronlist lta) = length brushes
  /\ length (ph_globalproplist lta) = S (length brushes)
  /\ brushes = brushes_numbered (length brushes)
  /\ map nodeid_of (ph_nodehierarchy lta)
     = nodes_numbered (length (ph_nodehierarchy lta))
  /\ Forall faces_in_range (ph_polyhedronlist lta).
Proof.
  unfold write_surfaces_to_lta. intros H.
  destruct (write_polyhedra _ _) as [[written gsd]|] eqn:P; [|discriminate].
  destruct (foldM physics_proplist_of gsd _) as [[[sx lw] pls]|] eqn:L; [|discriminate].
  injection H as <-. cbn [ph_polyhedronlist ph_nodehierarchy ph_globalproplist].
  destruct (write_polyhedra_spec _ _ _ P) as (Hd & Hl & Hf).
  destruct (physics_nodes_numbered (WorldTree.world_models worldtree) map_name) as [Hb Hn].
  apply physics_proplists_length in L. simpl in L.
  assert (length gsd = surfaces_used (WorldTree.world_models worldtree)) as Hg
    by (rewrite Hd; apply surface_data_of_length).
  assert (length (brush_ids (physics_nodes (WorldTree.world_models worldtree) map_name))
          = surfaces_used (WorldTree.world_models worldtree)) as Hbl.
  { rewrite Hb. unfold brushes_numbered. rewrite length_map, length_seq. reflexivity. }
  cbv zeta. rewrite Hbl. repeat split.
  - rewrite Hl. exact Hg.
  - rewrite L, Hg. reflexivity.
  - exact Hb.
  - exact Hn.
  - exact Hf.
Qed.

(** *** Well-formed world models *)

(** Every polygon names a surface, a plane and points that the world
    model has. *)
Definition poly_in_range (wm : WorldModel.t) (poly : Z * Z * list Z) : Prop :=
  let '(surface_idx, plane_idx, indices) := poly in
  0 <= surface_idx < Z.of_nat (length (WorldModel.surfaces wm))
  /\ 0 <= plane_idx < Z.of_nat (length (WorldModel.planes wm))
  /\ Forall (fun i => 0 <= i < Z.of_nat (length (WorldModel.points wm))) indices.

Definition polies_in_range (wm : WorldModel.t) : Prop :=
  Forall (poly_in_range wm) (WorldModel.polies wm).

Lemma getitem_in_range {A} (l : list A) i :
  0 <= i < Z.of_nat (length l) -> exists a, getitem l i = Ok a.
Proof.
  intros Hi. unfold getitem.
  destruct (Z.ltb_spec i 0) as [?|_]; [lia|].
  destruct (Z.leb_spec 0 i) as [_|?]; [|lia].
  destruct (Z.ltb_spec i (Z.of_nat (length l))) as [_|?]; [|lia]. simpl.
  destruct (l !! Z.to_nat i) as [a|] eqn:E; [eauto|].
  apply lookup_ge_None in E. lia.
Qed.

Lemma dict_get_set_eq {K V} `{EqDecision K} (d : list (K * V)) k v :
  dict_get (dict_set d k v) k = Some v.
Proof.
  induction d as [|[k' v'] d IH]; simpl.
  - destruct (decide (k = k)); congruence.
  - destruct (decide (k' = k)) as [->|N]; simpl.
    + destruct (decide (k = k)); congruence.
    + destruct (decide (k' = k)); [contradiction|exact IH].
Qed.

Lemma dict_get_set_ne {K V} `{EqDecision K} (d : list (K * V)) k v k' :
  k' <> k -> dict_get (dict_set d k v) k' = dict_get d k'.
Proof.
  intros N. induction d as [|[k0 v0] d IH]; simpl.
  - destruct (decide (k = k')); congruence.
  - destruct (decide (k0 = k)) as [->|N0]; simpl.
    + destruct (decide (k = k')); congruence.
    + destruct (decide (k0 = k')); [reflexivity|exact IH].
Qed.

Lemma dict_keys_get {K V} `{EqDecision K} (d : list (K * V)) k :
  k ∈ dict_keys d -> exists v, dict_get d k = Some v.
Proof.
  unfold dict_keys. induction d as [|[k' v'] d IH]; simpl; intros H.
  - inversion H.
  - destruct (decide (k' = k)) as [->|N]; [eauto|].
    apply elem_of_cons in H as [->|H]; [contradiction|exact (IH H)].
Qed.

(** What stands under a key of [surface_to_polies]: at least one polygon,
    and only polygons of that surface. *)
Definition grouped (wm : WorldModel.t) (d : list (Z * list (nat * Z * list Z))) : Prop :=
  forall s l, dict_get d s = Some l ->
    l <> [] /\ Forall (fun e : nat * Z * list Z =>
                         (s, snd (fst e), snd e) ∈ WorldModel.polies wm) l.

Lemma surface_to_polies_grouped wm : grouped wm (surface_to_polies wm).
Proof.
  unfold surface_to_polies.
  pose proof (foldl_ind
    (fun d (e : nat * (Z * Z * list Z)) =>
       let '(poly_idx, (surface_idx, plane_idx, indices)) := e in
       append_under d surface_idx (poly_idx, plane_idx, indices))
    (fun pre d => forall s l, dict_get d s = Some l ->
       l <> [] /\ Forall (fun e : nat * Z * list Z =>
                            (s, snd (fst e), snd e) ∈ map snd pre) l)) as G.
  specialize (G ltac:(
    intros pre [poly_idx [[surface_idx plane_idx] indices]] d Hd s l;
    unfold append_under; rewrite map_app; simpl;
    destruct (dict_get d surface_idx) as [old|] eqn:E;
    (destruct (decide (s = surface_idx)) as [->|N];
     [rewrite dict_get_set_eq; intros [= <-]
     |rewrite dict_get_set_ne by exact N; intros Hl;
      destruct (Hd s l Hl) as [Hne Hf]; split; [exact Hne|];
      eapply Forall_impl; [exact Hf|];
      intros e He; apply elem_of_app; left; exact He]);
    [destruct (Hd _ _ E) as [Hne Hf]; split; [destruct old; discriminate|];
     apply Forall_app; split;
     [eapply Forall_impl; [exact Hf|]; intros e He; apply elem_of_app; left; exact He
     |constructor; [apply elem_of_app; right; left|constructor]]
    |split; [discriminate|];
     constructor; [apply elem_of_app; right; left|constructor]])
    (Hierarchy.enumerate (WorldModel.polies wm)) [] []).
  specialize (G ltac:(intros s l H; discriminate H)).
  simpl in G. rewrite enumerate_snd in G. exact G.
Qed.

Lemma sorted_surfaces_grouped wm s :
  s ∈ sorted_surfaces wm ->
  exists l, dict_get (surface_to_polies wm) s = Some l
            /\ l <> []
            /\ Forall (fun e : nat * Z * list Z =>
                         (s, snd (fst e), snd e) ∈ WorldModel.polies wm) l.
Proof.
  unfold sorted_surfaces. rewrite merge_sort_Permutation. intros H.
  destruct (dict_keys_get _ _ H) as (l & Hl).
  destruct (surface_to_polies_grouped wm s l Hl). eauto.
Qed.

(** Gathering the points of polygons whose indices are in range succeeds
    and leaves every index in [point_map]. *)
Lemma visit_points_total points indices : forall acc,
  Forall (fun i => 0 <= i < Z.of_nat (length points)) indices ->
  exists acc', foldM (visit_point points) indices acc = Ok acc'
               /\ (forall i, snd acc !! i <> None -> snd acc' !! i <> None)
               /\ Forall (fun i => snd acc' !! i <> None) indices.
Proof.
  induction indices as [|i indices IH]; intros acc F; simpl.
  - exists acc. auto.
  - inversion F as [|? ? Hi F']; subst.
    assert (exists a1, visit_point points acc i = Ok a1
                       /\ (forall k, snd acc !! k <> None -> snd a1 !! k <> None)
                       /\ snd a1 !! i <> None) as (a1 & -> & Hm & Hi1).
    { destruct acc as [lp pm]. unfold visit_point. simpl.
      destruct (pm !! i) as [j|] eqn:E.
      - exists (lp, pm). simpl. rewrite E. auto.
      - destruct (getitem_in_range points i Hi) as (p & ->).
        eexists. split; [reflexivity|]. simpl. split.
        + intros k Hk. destruct (decide (k = i)) as [->|N]; [contradiction|].
          rewrite lookup_insert_ne by congruence. exact Hk.
        + rewrite lookup_insert_eq. discriminate. }
    destruct (IH a1 F') as (a2 & -> & Hm2 & Hd2). exists a2.
    split; [reflexivity|]. split; [auto|]. constructor; auto.
Qed.

Lemma gather_points_total points (polys : list (nat * Z * list Z)) : forall acc,
  Forall (fun e => Forall (fun i => 0 <= i < Z.of_nat (length points)) (snd e)) polys ->
  exists acc',
    foldM (fun acc (e : nat * Z * list Z) => foldM (visit_point points) (snd e) acc)
          polys acc = Ok acc'
    /\ (forall i, snd acc !! i <> None -> snd acc' !! i <> None)
    /\ Forall (fun e => Forall (fun i => snd acc' !! i <> None) (snd e)) polys.
Proof.
  induction polys as [|e polys IH]; intros acc F; simpl.
  - exists acc. auto.
  - inversion F as [|? ? He F']; subst.
    destruct (visit_points_total points (snd e) acc He) as (a1 & -> & Hm1 & Hd1).
    destruct (IH a1 F') as (a2 & -> & Hm2 & Hd2). exists a2.
    split; [reflexivity|]. split; [auto|]. constructor; [|exact Hd2].
    eapply Forall_impl; [exact Hd1|]. intros i. apply Hm2.
Qed.

Lemma mapM_total {A B} (f : A -> res B) l :
  Forall (fun a => exists b, f a = Ok b) l -> exists bs, mapM f l = Ok bs.
Proof.
  induction 1 as [|a l (b & Hb) F (bs & IH)]; simpl; [eauto|].
  rewrite Hb, IH. eauto.
Qed.

Lemma surface_polyhedron_of_total wm s :
  polies_in_range wm -> s ∈ sorted_surfaces wm ->
  (exists ph, surface_polyhedron_of WORLD_OFFSET wm s = Ok ph)
  /\ exists surface, getitem (WorldModel.surfaces wm) s = Ok surface.
Proof.
  intros R Hs. destruct (sorted_surfaces_grouped wm s Hs) as (l & Hl & Hne & Hf).
  assert (Forall (fun e : nat * Z * list Z => poly_in_range wm (s, snd (fst e), snd e)) l)
    as Hr.
  { eapply Forall_impl; [exact Hf|]. intros e He.
    exact (proj1 (Forall_forall _ _) R _ He). }
  assert (exists surface, getitem (WorldModel.surfaces wm) s = Ok surface) as Hsurf.
  { destruct l as [|e l]; [congruence|]. inversion Hr as [|? ? (Hs1 & _) _]; subst.
    apply getitem_in_range, Hs1. }
  split; [|exact Hsurf].
  unfold surface_polyhedron_of. rewrite Hl.
  destruct (gather_points_total (WorldModel.points wm) l ([], ∅)) as ([lp pm] & -> & _ & Hd).
  { eapply Forall_impl; [exact Hr|]. intros e (_ & _ & Hi). exact Hi. }
  match goal with |- context [mapM ?f l] =>
    destruct (mapM_total f l) as (polylist & ->); [|eauto] end.
  apply Forall_forall. intros [[poly_idx plane_idx] indices] He.
  pose proof (proj1 (Forall_forall _ _) Hr _ He) as (_ & Hp & _).
  pose proof (proj1 (Forall_forall _ _) Hd _ He) as Hdom. simpl in Hp, Hdom.
  unfold surface_editpoly_of.
  destruct (getitem_in_range _ _ Hp) as ([n dist] & ->).
  match goal with |- context [mapM ?f indices] =>
    destruct (mapM_total f indices) as (local_indices & ->) end.
  { eapply Forall_impl; [exact Hdom|]. intros i Hi. simpl in Hi.
    destruct (pm !! i) as [j|]; [eauto|congruence]. }
  destruct Hsurf as (surface & ->). eauto.
Qed.

Lemma write_polyhedra_total world_models :
  Forall polies_in_range world_models ->
  exists r, write_polyhedra WORLD_OFFSET world_models = Ok r.
Proof.
  unfold write_polyhedra.
  assert (forall (es : list (nat * WorldModel.t)) acc,
            Forall (fun e => polies_in_range (snd e)) es ->
            exists r,
              foldM (fun acc (e : nat * WorldModel.t) =>
                       let '(i, world_model) := e in
                       foldM (fun acc surface_idx =>
                                let '(written, global_surface_data) := acc in
                                match surface_polyhedron_of WORLD_OFFSET world_model
                                                            surface_idx with
                                | Ok ph => Ok (written ++ [ph],
                                               global_surface_data
                                                 ++ [(i, world_model, surface_idx)])
                                | Raise x => Raise x
                                end)
                             (sorted_surfaces world_model) acc) es acc = Ok r) as G.
  { induction es as [|[i wm] es IH]; intros acc F; simpl; [eauto|].
    inversion F as [|? ? Hwm F']; subst. simpl in Hwm.
    assert (forall (ss : list Z) a, (forall s, s ∈ ss -> s ∈ sorted_surfaces wm) ->
              exists r, foldM (fun acc surface_idx =>
                                 let '(written, global_surface_data) := acc in
                                 match surface_polyhedron_of WORLD_OFFSET wm surface_idx with
                                 | Ok ph => Ok (written ++ [ph],
                                                global_surface_data ++ [(i, wm, surface_idx)])
                                 | Raise x => Raise x
                                 end) ss a = Ok r) as Inner.
    { induction ss as [|s ss IHs]; intros [w g] Hin; simpl; [eauto|].
      destruct (surface_polyhedron_of_total wm s Hwm (Hin s ltac:(left)))
        as [(ph & ->) _].
      apply IHs. intros s' Hs'. apply Hin. right. exact Hs'. }
    destruct (Inner (sorted_surfaces wm) acc ltac:(auto)) as (r & ->).
    apply IH, F'. }
  intros F. apply G. apply Forall_forall. intros e He.
  apply (proj1 (Forall_forall _ _) F).
  rewrite <- (enumerate_snd world_models). apply list_elem_of_fmap. eauto.
Qed.

Lemma physics_proplists_total (gsd : list (nat * WorldModel.t * Z)) : forall acc,
  Forall (fun e => exists surface,
            getitem (WorldModel.surfaces (snd (fst e))) (snd e) = Ok surface) gsd ->
  exists r, foldM physics_proplist_of gsd acc = Ok r.
Proof.
  induction gsd as [|[[i wm] s] gsd IH]; intros [[sx lw] w] F; simpl; [eauto|].
  inversion F as [|? ? (surface & Hs) F']; subst. simpl in Hs. rewrite Hs.
  apply IH, F'.
Qed.

(** [write_surfaces_to_lta] checks nothing, so it raises [IndexError] on
    a polygon that names a missing surface, plane or point; on world
    models whose polygons only name surfaces, planes and points that
    exist, it returns. *)
Theorem write_surfaces_to_lta_total worldtree map_name :
  Forall polies_in_range (WorldTree.world_models worldtree) ->
  exists lta, write_surfaces_to_lta WORLD_OFFSET worldtree map_name = Ok lta.
Proof.
  intros F. unfold write_surfaces_to_lta.
  destruct (write_polyhedra_total _ F) as ([written gsd] & P). rewrite P.
  destruct (write_polyhedra_spec _ _ _ P) as (Hd & _ & _).
  destruct (physics_proplists_total gsd (0, None, [PhysEmpty])) as ([[sx lw] pls] & ->);
    [|eauto].
  rewrite Hd. unfold surface_data_of. apply Forall_forall. intros [[i wm] s] He.
  apply list_elem_of_In, in_concat in He as (l & Hl & He).
  apply in_map_iff in Hl as ([i' wm'] & <- & Hin). simpl in He.
  apply in_map_iff in He as (s' & [= <- <- <-] & Hs'). simpl.
  apply surface_polyhedron_of_total.
  - apply (proj1 (Forall_forall _ _) F).
    rewrite <- (enumerate_snd (WorldTree.world_models worldtree)).
    apply list_elem_of_fmap. exists (i', wm'). split; [reflexivity|].
    apply list_elem_of_In, Hin.
  - apply list_elem_of_In, Hs'.
Qed.

(** *** The names of the surfaces *)

Lemma foldM_app {A S} (f : S -> A -> res S) a b s :
  foldM f (a ++ b) s
  = match foldM f a s with
    | Ok s' => foldM f b s'
    | Raise e => Raise e
    end.
Proof.
  revert s. induction a as [|x a IH]; intros s; simpl; [reflexivity|].
  destruct (f s x); [apply IH|reflexivity].
Qed.

(** The property list of the [k]-th used surface of a world model. *)
Definition surface_entry (wm : WorldModel.t) (k : nat) (surface_idx : Z)
  : physics_proplist :=
  match getitem (WorldModel.surfaces wm) surface_idx with
  | Ok surface => surface_proplist (Z.of_nat k) surface
  | Raise _ => PhysEmpty
  end.

(** Inside the surfaces of one world model the counter goes on. *)
Lemma proplists_block i wm ss : forall k w r,
  foldM physics_proplist_of (map (fun s => (i, wm, s)) ss) (Z.of_nat k, Some i, w) = Ok r ->
  r = (Z.of_nat (k + length ss), Some i,
       w ++ imap (fun j s => surface_entry wm (k + j) s) ss).
Proof.
  induction ss as [|s ss IH]; intros k w r H; simpl in H.
  - injection H as <-. rewrite Nat.add_0_r, app_nil_r. reflexivity.
  - rewrite bool_decide_eq_true_2 in H by reflexivity.
    destruct (getitem (WorldModel.surfaces wm) s) as [surface|] eqn:G; [|discriminate].
    replace (Z.of_nat k + 1) with (Z.of_nat (S k)) in H by lia.
    rewrite (IH _ _ _ H). rewrite imap_cons, <- app_assoc. simpl.
    unfold surface_entry at 2. rewrite G, Nat.add_0_r.
    f_equal; [f_equal; f_equal; lia|]. f_equal. f_equal.
    apply imap_ext. intros j x _. simpl. f_equal. lia.
Qed.

(** The first surface of a world model starts the counter again. *)
Lemma proplists_model i wm ss sx lw w r :
  lw <> Some i ->
  foldM physics_proplist_of (map (fun s => (i, wm, s)) ss) (sx, lw, w) = Ok r ->
  snd r = w ++ imap (surface_entry wm) ss
  /\ (snd (fst r) = lw \/ snd (fst r) = Some i).
Proof.
  intros Hlw H. destruct ss as [|s ss]; simpl in H.
  - injection H as <-. simpl. rewrite app_nil_r. auto.
  - rewrite bool_decide_eq_false_2 in H by congruence.
    destruct (getitem (WorldModel.surfaces wm) s) as [surface|] eqn:G; [|discriminate].
    change (0 + 1) with (Z.of_nat 1) in H.
    rewrite (proplists_block _ _ _ _ _ _ H). simpl. split; [|auto].
    rewrite <- app_assoc. simpl. unfold surface_entry at 2. rewrite G. reflexivity.
Qed.

Lemma proplists_models world_models : forall n sx lw w r,
  (forall i, lw = Some i -> i < n)%nat ->
  foldM physics_proplist_of
        (surface_data_of (imap (fun j wm => ((n + j)%nat, wm)) world_models))
        (sx, lw, w) = Ok r ->
  snd r = w ++ concat (map (fun wm => imap (surface_entry wm) (sorted_surfaces wm))
                           world_models).
Proof.
  induction world_models as [|wm world_models IH]; intros n sx lw w r Hlw H.
  - simpl in H. injection H as <-. simpl. rewrite app_nil_r. reflexivity.
  - rewrite imap_cons in H. unfold surface_data_of in H. simpl in H.
    rewrite foldM_app in H.
    destruct (foldM physics_proplist_of _ (sx, lw, w)) as [[[sx1 lw1] w1]|] eqn:B;
      [|discriminate].
    apply proplists_model in B as [Hw1 Hlw1].
    2: { intros E. specialize (Hlw _ E). lia. }
    simpl in Hw1, Hlw1. subst w1.
    rewrite (imap_ext _ (fun j wm => ((S n + j)%nat, wm))) in H
      by (intros; simpl; f_equal; lia).
    apply IH in H.
    + rewrite H, <- app_assoc. reflexivity.
    + intros i E. destruct Hlw1 as [->| ->].
      * specialize (Hlw _ E). lia.
      * injection E as <-. lia.
Qed.

(** The property lists of the physics scene, after the empty first one,
    come world model by world model in the order of the tree, and within a
    world model surface by surface in increasing surface index; the list
    of the k-th surface that a world model uses is named "Surface" followed
    by k, the count starting at 0 again for each world model. *)
Theorem physics_surface_names worldtree map_name lta :
  write_surfaces_to_lta WORLD_OFFSET worldtree map_name = Ok lta ->
  ph_globalproplist lta
  = PhysEmpty :: concat (map (fun wm => imap (surface_entry wm) (sorted_surfaces wm))
                             (WorldTree.world_models worldtree)).
Proof.
  unfold write_surfaces_to_lta. intros H.
  destruct (write_polyhedra _ _) as [[written gsd]|] eqn:P; [|discriminate].
  destruct (foldM physics_proplist_of gsd _) as [[[sx lw] pls]|] eqn:L; [|discriminate].
  injection H as <-. cbn [ph_globalproplist].
  destruct (write_polyhedra_spec _ _ _ P) as (-> & _ & _).
  unfold Hierarchy.enumerate in L.
  apply (proplists_models _ 0%nat) in L; [exact L|]. discriminate.
Qed.
End PhysicsScene.

(** A world model with four points, one plane and two surfaces, whose
    three triangles use surface 1, surface 0 and surface 1 again. *)
Definition unit_x : Vec3 f32 := mkVec3 0x3F800000 0 0.

Definition square_model : WorldModel.t :=
  WorldModel.mk 0 0 (str "wm0") [str "tex/a.dtx"] 4 1 2 0 3 0 0 0 0 0
                unit_x unit_x unit_x [3; 3; 3]
                [(unit_x, 0)]
                [WorldModel.mkSurface 1 0 0; WorldModel.mkSurface 0x12 5 0]
                [(1, 0, [0; 1; 2]); (0, 0, [0; 2; 3]); (1, 0, [2; 3; 0])]
                []
                [unit_x; unit_x; unit_x; unit_x] 0 0.

Definition square_tree : WorldTree.t :=
  WorldTree.mk unit_x unit_x 1 0 [x00] [] 2 [square_model; square_model].

Definition square_physics : physics_lta :=
  Eval vm_compute in
    match write_surfaces_to_lta None square_tree (str "map") with
    | Ok lta => lta
    | Raise _ => mkPhysics [] [] []
    end.

Lemma write_surfaces_to_lta_consistent_witness :
  let brushes := brush_ids (ph_nodehierarchy square_physics) in
  length (ph_polyhedronlist square_physics) = length brushes
  /\ length (ph_globalproplist square_physics) = S (length brushes)
  /\ brushes = brushes_numbered (length brushes)
  /\ map nodeid_of (ph_nodehierarchy square_physics)
     = nodes_numbered (length (ph_nodehierarchy square_physics))
  /\ Forall faces_in_range (ph_polyhedronlist square_physics).
Proof.
  apply (write_surfaces_to_lta_consistent None square_tree (str "map") square_physics).
  vm_compute. reflexivity.
Defined.

Lemma write_surfaces_to_lta_total_witness :
  exists lta, write_surfaces_to_lta None square_tree (str "map") = Ok lta.
Proof.
  apply (write_surfaces_to_lta_total None square_tree (str "map")).
  unfold square_tree, square_model, polies_in_range, poly_in_range. simpl.
  repeat constructor; simpl; lia.
Defined.

Lemma physics_surface_names_witness :
  ph_globalproplist square_physics
  = PhysEmpty :: concat (map (fun wm => imap (surface_entry wm) (sorted_surfaces wm))
                             (WorldTree.world_models square_tree)).
Proof.
  apply (physics_surface_names None square_tree (str "map") square_physics).
  vm_compute. reflexivity.
Defined.

(** ** Looking a texture up *)

Lemma le_uint_bound bs : 0 <= le_uint bs < 256 ^ Z.of_nat (length bs).
Proof.
  induction bs as [|b r IH]; [simpl; lia|].
  cbn [le_uint length]. rewrite Nat2Z.inj_succ, Z.pow_succ_r by lia.
  pose proof (Byte.to_N_bounded b) as Hb.
  assert (0 <= Z.of_N (Byte.to_N b) <= 255) by lia. lia.
Qed.

Lemma read_uint_bound n st v st' :
  read_uint n st = Ok (v, st') -> 0 <= v < 256 ^ Z.of_nat n.
Proof.
  intros H. apply read_uint_inv in H as (bs & rest & _ & <- & -> & _).
  apply le_uint_bound.
Qed.

Section TextureLookup.
Context `{U : Unicode}.
Variable path_join : pystr -> pystr -> pystr.
Variable fs : pystr -> option fs_entry.

Lemma read_size_bound (body_fs : pystr -> option fs_entry) fp w h :
  with_open body_fs fp (do_ f_seek 8; do w <- read_u16; do h <- read_u16; ret (w, h))
  = Ok (w, h) ->
  0 <= w < 65536 /\ 0 <= h < 65536.
Proof.
  unfold with_open. destruct (body_fs fp) as [[content|]|]; try discriminate.
  match goal with |- context [bind ?c ?k ?st] => destruct (bind c k st) as [[r s]|] eqn:E end;
    [|discriminate].
  intros [= ->].
  apply bind_inv in E as (u & s1 & _ & E).
  apply bind_inv in E as (w' & s2 & Hw & E).
  apply bind_inv in E as (h' & s3 & Hh & E).
  injection E as -> -> _.
  split; [exact (read_uint_bound 2 _ _ _ Hw)|exact (read_uint_bound 2 _ _ _ Hh)].
Qed.

Lemma try_root_bound root full_path w h log :
  try_root path_join fs root full_path = (Return w h, log) ->
  0 <= w < 65536 /\ 0 <= h < 65536.
Proof.
  unfold try_root.
  assert (forall fp l w h log,
            match with_open fs fp
                    (do_ f_seek 8; do w <- read_u16; do h <- read_u16; ret (w, h)) with
            | Ok (w, h) => (Return w h, l ++ [FsOpen fp])
            | Raise _ => (Caught, l ++ [FsOpen fp; FsPrintWarn fp])
            end = (Return w h, log) ->
            0 <= w < 65536 /\ 0 <= h < 65536) as RS.
  { intros fp l w0 h0 log0 H.
    destruct (with_open fs fp _) as [[w1 h1]|] eqn:E; [|discriminate].
    injection H as -> -> _. exact (read_size_bound fs fp _ _ E). }
  destruct (endswith _ _).
  - destruct (with_open fs full_path _) as [s|]; [|discriminate].
    destruct (exists_ fs _); [apply RS|discriminate].
  - apply RS.
Qed.

Lemma search_bound tex_rel search_dirs : forall found,
  let r := fst (search path_join fs tex_rel search_dirs found) in
  0 <= fst r < 65536 /\ 0 <= snd r < 65536.
Proof.
  induction search_dirs as [|root dirs IH]; intros found; simpl; [lia|].
  destruct (exists_ fs _).
  - destruct (try_root path_join fs root _) as [[w h| |] log] eqn:T.
    + simpl. exact (try_root_bound _ _ _ _ _ T).
    + specialize (IH true). destruct (search _ _ _ dirs true) as [r log']. exact IH.
    + specialize (IH true). destruct (search _ _ _ dirs true) as [r log']. exact IH.
  - specialize (IH found). destruct (search _ _ _ dirs found) as [r log']. exact IH.
Qed.

(** The lookup of a texture never fails and always returns two 16-bit
    numbers, whatever the name, the directories and the files.  For a name
    that is not reserved and does not lead to a sprite, looked up in one
    directory: a missing file gives (0, 0) with the "not found" message; a
    file of at least twelve bytes gives the little-endian words at offsets
    8 and 10, and nothing is printed; a shorter file, or a directory of
    that name, gives (0, 0) with the warning. *)
Theorem get_dtx_texture_size_cases tex_path :
  (forall search_dirs,
     let r := fst (get_dtx_texture_size path_join fs tex_path search_dirs) in
     0 <= fst r < 65536 /\ 0 <= snd r < 65536)
  /\ (forall root,
        let tex_rel := Text.lower (slashes tex_path) in
        let full_path := path_join root tex_rel in
        Text.startswith (Text.lower tex_path) (str "lightanim")
        || Text.startswith (Text.lower tex_path) (str "default") = false ->
        endswith (Text.lower full_path) (str ".spr") = false ->
        get_dtx_texture_size path_join fs tex_path [root]
        = match fs full_path with
          | None => ((0, 0), [FsExists full_path; FsPrintMissing tex_rel])
          | Some Directory =>
              ((0, 0), [FsExists full_path; FsOpen full_path; FsPrintWarn full_path])
          | Some (File content) =>
              if (12 <=? length content)%nat
              then ((le_uint (take 2 (drop 8 content)), le_uint (take 2 (drop 10 content))),
                    [FsExists full_path; FsOpen full_path])
              else ((0, 0), [FsExists full_path; FsOpen full_path; FsPrintWarn full_path])
          end).
Proof.
  split.
  - intros search_dirs. unfold get_dtx_texture_size.
    destruct (_ || _); [simpl; lia|]. apply search_bound.
  - intros root tex_rel full_path Hres Hspr. unfold get_dtx_texture_size.
    rewrite Hres. cbn [search]. fold tex_rel. fold full_path.
    unfold exists_. destruct (fs full_path) as [[content|]|] eqn:F.
    + unfold try_root. rewrite Hspr. unfold with_open. rewrite F.
      destruct (Nat.leb_spec 12 (length content)) as [L|L].
      * set (st0 := mkState content 0 []).
        assert (remaining (advance st0 8) = take 2 (drop 8 content)
                  ++ take 2 (drop 10 content) ++ drop 12 content) as Hrem.
        { unfold remaining, advance, st0. simpl.
          rewrite <- (take_drop 2 (drop 8 content)) at 1. f_equal.
          rewrite drop_drop. simpl.
          rewrite <- (take_drop 2 (drop 10 content)) at 1. f_equal.
          rewrite drop_drop. reflexivity. }
        unfold bind at 1. unfold f_seek. cbn [f_data out].
        change (mkState content 8 []) with (advance st0 8).
        rewrite (bind_ok _ _ _ _ _
                   (read_uint_exact 2 _ _ _ Hrem
                      ltac:(rewrite length_take, length_drop; lia))).
        apply remaining_at with (n := 2%nat) in Hrem;
          [|rewrite length_take, length_drop; lia].
        rewrite (bind_ok _ _ _ _ _
                   (read_uint_exact 2 _ _ _ Hrem
                      ltac:(rewrite length_take, length_drop; lia))).
        reflexivity.
      * assert (bind (f_seek 8) (fun _ => do w <- read_u16; do h <- read_u16; ret (w, h))
                     (mkState content 0 []) = Raise StructError) as ->; [|reflexivity].
        unfold bind at 1. unfold f_seek. cbn [f_data out].
        destruct (Nat.lt_ge_cases (left (mkState content 8 [])) 2) as [Hs|Hs].
        -- rewrite (bind_raise _ _ _ _ (read_uint_short 2 _ Hs)). reflexivity.
        -- destruct (read_uint_enough 2 _ Hs) as (w & E).
           rewrite (bind_ok _ _ _ _ _ E).
           rewrite (bind_raise _ _ _ StructError); [reflexivity|].
           apply read_uint_short. rewrite left_advance.
           unfold left, remaining. simpl. rewrite length_drop. lia.
    + unfold try_root. rewrite Hspr. unfold with_open. rewrite F. reflexivity.
    + reflexivity.
Qed.
End TextureLookup.

(** ** Reading a world model *)

(** A computation that only moves the cursor forward in the same file. *)
Definition forward {A} (c : M A) : Prop :=
  forall st a st', c st = Ok (a, st') -> (left st' <= left st)%nat.

Lemma forward_ret {A} (a : A) : forward (ret a).
Proof. intros st a' st' [= _ <-]. lia. Qed.

Lemma forward_bind {A B} (c : M A) (k : A -> M B) :
  forward c -> (forall a, forward (k a)) -> forward (bind c k).
Proof.
  intros Hc Hk st b st2 H. apply bind_inv in H as (a & st1 & H1 & H2).
  specialize (Hc _ _ _ H1). specialize (Hk _ _ _ _ H2). lia.
Qed.

Lemma forward_f_read n : forward (f_read n).
Proof.
  intros st a st' H. rewrite f_read_any in H. injection H as _ <-.
  rewrite left_advance. lia.
Qed.

Lemma forward_lift {A} (r : res A) : forward (lift r).
Proof. intros st a st'. unfold lift. destruct r; [intros [= _ <-]; lia|discriminate]. Qed.

Lemma forward_raise {A} e : forward (@raise A e).
Proof. intros st a st'. discriminate. Qed.

Lemma forward_read_uint n : forward (read_uint n).
Proof. apply forward_bind; [apply forward_f_read|intros; apply forward_lift]. Qed.

Lemma forward_Vec3_read : forward Vec3_read.
Proof. apply forward_bind; [apply forward_f_read|intros; apply forward_lift]. Qed.

Lemma forward_for_range_from {T} (body : nat -> T -> M T) n :
  (forall i s, forward (body i s)) -> forall i s, forward (for_range_from i n body s).
Proof.
  intros Hb. induction n as [|n IH]; intros i s; simpl.
  - apply forward_ret.
  - apply forward_bind; [apply Hb|intros; apply IH].
Qed.

Lemma forward_for_each {A T} (body : A -> T -> M T) l :
  (forall a s, forward (body a s)) -> forall s, forward (for_each l body s).
Proof.
  intros Hb. induction l as [|a l IH]; intros s; simpl.
  - apply forward_ret.
  - apply forward_bind; [apply Hb|intros; apply IH].
Qed.

Ltac forward_steps :=
  repeat first
    [ apply forward_ret | apply forward_raise | apply forward_lift
    | apply forward_read_uint | apply forward_Vec3_read | apply forward_f_read
    | apply forward_bind; [|intros ?]
    | match goal with |- forward (if ?b then _ else _) => destruct b end ].

Lemma forward_read_plane i acc : forward (WorldModel.read_plane i acc).
Proof. unfold WorldModel.read_plane. forward_steps. Qed.

Lemma forward_read_surface i acc : forward (WorldModel.read_surface i acc).
Proof. unfold WorldModel.read_surface. forward_steps. Qed.

Lemma forward_read_poly vc acc : forward (WorldModel.read_poly vc acc).
Proof. unfold WorldModel.read_poly. forward_steps. Qed.

Lemma forward_read_bsp_node i acc : forward (WorldModel.read_bsp_node i acc).
Proof. unfold WorldModel.read_bsp_node. forward_steps. Qed.

Lemma forward_read_point i acc : forward (WorldModel.read_point i acc).
Proof. unfold WorldModel.read_point. forward_steps. Qed.

(** A read that returns fewer bytes than asked for has reached the end of
    the file. *)
Lemma f_read_short_end n st bs st' :
  f_read n st = Ok (bs, st') -> length bs <> n -> left st' = 0%nat.
Proof.
  rewrite f_read_any. intros [= <- <-] H. rewrite length_take in H.
  rewrite left_advance. unfold left in *. lia.
Qed.

Lemma read_i32_needs st v st' : read_i32 st = Ok (v, st') -> (4 <= left st)%nat.
Proof.
  unfold read_i32. intros H. apply bind_inv in H as (bs & s1 & Hr & H).
  rewrite f_read_any in Hr. injection Hr as <- <-.
  rewrite length_take in H. fold (left st) in H.
  destruct (Nat.eqb_spec (4 `min` left st) 4) as [E|E]; [lia|discriminate].
Qed.

Lemma for_each_appends {A B} (P : A -> B -> Prop)
      (body : A -> list B -> M (list B)) l :
  (forall a acc st acc' st', body a acc st = Ok (acc', st') ->
     exists x, acc' = acc ++ [x] /\ P a x) ->
  forall acc st acc' st', for_each l body acc st = Ok (acc', st') ->
    exists new, acc' = acc ++ new /\ Forall2 P l new.
Proof.
  intros Hb. induction l as [|a l IH]; intros acc st acc' st' H; simpl in H.
  - injection H as <- _. exists []. rewrite app_nil_r. auto.
  - apply bind_inv in H as (a1 & st1 & H1 & H2).
    destruct (Hb _ _ _ _ _ H1) as (x & -> & Px).
    destruct (IH _ _ _ _ H2) as (new & -> & F).
    exists (x :: new). rewrite <- app_assoc. auto.
Qed.

Ltac appended H :=
  apply (for_range_from_appends (fun _ => True)) in H as (? & -> & ? & _);
  [|let Hb := fresh in
    intros ? ? ? ? ? Hb; unfold WorldModel.read_plane, WorldModel.read_surface,
      WorldModel.read_bsp_node, WorldModel.read_point in Hb;
    repeat (apply bind_inv in Hb as (? & ? & _ & Hb));
    repeat match type of Hb with (if ?b then _ else _) _ = _ => destruct b end;
    try discriminate Hb; injection Hb as <- _; eauto].

(** A world model that has been read is complete: it has exactly as many
    planes, surfaces, nodes, points and polygons as the counts in its
    header say, one vertex-count byte for each polygon, and each polygon
    has as many point indices as its vertex-count byte says.  (The bytes
    of the counts are read with a plain [f.read], which can come back
    short, but then the file has ended and the root node index that
    closes the record cannot be read.) *)
Theorem WorldModel_read_complete st wm st' :
  WorldModel.read st = Ok (wm, st') ->
  Z.of_nat (length (WorldModel.planes wm)) = WorldModel.planes_len wm
  /\ Z.of_nat (length (WorldModel.surfaces wm)) = WorldModel.surfaces_len wm
  /\ Z.of_nat (length (WorldModel.nodes wm)) = WorldModel.nodes_len wm
  /\ Z.of_nat (length (WorldModel.points wm)) = WorldModel.points_len wm
  /\ Z.of_nat (length (WorldModel.polies wm)) = WorldModel.polies_len wm
  /\ Forall2 (fun vert_count poly => length (snd poly) = Z.to_nat vert_count)
             (WorldModel.vertices_len wm) (WorldModel.polies wm).
Proof.
  unfold WorldModel.read. intros H.
  apply bind_inv in H as ([[dummy flags] name] & s0 & _ & H).
  apply bind_inv in H as (points_len & s1 & Hpoints_len & H).
  apply bind_inv in H as (planes_len & s2 & Hplanes_len & H).
  apply bind_inv in H as (surfaces_len & s3 & Hsurfaces_len & H).
  apply bind_inv in H as (portals & s4 & _ & H).
  apply bind_inv in H as (polies_len & s5 & Hpolies_len & H).
  apply bind_inv in H as (leaves_len & s6 & _ & H).
  apply bind_inv in H as (pvl & s7 & _ & H).
  apply bind_inv in H as (vll & s8 & _ & H).
  apply bind_inv in H as (leaf_list & s9 & _ & H).
  apply bind_inv in H as (nodes_len & s10 & Hnodes_len & H).
  apply bind_inv in H as (bmin & s11 & _ & H).
  apply bind_inv in H as (bmax & s12 & _ & H).
  apply bind_inv in H as (tr & s13 & _ & H).
  apply bind_inv in H as (tsize & s14 & _ & H).
  apply bind_inv in H as (tlen & s15 & _ & H).
  apply bind_inv in H as (raw & s16 & _ & H).
  apply bind_inv in H as (texture_names & s17 & _ & H).
  apply bind_inv in H as (vl & s18 & Hvl & H).
  apply bind_inv in H as (planes & s19 & Hplanes & H).
  apply bind_inv in H as (surfaces & s20 & Hsurfaces & H).
  apply bind_inv in H as (polies & s21 & Hpolies & H).
  apply bind_inv in H as (nodes & s22 & Hnodes & H).
  apply bind_inv in H as (points & s23 & Hpoints & H).
  apply bind_inv in H as (root & s24 & Hroot & H).
  apply bind_inv in H as (sections & s25 & _ & H).
  injection H as <- _. cbn.
  apply read_uint_nonneg in Hpoints_len, Hplanes_len, Hsurfaces_len, Hpolies_len, Hnodes_len.
  assert (length vl = Z.to_nat polies_len) as Lvl.
  { destruct (Nat.eq_dec (length vl) (Z.to_nat polies_len)) as [E|N]; [exact E|exfalso].
    pose proof (f_read_short_end _ _ _ _ Hvl N) as E18.
    pose proof (forward_for_range_from _ _ forward_read_plane _ _ _ _ _ Hplanes).
    pose proof (forward_for_range_from _ _ forward_read_surface _ _ _ _ _ Hsurfaces).
    pose proof (forward_for_each _ _ forward_read_poly _ _ _ _ Hpolies).
    pose proof (forward_for_range_from _ _ forward_read_bsp_node _ _ _ _ _ Hnodes).
    pose proof (forward_for_range_from _ _ forward_read_point _ _ _ _ _ Hpoints).
    pose proof (read_i32_needs _ _ _ Hroot). lia. }
  unfold for_range in *.
  appended Hplanes. appended Hsurfaces. appended Hnodes. appended Hpoints.
  apply (for_each_appends
           (fun vert_count (poly : Z * Z * list Z) =>
              length (snd poly) = Z.to_nat vert_count)) in Hpolies
    as (new & -> & F).
  2: { clear. intros vc acc st acc' st' Hb. unfold WorldModel.read_poly in Hb.
       apply bind_inv in Hb as (s & s1 & _ & Hb).
       apply bind_inv in Hb as (p & s2 & _ & Hb).
       apply bind_inv in Hb as (bs & s3 & _ & Hb).
       apply bind_inv in Hb as (indices & s4 & Hi & Hb).
       injection Hb as <- _. eexists. split; [reflexivity|]. simpl.
       unfold lift, unpack_words in Hi.
       destruct (length bs =? 4 * Z.to_nat vc)%nat; [|discriminate].
       injection Hi as <- _. rewrite length_map, length_seq. reflexivity. }
  simpl. pose proof (Forall2_length _ _ _ F) as LF. rewrite length_map in LF.
  repeat split; try lia. exact F.
Qed.

(** A world model with one triangle. *)
Definition one_triangle : list byte :=
  le_bytes 4 0 ++ le_bytes 4 0 ++ le_bytes 2 1 ++ [x77]
  ++ le_bytes 4 3 ++ le_bytes 4 1 ++ le_bytes 4 1 ++ le_bytes 4 0 ++ le_bytes 4 1
  ++ le_bytes 4 0 ++ le_bytes 4 3 ++ le_bytes 4 0 ++ le_bytes 4 0 ++ le_bytes 4 1
  ++ repeat x00 36
  ++ le_bytes 4 2 ++ le_bytes 4 1 ++ [x61; x00]
  ++ [x03]
  ++ repeat x00 16
  ++ le_bytes 4 0 ++ le_bytes 2 0 ++ le_bytes 2 0
  ++ le_bytes 4 0 ++ le_bytes 4 0 ++ le_bytes 4 0 ++ le_bytes 4 1 ++ le_bytes 4 2
  ++ le_bytes 4 0 ++ le_bytes 2 0 ++ repeat xff 8
  ++ repeat x00 36
  ++ le_bytes 4 0 ++ le_bytes 4 0.

Definition one_triangle_model : WorldModel.t * rstate :=
  Eval vm_compute in
    match WorldModel.read (mkState one_triangle 0 []) with
    | Ok r => r
    | Raise _ =>
        (WorldModel.mk 0 0 [] [] 0 0 0 0 0 0 0 0 0 0 (mkVec3 0 0 0) (mkVec3 0 0 0)
                       (mkVec3 0 0 0) [] [] [] [] [] [] 0 0,
         mkState [] 0 [])
    end.

Lemma WorldModel_read_complete_witness :
  let wm := fst one_triangle_model in
  Z.of_nat (length (WorldModel.planes wm)) = WorldModel.planes_len wm
  /\ Z.of_nat (length (WorldModel.surfaces wm)) = WorldModel.surfaces_len wm
  /\ Z.of_nat (length (WorldModel.nodes wm)) = WorldModel.nodes_len wm
  /\ Z.of_nat (length (WorldModel.points wm)) = WorldModel.points_len wm
  /\ Z.of_nat (length (WorldModel.polies wm)) = WorldModel.polies_len wm
  /\ Forall2 (fun vert_count poly => length (snd poly) = Z.to_nat vert_count)
             (WorldModel.vertices_len wm) (WorldModel.polies wm).
Proof.
  apply (WorldModel_read_complete (mkState one_triangle 0 []) _ (snd one_triangle_model)).
  vm_compute. reflexivity.
Defined.

(** ** The world models of the export and their brush nodes *)

(** The polyhedron data [d] and the entry [sp] of [wm_section_props] come
    from the same section. *)
Definition same_section (d : list Vertex * list group) (sp : wm_section_prop) : Prop :=
  exists g, snd d = [g]
            /\ g_shader_str g = wm_shader_str sp
            /\ g_texture_effect g = wm_texture_effect sp.

(** The entries of [wm_section_props] in the state of the loop. *)
Definition props_of (st : wm_state) : list wm_section_prop :=
  let 'mkWM _ props _ := st in props.

(** What a stretch of the loop adds to [wm_section_props] and to
    [wm_data]: entries of world model [k], pairwise of the same section. *)
Definition adds (k : nat) (st st' : wm_state)
           (sps : list wm_section_prop) (ds : list (list Vertex * list group)) : Prop :=
  props_of st' = props_of st ++ sps
  /\ wm_data st' = wm_data st ++ ds
  /\ Forall (fun sp => wm_index sp = k) sps
  /\ Forall2 same_section ds sps.

Lemma adds_nothing k st : adds k st st [] [].
Proof. unfold adds. rewrite !app_nil_r. auto. Qed.

Lemma adds_trans k st0 st1 st2 sps1 ds1 sps2 ds2 :
  adds k st0 st1 sps1 ds1 -> adds k st1 st2 sps2 ds2 ->
  adds k st0 st2 (sps1 ++ sps2) (ds1 ++ ds2).
Proof.
  intros (P1 & D1 & F1 & A1) (P2 & D2 & F2 & A2). unfold adds.
  rewrite P2, P1, D2, D1, <- !app_assoc. repeat split.
  - apply Forall_app. auto.
  - apply Forall2_app; assumption.
Qed.

Lemma wm_emit_group_adds k wm_name sub vertices idx g st st' :
  wm_emit_group k wm_name sub vertices idx g st = Ok st' ->
  exists sp d, adds k st st' [sp] [d].
Proof.
  unfold wm_emit_group. destruct (repack vertices (g_tris g)) as [r|]; [|discriminate].
  intros [= <-]. eexists _, _. unfold adds. cbn [props_of wm_data]. destruct st as [o p d].
  cbn [wm_data].
  repeat split.
  - constructor; [reflexivity|constructor].
  - constructor; [|constructor]. eexists. simpl. split; [reflexivity|]. split; reflexivity.
Qed.

Lemma wm_emit_groups_adds k wm_name sub vertices gs : forall idx st st',
  wm_emit_groups k wm_name sub vertices idx gs st = Ok st' ->
  exists sps ds, adds k st st' sps ds.
Proof.
  induction gs as [|g gs IH]; intros idx st st' H; simpl in H.
  - injection H as <-. exists [], []. apply adds_nothing.
  - destruct (wm_emit_group k wm_name sub vertices idx g st) as [st1|] eqn:E; [|discriminate].
    destruct (wm_emit_group_adds _ _ _ _ _ _ _ _ E) as (sp & d & A1).
    destruct (IH _ _ _ H) as (sps & ds & A2).
    exists ([sp] ++ sps), ([d] ++ ds). exact (adds_trans _ _ _ _ _ _ _ _ A1 A2).
Qed.

Lemma read_subnode_adds k wm_name st e st' :
  WorldModels.read_subnode k wm_name st e = Ok st' ->
  exists sps ds, adds k st st' sps ds.
Proof.
  destruct e as [sub [[sections vertices] all_tris]]. unfold WorldModels.read_subnode, wm_subnode.
  destruct (negb _).
  - match goal with |- context [wm_emit_groups ?a ?b ?c ?d ?e ?f ?s] =>
      destruct (wm_emit_groups a b c d e f s) as [st2|] eqn:E; [|discriminate] end.
    intros [= <-]. destruct (wm_emit_groups_adds _ _ _ _ _ _ _ _ E) as (sps & ds & A).
    exists sps, ds. exact A.
  - match goal with |- context [wm_emit_groups ?a ?b ?c ?d ?e ?f ?s] =>
      destruct (wm_emit_groups a b c d e f s) as [st2|] eqn:E; [|discriminate] end.
    intros [= <-]. destruct (wm_emit_groups_adds _ _ _ _ _ _ _ _ E) as (sps & ds & A).
    exists sps, ds. exact A.
Qed.

Lemma read_subnodes_adds k wm_name l : forall st st',
  foldM (WorldModels.read_subnode k wm_name) l st = Ok st' ->
  exists sps ds, adds k st st' sps ds.
Proof.
  induction l as [|e l IH]; intros st st' H; simpl in H.
  - injection H as <-. exists [], []. apply adds_nothing.
  - destruct (WorldModels.read_subnode k wm_name st e) as [st1|] eqn:E; [|discriminate].
    destruct (read_subnode_adds _ _ _ _ _ E) as (sps1 & ds1 & A1).
    destruct (IH _ _ H) as (sps2 & ds2 & A2).
    exists (sps1 ++ sps2), (ds1 ++ ds2). exact (adds_trans _ _ _ _ _ _ _ _ A1 A2).
Qed.

Lemma read_world_model_adds acc k wm_name subnodes acc' :
  WorldModels.read_world_model acc (k, (wm_name, subnodes)) = Ok acc' ->
  exists sps ds,
    WorldModels.wm_names_list acc' = WorldModels.wm_names_list acc ++ [wm_name]
    /\ WorldModels.wm_section_props acc' = WorldModels.wm_section_props acc ++ sps
    /\ WorldModels.all_wm_data acc' = dict_set (WorldModels.all_wm_data acc) wm_name ds
    /\ Forall (fun sp => wm_index sp = k) sps
    /\ Forall2 same_section ds sps.
Proof.
  unfold WorldModels.read_world_model.
  match goal with |- context [foldM ?f ?l ?s] =>
    destruct (foldM f l s) as [[out props wm_data]|] eqn:E; [|discriminate] end.
  intros [= <-]. destruct (read_subnodes_adds _ _ _ _ _ E) as (sps & ds & P & D & F & A).
  simpl in P, D. subst. exists sps, ds. simpl. auto.
Qed.

(** The position of the last element of a list that passes a test. *)
Fixpoint last_index {A} (p : A -> bool) (l : list A) : option nat :=
  match l with
  | [] => None
  | a :: l' =>
      match last_index p l' with
      | Some k => Some (S k)
      | None => if p a then Some 0%nat else None
      end
  end.

Lemma last_index_snoc {A} (p : A -> bool) l x :
  last_index p (l ++ [x]) = if p x then Some (length l) else last_index p l.
Proof.
  induction l as [|a l IH]; simpl.
  - destruct (p x); reflexivity.
  - rewrite IH. destruct (p x); [reflexivity|]. reflexivity.
Qed.

Lemma last_index_ext {A} (p q : A -> bool) l :
  (forall a, a ∈ l -> p a = q a) -> last_index p l = last_index q l.
Proof.
  induction l as [|a l IH]; intros H; simpl; [reflexivity|].
  rewrite IH by (intros b Hb; apply H; right; exact Hb).
  rewrite (H a) by left. reflexivity.
Qed.

Lemma last_index_Some {A} (p : A -> bool) l k :
  last_index p l = Some k -> exists a, l !! k = Some a /\ p a = true.
Proof.
  revert k. induction l as [|a l IH]; intros k H; simpl in H; [discriminate|].
  destruct (last_index p l) as [j|].
  - injection H as <-. exact (IH j eq_refl).
  - destruct (p a) eqn:E; [|discriminate]. injection H as <-. eauto.
Qed.

Lemma last_index_None {A} (p : A -> bool) l :
  last_index p l = None <-> forall a, a ∈ l -> p a = false.
Proof.
  induction l as [|a l IH]; simpl.
  - split; [intros _ a Ha; inversion Ha|reflexivity].
  - destruct (last_index p l) as [j|].
    + split; [discriminate|]. intros H.
      assert (Some j = None) as Hj; [|discriminate Hj].
      apply IH. intros b Hb. apply H. right. exact Hb.
    + destruct (p a) eqn:E.
      * split; [discriminate|]. intros H. rewrite (H a) in E by left. discriminate.
      * split; [|reflexivity]. intros _ b Hb.
        apply elem_of_cons in Hb as [->|Hb]; [exact E|]. apply (proj1 IH eq_refl b Hb).
Qed.

(** What one world model has left behind: its name, its entries of
    [wm_section_props] and its [wm_data]. *)
Abbreviation wm_block :=
  (pystr * list wm_section_prop * list (list Vertex * list group))%type.

Definition named (n : pystr) (b : wm_block) : bool := bool_decide (b.1.1 = n).

(** The block of the last world model of a name. *)
Definition latest (n : pystr) (blocks : list wm_block) : option wm_block :=
  match last_index (named n) blocks with
  | Some k => blocks !! k
  | None => None
  end.

Lemma latest_snoc n blocks b :
  latest n (blocks ++ [b]) = if named n b then Some b else latest n blocks.
Proof.
  unfold latest. rewrite last_index_snoc. destruct (named n b).
  - apply list_lookup_middle. reflexivity.
  - destruct (last_index (named n) blocks) as [k|] eqn:E; [|reflexivity].
    destruct (last_index_Some _ _ _ E) as (a & Ha & _).
    rewrite lookup_app_l by (apply lookup_lt_Some in Ha; exact Ha). reflexivity.
Qed.

(** The state of the loop over the world models after the world models
    of [blocks]. *)
Definition built (blocks : list wm_block) (r : WorldModels.t) : Prop :=
  WorldModels.wm_names_list r = map (fun b : wm_block => b.1.1) blocks
  /\ WorldModels.wm_section_props r = concat (map (fun b : wm_block => b.1.2) blocks)
  /\ (forall n, dict_get (WorldModels.all_wm_data r) n
                = option_map (fun b : wm_block => b.2) (latest n blocks))
  /\ (forall k b, blocks !! k = Some b ->
        Forall (fun sp => wm_index sp = k) b.1.2 /\ Forall2 same_section b.2 b.1.2).

Lemma built_step blocks acc wm_name subnodes acc' :
  built blocks acc ->
  WorldModels.read_world_model acc (length blocks, (wm_name, subnodes)) = Ok acc' ->
  exists b, b.1.1 = wm_name /\ built (blocks ++ [b]) acc'.
Proof.
  intros (Hn & Hp & Hd & Hg) H.
  destruct (read_world_model_adds _ _ _ _ _ H) as (sps & ds & En & Ep & Ed & F & A).
  exists (wm_name, sps, ds). split; [reflexivity|]. unfold built.
  rewrite En, Ep, Ed, Hn, Hp, !map_app, concat_app. simpl. rewrite app_nil_r.
  repeat split.
  - intros n. rewrite latest_snoc. unfold named. simpl.
    destruct (decide (wm_name = n)) as [->|N].
    + rewrite bool_decide_eq_true_2 by reflexivity. apply dict_get_set_eq.
    + rewrite bool_decide_eq_false_2 by exact N.
      rewrite dict_get_set_ne by congruence. apply Hd.
  - destruct (decide (k = length blocks)) as [->|N].
    + rewrite list_lookup_middle in H0 by reflexivity. injection H0 as <-. exact F.
    + assert (k < length blocks)%nat.
      { apply lookup_lt_Some in H0. rewrite length_app in H0. simpl in H0. lia. }
      rewrite lookup_app_l in H0 by assumption. apply (Hg k b H0).
  - destruct (decide (k = length blocks)) as [->|N].
    + rewrite list_lookup_middle in H0 by reflexivity. injection H0 as <-. exact A.
    + assert (k < length blocks)%nat.
      { apply lookup_lt_Some in H0. rewrite length_app in H0. simpl in H0. lia. }
      rewrite lookup_app_l in H0 by assumption. apply (Hg k b H0).
Qed.

Lemma built_loop world_models : forall blocks acc r,
  built blocks acc ->
  foldM WorldModels.read_world_model
        (imap (fun i e => ((length blocks + i)%nat, e)) world_models) acc = Ok r ->
  exists blocks',
    built (blocks ++ blocks') r
    /\ map (fun b : wm_block => b.1.1) blocks' = map fst world_models.
Proof.
  induction world_models as [|[wm_name subnodes] l IH]; intros blocks acc r B H.
  - simpl in H. injection H as <-. exists []. rewrite app_nil_r. auto.
  - rewrite imap_cons in H. cbn [foldM] in H. rewrite Nat.add_0_r in H.
    destruct (WorldModels.read_world_model acc _) as [acc1|] eqn:E; [|discriminate].
    destruct (built_step _ _ _ _ _ B E) as (b & Nb & B1).
    assert (imap ((fun i e => ((length blocks + i)%nat, e)) ∘ S) l
            = imap (fun i (e : pystr * list WorldModels.subnode) =>
                      ((length (blocks ++ [b]) + i)%nat, e)) l) as Ei.
    { apply imap_ext. intros i e _. simpl. rewrite length_app. simpl. f_equal. lia. }
    rewrite Ei in H.
    destruct (IH _ _ _ B1 H) as (blocks' & B2 & N2).
    exists (b :: blocks'). rewrite <- app_assoc in B2. split; [exact B2|].
    simpl. rewrite Nb, N2. reflexivity.
Qed.

Lemma read_world_models_built world_models r :
  WorldModels.read_world_models world_models = Ok r ->
  exists blocks,
    built blocks r /\ map (fun b : wm_block => b.1.1) blocks = map fst world_models.
Proof.
  unfold WorldModels.read_world_models, Hierarchy.enumerate. intros H.
  apply (built_loop world_models [] (WorldModels.mk [] [] [] [])); [|exact H].
  unfold built. simpl. repeat split; intros; try reflexivity;
    match goal with H : [] !! _ = Some _ |- _ => rewrite lookup_nil in H; discriminate H end.
Qed.

(** *** The objects that world models are matched with *)

(** [obj.get("Name")] when it is a string. *)
Definition object_name (obj : list (pystr * pyvalue)) : option pystr :=
  match dict_get obj (str "Name") with
  | Some (VStr s) => Some s
  | _ => None
  end.

Lemma name_is_spec obj n : Hierarchy.name_is obj n = true <-> object_name obj = Some n.
Proof.
  unfold Hierarchy.name_is, object_name, pystr_eqb.
  destruct (dict_get obj (str "Name")) as [[s| | | | |]|];
    try (split; [discriminate|discriminate]).
  rewrite bool_decide_eq_true. split; [intros ->; reflexivity|intros [= ->]; reflexivity].
Qed.

Lemma find_obj_Some n objs : forall k i,
  Hierarchy.find_obj n k objs = Some i ->
  exists o, (k <= i)%nat /\ objs !! (i - k)%nat = Some o /\ object_name o = Some n.
Proof.
  induction objs as [|o objs IH]; intros k i H; simpl in H; [discriminate|].
  destruct (Hierarchy.name_is o n) eqn:E.
  - injection H as <-. exists o. rewrite Nat.sub_diag. split; [lia|].
    split; [reflexivity|]. apply name_is_spec, E.
  - destruct (IH _ _ H) as (o' & L & Ho & Hn). exists o'. split; [lia|].
    split; [|exact Hn]. replace (i - k)%nat with (S (i - S k)) by lia. exact Ho.
Qed.

Lemma find_obj_hit n objs : forall j o k,
  objs !! j = Some o -> object_name o = Some n ->
  exists i, Hierarchy.find_obj n k objs = Some i.
Proof.
  induction objs as [|o' objs IH]; intros j o k Ho Hn; [rewrite lookup_nil in Ho; discriminate|].
  simpl. destruct (Hierarchy.name_is o' n) eqn:E; [eauto|].
  destruct j as [|j].
  - injection Ho as ->. apply name_is_spec in Hn. congruence.
  - simpl in Ho. exact (IH j o (S k) Ho Hn).
Qed.

Lemma match_from_lookup objs i names : forall wm_id m,
  Hierarchy.match_from wm_id names objs m !! i
  = match last_index (fun n => bool_decide (Hierarchy.find_obj n 0 objs = Some i)) names with
    | Some k => Some (wm_id + k)%nat
    | None => m !! i
    end.
Proof.
  induction names as [|n names IH]; intros wm_id m; simpl; [reflexivity|].
  rewrite IH. destruct (last_index _ names) as [k|].
  - f_equal. lia.
  - destruct (Hierarchy.find_obj n 0 objs) as [j|] eqn:E.
    + destruct (decide (j = i)) as [->|N].
      * rewrite bool_decide_eq_true_2 by reflexivity.
        rewrite lookup_insert_eq, Nat.add_0_r. reflexivity.
      * rewrite bool_decide_eq_false_2 by congruence.
        rewrite lookup_insert_ne by exact N. reflexivity.
    + rewrite bool_decide_eq_false_2 by discriminate. reflexivity.
Qed.

Lemma last_index_map {A B} (f : A -> B) (p : B -> bool) l :
  last_index p (map f l) = last_index (fun a => p (f a)) l.
Proof.
  induction l as [|a l IH]; simpl; [reflexivity|]. rewrite IH. reflexivity.
Qed.

(** The sections of world model [k] in [wm_section_props] are the ones it
    has added. *)
Lemma filter_blocks (blocks : list wm_block) :
  (forall k b, blocks !! k = Some b -> Forall (fun sp => wm_index sp = k) b.1.2) ->
  forall k,
    List.filter (fun s => Nat.eqb (wm_index s) k)
                (concat (map (fun b : wm_block => b.1.2) blocks))
    = match blocks !! k with
      | Some b => b.1.2
      | None => []
      end.
Proof.
  induction blocks as [|x blocks IH] using rev_ind; intros G k; [reflexivity|].
  rewrite map_app, concat_app, List.filter_app. simpl. rewrite app_nil_r.
  rewrite IH by (intros j b Hb; apply G; rewrite lookup_app_l;
                 [exact Hb|apply lookup_lt_Some in Hb; exact Hb]).
  pose proof (G (length blocks) x (list_lookup_middle _ _ _ _ eq_refl)) as Fx.
  destruct (decide (k = length blocks)) as [->|N].
  - rewrite list_lookup_middle by reflexivity.
    match goal with |- context [match ?t with Some _ => _ | None => _ end] =>
      destruct t as [b|] eqn:Hb end;
      [apply lookup_lt_Some in Hb; lia|]. simpl.
    clear -Fx. induction Fx as [|sp l E _ IH]; simpl; [reflexivity|].
    rewrite E, Nat.eqb_refl, IH. reflexivity.
  - assert (List.filter (fun s => Nat.eqb (wm_index s) k) x.1.2 = []) as ->.
    { clear -Fx N. induction Fx as [|sp l E _ IH]; simpl; [reflexivity|].
      rewrite E. destruct (Nat.eqb_spec (length blocks) k); [congruence|exact IH]. }
    rewrite app_nil_r.
    match goal with |- context [match ?t with Some _ => _ | None => _ end] =>
      destruct t as [b|] eqn:Hb end.
    + pose proof (lookup_lt_Some _ _ _ Hb) as Lb.
      pose proof (lookup_app_l blocks [x] k Lb) as E. rewrite Hb in E.
      match goal with |- context [match ?t with Some _ => _ | None => _ end] =>
        change t with ((blocks ++ [x]) !! k) end.
      rewrite E. reflexivity.
    + apply lookup_ge_None in Hb.
      assert ((blocks ++ [x]) !! k = None) as E.
      { apply lookup_ge_None_2. rewrite length_app. simpl. lia. }
      match goal with |- context [match ?t with Some _ => _ | None => _ end] =>
        change t with ((blocks ++ [x]) !! k) end.
      rewrite E. reflexivity.
Qed.

(** *** The polyhedra and the brush nodes *)

(** The data of the polyhedra written for the world models, in the order
    they are written. *)
Definition wm_polyhedra_data (world_objects : list (list (pystr * pyvalue)))
           (all_wm_data : list (pystr * list (list Vertex * list group)))
  : list (list Vertex * list group) :=
  concat (map (fun wm_name => match dict_get all_wm_data wm_name with
                              | Some wm_data => wm_data
                              | None => []
                              end)
              (WorldModels.wm_ordered world_objects all_wm_data)).

(** The sections that get a brush node under the objects from position
    [k] on, in the order of the nodes. *)
Definition brush_sections_from (sc : Hierarchy.scene) (m : gmap nat nat) (k : nat)
           (objs : list (list (pystr * pyvalue))) : list wm_section_prop :=
  concat (imap (fun i (_ : list (pystr * pyvalue)) =>
                  match m !! (k + i)%nat with
                  | Some wm_id => Hierarchy.sections_of sc wm_id
                  | None => []
                  end) objs).

Definition wm_brush_sections (sc : Hierarchy.scene) : list wm_section_prop :=
  brush_sections_from sc (Hierarchy.matched_wm_to_obj sc) 0 (Hierarchy.world_objects sc).

Lemma emit_brushes_brushindex {A} pl (l : list A) : forall h,
  Hierarchy.brushindex (fst (foldl (fun h _ => Hierarchy.emit_brush pl h) h l))
  = Hierarchy.brushindex (fst h) + Z.of_nat (length l).
Proof.
  induction l as [|a l IH]; intros [c ns]; simpl foldl; [simpl; lia|].
  rewrite IH. simpl. lia.
Qed.

Lemma emit_world_objects_brushindex sc m objs : forall k h,
  Hierarchy.brushindex
    (fst (foldl (Hierarchy.emit_world_object sc m) h
                (imap (fun i o => ((k + i)%nat, o)) objs)))
  = Hierarchy.brushindex (fst h)
    + Z.of_nat (length (brush_sections_from sc m k objs)).
Proof.
  unfold brush_sections_from.
  induction objs as [|o objs IH]; intros k h; [simpl; lia|].
  rewrite !imap_cons. cbn [foldl concat].
  rewrite (imap_ext _ (fun i o => ((S k + i)%nat, o)))
    by (intros; simpl; f_equal; lia).
  rewrite IH, length_app.
  rewrite (imap_ext ((fun i (_ : list (pystr * pyvalue)) =>
                        match m !! (k + i)%nat with
                        | Some wm_id => Hierarchy.sections_of sc wm_id
                        | None => []
                        end) ∘ S)
                    (fun i _ => match m !! (S k + i)%nat with
                                | Some wm_id => Hierarchy.sections_of sc wm_id
                                | None => []
                                end))
    by (intros; simpl; replace (k + S i)%nat with (S (k + i)) by lia; reflexivity).
  destruct h as [c ns]. unfold Hierarchy.emit_world_object.
  destruct (m !! (k + 0)%nat) as [wm_id|].
  - rewrite emit_brushes_brushindex. simpl. lia.
  - simpl. lia.
Qed.

Lemma write_wm_data_length WORLD_OFFSET l : forall written written',
  foldM (WorldModels.write_wm_data WORLD_OFFSET) l written = Ok written' ->
  length written' = (length written + length l)%nat.
Proof.
  induction l as [|[verts section_tris] l IH]; intros w w' H; simpl in H.
  - injection H as <-. simpl. lia.
  - destruct (write_polyhedron WORLD_OFFSET verts section_tris) as [ph|]; [|discriminate].
    rewrite (IH _ _ H), length_app. simpl. lia.
Qed.

Lemma write_world_models_length WORLD_OFFSET world_objects all_wm_data written :
  WorldModels.write_world_models WORLD_OFFSET world_objects all_wm_data = Ok written ->
  length written = length (wm_polyhedra_data world_objects all_wm_data).
Proof.
  unfold WorldModels.write_world_models, wm_polyhedra_data.
  generalize (WorldModels.wm_ordered world_objects all_wm_data). intros names.
  assert (forall w w',
            foldM (fun written wm_name =>
                     foldM (WorldModels.write_wm_data WORLD_OFFSET)
                           (match dict_get all_wm_data wm_name with
                            | Some wm_data => wm_data
                            | None => []
                            end) written) names w = Ok w' ->
            length w'
            = (length w
               + length (concat (map (fun wm_name =>
                                        match dict_get all_wm_data wm_name with
                                        | Some wm_data => wm_data
                                        | None => []
                                        end) names)))%nat) as G.
  { induction names as [|n names IH]; intros w w' H; simpl in H.
    - injection H as <-. simpl. lia.
    - match type of H with context [foldM ?f ?l w] =>
        destruct (foldM f l w) as [w1|] eqn:E; [|discriminate] end.
      rewrite (IH _ _ H), (write_wm_data_length _ _ _ _ E). simpl.
      rewrite length_app. lia. }
  intros H. rewrite (G _ _ H). reflexivity.
Qed.

(** Object by object. *)
Lemma per_object {A B} (R : A -> B -> Prop) (f : list (pystr * pyvalue) -> option pystr)
      (get : pystr -> list A) (g : nat -> list B) (objs : list (list (pystr * pyvalue))) :
  forall k,
    (forall i o, objs !! i = Some o ->
                 Forall2 R (match f o with Some n => get n | None => [] end) (g (k + i)%nat)) ->
    Forall2 R (concat (map get (omap f objs)))
              (concat (imap (fun i (_ : list (pystr * pyvalue)) => g (k + i)%nat) objs)).
Proof.
  induction objs as [|o objs IH]; intros k H; [constructor|].
  rewrite imap_cons. cbn [concat].
  rewrite (imap_ext _ (fun i _ => g (S k + i)%nat))
    by (intros; simpl; f_equal; lia).
  pose proof (H 0%nat o eq_refl) as H0.
  specialize (IH (S k)).
  assert (Forall2 R (concat (map get (omap f objs)))
                    (concat (imap (fun i (_ : list (pystr * pyvalue)) => g (S k + i)%nat) objs)))
    as Hrest.
  { apply IH. intros i o' Ho'. replace (S k + i)%nat with (k + S i)%nat by lia.
    apply (H (S i) o' Ho'). }
  cbn [omap list_omap]. destruct (f o) as [n|].
  - cbn [map concat]. apply Forall2_app; assumption.
  - inversion H0 as [E1 E2|]. rewrite <- E2 in *. simpl. exact Hrest.
Qed.

Lemma wm_ordered_choice (all_wm_data : list (pystr * list (list Vertex * list group)))
      (o : list (pystr * pyvalue)) :
  match dict_get o (str "Name") with
  | Some (VStr obj_name) =>
      match obj_name with
      | [] => None
      | _ :: _ => if dict_mem all_wm_data obj_name then Some obj_name else None
      end
  | _ => None
  end
  = match object_name o with
    | Some (c :: s) => if dict_mem all_wm_data (c :: s) then Some (c :: s) else None
    | _ => None
    end.
Proof.
  unfold object_name. destruct (dict_get o (str "Name")) as [[s| | | | |]|]; try reflexivity.
  destruct s; reflexivity.
Qed.

(** The names of the world models, in the order they are read. *)
Definition block_names (blocks : list wm_block) : list pystr :=
  map (fun b : wm_block => b.1.1) blocks.

Section WorldModelBrushes.
Variable WORLD_OFFSET : option (Vec3 float).
Variable sc : Hierarchy.scene.
Variable r : WorldModels.t.
Variable blocks : list wm_block.
Hypothesis Hbuilt : built blocks r.
Hypothesis Hnames : Hierarchy.wm_names_list sc = WorldModels.wm_names_list r.
Hypothesis Hprops : Hierarchy.wm_section_props sc = WorldModels.wm_section_props r.

Abbreviation names := (block_names blocks).

Hypothesis Hnonempty : [] ∉ names.
Hypothesis Hunique : forall i j oi oj s,
  Hierarchy.world_objects sc !! i = Some oi ->
  Hierarchy.world_objects sc !! j = Some oj ->
  object_name oi = Some s -> object_name oj = Some s -> s ∈ names -> i = j.

Lemma matched_lookup i :
  Hierarchy.matched_wm_to_obj sc !! i
  = last_index (fun n => bool_decide
                           (Hierarchy.find_obj n 0 (Hierarchy.world_objects sc) = Some i))
               names.
Proof.
  unfold Hierarchy.matched_wm_to_obj. rewrite match_from_lookup.
  destruct Hbuilt as (Hn & _). rewrite Hnames, Hn. fold (block_names blocks).
  destruct (last_index _ names); [reflexivity|apply lookup_empty].
Qed.

Lemma found_named i o n :
  Hierarchy.world_objects sc !! i = Some o ->
  Hierarchy.find_obj n 0 (Hierarchy.world_objects sc) = Some i ->
  object_name o = Some n.
Proof.
  intros Ho H. destruct (find_obj_Some _ _ _ _ H) as (o' & _ & Ho' & Hn).
  rewrite Nat.sub_0_r, Ho in Ho'. injection Ho' as <-. exact Hn.
Qed.

Lemma unmatched i o :
  Hierarchy.world_objects sc !! i = Some o ->
  (forall n, n ∈ names -> object_name o <> Some n) ->
  Hierarchy.matched_wm_to_obj sc !! i = None.
Proof.
  intros Ho H. rewrite matched_lookup. apply last_index_None. intros n Hn.
  apply bool_decide_eq_false_2. intros F. exact (H n Hn (found_named _ _ _ Ho F)).
Qed.

Lemma latest_None n : n ∉ names -> latest n blocks = None.
Proof.
  intros H. unfold latest.
  assert (last_index (named n) blocks = None) as ->; [|reflexivity].
  apply last_index_None. intros b Hb. apply bool_decide_eq_false_2. intros E.
  apply H. unfold block_names. apply list_elem_of_fmap. exists b. split; [symmetry; exact E|exact Hb].
Qed.

Lemma latest_Some n :
  n ∈ names ->
  exists k b, last_index (named n) blocks = Some k /\ blocks !! k = Some b
              /\ latest n blocks = Some b.
Proof.
  intros H. unfold latest. destruct (last_index (named n) blocks) as [k|] eqn:E.
  - destruct (last_index_Some _ _ _ E) as (b & Hb & _). exists k, b. auto.
  - exfalso. unfold block_names in H. apply list_elem_of_fmap in H as (b & -> & Hb).
    pose proof (proj1 (last_index_None _ _) E b Hb) as F.
    unfold named in F. rewrite bool_decide_eq_true_2 in F by reflexivity. discriminate.
Qed.

Lemma matched i o s :
  Hierarchy.world_objects sc !! i = Some o -> object_name o = Some s -> s ∈ names ->
  Hierarchy.matched_wm_to_obj sc !! i = last_index (named s) blocks.
Proof.
  intros Ho Hs Hin. rewrite matched_lookup.
  rewrite (last_index_ext _ (fun n => bool_decide (n = s))).
  - unfold block_names. rewrite last_index_map. reflexivity.
  - intros n Hn. destruct (decide (n = s)) as [->|N].
    + rewrite (bool_decide_eq_true_2 (s = s)) by reflexivity.
      apply bool_decide_eq_true_2.
      destruct (find_obj_hit s _ i o 0%nat Ho Hs) as (i' & F). rewrite F. f_equal.
      destruct (find_obj_Some _ _ _ _ F) as (o' & _ & Ho' & Hs').
      rewrite Nat.sub_0_r in Ho'. exact (Hunique i' i o' o s Ho' Ho Hs' Hs Hin).
    + rewrite (bool_decide_eq_false_2 (n = s)) by exact N.
      apply bool_decide_eq_false_2. intros F.
      pose proof (found_named _ _ _ Ho F) as E. congruence.
Qed.

Lemma object_sections i o :
  Hierarchy.world_objects sc !! i = Some o ->
  Forall2 same_section
    (match
       match object_name o with
       | Some (c :: s) =>
           if dict_mem (WorldModels.all_wm_data r) (c :: s) then Some (c :: s) else None
       | _ => None
       end
     with
     | Some n => match dict_get (WorldModels.all_wm_data r) n with
                 | Some wm_data => wm_data
                 | None => []
                 end
     | None => []
     end)
    (match Hierarchy.matched_wm_to_obj sc !! i with
     | Some wm_id => Hierarchy.sections_of sc wm_id
     | None => []
     end).
Proof.
  intros Ho. destruct Hbuilt as (Hn & Hp & Hd & Hg).
  destruct (object_name o) as [s|] eqn:Hs.
  - destruct (decide (s ∈ names)) as [Hin|Hout].
    + destruct s as [|c s]; [contradiction|].
      destruct (latest_Some _ Hin) as (k & b & Hk & Hb & Hl).
      unfold dict_mem. rewrite Hd, Hl. simpl. rewrite Hd, Hl. simpl.
      rewrite (matched i o _ Ho Hs Hin), Hk.
      unfold Hierarchy.sections_of. rewrite Hprops, Hp.
      rewrite filter_blocks by (intros j b' Hb'; apply (Hg j b' Hb')).
      rewrite Hb. apply (Hg k b Hb).
    + rewrite (unmatched i o Ho) by (intros n Hn' E; congruence).
      destruct s as [|c s]; [constructor|].
      unfold dict_mem. rewrite Hd, (latest_None _ Hout). simpl. constructor.
  - rewrite (unmatched i o Ho) by (intros n Hn' E; congruence). constructor.
Qed.

Lemma polyhedra_and_sections :
  Forall2 same_section
          (wm_polyhedra_data (Hierarchy.world_objects sc) (WorldModels.all_wm_data r))
          (wm_brush_sections sc).
Proof.
  unfold wm_polyhedra_data, wm_brush_sections, brush_sections_from, WorldModels.wm_ordered.
  apply (per_object same_section _ _
           (fun j => match Hierarchy.matched_wm_to_obj sc !! j with
                     | Some wm_id => Hierarchy.sections_of sc wm_id
                     | None => []
                     end) (Hierarchy.world_objects sc) 0%nat).
  intros i o Ho. rewrite wm_ordered_choice. exact (object_sections i o Ho).
Qed.
End WorldModelBrushes.

(** The polyhedra of the world models and the brush nodes under the
    objects line up.  When no world model has the empty name and no two
    objects share the name of a world model, the export writes for the
    world models exactly one polyhedron for each brush node that the node
    hierarchy puts under the objects, in the same order, the k-th
    polyhedron and the k-th brush node coming from the same section; so
    the loop over the objects advances [brushindex] by the number of
    polyhedra written for the world models. *)
Theorem world_model_brushes_match WORLD_OFFSET world_models r sc written :
  WorldModels.read_world_models world_models = Ok r ->
  Hierarchy.wm_names_list sc = WorldModels.wm_names_list r ->
  Hierarchy.wm_section_props sc = WorldModels.wm_section_props r ->
  [] ∉ map fst world_models ->
  (forall i j oi oj s,
     Hierarchy.world_objects sc !! i = Some oi ->
     Hierarchy.world_objects sc !! j = Some oj ->
     object_name oi = Some s -> object_name oj = Some s ->
     s ∈ map fst world_models -> i = j) ->
  WorldModels.write_world_models WORLD_OFFSET (Hierarchy.world_objects sc)
                                 (WorldModels.all_wm_data r) = Ok written ->
  Forall2 same_section
          (wm_polyhedra_data (Hierarchy.world_objects sc) (WorldModels.all_wm_data r))
          (wm_brush_sections sc)
  /\ length written = length (wm_brush_sections sc)
  /\ forall h,
       Hierarchy.brushindex
         (fst (foldl (Hierarchy.emit_world_object sc (Hierarchy.matched_wm_to_obj sc)) h
                     (Hierarchy.enumerate (Hierarchy.world_objects sc))))
       = Hierarchy.brushindex (fst h) + Z.of_nat (length written).
Proof.
  intros Hr Hn Hp Hne Hu Hw.
  destruct (read_world_models_built _ _ Hr) as (blocks & B & N).
  fold (block_names blocks) in N. rewrite <- N in Hne, Hu.
  pose proof (polyhedra_and_sections sc r blocks B Hn Hp Hne Hu) as A.
  pose proof (write_world_models_length _ _ _ _ Hw) as L.
  pose proof (Forall2_length _ _ _ A) as LA.
  split; [exact A|]. split; [lia|]. intros h.
  rewrite L, LA. unfold wm_brush_sections, Hierarchy.enumerate.
  exact (emit_world_objects_brushindex sc _ _ 0%nat h).
Qed.

(** Two world models, a door of two sections and a lift of one, and three
    objects, of which the first and the last are named after them. *)
Definition corner (x : float) : Vertex :=
  mkVertex (mkVec3 x 0 0)%float (mkVec3 0 1 0)%float (mkVec2 0 0)%float
           (mkVec2 0 0)%float [].

Definition plain_section (shader : string) : section :=
  mkSection false (str "wall") (str "Default") 0 0 0 0 1 (str shader) [].

Definition door_and_lift : list (pystr * list WorldModels.subnode) :=
  [(str "lift", [([plain_section "Gouraud"], [corner 0; corner 1; corner 2]%float,
                  [(0, 1, 2)%nat])]);
   (str "door", [([plain_section "Gouraud"; plain_section "Flat"],
                  [corner 0; corner 1; corner 2; corner 3]%float,
                  [(0, 1, 2)%nat; (1, 2, 3)%nat])])].

Definition named_object (ty name : string) : list (pystr * pyvalue) :=
  [(str "__Type", VStr (str ty)); (str "Name", VStr (str name))].

Definition door_and_lift_read : WorldModels.t :=
  Eval vm_compute in
    match WorldModels.read_world_models door_and_lift with
    | Ok r => r
    | Raise _ => WorldModels.mk [] [] [] []
    end.

Definition door_and_lift_scene : Hierarchy.scene :=
  Hierarchy.mkScene []
    [named_object "Door" "door"; named_object "Light" "lamp"; named_object "Door" "lift"]
    (WorldModels.wm_names_list door_and_lift_read)
    (WorldModels.wm_section_props door_and_lift_read)
    [] [] [] 0 0 [].

Definition door_and_lift_written : list polyhedron :=
  Eval vm_compute in
    match WorldModels.write_world_models None (Hierarchy.world_objects door_and_lift_scene)
                                         (WorldModels.all_wm_data door_and_lift_read) with
    | Ok written => written
    | Raise _ => []
    end.

Lemma world_model_brushes_match_witness :
  Forall2 same_section
          (wm_polyhedra_data (Hierarchy.world_objects door_and_lift_scene)
                             (WorldModels.all_wm_data door_and_lift_read))
          (wm_brush_sections door_and_lift_scene)
  /\ length door_and_lift_written = length (wm_brush_sections door_and_lift_scene)
  /\ forall h,
       Hierarchy.brushindex
         (fst (foldl (Hierarchy.emit_world_object door_and_lift_scene
                        (Hierarchy.matched_wm_to_obj door_and_lift_scene)) h
                     (Hierarchy.enumerate (Hierarchy.world_objects door_and_lift_scene))))
       = Hierarchy.brushindex (fst h) + Z.of_nat (length door_and_lift_written).
Proof.
  apply (world_model_brushes_match None door_and_lift door_and_lift_read
           door_and_lift_scene door_and_lift_written).
  - vm_compute. reflexivity.
  - reflexivity.
  - reflexivity.
  - intros H. apply list_elem_of_In in H. simpl in H.
    destruct H as [H|[H|[]]]; discriminate H.
  - intros i j oi oj s Hi Hj Hoi Hoj _.
    destruct i as [|[|[|i]]]; simpl in Hi; try discriminate Hi; injection Hi as <-;
      destruct j as [|[|[|j]]]; simpl in Hj; try discriminate Hj; injection Hj as <-;
      try reflexivity; vm_compute in Hoi, Hoj; congruence.
  - vm_compute. reflexivity.
Defined.

(** ** Sky portals and occluders *)

(** The bytes of a sky portal: the number of vertices as one byte, the
    vertices, the plane normal and its distance. *)
Definition skyportal_bytes (p : list (Vec3 f32) * Vec3 f32 * f32) : list byte :=
  let '(verts, normal, dist) := p in
  le_bytes 1 (Z.of_nat (length verts)) ++ concat (map vec3_bytes verts)
    ++ vec3_bytes normal ++ le_bytes 4 dist.

Definition skyportal_ok (p : list (Vec3 f32) * Vec3 f32 * f32) : Prop :=
  let '(verts, normal, dist) := p in
  (length verts < 256)%nat /\ Forall vec3_ok verts /\ vec3_ok normal /\ word dist.

Definition skyportal_of (p : list (Vec3 f32) * Vec3 f32 * f32)
  : list (Vec3 float) * Vec3 float * float :=
  let '(verts, normal, dist) := p in
  (map Vec3_float verts, Vec3_float normal, float_of_f32 dist).

(** An occluder has a hash code after the distance. *)
Definition occluder_bytes (p : list (Vec3 f32) * Vec3 f32 * f32 * Z) : list byte :=
  let '(verts, normal, dist, occ_hashcode) := p in
  skyportal_bytes (verts, normal, dist) ++ le_bytes 4 occ_hashcode.

Definition occluder_ok (p : list (Vec3 f32) * Vec3 f32 * f32 * Z) : Prop :=
  let '(verts, normal, dist, occ_hashcode) := p in
  skyportal_ok (verts, normal, dist) /\ word occ_hashcode.

Definition occluder_of (p : list (Vec3 f32) * Vec3 f32 * f32 * Z)
  : list (Vec3 float) * Vec3 float * float * Z :=
  let '(verts, normal, dist, occ_hashcode) := p in
  (map Vec3_float verts, Vec3_float normal, float_of_f32 dist, occ_hashcode).

Lemma read_count_byte st n rest :
  (n < 256)%nat -> remaining st = le_bytes 1 (Z.of_nat n) ++ rest ->
  read_u8 st = Ok (Z.of_nat n, advance st 1).
Proof.
  intros Hn Hrem. destruct (le_bytes_spec 1 (Z.of_nat n)) as [L U]; [lia|].
  unfold read_u8. rewrite (read_uint_exact 1 st _ _ Hrem L), U.
  rewrite Z.mod_small by (change (256 ^ Z.of_nat 1) with 256; lia). reflexivity.
Qed.

Lemma skyportal_bytes_length p :
  skyportal_ok p ->
  length (skyportal_bytes p) = (1 + 12 * length p.1.1 + 12 + 4)%nat.
Proof.
  destruct p as [[verts normal] dist]. intros (Hc & Hv & Hn & Hd).
  unfold skyportal_bytes. cbn [fst snd].
  rewrite !length_app, (vec3s_bytes_length _ Hv), (vec3_bytes_length _ Hn).
  rewrite !le_bytes_length by (lia || apply Hd). lia.
Qed.

(** The four reads that sky portals and occluders share. *)
Lemma portal_fields_bytes {A} (k : Z -> list (Vec3 f32) -> Vec3 f32 -> f32 -> M A)
      st verts normal dist rest :
  skyportal_ok (verts, normal, dist) ->
  remaining st = skyportal_bytes (verts, normal, dist) ++ rest ->
  (do vert_count <- read_u8;
   do verts <- read_verts vert_count;
   do plane_normal <- Vec3_read;
   do plane_dist <- read_f32;
   k vert_count verts plane_normal plane_dist) st
  = k (Z.of_nat (length verts)) verts normal dist
      (advance st (length (skyportal_bytes (verts, normal, dist)))).
Proof.
  intros Hok Hrem. pose proof (skyportal_bytes_length _ Hok) as L.
  destruct Hok as (Hc & Hv & Hn & Hd). cbn [fst snd] in L.
  unfold skyportal_bytes in Hrem. rewrite <- !app_assoc in Hrem.
  rewrite (bind_ok _ _ _ _ _ (read_count_byte _ _ _ Hc Hrem)).
  apply remaining_at with (n := 1%nat) in Hrem; [|apply le_bytes_length; lia].
  rewrite (bind_ok _ _ _ _ _ (read_verts_bytes _ _ _ Hv Hrem)).
  apply remaining_at with (n := (12 * length verts)%nat) in Hrem;
    [|apply vec3s_bytes_length, Hv].
  rewrite (bind_ok _ _ _ _ _ (Vec3_read_bytes _ _ _ Hn Hrem)).
  apply remaining_at with (n := 12%nat) in Hrem; [|apply vec3_bytes_length, Hn].
  unfold read_f32. rewrite (bind_ok _ _ _ _ _ (read_word_bytes _ _ _ Hd Hrem)).
  rewrite !advance_advance. f_equal. f_equal. rewrite L. lia.
Qed.

Lemma read_skyportal_bytes i acc st p rest :
  skyportal_ok p -> remaining st = skyportal_bytes p ++ rest ->
  read_skyportal i acc st
  = Ok (acc ++ [skyportal_of p], advance st (length (skyportal_bytes p))).
Proof.
  destruct p as [[verts normal] dist]. intros Hok Hrem. unfold read_skyportal.
  rewrite (portal_fields_bytes
             (fun _ verts plane_normal plane_dist =>
                ret (acc ++ [(map Vec3_float verts, Vec3_float plane_normal,
                              float_of_f32 plane_dist)]))
             st verts normal dist rest Hok Hrem).
  reflexivity.
Qed.

Lemma read_occluder_bytes i acc st p rest :
  occluder_ok p -> remaining st = occluder_bytes p ++ rest ->
  read_occluder i acc st
  = Ok (acc ++ [occluder_of p], advance st (length (occluder_bytes p))).
Proof.
  destruct p as [[[verts normal] dist] h]. intros [Hok Hh] Hrem. unfold read_occluder.
  unfold occluder_bytes in Hrem. rewrite <- app_assoc in Hrem.
  rewrite (portal_fields_bytes
             (fun _ verts plane_normal plane_dist =>
                do occ_hashcode <- read_u32;
                ret (acc ++ [(map Vec3_float verts, Vec3_float plane_normal,
                              float_of_f32 plane_dist, occ_hashcode)]))
             st verts normal dist _ Hok Hrem).
  apply remaining_advance in Hrem.
  unfold read_u32. rewrite (bind_ok _ _ _ _ _ (read_word_bytes _ _ _ Hh Hrem)).
  unfold ret, occluder_of. rewrite advance_advance. do 3 f_equal.
  unfold occluder_bytes. rewrite length_app, (le_bytes_length 4 h) by apply Hh. reflexivity.
Qed.

(** A loop that decodes one item after the other. *)
Lemma decode_loop {P A} (ok : P -> Prop) (bytes : P -> list byte) (dec : P -> A)
      (body : nat -> list A -> M (list A)) :
  (forall i acc st p rest, ok p -> remaining st = bytes p ++ rest ->
     body i acc st = Ok (acc ++ [dec p], advance st (length (bytes p)))) ->
  forall ps i acc st rest,
    Forall ok ps -> remaining st = concat (map bytes ps) ++ rest ->
    for_range_from i (length ps) body acc st
    = Ok (acc ++ map dec ps, advance st (length (concat (map bytes ps)))).
Proof.
  intros Hbody. induction ps as [|p ps IH]; intros i acc st rest F Hrem; simpl.
  - unfold ret, advance. rewrite app_nil_r, Nat.add_0_r. destruct st; reflexivity.
  - inversion F as [|? ? Hp F']; subst. simpl in Hrem. rewrite <- app_assoc in Hrem.
    rewrite (bind_ok _ _ _ _ _ (Hbody i acc st p _ Hp Hrem)).
    apply remaining_advance in Hrem.
    rewrite (IH _ _ _ _ F' Hrem), advance_advance, <- app_assoc, length_app.
    reflexivity.
Qed.

Lemma counted_loop {P A} (ok : P -> Prop) (bytes : P -> list byte) (dec : P -> A)
      (body : nat -> list A -> M (list A)) :
  (forall i acc st p rest, ok p -> remaining st = bytes p ++ rest ->
     body i acc st = Ok (acc ++ [dec p], advance st (length (bytes p)))) ->
  forall ps acc st rest,
    Forall ok ps -> word (Z.of_nat (length ps)) ->
    remaining st = le_bytes 4 (Z.of_nat (length ps)) ++ concat (map bytes ps) ++ rest ->
    (do n <- read_u32; for_range n body acc) st
    = Ok (acc ++ map dec ps,
          advance st (4 + length (concat (map bytes ps)))).
Proof.
  intros Hbody ps acc st rest F Hc Hrem.
  unfold read_u32. rewrite (bind_ok _ _ _ _ _ (read_word_bytes _ _ _ Hc Hrem)).
  apply remaining_at with (n := 4%nat) in Hrem; [|apply le_bytes_length; apply Hc].
  unfold for_range. rewrite Nat2Z.id.
  rewrite (decode_loop ok bytes dec body Hbody ps 0 acc _ rest F Hrem), advance_advance.
  reflexivity.
Qed.

Lemma read_u8_bound st v st' : read_u8 st = Ok (v, st') -> 0 <= v < 256.
Proof. intros H. exact (read_uint_bound 1 _ _ _ H). Qed.

Section PortalFaces.
Variable WORLD_OFFSET : option (Vec3 float).

(** A polyhedron whose only face is [0 1 2 3]; the face names existing
    points only if there are at least four, and all of them only if there
    are four. *)
Definition square_faced (verts : list (Vec3 float)) (b : blocker_polyhedron) : Prop :=
  bl_pointlist b = map (apply_world_offset WORLD_OFFSET) verts
  /\ bl_f b = [0; 1; 2; 3]%nat
  /\ (Forall (fun j => j < length (bl_pointlist b))%nat (bl_f b) <-> (4 <= length verts)%nat)
  /\ (bl_f b = seq 0 (length (bl_pointlist b)) <-> length verts = 4%nat).

Lemma square_faced_intro verts n d :
  square_faced verts
    (mkBlocker (map (apply_world_offset WORLD_OFFSET) verts) [0; 1; 2; 3]%nat n d).
Proof.
  unfold square_faced. cbn [bl_pointlist bl_f]. rewrite length_map.
  split; [reflexivity|]. split; [reflexivity|]. split; split.
  - intros F. apply Forall_cons in F as [_ F]. apply Forall_cons in F as [_ F].
    apply Forall_cons in F as [_ F]. apply Forall_cons in F as [Hlast _]. lia.
  - intros H. repeat constructor; lia.
  - intros H. apply (f_equal length) in H. rewrite length_seq in H. simpl in H. lia.
  - intros ->. reflexivity.
Qed.

Lemma counted_appends {A} (body : nat -> list A -> M (list A)) (Q : A -> Prop) :
  (forall i acc st acc' st', body i acc st = Ok (acc', st') ->
     exists x, acc' = acc ++ [x] /\ Q x) ->
  forall acc st acc' st',
    (do n <- read_u32; for_range n body acc) st = Ok (acc', st') ->
    exists new, acc' = acc ++ new /\ Forall Q new.
Proof.
  intros Hb acc st acc' st' H. apply bind_inv in H as (n & s1 & _ & H).
  unfold for_range in H.
  apply (for_range_from_appends Q _ _ Hb) in H as (new & -> & _ & F). eauto.
Qed.

(** Sky portals and occluders are read as a 32-bit count followed by that
    many items, each with its number of vertices in one byte; on such a
    block the readers append the decoded items to what [skyportals_all]
    and [occluders_all] hold and stop right after the block, and on any
    input what they append has fewer than 256 vertices each.  The writers
    write one polyhedron for each item, with all its vertices as points
    but always with the face [0 1 2 3]: the face names only points of the
    polyhedron exactly when the item has at least four vertices, and every
    point exactly when it has four. *)
Theorem portal_faces :
  (forall skyportals_all st ps rest,
     Forall skyportal_ok ps -> word (Z.of_nat (length ps)) ->
     remaining st
     = le_bytes 4 (Z.of_nat (length ps)) ++ concat (map skyportal_bytes ps) ++ rest ->
     read_skyportals skyportals_all st
     = Ok (skyportals_all ++ map skyportal_of ps,
           advance st (4 + length (concat (map skyportal_bytes ps)))))
  /\ (forall occluders_all st ps rest,
        Forall occluder_ok ps -> word (Z.of_nat (length ps)) ->
        remaining st
        = le_bytes 4 (Z.of_nat (length ps)) ++ concat (map occluder_bytes ps) ++ rest ->
        read_occluders occluders_all st
        = Ok (occluders_all ++ map occluder_of ps,
              advance st (4 + length (concat (map occluder_bytes ps)))))
  /\ (forall skyportals_all st all' st',
        read_skyportals skyportals_all st = Ok (all', st') ->
        exists new, all' = skyportals_all ++ new
                    /\ Forall (fun p => length p.1.1 < 256)%nat new)
  /\ (forall occluders_all st all' st',
        read_occluders occluders_all st = Ok (all', st') ->
        exists new, all' = occluders_all ++ new
                    /\ Forall (fun p => length p.1.1.1 < 256)%nat new)
  /\ (forall skyportals_all,
        Forall2 (fun p b => square_faced p.1.1 b /\ bl_n b = p.1.2 /\ bl_dist b = p.2)
                skyportals_all (write_skypo WORLD_OFFSET skyportals_all))
  /\ (forall occluders_all,
        Forall2 (fun p b => square_faced p.1.1.1 b /\ bl_n b = p.1.1.2 /\ bl_dist b = p.1.2)
                occluders_all (write_occ WORLD_OFFSET occluders_all)).
Proof.
  split; [|split; [|split; [|split; [|split]]]].
  - intros acc st ps rest F Hc Hrem. unfold read_skyportals.
    exact (counted_loop skyportal_ok skyportal_bytes skyportal_of read_skyportal
             read_skyportal_bytes ps acc st rest F Hc Hrem).
  - intros acc st ps rest F Hc Hrem. unfold read_occluders.
    exact (counted_loop occluder_ok occluder_bytes occluder_of read_occluder
             read_occluder_bytes ps acc st rest F Hc Hrem).
  - intros acc st all' st' H. unfold read_skyportals in H.
    apply (counted_appends _ (fun p => length p.1.1 < 256)%nat) in H; [exact H|].
    clear. intros i acc st acc' st' H. unfold read_skyportal in H.
    apply bind_inv in H as (c & s1 & Hc & H). apply bind_inv in H as (verts & s2 & Hv & H).
    apply bind_inv in H as (n & s3 & _ & H). apply bind_inv in H as (d & s4 & _ & H).
    injection H as <- _. eexists. split; [reflexivity|]. simpl.
    rewrite length_map, (read_verts_length _ _ _ _ Hv).
    apply read_u8_bound in Hc. lia.
  - intros acc st all' st' H. unfold read_occluders in H.
    apply (counted_appends _ (fun p => length p.1.1.1 < 256)%nat) in H; [exact H|].
    clear. intros i acc st acc' st' H. unfold read_occluder in H.
    apply bind_inv in H as (c & s1 & Hc & H). apply bind_inv in H as (verts & s2 & Hv & H).
    apply bind_inv in H as (n & s3 & _ & H). apply bind_inv in H as (d & s4 & _ & H).
    apply bind_inv in H as (h & s5 & _ & H).
    injection H as <- _. eexists. split; [reflexivity|]. simpl.
    rewrite length_map, (read_verts_length _ _ _ _ Hv).
    apply read_u8_bound in Hc. lia.
  - intros l. unfold write_skypo. induction l as [|[[verts n] d] l IH]; constructor; [|exact IH].
    simpl. split; [apply square_faced_intro|]. split; reflexivity.
  - intros l. unfold write_occ. induction l as [|[[[verts n] d] h] l IH]; constructor; [|exact IH].
    simpl. split; [apply square_faced_intro|]. split; reflexivity.
Qed.
End PortalFaces.

(** ** The world information *)

Lemma read_uint_taken n st :
  (n <= left st)%nat ->
  read_uint n st = Ok (le_uint (take n (remaining st)), advance st n).
Proof.
  intros H. apply (read_uint_exact n st _ (drop n (remaining st))).
  - symmetry. apply take_drop.
  - rewrite length_take. unfold left in H. lia.
Qed.

Lemma Vec3_read_taken st :
  (12 <= left st)%nat ->
  exists v, unpack_3f (take 12 (remaining st)) = Ok v
            /\ Vec3_read st = Ok (v, advance st 12).
Proof.
  intros H. unfold Vec3_read. rewrite (bind_ok _ _ _ _ _ (f_read_enough 12 st H)).
  unfold lift. destruct (unpack_3f (take 12 (remaining st))) as [v|e] eqn:E; [eauto|].
  unfold unpack_3f in E. rewrite length_take in E. unfold left in H.
  rewrite Nat.min_l in E by exact H. discriminate E.
Qed.

Lemma remaining_advanced st n : remaining (advance st n) = drop n (remaining st).
Proof. unfold remaining, advance. simpl. rewrite drop_drop. reflexivity. Qed.

Lemma LithtechWorldInfo_read_cases st :
  let strlen := Z.to_nat (le_uint (take 4 (remaining st))) in
  match LithtechWorldInfo.read st with
  | Ok (world_info, st') =>
      (4 + strlen + 36 <= left st)%nat
      /\ st' = advance st (4 + strlen + 36)
      /\ Codec.decode_utf8 Codec.ignore (take strlen (drop 4 (remaining st)))
         = Ok (LithtechWorldInfo.info_string world_info)
      /\ unpack_3f (take 12 (drop (4 + strlen + 24) (remaining st)))
         = Ok (LithtechWorldInfo.offset world_info)
  | Raise e =>
      e = StructError /\ ((left st < 4)%nat \/ (left st < 4 + strlen + 36)%nat)
  end.
Proof.
  intros strlen. unfold LithtechWorldInfo.read.
  destruct (Nat.lt_ge_cases (left st) 4) as [S4|L4].
  { rewrite (bind_raise _ _ _ _ (read_uint_short 4 st S4)). auto. }
  unfold read_u32.
  rewrite (bind_ok _ _ _ _ _ (read_uint_taken 4 st L4)).
  fold strlen. set (s1 := advance st 4).
  assert (left s1 = (left st - 4)%nat) as L1 by apply left_advance.
  destruct (decode_utf8_ignore_total (take strlen (remaining s1))) as [info Hinfo].
  rewrite (bind_ok _ _ _ _ _ (f_read_any strlen s1)).
  unfold lift at 1. rewrite Hinfo. unfold bind at 1.
  set (s2 := advance s1 (Nat.min strlen (left s1))).
  assert (left s2 = (left s1 - strlen)%nat) as L2
    by (unfold s2; rewrite left_advance; lia).
  destruct (Nat.lt_ge_cases (left s2) 12) as [Sa|La].
  { rewrite (bind_raise _ _ _ _ (Vec3_read_left s2 Sa)).
    split; [reflexivity|]. right. lia. }
  destruct (Vec3_read_taken s2 La) as (a & _ & Ha).
  rewrite (bind_ok _ _ _ _ _ Ha).
  destruct (Nat.lt_ge_cases (left (advance s2 12)) 12) as [Sb|Lb].
  { rewrite (bind_raise _ _ _ _ (Vec3_read_left _ Sb)).
    split; [reflexivity|]. right. rewrite left_advance in Sb. lia. }
  destruct (Vec3_read_taken _ Lb) as (b & _ & Hb).
  rewrite (bind_ok _ _ _ _ _ Hb).
  destruct (Nat.lt_ge_cases (left (advance (advance s2 12) 12)) 12) as [Sc|Lc].
  { rewrite (bind_raise _ _ _ _ (Vec3_read_left _ Sc)).
    split; [reflexivity|]. right. rewrite !left_advance in Sc. lia. }
  destruct (Vec3_read_taken _ Lc) as (c & Uc & Hc).
  rewrite (bind_ok _ _ _ _ _ Hc).
  rewrite !left_advance in Lc. unfold ret. cbn [LithtechWorldInfo.info_string
    LithtechWorldInfo.offset].
  assert (Nat.min strlen (left s1) = strlen) as Em by lia.
  split; [lia|]. split; [|split].
  - unfold s2. rewrite Em. unfold s1. rewrite !advance_advance. f_equal; lia.
  - rewrite <- Hinfo. unfold s1. rewrite remaining_advanced. reflexivity.
  - rewrite <- Uc. unfold s2. rewrite Em. unfold s1.
    rewrite !advance_advance, remaining_advanced.
    repeat (f_equal; try lia).
Qed.

(** [read_world_info] decodes the information string leniently, so the
    only way it fails is by running out of bytes: it raises [struct.error]
    when fewer than 4 bytes are left for the length [strlen] of the string
    or fewer than [4 + strlen + 36] for the whole record, and otherwise it
    returns with the cursor [4 + strlen + 36] bytes further, the string
    being the lenient decoding of the [strlen] bytes after the length and
    [WORLD_OFFSET] the last of the three vectors that follow. *)
Theorem read_world_info_cases st :
  let strlen := Z.to_nat (le_uint (take 4 (remaining st))) in
  match read_world_info st with
  | Ok ((world_info, WORLD_OFFSET), st') =>
      (4 + strlen + 36 <= left st)%nat
      /\ st' = advance st (4 + strlen + 36)
      /\ Codec.decode_utf8 Codec.ignore (take strlen (drop 4 (remaining st)))
         = Ok (LithtechWorldInfo.info_string world_info)
      /\ unpack_3f (take 12 (drop (4 + strlen + 24) (remaining st)))
         = Ok (LithtechWorldInfo.offset world_info)
      /\ WORLD_OFFSET = Some (Vec3_float (LithtechWorldInfo.offset world_info))
  | Raise e =>
      e = StructError /\ ((left st < 4)%nat \/ (left st < 4 + strlen + 36)%nat)
  end.
Proof.
  intros strlen. pose proof (LithtechWorldInfo_read_cases st) as H. cbv zeta in H.
  fold strlen in H. unfold read_world_info, bind.
  destruct (LithtechWorldInfo.read st) as [[world_info st']|e]; [|exact H].
  unfold ret. destruct H as (H1 & H2 & H3 & H4). auto.
Qed.
